(** * Enola: a shallow embedding of the neutral-atom compiler

    The development follows the Python sources of the repository:
    - [enola/router/router_mis.py]  (motion compatibility, independent sets,
      per-layer routing),
    - [enola/router/codegen.py]     (Col/Row/Qubit records and the Init, Move,
      Activate, Deactivate, Rydberg instructions, the program builder),
    - [enola/router/router.py]      (the per-layer driver),
    - [enola/scheduler/gate_scheduler.py] (edge-colouring scheduler),
      [enola/scheduler/graph.py] (its coloured graph),
    - [enola/placer/placer.py], [enola/placer/placer_parital_mapping.py]
      (simulated-annealing placers),
    - [enola/enola.py] (program set-up, the as-soon-as-possible schedule, the
      trivial layout and the verifiers).

    Python integers are unbounded and are modelled by [Z] (coordinates,
    payload entries) or [nat] (qubit indices, list positions).  Python
    exceptions are modelled by the result type [res]. *)

From Stdlib Require Import ZArith Lia Permutation.
From stdpp Require Import base list numbers gmap.

(** ** Exceptions and the result monad *)

Inductive exn : Type :=
| ValueError
| IndexError
| KeyError
| AttributeError
| AssertionError
| ZeroDivisionError.

(** [OutOfFuel] is not a Python outcome: it marks that the bound given to the
    model of a [while] loop was exhausted before the loop ended. *)
Inductive res (A : Type) : Type :=
| Ok (a : A)
| Raise (e : exn)
| OutOfFuel.
Arguments Ok {A} a.
Arguments Raise {A} e.
Arguments OutOfFuel {A}.

#[global] Instance res_ret : MRet res := fun A a => Ok a.
#[global] Instance res_bind : MBind res := fun A B f m =>
  match m with
  | Ok a => f a
  | Raise e => Raise e
  | OutOfFuel => OutOfFuel
  end.
#[global] Instance res_fmap : FMap res := fun A B f m =>
  match m with
  | Ok a => Ok (f a)
  | Raise e => Raise e
  | OutOfFuel => OutOfFuel
  end.

(** A [for] loop whose body may raise. *)
Fixpoint foldM {A S : Type} (f : S -> A -> res S) (l : list A) (s : S) : res S :=
  match l with
  | [] => Ok s
  | x :: l' => s' ← f s x; foldM f l' s'
  end.

(** [l[i]] for a non-negative index held in a [nat]. *)
Definition get {A : Type} (l : list A) (i : nat) : res A :=
  match l !! i with
  | Some a => Ok a
  | None => Raise IndexError
  end.

(** Python's index normalisation: [l[i]] with [-len(l) <= i < 0] counts from
    the end; anything else out of range raises [IndexError]. *)
Definition py_norm (len : nat) (i : Z) : option nat :=
  if (0 <=? i)%Z then
    (if (i <? Z.of_nat len)%Z then Some (Z.to_nat i) else None)
  else
    (if (- Z.of_nat len <=? i)%Z then Some (Z.to_nat (Z.of_nat len + i)) else None).

Definition py_get {A : Type} (l : list A) (i : Z) : res A :=
  match py_norm (length l) i with
  | Some k => get l k
  | None => Raise IndexError
  end.

(** [range(a, b)] over Python integers. *)
Definition zrange (a b : Z) : list Z :=
  map (fun k => (a + Z.of_nat k)%Z) (seq 0 (Z.to_nat (b - a))).

Lemma foldM_app {A S : Type} (f : S -> A -> res S) (l1 l2 : list A) (s : S) :
  foldM f (l1 ++ l2) s = (s' ← foldM f l1 s; foldM f l2 s').
Proof.
  revert s. induction l1 as [|x l1 IH]; intros s; simpl.
  - reflexivity.
  - destruct (f s x) as [s'| |]; simpl; auto.
Qed.

(** Peel the first call off a monadic hypothesis [H : (x ← m; k) = Ok r]. *)
Ltac bind_ok H :=
  match type of H with
  | mbind _ ?m = Ok _ =>
      let E := fresh "E" in
      destruct m eqn:E; cbn [mbind res_bind] in H; [|discriminate H|discriminate H]
  | fmap _ ?m = Ok _ =>
      let E := fresh "E" in
      destruct m eqn:E; cbn [fmap res_fmap] in H; [|discriminate H|discriminate H]
  end.

Lemma get_ok {A : Type} (l : list A) (i : nat) (a : A) :
  get l i = Ok a -> l !! i = Some a.
Proof. unfold get. destruct (l !! i); intros H; inversion H; reflexivity. Qed.

Lemma foldM_inv {A S : Type} (P : S -> Prop) (f : S -> A -> res S) (l : list A) (s s' : S) :
  (forall s x s', P s -> f s x = Ok s' -> P s') ->
  P s -> foldM f l s = Ok s' -> P s'.
Proof.
  intros Hstep. revert s. induction l as [|x l IH]; intros s Hs H; simpl in H.
  - inversion H; subst; exact Hs.
  - bind_ok H. eapply IH; [|exact H]. eapply Hstep; eauto.
Qed.

(** [map] and list lookup. *)
Lemma lookup_map {A B : Type} (f : A -> B) (l : list A) (i : nat) :
  map f l !! i = f <$> l !! i.
Proof.
  revert i. induction l as [|x l IH]; intros [|i]; try reflexivity. apply IH.
Qed.

(** A result that is not the exhaustion of the loop bound. *)
Definition returns {A : Type} (r : res A) : Prop := r <> OutOfFuel.

Lemma returns_Ok {A : Type} (a : A) : returns (Ok a).
Proof. discriminate. Qed.

Lemma returns_Raise {A : Type} (e : exn) : returns (@Raise A e).
Proof. discriminate. Qed.

Lemma returns_bind {A B : Type} (m : res A) (f : A -> res B) :
  returns m -> (forall a, m = Ok a -> returns (f a)) -> returns (m ≫= f).
Proof.
  intros Hm Hf. destruct m as [a| |]; cbn [mbind res_bind].
  - apply Hf. reflexivity.
  - discriminate.
  - exfalso. apply Hm. reflexivity.
Qed.

Lemma returns_fmap {A B : Type} (m : res A) (f : A -> B) :
  returns m -> returns (f <$> m).
Proof.
  intros Hm. destruct m; cbn [fmap res_fmap]; try discriminate.
  exfalso. apply Hm. reflexivity.
Qed.

Lemma returns_foldM {A S : Type} (f : S -> A -> res S) (l : list A) (s : S) :
  (forall s x, returns (f s x)) -> returns (foldM f l s).
Proof.
  intros Hf. revert s. induction l as [|x l IH]; intros s; simpl.
  - discriminate.
  - apply returns_bind; auto.
Qed.

Lemma returns_get {A : Type} (l : list A) (i : nat) : returns (get l i).
Proof. unfold get. destruct (l !! i); discriminate. Qed.

Lemma returns_py_get {A : Type} (l : list A) (i : Z) : returns (py_get l i).
Proof. unfold py_get. destruct (py_norm _ _); [apply returns_get|discriminate]. Qed.

Lemma py_norm_lt (len : nat) (i : Z) (k : nat) :
  py_norm len i = Some k -> k < len.
Proof.
  unfold py_norm. intros H.
  destruct (Z.leb_spec 0 i).
  - destruct (Z.ltb_spec i (Z.of_nat len)); inversion H; lia.
  - destruct (Z.leb_spec (- Z.of_nat len) i); inversion H; lia.
Qed.

Lemma py_norm_nonneg (len : nat) (i : Z) :
  (0 <= i < Z.of_nat len)%Z -> py_norm len i = Some (Z.to_nat i).
Proof.
  intros [H1 H2]. unfold py_norm.
  destruct (Z.leb_spec 0 i); [|lia].
  destruct (Z.ltb_spec i (Z.of_nat len)); [reflexivity|lia].
Qed.

(** A list comprehension whose element expression may raise. *)
Fixpoint mapM {A B : Type} (f : A -> res B) (l : list A) : res (list B) :=
  match l with
  | [] => Ok []
  | x :: l' => y ← f x; ys ← mapM f l'; Ok (y :: ys)
  end.

(** [l[-k]] for [k >= 1]: the position counted from the end. *)
Definition from_end {A : Type} (l : list A) (k : nat) : res nat :=
  if k <=? length l then Ok (length l - k) else Raise IndexError.

(** [l.index(x)]: the first position of [x], [ValueError] when absent. *)
Fixpoint list_index `{EqDecision A} (x : A) (l : list A) : res nat :=
  match l with
  | [] => Raise ValueError
  | y :: l' => if decide (x = y) then Ok 0 else S <$> list_index x l'
  end.

(** ** Data exchanged between the stages *)

(** A site [(x, y)] of the chip and a qubit mapping [qubit_mapping[q]]. *)
Abbreviation site := (Z * Z)%type (only parsing).
Abbreviation mapping := (list (Z * Z)) (only parsing).

(** A two-qubit gate [(q0, q1)]. *)
Abbreviation gate := (nat * nat)%type (only parsing).

(** The per-qubit dictionary [{"id", "a", "x", "y", "c", "r"}] of a routed
    sub-layer and the dictionary [{"id", "q0", "q1"}] of a fired gate. *)
Record qubit_rec : Type := mk_qubit_rec
  { q_id : nat; q_a : Z; q_x : Z; q_y : Z; q_c : Z; q_r : Z }.
Record gate_rec : Type := mk_gate_rec
  { g_id : nat; g_q0 : nat; g_q1 : nat }.
Record layer : Type := mk_layer
  { l_qubits : list qubit_rec; l_gates : list gate_rec }.

(** * Router: [enola/router/router_mis.py] *)

Module Router.

(** A motion [(a[0], a[1], a[2], a[3])]: start and end coordinate along one
    axis, then start and end along the other. *)
Abbreviation motion := (Z * Z * Z * Z)%type (only parsing).

Definition compatible_2D (a b : motion) : bool :=
  let '(a0, a1, a2, a3) := a in
  let '(b0, b1, b2, b3) := b in
  if (a0 =? b0)%Z && negb (a1 =? b1)%Z then false
  else if (a1 =? b1)%Z && negb (a0 =? b0)%Z then false
  else if (a0 <? b0)%Z && (a1 >=? b1)%Z then false
  else if (a0 >? b0)%Z && (a1 <=? b1)%Z then false
  else if (a2 =? b2)%Z && negb (a3 =? b3)%Z then false
  else if (a3 =? b3)%Z && negb (a2 =? b2)%Z then false
  else if (a2 <? b2)%Z && (a3 >=? b3)%Z then false
  else if (a2 >? b2)%Z && (a3 <=? b3)%Z then false
  else true.

(** The incompatibility edge list of [route_qubit_mis]:
    [for i in range(len(vectors)): for j in range(i+1, len(vectors)):
       if not compatible_2D(vectors[i], vectors[j]): violations.append((i, j))] *)
Definition build_violations (vectors : list motion) : list (nat * nat) :=
  flat_map
    (fun i =>
       flat_map
         (fun j =>
            if compatible_2D (vectors !!! i) (vectors !!! j) then [] else [(i, j)])
         (seq (i + 1) (length vectors - (i + 1))))
    (seq 0 (length vectors)).

(** [node_neighbors[edge[0]].append(edge[1]);
     node_neighbors[edge[1]].append(edge[0])]; the dictionary has the keys
    [0..n-1], a missing key raises [KeyError]. *)
Definition add_neighbors (node_neighbors : list (list nat)) (edge : nat * nat)
  : res (list (list nat)) :=
  match node_neighbors !! fst edge with
  | None => Raise KeyError
  | Some l0 =>
      let nn1 := <[fst edge := l0 ++ [snd edge]]> node_neighbors in
      match nn1 !! snd edge with
      | None => Raise KeyError
      | Some l1 => Ok (<[snd edge := l1 ++ [fst edge]]> nn1)
      end
  end.

(** One iteration of the greedy loop over [i in range(n)]. *)
Definition mis_visit (node_neighbors : list (list nat))
    (st : list bool * list nat) (i : nat) : list bool * list nat :=
  let is_node_conflict : list bool := fst st in
  let result : list nat := snd st in
  if (is_node_conflict !!! i : bool) then st
  else (foldl (fun c j => <[j := true]> c) is_node_conflict (node_neighbors !!! i),
        result ++ [i]).

Definition maximalis_solve_sort (n : nat) (edges : list (nat * nat)) : res (list nat) :=
  node_neighbors ← foldM add_neighbors edges (replicate n []);
  Ok (snd (foldl (mis_visit node_neighbors) (replicate n false, []) (seq 0 n))).


(** The candidate motions of the first routing phase.  For each gate two
    entries: [vectors[i] = (q0_col, q1_col, q0_row, q1_row)] and
    [vectors[i+1] = (q1_col, q0_col, q1_row, q0_row)], where
    [(q0_row, q0_col) = qubit_mapping[edge[0]]]. *)
Definition vector_threshold : nat := 1000.

Definition fill_vectors (qubit_mapping : mapping) (st : list motion * nat) (edge : gate)
  : res (list motion * nat) :=
  let vectors := fst st in
  let i := snd st in
  s0 ← get qubit_mapping (fst edge);
  s1 ← get qubit_mapping (snd edge);
  let '(q0_row, q0_col) := s0 in
  let '(q1_row, q1_col) := s1 in
  Ok (<[i + 1 := (q1_col, q0_col, q1_row, q0_row)]>
        (<[i := (q0_col, q1_col, q0_row, q1_row)]> vectors),
      i + 2).

Definition build_vectors (use_window : bool) (qubit_mapping : mapping)
    (remain_graph : list gate) : res (list motion) :=
  if use_window then
    let vector_length := Nat.min vector_threshold (2 * length remain_graph) in
    fst <$> foldM (fun st edge =>
                     if snd st + 1 <? vector_length
                     then fill_vectors qubit_mapping st edge
                     else Ok st)
                  remain_graph
                  (replicate vector_length (0, 0, 0, 0)%Z, 0)
  else
    fst <$> foldM (fill_vectors qubit_mapping) remain_graph
                  (replicate (2 * length remain_graph) (0, 0, 0, 0)%Z, 0).

(** ** Routing one scheduled layer: [route_qubit_mis] *)

(** [routing_strategy]: the strings ["mis"], ["maximalis"]; every other string
    (the default is ["maximalis_sorted"]) takes the [else] branches. *)
Inductive strategy : Type := Mis | Maximalis | MaximalisSorted.

(** [math.dist] is only used as a sorting key; the squared Euclidean distance
    orders integer sites the same way. *)
Definition dist2 (p q : site) : Z :=
  ((fst p - fst q) ^ 2 + (snd p - snd q) ^ 2)%Z.

(** [sorted(l, key=..., reverse=True)]: descending and stable. *)
Fixpoint insert_desc {A : Type} (k : Z) (x : A) (l : list (Z * A)) : list (Z * A) :=
  match l with
  | [] => [(k, x)]
  | (k', y) :: l' =>
      if (k <? k')%Z then (k', y) :: insert_desc k x l' else (k, x) :: (k', y) :: l'
  end.

Definition sorted_desc {A : Type} (keyed : list (Z * A)) : list A :=
  map snd (foldr (fun kx acc => insert_desc (fst kx) (snd kx) acc) [] keyed).

(** The list comprehension building the ["qubits"] of a sub-layer from the
    current mapping, with an empty ["gates"] list. *)
Definition snapshot (n_q : nat) (qubit_mapping : mapping) : res layer :=
  qs ← mapM (fun i => s ← get qubit_mapping i;
                      Ok (mk_qubit_rec i 0 (fst s) (snd s) (fst s) (snd s)))
            (seq 0 n_q);
  Ok (mk_layer qs []).

Definition set_a (a : Z) (q : qubit_rec) : qubit_rec :=
  mk_qubit_rec (q_id q) a (q_x q) (q_y q) (q_c q) (q_r q).

Definition set_acr (a c r : Z) (q : qubit_rec) : qubit_rec :=
  mk_qubit_rec (q_id q) a (q_x q) (q_y q) c r.

Definition set_gates (gs : list gate_rec) (l : layer) : layer :=
  mk_layer (l_qubits l) gs.

(** [for qubit in layer["qubits"]: if qubit["id"] in aod: qubit["a"] = 1] *)
Definition mark_aod (aod : list nat) (l : layer) : layer :=
  mk_layer (map (fun q => if decide (q_id q ∈ aod) then set_a 1 q else q) (l_qubits l))
           (l_gates l).

(** [set.add] on a set kept as a duplicate-free list. *)
Definition set_add (x : nat) (s : list nat) : list nat :=
  if decide (x ∈ s) then s else s ++ [x].

(** The loop [for i in execute_gates] collecting [aod_qubits],
    [set_aod_qubit] and the dictionary [target_qubits]. *)
Definition pick_mover (remain_graph : list gate)
    (acc : list nat * list nat * gmap nat nat) (i : nat)
  : res (list nat * list nat * gmap nat nat) :=
  let '(aod_qubits, set_aod_qubit, target_qubits) := acc in
  g ← get remain_graph (i / 2);
  if i mod 2 =? 0 then
    Ok (aod_qubits ++ [fst g], set_add (fst g) set_aod_qubit,
        <[fst g := snd g]> target_qubits)
  else
    Ok (aod_qubits ++ [snd g], set_add (snd g) set_aod_qubit,
        <[snd g := fst g]> target_qubits).

(** The dictionary appended to [gates_dict] for an executed gate. *)
Definition gate_entry (layer_gates : list gate) (g : gate) : res gate_rec :=
  if decide (g ∈ layer_gates) then
    id ← list_index g layer_gates; Ok (mk_gate_rec id (fst g) (snd g))
  else
    id ← list_index (snd g, fst g) layer_gates; Ok (mk_gate_rec id (snd g) (fst g)).

(** [for i in range(n_q): if i in aod_qubits:
       qubit_mapping[i] = qubit_mapping[target_qubits[i]]] *)
Definition move_qubits (n_q : nat) (aod_qubits : list nat) (target_qubits : gmap nat nat)
    (qubit_mapping : mapping) : res mapping :=
  foldM (fun qm i =>
           if decide (i ∈ aod_qubits) then
             match target_qubits !! i with
             | None => Raise KeyError
             | Some t =>
                 s ← get qm t;
                 if i <? length qm then Ok (<[i := s]> qm) else Raise IndexError
             end
           else Ok qm)
        (seq 0 n_q) qubit_mapping.

(** [[edge for g, edge in enumerate(remain_graph)
       if 2*g not in execute_gates and 2*g+1 not in execute_gates]] *)
Fixpoint drop_executed (g : nat) (execute_gates : list nat) (remain_graph : list gate)
  : list gate :=
  match remain_graph with
  | [] => []
  | edge :: rest =>
      if bool_decide (2 * g ∉ execute_gates) && bool_decide (2 * g + 1 ∉ execute_gates)
      then edge :: drop_executed (S g) execute_gates rest
      else drop_executed (S g) execute_gates rest
  end.

(** The mutable variables of the routing loops. *)
Record route_state : Type := mk_route_state
  { rs_mapping : mapping;
    rs_remain : list gate;
    rs_layers : list layer;
    rs_gates_dict : list gate_rec;
    rs_layer_aod : list (list nat);
    rs_set_aod : list nat;
    rs_batch : nat }.

Section Routing.

(** External collaborators: the KaMIS subprocess ([kamis_solve]), networkx's
    [maximal_independent_set] ([maximalis_solve]), CPython's iteration order
    of a set of integers ([list_of_set]) and the simulated-annealing partial
    placer, whose choices are random ([place_qubit_partial]). *)
Variable kamis_solve : nat -> list (nat * nat) -> nat -> res (list nat).
Variable maximalis_solve : nat -> list (nat * nat) -> res (list nat).
Variable list_of_set : list nat -> list nat.
Variable place_qubit_partial :
  nat * nat -> nat -> list (list gate) -> mapping -> list nat -> bool -> res mapping.

Definition solve_first (routing_strategy : strategy) (n : nat)
    (violations : list (nat * nat)) (batch : nat) : res (list nat) :=
  match routing_strategy with
  | Mis => kamis_solve n violations batch
  | Maximalis => maximalis_solve n violations
  | MaximalisSorted => maximalis_solve_sort n violations
  end.

(** One iteration of [while remain_graph:]. *)
Definition route_step (routing_strategy : strategy) (use_window : bool) (n_q : nat)
    (layer_gates : list gate) (st : route_state) : res route_state :=
  vectors ← build_vectors use_window (rs_mapping st) (rs_remain st);
  let violations := build_violations vectors in
  execute_gates ← solve_first routing_strategy (length vectors) violations (rs_batch st);
  picked ← foldM (pick_mover (rs_remain st)) execute_gates ([], rs_set_aod st, ∅);
  let '(aod_qubits, set_aod_qubit, target_qubits) := picked in
  tmp ← mapM (fun g => get (rs_remain st) (g / 2)) execute_gates;
  entries ← mapM (gate_entry layer_gates) tmp;
  qubit_mapping ← move_qubits n_q aod_qubits target_qubits (rs_mapping st);
  new_layer ← snapshot n_q qubit_mapping;
  let layers := rs_layers st ++ [new_layer] in
  k ← from_end layers 2;
  Ok (mk_route_state
        qubit_mapping
        (drop_executed 0 execute_gates (rs_remain st))
        (alter (mark_aod aod_qubits) k layers)
        (rs_gates_dict st ++ entries)
        (rs_layer_aod st ++ [aod_qubits])
        set_aod_qubit
        (rs_batch st + 1)).

Fixpoint route_loop (fuel : nat) (routing_strategy : strategy) (use_window : bool)
    (n_q : nat) (layer_gates : list gate) (st : route_state) : res route_state :=
  match rs_remain st with
  | [] => Ok st
  | _ :: _ =>
      match fuel with
      | O => OutOfFuel
      | S fuel' =>
          st' ← route_step routing_strategy use_window n_q layer_gates st;
          route_loop fuel' routing_strategy use_window n_q layer_gates st'
      end
  end.

(** The reverse-to-initial tail.  First the ["a"], then the ["a"], ["c"],
    ["r"] entries of the last sub-layer are overwritten by those of the one
    before it; then the earlier sub-layers are replayed backwards. *)
Definition copy_a_from_prev (layers : list layer) : res (list layer) :=
  k1 ← from_end layers 1;
  l1 ← get layers k1;
  foldM (fun ls q =>
           k2 ← from_end ls 2;
           l2 ← get ls k2;
           src ← get (l_qubits l2) q;
           Ok (alter (fun l => mk_layer (alter (set_a (q_a src)) q (l_qubits l)) (l_gates l))
                     k1 ls))
        (seq 0 (length (l_qubits l1))) layers.

Definition copy_acr_from_prev (layers : list layer) : res (list layer) :=
  k1 ← from_end layers 1;
  l1 ← get layers k1;
  foldM (fun ls q =>
           l2 ← py_get ls (Z.of_nat (length ls) - 2);
           src ← get (l_qubits l2) q;
           Ok (alter (fun l => mk_layer
                                 (alter (set_acr (q_a src) (q_c src) (q_r src)) q (l_qubits l))
                                 (l_gates l))
                     k1 ls))
        (seq 0 (length (l_qubits l1))) layers.

Definition reverse_layer (n_q : nat) (layers : list layer) (i : nat) : res layer :=
  li ← get layers i;
  qs ← mapM (fun j => q ← get (l_qubits li) j;
                      Ok (mk_qubit_rec j 0 (q_x q) (q_y q) (q_c q) (q_r q)))
            (seq 0 n_q);
  lp ← get layers (i - 1);
  qs' ← foldM (fun qs q =>
                 src ← get (l_qubits lp) q;
                 Ok (alter (set_acr (q_a src) (q_c src) (q_r src)) q qs))
              (seq 0 (length qs)) qs;
  Ok (mk_layer qs' []).

Definition reverse_to_initial_tail (n_q : nat) (last_layer : layer) (layers : list layer)
  : res (list layer) :=
  layers ← copy_a_from_prev layers;
  layers ← copy_acr_from_prev layers;
  reverse_layers ← mapM (reverse_layer n_q layers) (rev (seq 1 (length layers - 2)));
  Ok (layers ++ reverse_layers ++ [last_layer]).

(** The re-placement tail: the motions of the second phase take each touched
    qubit from its current site to its site in the new mapping. *)
Definition build_vectors2 (use_window : bool) (qubit_mapping initial_mapping : mapping)
    (list_aod_qubit : list nat) : res (list motion) :=
  let vector_length :=
    if use_window then Nat.min vector_threshold (length list_aod_qubit)
    else length list_aod_qubit in
  fst <$> foldM (fun st q =>
                   let vectors : list motion := fst st in
                   let i : nat := snd st in
                   if negb use_window || (i <? vector_length) then
                     s ← get qubit_mapping q;
                     t ← get initial_mapping q;
                     Ok (<[i := (fst s, fst t, snd s, snd t)]> vectors, i + 1)
                   else Ok (vectors, i + 1))
                list_aod_qubit
                (replicate vector_length (0, 0, 0, 0)%Z, 0).

Definition solve_second (routing_strategy : strategy) (n : nat)
    (violations : list (nat * nat)) (batch : nat) : res (list nat) :=
  match routing_strategy with
  | Mis => kamis_solve n violations batch
  | _ => maximalis_solve n violations
  end.

Definition replace_step (routing_strategy : strategy) (use_window : bool) (n_q : nat)
    (initial_mapping : mapping) (list_aod_qubit : list nat) (st : route_state)
  : res (list nat * route_state) :=
  vectors ← build_vectors2 use_window (rs_mapping st) initial_mapping list_aod_qubit;
  let violations := build_violations vectors in
  moved_qubits ← solve_second routing_strategy (length vectors) violations (rs_batch st);
  moved ← foldM (fun acc i =>
                   let aod_qubits : list nat := fst acc in
                   let qm : mapping := snd acc in
                   q ← get list_aod_qubit i;
                   s ← get initial_mapping q;
                   if q <? length qm then Ok (aod_qubits ++ [q], <[q := s]> qm)
                   else Raise IndexError)
                moved_qubits ([], rs_mapping st);
  let '(aod_qubits, qubit_mapping) := moved in
  new_layer ← snapshot n_q qubit_mapping;
  let layers := rs_layers st ++ [new_layer] in
  k ← from_end layers 2;
  tmp ← mapM (fun q => i ← list_index q list_aod_qubit;
                       Ok (if decide (i ∈ moved_qubits) then [] else [q]))
             list_aod_qubit;
  Ok (concat tmp,
      mk_route_state
        qubit_mapping
        (rs_remain st)
        (alter (mark_aod aod_qubits) k layers)
        (rs_gates_dict st)
        (rs_layer_aod st ++ [aod_qubits])
        (rs_set_aod st)
        (rs_batch st + 1)).

Fixpoint replace_loop (fuel : nat) (routing_strategy : strategy) (use_window : bool)
    (n_q : nat) (initial_mapping : mapping) (list_aod_qubit : list nat) (st : route_state)
  : res route_state :=
  match list_aod_qubit with
  | [] => Ok st
  | _ :: _ =>
      match fuel with
      | O => OutOfFuel
      | S fuel' =>
          r ← replace_step routing_strategy use_window n_q initial_mapping list_aod_qubit st;
          replace_loop fuel' routing_strategy use_window n_q initial_mapping (fst r) (snd r)
      end
  end.

(** [route_qubit_mis]: the routed sub-layers ([data["layers"]]) and the
    mapping handed to the next scheduled layer. *)
Definition route_qubit_mis (fuel : nat) (chip_dim : nat * nat) (n_q : nat)
    (index_list_gate : nat) (list_gates : list (list gate)) (qubit_mapping : mapping)
    (routing_strategy : strategy) (reverse_to_initial l2 use_window : bool)
  : res (list layer * mapping) :=
  let initial_mapping := qubit_mapping in
  first_layer ← snapshot n_q qubit_mapping;
  layer_gates ← get list_gates index_list_gate;
  remain_graph ←
    match routing_strategy with
    | MaximalisSorted =>
        keyed ← mapM (fun x => s0 ← get qubit_mapping (fst x);
                               s1 ← get qubit_mapping (snd x);
                               Ok (dist2 s0 s1, x))
                     layer_gates;
        Ok (sorted_desc keyed)
    | _ => Ok layer_gates
    end;
  last_layer ← snapshot n_q qubit_mapping;
  st ← route_loop fuel routing_strategy use_window n_q layer_gates
         (mk_route_state qubit_mapping remain_graph [first_layer] [] [] [] 0);
  k ← from_end (rs_layers st) 1;
  let layers := alter (set_gates (rs_gates_dict st)) k (rs_layers st) in
  r ←
    (if (index_list_gate + 1 <? length list_gates) || reverse_to_initial then
       if reverse_to_initial then
         layers ← reverse_to_initial_tail n_q last_layer layers;
         Ok (layers, initial_mapping)
       else
         let list_aod_qubit := list_of_set (rs_set_aod st) in
         let list_gate_next_layers := drop index_list_gate list_gates in
         initial_mapping ← place_qubit_partial chip_dim n_q list_gate_next_layers
                             initial_mapping list_aod_qubit l2;
         list_aod_qubit ←
           match routing_strategy with
           | MaximalisSorted =>
               keyed ← mapM (fun x => s0 ← get (rs_mapping st) x;
                                      s1 ← get initial_mapping x;
                                      Ok (dist2 s0 s1, x))
                            list_aod_qubit;
               Ok (sorted_desc keyed)
           | _ => Ok list_aod_qubit
           end;
         st' ← replace_loop fuel routing_strategy use_window n_q initial_mapping
                 list_aod_qubit
                 (mk_route_state (rs_mapping st) (rs_remain st) layers (rs_gates_dict st)
                                 (rs_layer_aod st) (rs_set_aod st) (rs_batch st));
         Ok (rs_layers st', initial_mapping)
     else Ok (layers, initial_mapping));
  let '(layers, initial_mapping) := r in
  k ← from_end layers 1;
  Ok (alter (fun l => mk_layer (map (set_a 0) (l_qubits l)) (l_gates l)) k layers,
      initial_mapping).

End Routing.

(** ** Symmetry of the compatibility relation *)

(** Along one axis, two motions are compatible exactly when the order of the
    start coordinates is the order of the end coordinates. *)
Definition axis_ok (s e s' e' : Z) : Prop :=
  (s = s' /\ e = e') \/ (s < s' /\ e < e')%Z \/ (s' < s /\ e' < e)%Z.

Ltac cmp_cases :=
  rewrite ?Z.gtb_ltb, ?Z.geb_leb;
  repeat (match goal with
          | |- context [(?x =? ?y)%Z] => destruct (Z.eqb_spec x y)
          | |- context [(?x <? ?y)%Z] => destruct (Z.ltb_spec x y)
          | |- context [(?x <=? ?y)%Z] => destruct (Z.leb_spec x y)
          end; simpl).

Lemma compatible_2D_spec (a0 a1 a2 a3 b0 b1 b2 b3 : Z) :
  compatible_2D (a0, a1, a2, a3) (b0, b1, b2, b3) = true <->
  axis_ok a0 a1 b0 b1 /\ axis_ok a2 a3 b2 b3.
Proof.
  unfold compatible_2D, axis_ok.
  cmp_cases; split; try discriminate; try lia; intros _; lia.
Qed.

Lemma axis_ok_sym (s e s' e' : Z) : axis_ok s e s' e' <-> axis_ok s' e' s e.
Proof. unfold axis_ok. lia. Qed.

Lemma compatible_2D_sym (a b : motion) : compatible_2D a b = compatible_2D b a.
Proof.
  destruct a as [[[a0 a1] a2] a3], b as [[[b0 b1] b2] b3].
  apply eq_true_iff_eq. rewrite !compatible_2D_spec.
  rewrite (axis_ok_sym a0 a1), (axis_ok_sym a2 a3). reflexivity.
Qed.

Lemma in_build_violations (vectors : list motion) (i j : nat) :
  In (i, j) (build_violations vectors) <->
  i < j /\ j < length vectors /\
  compatible_2D (vectors !!! i) (vectors !!! j) = false.
Proof.
  unfold build_violations. rewrite in_flat_map. split.
  - intros (i' & Hi' & Hin). apply in_flat_map in Hin.
    destruct Hin as (j' & Hj' & Hin).
    apply in_seq in Hi'. apply in_seq in Hj'.
    destruct (compatible_2D (vectors !!! i') (vectors !!! j')) eqn:E.
    + destruct Hin.
    + destruct Hin as [Hin|[]]. inversion Hin; subst. repeat split; [lia|lia|exact E].
  - intros (Hij & Hj & E). exists i. split.
    + apply in_seq. lia.
    + apply in_flat_map. exists j. split.
      * apply in_seq. lia.
      * rewrite E. left. reflexivity.
Qed.

(** C10: [compatible_2D] is symmetric, so the edge list built from the pairs
    [i < j] only is the whole undirected conflict relation: two distinct
    vertices are joined by an edge (in either orientation) exactly when their
    motions are incompatible, whichever of the two is passed first. *)
Theorem compatible_2D_symmetric :
  (forall a b : motion, compatible_2D a b = compatible_2D b a) /\
  (forall (vectors : list motion) (i j : nat),
      (In (i, j) (build_violations vectors) \/ In (j, i) (build_violations vectors)) <->
      (i <> j /\ i < length vectors /\ j < length vectors /\
       compatible_2D (vectors !!! i) (vectors !!! j) = false /\
       compatible_2D (vectors !!! j) (vectors !!! i) = false)).
Proof.
  split; [exact compatible_2D_sym|].
  intros vectors i j. rewrite !in_build_violations.
  rewrite (compatible_2D_sym (vectors !!! j) (vectors !!! i)).
  split.
  - intros [(H1 & H2 & H3)|(H1 & H2 & H3)]; repeat split; auto; lia.
  - intros (Hne & Hi & Hj & E & _).
    destruct (Nat.lt_ge_cases i j); [left|right]; repeat split; auto; lia.
Qed.


(** ** The greedy independent set *)

Lemma foldl_snoc {A B : Type} (f : A -> B -> A) (a : A) (l : list B) (x : B) :
  foldl f a (l ++ [x]) = f (foldl f a l) x.
Proof. revert a. induction l as [|y l IH]; intros a; simpl; auto. Qed.

Lemma add_neighbors_spec (nn nn' : list (list nat)) (e : nat * nat) :
  add_neighbors nn e = Ok nn' ->
  fst e < length nn /\ snd e < length nn /\ length nn' = length nn /\
  forall r j, In j (nn' !!! r) <->
              In j (nn !!! r) \/ (r = fst e /\ j = snd e) \/ (r = snd e /\ j = fst e).
Proof.
  unfold add_neighbors. destruct e as [a b]; simpl.
  destruct (nn !! a) as [l0|] eqn:Ha; [|discriminate].
  destruct (<[a:=l0 ++ [b]]> nn !! b) as [l1|] eqn:Hb; [|discriminate].
  intros H; inversion H; subst nn'; clear H.
  pose proof (lookup_lt_Some _ _ _ Ha) as Hla.
  pose proof (lookup_lt_Some _ _ _ Hb) as Hlb. rewrite length_insert in Hlb.
  split; [exact Hla|]. split; [exact Hlb|].
  split; [rewrite !length_insert; reflexivity|].
  apply list_lookup_total_correct in Ha. apply list_lookup_total_correct in Hb.
  intros r j.
  destruct (Nat.eq_dec r b) as [->|Hrb].
  - rewrite list_lookup_total_insert_eq by (rewrite length_insert; exact Hlb).
    subst l1. destruct (Nat.eq_dec a b) as [->|Hab].
    + rewrite list_lookup_total_insert_eq by exact Hla. subst l0.
      rewrite !in_app_iff; simpl. intuition.
    + rewrite list_lookup_total_insert_ne by exact Hab.
      rewrite in_app_iff; simpl. intuition.
  - rewrite list_lookup_total_insert_ne by auto.
    destruct (Nat.eq_dec r a) as [->|Hra].
    + rewrite list_lookup_total_insert_eq by exact Hla. subst l0.
      rewrite in_app_iff; simpl. intuition.
    + rewrite list_lookup_total_insert_ne by auto. intuition.
Qed.

Lemma add_neighbors_total (nn : list (list nat)) (e : nat * nat) :
  fst e < length nn -> snd e < length nn -> exists nn', add_neighbors nn e = Ok nn'.
Proof.
  intros Ha Hb. unfold add_neighbors.
  destruct (lookup_lt_is_Some_2 nn (fst e) Ha) as [l0 ->].
  assert (Hb' : snd e < length (<[fst e:=l0 ++ [snd e]]> nn))
    by (rewrite length_insert; exact Hb).
  destruct (lookup_lt_is_Some_2 _ _ Hb') as [l1 ->]. eauto.
Qed.

Lemma node_neighbors_spec (edges : list (nat * nat)) (nn0 nn : list (list nat)) :
  foldM add_neighbors edges nn0 = Ok nn ->
  length nn = length nn0 /\
  (forall e, In e edges -> fst e < length nn0 /\ snd e < length nn0) /\
  forall r j, In j (nn !!! r) <->
              In j (nn0 !!! r) \/ In (r, j) edges \/ In (j, r) edges.
Proof.
  revert nn0. induction edges as [|e edges IH]; intros nn0; simpl.
  - intros H; inversion H; subst. split; [reflexivity|]. split; [intros e []|].
    intros r j. tauto.
  - destruct (add_neighbors nn0 e) as [nn1| |] eqn:E; simpl; try discriminate.
    intros H. apply IH in H. destruct H as (Hlen & Hrange & Hadj).
    apply add_neighbors_spec in E. destruct E as (Ha & Hb & Hlen1 & Hadj1).
    split; [congruence|]. split.
    + intros e' [<-|H]; [auto|]. apply Hrange in H. lia.
    + intros r j. rewrite Hadj, Hadj1. destruct e as [a b]; simpl. split.
      * intros [[H|[[-> ->]|[-> ->]]]|[H|H]]; auto.
      * intros [H|[[H|H]|[H|H]]]; auto; inversion H; subst; auto.
Qed.

Lemma node_neighbors_total (edges : list (nat * nat)) (nn0 : list (list nat)) :
  (forall e, In e edges -> fst e < length nn0 /\ snd e < length nn0) ->
  exists nn, foldM add_neighbors edges nn0 = Ok nn.
Proof.
  revert nn0. induction edges as [|e edges IH]; intros nn0 H; simpl.
  - eauto.
  - destruct (add_neighbors_total nn0 e) as [nn1 E];
      [apply H; left; auto|apply H; left; auto|].
    rewrite E; simpl. apply IH. intros e' He'.
    apply add_neighbors_spec in E. destruct E as (_ & _ & -> & _).
    apply H. right. exact He'.
Qed.

Lemma mark_length (c : list bool) (l : list nat) :
  length (foldl (fun c j => <[j := true]> c) c l) = length c.
Proof.
  revert c. induction l as [|j l IH]; intros c; simpl; auto.
  rewrite IH. apply length_insert.
Qed.

Lemma mark_keeps (c : list bool) (l : list nat) (k : nat) :
  c !! k = Some true -> foldl (fun c j => <[j := true]> c) c l !! k = Some true.
Proof.
  revert c. induction l as [|j l IH]; intros c H; simpl; auto.
  apply IH. rewrite list_lookup_insert. case_decide; auto.
Qed.

Lemma mark_sets (c : list bool) (l : list nat) (k : nat) :
  In k l -> k < length c -> foldl (fun c j => <[j := true]> c) c l !! k = Some true.
Proof.
  revert c. induction l as [|j l IH]; intros c H Hk; simpl; [destruct H|].
  destruct (Nat.eq_dec j k) as [->|Hne].
  - apply mark_keeps. apply list_lookup_insert_eq. exact Hk.
  - destruct H as [H|H]; [contradiction|].
    apply IH; auto. rewrite length_insert. exact Hk.
Qed.

(** The invariant of the greedy loop after the vertices below [k]. *)
Definition greedy_inv (nn : list (list nat)) (n k : nat) (st : list bool * list nat) : Prop :=
  length (fst st) = n /\
  (forall r, In r (snd st) -> r < k) /\
  (forall r j, In r (snd st) -> In j (nn !!! r) -> j < n -> fst st !! j = Some true) /\
  (forall r1 r2, In r1 (snd st) -> In r2 (snd st) -> r1 < r2 -> ~ In r2 (nn !!! r1)).

Lemma greedy_inv_step (nn : list (list nat)) (n k : nat) (st : list bool * list nat) :
  k < n -> greedy_inv nn n k st -> greedy_inv nn n (S k) (mis_visit nn st k).
Proof.
  intros Hk (Hlen & Hlt & Hmark & Hind). unfold mis_visit.
  destruct (fst st !!! k) eqn:E.
  - repeat split; auto. intros r Hr. apply Hlt in Hr. lia.
  - unfold greedy_inv; simpl. repeat split.
    + rewrite mark_length. exact Hlen.
    + intros r Hr. apply in_app_iff in Hr. destruct Hr as [Hr|[<-|[]]]; [|lia].
      apply Hlt in Hr. lia.
    + intros r j Hr Hj Hjn. apply in_app_iff in Hr. destruct Hr as [Hr|[<-|[]]].
      * apply mark_keeps. exact (Hmark r j Hr Hj Hjn).
      * apply mark_sets; auto. lia.
    + intros r1 r2 H1 H2 Hlt12 Hadj.
      apply in_app_iff in H1. apply in_app_iff in H2.
      destruct H2 as [H2|[<-|[]]].
      * destruct H1 as [H1|[<-|[]]].
        -- exact (Hind r1 r2 H1 H2 Hlt12 Hadj).
        -- apply Hlt in H2. lia.
      * destruct H1 as [H1|[<-|[]]]; [|lia].
        pose proof (Hmark r1 k H1 Hadj Hk) as Hc.
        rewrite list_lookup_total_alt, Hc in E. discriminate.
Qed.

Lemma greedy_inv_run (nn : list (list nat)) (n k : nat) :
  k <= n ->
  greedy_inv nn n k (foldl (mis_visit nn) (replicate n false, []) (seq 0 k)).
Proof.
  induction k as [|k IH]; intros Hk.
  - simpl. repeat split; simpl; try tauto. apply length_replicate.
  - rewrite seq_S, foldl_snoc. simpl. apply greedy_inv_step; [lia|]. apply IH. lia.
Qed.

Lemma mis_visit_keeps (nn : list (list nat)) (st : list bool * list nat) (i r : nat) :
  In r (snd st) -> In r (snd (mis_visit nn st i)).
Proof.
  unfold mis_visit. destruct (fst st !!! i); simpl; auto.
  intros H. apply in_app_iff. auto.
Qed.

Lemma greedy_keeps (nn : list (list nat)) (l : list nat) (st : list bool * list nat) (r : nat) :
  In r (snd st) -> In r (snd (foldl (mis_visit nn) st l)).
Proof.
  revert st. induction l as [|i l IH]; intros st H; simpl; auto.
  apply IH. apply mis_visit_keeps. exact H.
Qed.

(** The greedy procedure returns a set of vertices below [n] no two of which
    are joined by an edge. *)
Lemma maximalis_solve_sort_independent (n : nat) (edges : list (nat * nat)) (result : list nat) :
  maximalis_solve_sort n edges = Ok result ->
  (forall r, In r result -> r < n) /\
  (forall r1 r2, In r1 result -> In r2 result -> r1 <> r2 ->
                 ~ In (r1, r2) edges /\ ~ In (r2, r1) edges).
Proof.
  unfold maximalis_solve_sort.
  destruct (foldM add_neighbors edges (replicate n [])) as [nn| |] eqn:E;
    simpl; try discriminate.
  intros H; inversion H; subst result; clear H.
  apply node_neighbors_spec in E. destruct E as (_ & _ & Hadj).
  destruct (greedy_inv_run nn n n (le_n n)) as (_ & Hlt & _ & Hind).
  split; [exact Hlt|].
  intros r1 r2 H1 H2 Hne.
  destruct (Nat.lt_ge_cases r1 r2) as [Hl|Hl].
  - pose proof (Hind r1 r2 H1 H2 Hl) as Hno. rewrite Hadj in Hno. tauto.
  - assert (Hl' : r2 < r1) by lia.
    pose proof (Hind r2 r1 H2 H1 Hl') as Hno. rewrite Hadj in Hno. tauto.
Qed.

(** The first vertex is always selected: the result is not empty. *)
Lemma maximalis_solve_sort_first (n : nat) (edges : list (nat * nat)) (result : list nat) :
  maximalis_solve_sort (S n) edges = Ok result -> In 0 result.
Proof.
  unfold maximalis_solve_sort.
  destruct (foldM add_neighbors edges (replicate (S n) [])) as [nn| |] eqn:E;
    simpl; try discriminate.
  intros H; inversion H; subst result; clear H.
  apply greedy_keeps. unfold mis_visit; simpl. left. reflexivity.
Qed.

Lemma maximalis_solve_sort_total (n : nat) (edges : list (nat * nat)) :
  (forall e, In e edges -> fst e < n /\ snd e < n) ->
  exists result, maximalis_solve_sort n edges = Ok result.
Proof.
  intros H. unfold maximalis_solve_sort.
  destruct (node_neighbors_total edges (replicate n [])) as [nn ->].
  - intros e He. rewrite length_replicate. auto.
  - simpl. eauto.
Qed.


(** ** The candidate motions *)

(** The two candidates of a gate whose qubits sit at [s0] and [s1]. *)
Definition cand0 (s0 s1 : site) : motion := (snd s0, snd s1, fst s0, fst s1).
Definition cand1 (s0 s1 : site) : motion := (snd s1, snd s0, fst s1, fst s0).

Lemma candidates_incompatible (s0 s1 : site) :
  s0 <> s1 -> compatible_2D (cand0 s0 s1) (cand1 s0 s1) = false.
Proof.
  destruct s0 as [x0 y0], s1 as [x1 y1]. intros Hne.
  apply not_true_is_false. unfold cand0, cand1; simpl.
  intros H. apply compatible_2D_spec in H. unfold axis_ok in H.
  destruct H as [H1 H2].
  assert (y0 = y1) by lia. assert (x0 = x1) by lia. subst. apply Hne. reflexivity.
Qed.

Lemma foldM_app_ok {A S : Type} (f : S -> A -> res S) (l1 l2 : list A) (s r : S) :
  foldM f (l1 ++ l2) s = Ok r ->
  exists s', foldM f l1 s = Ok s' /\ foldM f l2 s' = Ok r.
Proof.
  rewrite foldM_app. destruct (foldM f l1 s) as [s'| |]; simpl; try discriminate.
  intros H. exists s'. auto.
Qed.

Definition fill_if (cond : nat -> bool) (qubit_mapping : mapping)
    (st : list motion * nat) (edge : gate) : res (list motion * nat) :=
  if cond (snd st) then fill_vectors qubit_mapping st edge else Ok st.

(** What the filling loop has written after the first [k] gates, when it
    fills exactly the first [L] of them. *)
Definition filled (qm : mapping) (remain : list gate) (L k : nat)
    (st : list motion * nat) : Prop :=
  snd st = 2 * Nat.min k L /\ length (fst st) = 2 * L /\
  forall g, g < Nat.min k L ->
    exists q0 q1 s0 s1,
      remain !! g = Some (q0, q1) /\ qm !! q0 = Some s0 /\ qm !! q1 = Some s1 /\
      fst st !! (2 * g) = Some (cand0 s0 s1) /\
      fst st !! (2 * g + 1) = Some (cand1 s0 s1).

Lemma fill_if_step (cond : nat -> bool) (qm : mapping) (remain : list gate)
    (L k : nat) (st st' : list motion * nat) (e : gate) :
  cond (2 * Nat.min k L) = (k <? L) ->
  remain !! k = Some e ->
  filled qm remain L k st ->
  fill_if cond qm st e = Ok st' ->
  filled qm remain L (S k) st'.
Proof.
  intros Hcond He (Hi & Hlen & Hent). unfold fill_if. rewrite Hi, Hcond.
  destruct (Nat.ltb_spec k L) as [HkL|HkL].
  - unfold fill_vectors. unfold get.
    destruct (qm !! fst e) as [s0|] eqn:E0; cbn -[Nat.mul Nat.min]; [|discriminate].
    destruct (qm !! snd e) as [s1|] eqn:E1; cbn -[Nat.mul Nat.min]; [|discriminate].
    destruct s0 as [r0 c0], s1 as [r1 c1]. intros H; inversion H; subst st'; clear H.
    unfold filled; cbn [fst snd]. rewrite Hi.
    replace (Nat.min k L) with k by lia.
    replace (Nat.min (S k) L) with (S k) by lia.
    split; [lia|]. split; [rewrite !length_insert; exact Hlen|].
    intros g Hg. destruct (Nat.eq_dec g k) as [->|Hne].
    + exists (fst e), (snd e), (r0, c0), (r1, c1).
      split; [rewrite He; destruct e; reflexivity|].
      split; [exact E0|]. split; [exact E1|]. split.
      * rewrite list_lookup_insert_ne by lia.
        rewrite list_lookup_insert_eq by lia. reflexivity.
      * rewrite list_lookup_insert_eq by (rewrite length_insert; lia). reflexivity.
    + destruct (Hent g) as (q0 & q1 & s0 & s1 & H1 & H2 & H3 & H4 & H5); [lia|].
      exists q0, q1, s0, s1. repeat (split; [assumption|]).
      rewrite !list_lookup_insert_ne by lia. auto.
  - intros H; inversion H; subst st'; clear H.
    unfold filled. replace (Nat.min (S k) L) with (Nat.min k L) by lia.
    auto.
Qed.

Lemma fill_if_run (cond : nat -> bool) (qm : mapping) (remain : list gate)
    (L k : nat) (st : list motion * nat) :
  (forall k', k' < length remain -> cond (2 * Nat.min k' L) = (k' <? L)) ->
  k <= length remain ->
  foldM (fill_if cond qm) (take k remain) (replicate (2 * L) (0, 0, 0, 0)%Z, 0) = Ok st ->
  filled qm remain L k st.
Proof.
  intros Hcond. revert st. induction k as [|k IH]; intros st Hk.
  - simpl. intros H; inversion H; subst st; clear H.
    split; [simpl; lia|]. split; [apply length_replicate|]. intros g Hg. lia.
  - destruct (lookup_lt_is_Some_2 remain k) as [e He]; [lia|].
    rewrite (take_S_r _ _ _ He). intros H.
    apply foldM_app_ok in H. destruct H as (st1 & H1 & H2).
    simpl in H2. destruct (fill_if cond qm st1 e) as [st2| |] eqn:E; simpl in H2;
      try discriminate. inversion H2; subst st2; clear H2.
    apply (fill_if_step cond qm remain L k st1 st e);
      [apply Hcond; lia|exact He|apply IH; [lia|exact H1]|exact E].
Qed.

Lemma build_vectors_spec (use_window : bool) (qm : mapping) (remain : list gate)
    (vectors : list motion) :
  build_vectors use_window qm remain = Ok vectors ->
  exists L, length vectors = 2 * L /\ L <= length remain /\
            (0 < length remain -> 0 < L) /\
  forall g, g < L ->
    exists q0 q1 s0 s1,
      remain !! g = Some (q0, q1) /\ qm !! q0 = Some s0 /\ qm !! q1 = Some s1 /\
      vectors !! (2 * g) = Some (cand0 s0 s1) /\
      vectors !! (2 * g + 1) = Some (cand1 s0 s1).
Proof.
  unfold build_vectors. destruct use_window.
  - set (L := Nat.min 500 (length remain)).
    assert (HL : Nat.min vector_threshold (2 * length remain) = 2 * L).
    { unfold vector_threshold.
      change 1000 with (2 * 500). lia. }
    rewrite HL.
    change (fun (st : list motion * nat) (edge : gate) =>
              if snd st + 1 <? 2 * L then fill_vectors qm st edge else Ok st)
      with (fill_if (fun i => i + 1 <? 2 * L) qm).
    destruct (foldM _ remain _) as [st| |] eqn:E; simpl; try discriminate.
    intros H; inversion H; subst vectors; clear H.
    rewrite <- (firstn_all remain) in E at 1.
    apply (fill_if_run _ qm remain L (length remain)) in E; [|  |lia].
    + destruct E as (_ & Hlen & Hent). exists L.
      split; [exact Hlen|]. split; [lia|]. split; [lia|].
      intros g Hg. apply Hent. lia.
    + intros k' Hk'.
      destruct (Nat.ltb_spec k' L); destruct (Nat.ltb_spec (2 * Nat.min k' L + 1) (2 * L));
        auto; lia.
  - change (fill_vectors qm) with (fill_if (fun _ => true) qm).
    destruct (foldM _ remain _) as [st| |] eqn:E; simpl; try discriminate.
    intros H; inversion H; subst vectors; clear H.
    rewrite <- (firstn_all remain) in E at 1.
    apply (fill_if_run _ qm remain (length remain) (length remain)) in E; [|  |lia].
    + destruct E as (_ & Hlen & Hent). exists (length remain).
      split; [exact Hlen|]. split; [lia|]. split; [lia|].
      intros g Hg. apply Hent. lia.
    + intros k' Hk'. destruct (Nat.ltb_spec k' (length remain)); auto; lia.
Qed.

(** Any vertex set that is independent in the conflict graph consists of
    pairwise compatible motions. *)
Lemma independent_compatible (vectors : list motion) (sel : list nat) :
  (forall r, In r sel -> r < length vectors) ->
  (forall r1 r2, In r1 sel -> In r2 sel -> r1 <> r2 ->
                 ~ In (r1, r2) (build_violations vectors) /\
                 ~ In (r2, r1) (build_violations vectors)) ->
  forall i j, In i sel -> In j sel -> i <> j ->
              compatible_2D (vectors !!! i) (vectors !!! j) = true.
Proof.
  intros Hrange Hind i j Hi Hj Hne.
  destruct (compatible_2D (vectors !!! i) (vectors !!! j)) eqn:E; [reflexivity|].
  exfalso. destruct (Hind i j Hi Hj Hne) as [H1 H2].
  destruct (Nat.lt_ge_cases i j) as [Hl|Hl].
  - apply H1. apply in_build_violations. auto.
  - apply H2. apply in_build_violations. rewrite compatible_2D_sym.
    split; [lia|]. split; auto.
Qed.

Lemma build_violations_range (vectors : list motion) (e : nat * nat) :
  In e (build_violations vectors) -> fst e < length vectors /\ snd e < length vectors.
Proof.
  destruct e as [i j]. rewrite in_build_violations. simpl. lia.
Qed.

(** C3: the motions selected for a routed sub-layer (the vertices returned by
    [maximalis_solve_sort] on the edge list built from all pairs [i < j]) are
    pairwise [compatible_2D]; the selection never fails; and the two
    candidates of a gate whose qubits occupy distinct sites are never both
    selected, being incompatible with each other. *)
Theorem selected_motions_pairwise_compatible
    (use_window : bool) (qubit_mapping : mapping) (remain_graph : list gate)
    (vectors : list motion) :
  build_vectors use_window qubit_mapping remain_graph = Ok vectors ->
  exists execute_gates,
    maximalis_solve_sort (length vectors) (build_violations vectors) = Ok execute_gates /\
    (forall i j, In i execute_gates -> In j execute_gates -> i <> j ->
                 compatible_2D (vectors !!! i) (vectors !!! j) = true) /\
    (forall g q0 q1 s0 s1,
        remain_graph !! g = Some (q0, q1) ->
        qubit_mapping !! q0 = Some s0 -> qubit_mapping !! q1 = Some s1 ->
        s0 <> s1 ->
        compatible_2D (cand0 s0 s1) (cand1 s0 s1) = false /\
        ~ (In (2 * g) execute_gates /\ In (2 * g + 1) execute_gates)).
Proof.
  intros Hv.
  destruct (maximalis_solve_sort_total (length vectors) (build_violations vectors))
    as [sel Hsel]; [apply build_violations_range|].
  exists sel. split; [exact Hsel|].
  apply maximalis_solve_sort_independent in Hsel. destruct Hsel as [Hrange Hind].
  pose proof (independent_compatible vectors sel Hrange Hind) as Hcomp.
  split; [exact Hcomp|].
  intros g q0 q1 s0 s1 Hg H0 H1 Hne.
  split; [apply candidates_incompatible; exact Hne|].
  intros [Ha Hb].
  apply build_vectors_spec in Hv. destruct Hv as (L & Hlen & _ & _ & Hent).
  pose proof (Hrange _ Hb) as Hlt.
  destruct (Hent g) as (q0' & q1' & s0' & s1' & E1 & E2 & E3 & E4 & E5); [lia|].
  rewrite Hg in E1; inversion E1; subst q0' q1'.
  rewrite H0 in E2; inversion E2; subst s0'.
  rewrite H1 in E3; inversion E3; subst s1'.
  assert (Hc : compatible_2D (vectors !!! (2 * g)) (vectors !!! (2 * g + 1)) = true)
    by (apply Hcomp; auto; lia).
  rewrite (list_lookup_total_correct _ _ _ E4), (list_lookup_total_correct _ _ _ E5) in Hc.
  rewrite candidates_incompatible in Hc by exact Hne. discriminate.
Qed.

(** A layer of two gates on a 2 x 2 arrangement of sites: the four candidate
    motions, of which the greedy selection keeps the first. *)
Lemma selected_motions_witness :
  build_vectors false [(0, 0); (1, 1); (1, 0); (0, 1)]%Z [(0, 1); (2, 3)]
    = Ok [(0, 1, 0, 1); (1, 0, 1, 0); (0, 1, 1, 0); (1, 0, 0, 1)]%Z /\
  exists execute_gates,
    maximalis_solve_sort 4
      (build_violations [(0, 1, 0, 1); (1, 0, 1, 0); (0, 1, 1, 0); (1, 0, 0, 1)]%Z)
      = Ok execute_gates /\
    (forall i j, In i execute_gates -> In j execute_gates -> i <> j ->
                 compatible_2D
                   ([(0, 1, 0, 1); (1, 0, 1, 0); (0, 1, 1, 0); (1, 0, 0, 1)]%Z !!! i)
                   ([(0, 1, 0, 1); (1, 0, 1, 0); (0, 1, 1, 0); (1, 0, 0, 1)]%Z !!! j)
                 = true) /\
    (forall g q0 q1 s0 s1,
        [(0, 1); (2, 3)] !! g = Some (q0, q1) ->
        [(0, 0); (1, 1); (1, 0); (0, 1)]%Z !! q0 = Some s0 ->
        [(0, 0); (1, 1); (1, 0); (0, 1)]%Z !! q1 = Some s1 ->
        s0 <> s1 ->
        compatible_2D (cand0 s0 s1) (cand1 s0 s1) = false /\
        ~ (In (2 * g) execute_gates /\ In (2 * g + 1) execute_gates)).
Proof.
  split; [reflexivity|].
  exact (selected_motions_pairwise_compatible false
           [(0, 0); (1, 1); (1, 0); (0, 1)]%Z [(0, 1); (2, 3)]
           [(0, 1, 0, 1); (1, 0, 1, 0); (0, 1, 1, 0); (1, 0, 0, 1)]%Z eq_refl).
Defined.

(** The vertices are selected in increasing order, each at most once. *)
Lemma greedy_nodup (nn : list (list nat)) (n k : nat) :
  let st := foldl (mis_visit nn) (replicate n false, []) (seq 0 k) in
  NoDup (snd st) /\ forall r, In r (snd st) -> r < k.
Proof.
  induction k as [|k IH]; cbv zeta in *.
  - simpl. split; [constructor|intros r []].
  - rewrite seq_S, foldl_snoc. destruct IH as [Hnd Hlt].
    cbn [Nat.add].
    set (st := foldl (mis_visit nn) (replicate n false, []) (seq 0 k)) in *.
    unfold mis_visit. cbv zeta.
    destruct (fst st !!! k).
    + split; [exact Hnd|]. intros r Hr. apply Hlt in Hr. lia.
    + cbn [snd]. split.
      * apply NoDup_app. split; [exact Hnd|]. split; [|apply NoDup_singleton].
        intros x Hx Hk. apply list_elem_of_singleton in Hk. subst x.
        apply list_elem_of_In in Hx. apply Hlt in Hx. lia.
      * intros r Hr. apply in_app_iff in Hr. destruct Hr as [Hr|[<-|[]]]; [|lia].
        apply Hlt in Hr. lia.
Qed.

Lemma maximalis_solve_sort_nodup (n : nat) (edges : list (nat * nat)) (result : list nat) :
  maximalis_solve_sort n edges = Ok result -> NoDup result.
Proof.
  unfold maximalis_solve_sort. intros H. bind_ok H. inversion H; subst result.
  apply (greedy_nodup a n n).
Qed.

(** What the router needs of an independent-set solver: distinct vertices
    below [n], no two of them joined by an edge. *)
Definition independent_set (n : nat) (edges : list (nat * nat)) (sel : list nat) : Prop :=
  NoDup sel /\
  (forall r, In r sel -> r < n) /\
  (forall r1 r2, In r1 sel -> In r2 sel -> r1 <> r2 ->
                 ~ In (r1, r2) edges /\ ~ In (r2, r1) edges).

Lemma maximalis_solve_sort_sound (n : nat) (edges : list (nat * nat)) (sel : list nat) :
  maximalis_solve_sort n edges = Ok sel -> independent_set n edges sel.
Proof.
  intros H. split; [eapply maximalis_solve_sort_nodup; eauto|].
  apply maximalis_solve_sort_independent. exact H.
Qed.

(** ** The mapping handed on by [route_qubit_mis] *)

Lemma returns_mapM {A B : Type} (f : A -> res B) (l : list A) :
  (forall x, returns (f x)) -> returns (mapM f l).
Proof.
  intros Hf. induction l as [|x l IH]; simpl.
  - discriminate.
  - apply returns_bind; [apply Hf|]. intros y _.
    apply returns_bind; [apply IH|]. intros ys _. discriminate.
Qed.

Ltac returns_tac :=
  repeat first
    [ apply returns_Ok
    | apply returns_Raise
    | apply returns_get
    | apply returns_py_get
    | apply returns_fmap
    | apply returns_foldM; intros
    | apply returns_mapM; intros
    | apply returns_bind; [|intros]
    | match goal with
      | |- returns (match ?x with _ => _ end) => destruct x
      end ].

Lemma returns_list_index `{EqDecision A} (x : A) (l : list A) : returns (list_index x l).
Proof.
  induction l as [|y l IH]; simpl.
  - discriminate.
  - destruct (decide (x = y)); [discriminate|]. apply returns_fmap. exact IH.
Qed.

Lemma returns_from_end {A : Type} (l : list A) (k : nat) : returns (from_end l k).
Proof. unfold from_end. returns_tac. Qed.

Lemma returns_snapshot (n_q : nat) (qm : mapping) : returns (snapshot n_q qm).
Proof. unfold snapshot. returns_tac. Qed.

Lemma returns_build_vectors (w : bool) (qm : mapping) (remain : list gate) :
  returns (build_vectors w qm remain).
Proof. unfold build_vectors, fill_vectors. returns_tac. Qed.

Lemma returns_maximalis_solve_sort (n : nat) (edges : list (nat * nat)) :
  returns (maximalis_solve_sort n edges).
Proof. unfold maximalis_solve_sort, add_neighbors. returns_tac. Qed.

Lemma drop_executed_length (g : nat) (exec : list nat) (remain : list gate) :
  length (drop_executed g exec remain) <= length remain.
Proof.
  revert g. induction remain as [|e rest IH]; intros g; cbn [drop_executed length]; [lia|].
  specialize (IH (S g)).
  destruct (bool_decide (2 * g ∉ exec) && bool_decide (2 * g + 1 ∉ exec));
    cbn [length]; lia.
Qed.

Lemma drop_executed_first (exec : list nat) (e : gate) (rest : list gate) :
  In 0 exec -> length (drop_executed 0 exec (e :: rest)) <= length rest.
Proof.
  intros H. cbn [drop_executed].
  rewrite (bool_decide_eq_false_2 (2 * 0 ∉ exec)).
  - cbn [andb]. apply drop_executed_length.
  - intros Hn. apply Hn. apply list_elem_of_In. exact H.
Qed.

(** ** The gates executed by the first phase *)

Definition qubits_of (gs : list gate) : list nat :=
  flat_map (fun g : gate => [fst g; snd g]) gs.

Definition pair_of (g : gate_rec) : gate := (g_q0 g, g_q1 g).

Lemma mapM_Forall2 {A B : Type} (f : A -> res B) (xs : list A) (ys : list B) :
  mapM f xs = Ok ys -> Forall2 (fun x y => f x = Ok y) xs ys.
Proof.
  revert ys. induction xs as [|x xs IH]; intros ys H; simpl in H.
  - inversion H. constructor.
  - bind_ok H. bind_ok H. inversion H; subst ys. constructor; auto.
Qed.

Lemma mapM_get_spec {A : Type} `{!Inhabited A} {X : Type} (l : list A) (f : X -> nat)
    (xs : list X) (ys : list A) :
  mapM (fun x => get l (f x)) xs = Ok ys ->
  ys = map (fun x => l !!! f x) xs /\ forall x, In x xs -> f x < length l.
Proof.
  intros H. apply mapM_Forall2 in H. induction H as [|x y xs ys Hxy _ IH].
  - split; [reflexivity|intros x []].
  - apply get_ok in Hxy. destruct IH as [-> Hlt]. split.
    + simpl. f_equal. symmetry. apply list_lookup_total_correct. exact Hxy.
    + intros x' [<-|Hx']; [eapply lookup_lt_Some; eauto|auto].
Qed.

Lemma list_index_ok `{EqDecision A} (x : A) (l : list A) (i : nat) :
  list_index x l = Ok i -> l !! i = Some x.
Proof.
  revert i. induction l as [|y l IH]; intros i H; simpl in H; [discriminate|].
  destruct (decide (x = y)) as [->|Hne].
  - inversion H; reflexivity.
  - bind_ok H. inversion H; subst i. simpl. apply IH. reflexivity.
Qed.

Lemma gate_entry_spec (layer_gates : list gate) (g : gate) (entry : gate_rec) :
  g ∈ layer_gates -> gate_entry layer_gates g = Ok entry ->
  pair_of entry = g /\ layer_gates !! g_id entry = Some (pair_of entry).
Proof.
  intros Hin H. unfold gate_entry in H.
  destruct (decide (g ∈ layer_gates)); [|contradiction].
  bind_ok H. inversion H; subst entry. apply list_index_ok in E.
  unfold pair_of; simpl. destruct g; simpl in *. auto.
Qed.

Lemma gate_entries_spec (layer_gates tmp : list gate) (entries : list gate_rec) :
  (forall g, In g tmp -> g ∈ layer_gates) ->
  mapM (gate_entry layer_gates) tmp = Ok entries ->
  map pair_of entries = tmp /\
  Forall (fun e => layer_gates !! g_id e = Some (pair_of e)) entries.
Proof.
  intros Hin H. apply mapM_Forall2 in H. induction H as [|g e tmp entries Hge _ IH].
  - split; constructor.
  - apply gate_entry_spec in Hge; [|apply Hin; left; reflexivity].
    destruct Hge as [Hp Hid]. destruct IH as [IH1 IH2].
    + intros g' Hg'. apply Hin. right. exact Hg'.
    + split; [simpl; congruence|constructor; assumption].
Qed.

(** The gates kept by [drop_executed] are those whose position is not the
    half of a selected vertex. *)
Lemma in_halves (sel : list nat) (g : nat) :
  g ∈ map (fun i => i / 2) sel <-> 2 * g ∈ sel \/ 2 * g + 1 ∈ sel.
Proof.
  rewrite !list_elem_of_In, in_map_iff. split.
  - intros (i & Hi & Hin).
    assert (Hc : i = 2 * g \/ i = 2 * g + 1).
    { pose proof (Nat.div_mod_eq i 2) as Hd.
      pose proof (Nat.mod_upper_bound i 2 ltac:(lia)) as Hm. lia. }
    destruct Hc as [->| ->]; auto.
  - intros [H|H]; [exists (2 * g)|exists (2 * g + 1)]; split; auto.
    + rewrite Nat.mul_comm. apply Nat.div_mul. lia.
    + rewrite Nat.mul_comm, Nat.div_add_l by lia. simpl. lia.
Qed.

Lemma drop_executed_eq (g0 : nat) (sel : list nat) (remain : list gate) :
  drop_executed g0 sel remain =
  map (fun k => remain !!! (k - g0))
      (filter (fun k => k ∉ map (fun i => i / 2) sel) (seq g0 (length remain))).
Proof.
  revert g0. induction remain as [|e rest IH]; intros g0; [reflexivity|].
  cbn [drop_executed length seq]. rewrite filter_cons.
  assert (Hrest : drop_executed (S g0) sel rest =
                  map (fun k => (e :: rest) !!! (k - g0))
                      (filter (fun k => k ∉ map (fun i => i / 2) sel)
                              (seq (S g0) (length rest)))).
  { rewrite IH. apply map_ext_in. intros k Hk.
    apply list_elem_of_In, list_elem_of_filter in Hk. destruct Hk as [_ Hk].
    apply elem_of_seq in Hk.
    replace (k - g0) with (S (k - S g0)) by lia. reflexivity. }
  destruct (decide (g0 ∉ map (fun i => i / 2) sel)) as [Hn|Hy].
  - rewrite !bool_decide_eq_true_2.
    + cbn [andb map]. rewrite Nat.sub_diag. f_equal. exact Hrest.
    + intros H. apply Hn. apply in_halves. auto.
    + intros H. apply Hn. apply in_halves. auto.
  - assert (Hin : g0 ∈ map (fun i => i / 2) sel).
    { destruct (decide (g0 ∈ map (fun i => i / 2) sel)); [assumption|contradiction]. }
    apply in_halves in Hin.
    assert (Hb : bool_decide (2 * g0 ∉ sel) && bool_decide (2 * g0 + 1 ∉ sel) = false).
    { apply andb_false_iff. destruct Hin as [H|H]; [left|right];
        apply bool_decide_eq_false_2; intros Hn; contradiction. }
    rewrite Hb. exact Hrest.
Qed.

Lemma split_by_positions {A : Type} `{!Inhabited A} (l : list A) (D : list nat) :
  NoDup D -> (forall g, g ∈ D -> g < length l) ->
  Permutation
    (map (fun g => l !!! g) D ++
     map (fun k => l !!! k) (filter (fun k => k ∉ D) (seq 0 (length l))))
    l.
Proof.
  intros Hnd Hlt.
  assert (Hl : l = map (fun k => l !!! k) (seq 0 (length l))).
  { apply list_eq. intros i. rewrite list_lookup_fmap.
    destruct (decide (i < length l)) as [Hi|Hi].
    - rewrite lookup_seq_lt by exact Hi. simpl.
      apply list_lookup_lookup_total_lt. exact Hi.
    - rewrite lookup_seq_ge by lia. simpl. apply lookup_ge_None. lia. }
  apply Permutation_trans with (map (fun k => l !!! k) (seq 0 (length l)));
    [|rewrite <- Hl; reflexivity].
  rewrite <- map_app. apply Permutation_map.
  apply NoDup_Permutation.
  - apply NoDup_app. split; [exact Hnd|]. split.
    + intros x Hx Hf. apply list_elem_of_filter in Hf. destruct Hf as [Hn _]. contradiction.
    + apply NoDup_filter. apply NoDup_seq.
  - apply NoDup_seq.
  - intros x. rewrite elem_of_app, list_elem_of_filter, elem_of_seq. split.
    + intros [H|[_ H]]; [apply Hlt in H; lia|exact H].
    + intros H. destruct (decide (x ∈ D)); [left|right]; auto.
Qed.

Section RoutingFacts.

Variable kamis_solve : nat -> list (nat * nat) -> nat -> res (list nat).
Variable maximalis_solve : nat -> list (nat * nat) -> res (list nat).
Variable list_of_set : list nat -> list nat.
Variable place_qubit_partial :
  nat * nat -> nat -> list (list gate) -> mapping -> list nat -> bool -> res mapping.

Let route_step' := route_step kamis_solve maximalis_solve.
Let route_loop' := route_loop kamis_solve maximalis_solve.
Let route_qubit_mis' :=
  route_qubit_mis kamis_solve maximalis_solve list_of_set place_qubit_partial.

Lemma route_step_returns (w : bool) (n_q : nat) (layer_gates : list gate) (st : route_state) :
  returns (route_step' MaximalisSorted w n_q layer_gates st).
Proof.
  unfold route_step', route_step, solve_first.
  apply returns_bind; [apply returns_build_vectors|]. intros vectors _.
  apply returns_bind; [apply returns_maximalis_solve_sort|]. intros exec _.
  unfold pick_mover, gate_entry, move_qubits.
  apply returns_bind.
  { apply returns_foldM. intros [[a b] c] x. returns_tac. }
  intros [[a b] c] _.
  apply returns_bind; [returns_tac|]. intros tmp _.
  apply returns_bind.
  { apply returns_mapM. intros x. destruct (decide (x ∈ layer_gates));
      (apply returns_bind; [apply returns_list_index|intros; apply returns_Ok]). }
  intros entries _.
  apply returns_bind; [returns_tac|]. intros qm _.
  apply returns_bind; [apply returns_snapshot|]. intros l _.
  apply returns_bind; [apply returns_from_end|]. intros k _.
  apply returns_Ok.
Qed.

Lemma route_step_shrinks (w : bool) (n_q : nat) (layer_gates : list gate)
    (st st' : route_state) :
  route_step' MaximalisSorted w n_q layer_gates st = Ok st' ->
  rs_remain st <> [] ->
  length (rs_remain st') < length (rs_remain st).
Proof.
  unfold route_step', route_step, solve_first. intros H Hne.
  bind_ok H. bind_ok H. bind_ok H. destruct a1 as [[aod set_aod] target].
  bind_ok H. bind_ok H. bind_ok H. bind_ok H. bind_ok H.
  inversion H; subst st'; clear H. cbn [rs_remain].
  destruct (rs_remain st) as [|e rest] eqn:Er; [contradiction|].
  apply build_vectors_spec in E. destruct E as (L & Hlen & _ & Hpos & _).
  assert (HL : 0 < L) by (apply Hpos; simpl; lia).
  destruct (length a) as [|n] eqn:En; [lia|].
  apply maximalis_solve_sort_first in E0.
  pose proof (drop_executed_first a0 e rest E0) as Hd.
  change (length (e :: rest)) with (S (length rest)). lia.
Qed.

(** With as much fuel as the layer has gates, the first routing phase under
    the default strategy ends: every round executes at least one gate. *)
Lemma route_loop_returns (fuel : nat) (w : bool) (n_q : nat) (layer_gates : list gate)
    (st : route_state) :
  length (rs_remain st) <= fuel ->
  returns (route_loop' fuel MaximalisSorted w n_q layer_gates st).
Proof.
  revert st. induction fuel as [|fuel IH]; intros st Hlen.
  - destruct (rs_remain st) eqn:E; simpl in *; [|lia].
    unfold route_loop'. simpl. rewrite E. discriminate.
  - unfold route_loop'. simpl. destruct (rs_remain st) as [|e rest] eqn:E; [discriminate|].
    apply returns_bind; [apply route_step_returns|].
    intros st' Hst'. apply IH.
    apply route_step_shrinks in Hst'; [|rewrite E; discriminate].
    rewrite E in Hst'. simpl in *. lia.
Qed.

Lemma returns_reverse_to_initial_tail (n_q : nat) (last_layer : layer) (layers : list layer) :
  returns (reverse_to_initial_tail n_q last_layer layers).
Proof.
  unfold reverse_to_initial_tail, copy_a_from_prev, copy_acr_from_prev, reverse_layer.
  apply returns_bind.
  { apply returns_bind; [apply returns_from_end|]. intros k1 _.
    apply returns_bind; [apply returns_get|]. intros l1 _.
    apply returns_foldM. intros ls q.
    apply returns_bind; [apply returns_from_end|]. intros. returns_tac. }
  intros ls1 _. apply returns_bind.
  { apply returns_bind; [apply returns_from_end|]. intros k1 _. returns_tac. }
  intros ls2 _. returns_tac.
Qed.

(** One layer: with [reverse_to_initial] the mapping returned by
    [route_qubit_mis] is the mapping it was given, whatever the strategy;
    and under the default strategy the call ends (it returns or raises) as
    soon as the fuel covers the gates of the layer. *)
Lemma route_qubit_mis_r2i (fuel : nat) (chip_dim : nat * nat) (n_q index_list_gate : nat)
    (list_gates : list (list gate)) (qubit_mapping : mapping)
    (routing_strategy : strategy) (l2 use_window : bool) :
  (forall layers final_mapping,
      route_qubit_mis' fuel chip_dim n_q index_list_gate list_gates qubit_mapping
        routing_strategy true l2 use_window = Ok (layers, final_mapping) ->
      final_mapping = qubit_mapping) /\
  (forall layer_gates,
      list_gates !! index_list_gate = Some layer_gates ->
      length layer_gates <= fuel ->
      returns (route_qubit_mis' fuel chip_dim n_q index_list_gate list_gates qubit_mapping
                 MaximalisSorted true l2 use_window)).
Proof.
  split.
  - intros layers final_mapping H. unfold route_qubit_mis', route_qubit_mis in H.
    bind_ok H. bind_ok H. bind_ok H. bind_ok H. bind_ok H. bind_ok H.
    rewrite orb_true_r in E4. bind_ok E4. inversion E4; subst a4; clear E4.
    bind_ok H. inversion H; subst. reflexivity.
  - intros layer_gates Hl Hfuel. unfold route_qubit_mis', route_qubit_mis.
    apply returns_bind; [apply returns_snapshot|]. intros first_layer _.
    assert (Hg : get list_gates index_list_gate = Ok layer_gates)
      by (unfold get; rewrite Hl; reflexivity).
    rewrite Hg. cbn [mbind res_bind].
    apply returns_bind; [returns_tac|]. intros remain Hremain.
    apply returns_bind; [apply returns_snapshot|]. intros last_layer _.
    apply returns_bind.
    { apply route_loop_returns. cbn [rs_remain].
      bind_ok Hremain. inversion Hremain; subst remain; clear Hremain.
      assert (Hk : length a = length layer_gates).
      { clear -E. revert a E. induction layer_gates as [|g gs IH]; intros a E; simpl in E.
        - inversion E; reflexivity.
        - bind_ok E. bind_ok E. inversion E; subst. simpl. f_equal. apply IH. reflexivity. }
      unfold sorted_desc. rewrite length_map.
      assert (Hs : forall kl : list (Z * gate),
                 length (foldr (fun kx acc => insert_desc (fst kx) (snd kx) acc) [] kl)
                 = length kl).
      { induction kl as [|[k x] kl IHk]; simpl; [reflexivity|].
        rewrite <- IHk.
        generalize (foldr (fun kx acc => insert_desc (fst kx) (snd kx) acc) [] kl).
        intros l. induction l as [|[k' y] l IHl]; simpl; [reflexivity|].
        destruct (k <? k')%Z; simpl; [rewrite IHl|]; reflexivity. }
      rewrite Hs. lia. }
    intros st _.
    apply returns_bind; [apply returns_from_end|]. intros k _.
    rewrite orb_true_r.
    apply returns_bind.
    { apply returns_bind; [apply returns_reverse_to_initial_tail|]. intros. apply returns_Ok. }
    intros [layers im] _.
    apply returns_bind; [apply returns_from_end|]. intros. apply returns_Ok.
Qed.

End RoutingFacts.

(** ** Every gate of a layer is executed once *)

Lemma snapshot_gates (n_q : nat) (qm : mapping) (l : layer) :
  snapshot n_q qm = Ok l -> l_gates l = [].
Proof. unfold snapshot. intros H. bind_ok H. inversion H. reflexivity. Qed.

Lemma Forall_alter_keep {A : Type} (P : A -> Prop) (f : A -> A) (k : nat) (l : list A) :
  (forall x, P x -> P (f x)) -> Forall P l -> Forall P (alter f k l).
Proof.
  intros Hf H. revert k. induction H as [|x l Hx Hl IH]; intros k.
  - constructor.
  - destruct k; simpl; constructor; auto. apply IH.
Qed.

Lemma qubits_distinct (gs : list gate) (a b : nat) :
  NoDup (qubits_of gs) -> In (a, b) gs -> a <> b.
Proof.
  induction gs as [|g gs IH]; intros Hnd Hin; [destruct Hin|].
  unfold qubits_of in Hnd. simpl in Hnd.
  apply NoDup_cons in Hnd. destruct Hnd as [Hn1 Hnd].
  apply NoDup_cons in Hnd. destruct Hnd as [_ Hnd].
  destruct Hin as [->|Hin]; [|apply IH; assumption].
  simpl in Hn1. intros ->. apply Hn1. left.
Qed.

Lemma in_qubits_of (gs : list gate) (a b : nat) :
  In (a, b) gs -> In a (qubits_of gs) /\ In b (qubits_of gs).
Proof.
  intros H. unfold qubits_of. split; apply in_flat_map; exists (a, b); simpl; auto.
Qed.

Lemma qubits_of_app (g1 g2 : list gate) :
  qubits_of (g1 ++ g2) = qubits_of g1 ++ qubits_of g2.
Proof. unfold qubits_of. apply flat_map_app. Qed.

Lemma qubits_of_Permutation (g1 g2 : list gate) :
  Permutation g1 g2 -> Permutation (qubits_of g1) (qubits_of g2).
Proof.
  intros H. induction H; simpl.
  - reflexivity.
  - unfold qubits_of in *. simpl. do 2 apply perm_skip. exact IHPermutation.
  - unfold qubits_of. simpl.
    apply (Permutation_app_swap_app [fst y; snd y] [fst x; snd x]).
  - etransitivity; eauto.
Qed.

(** The movers are qubits of the gates selected in this round. *)
Lemma pick_mover_aod (remain : list gate) (sel : list nat)
    (acc acc' : list nat * list nat * gmap nat nat) :
  foldM (pick_mover remain) sel acc = Ok acc' ->
  forall q, In q (fst (fst acc')) ->
            In q (fst (fst acc)) \/
            In q (qubits_of (map (fun i => remain !!! (i / 2)) sel)).
Proof.
  revert acc. induction sel as [|i sel IH]; intros acc H q Hq; simpl in H.
  - inversion H; subst. auto.
  - bind_ok H. destruct (IH _ H q Hq) as [Hin|Hin].
    + unfold pick_mover in E. destruct acc as [[aod sa] tg].
      bind_ok E. apply get_ok in E0. apply list_lookup_total_correct in E0.
      cbn [map fst]. rewrite E0. unfold qubits_of. cbn [flat_map].
      destruct (i mod 2 =? 0); inversion E; subst a; cbn [fst] in Hin;
        apply in_app_iff in Hin; destruct Hin as [Hin|[<-|[]]]; auto;
        right; simpl; auto.
    + right. cbn [map]. unfold qubits_of in *. cbn [flat_map].
      apply in_app_iff. right. exact Hin.
Qed.

Lemma move_qubits_frame (n_q : nat) (aod : list nat) (target : gmap nat nat)
    (qm qm' : mapping) :
  move_qubits n_q aod target qm = Ok qm' ->
  forall q, ~ In q aod -> qm' !! q = qm !! q.
Proof.
  intros H q Hq. unfold move_qubits in H.
  apply (foldM_inv (fun m : mapping => m !! q = qm !! q) _ _ _ _) in H; auto.
  intros m i m' Hm Hstep.
  destruct (decide (i ∈ aod)) as [Hi|Hi]; [|inversion Hstep; subst; exact Hm].
  destruct (target !! i); [|discriminate]. bind_ok Hstep.
  destruct (i <? length m); inversion Hstep; subst m'.
  rewrite list_lookup_insert_ne; [exact Hm|].
  intros ->. apply Hq. apply list_elem_of_In. exact Hi.
Qed.

Lemma insert_desc_Permutation {A : Type} (k : Z) (x : A) (l : list (Z * A)) :
  Permutation (insert_desc k x l) ((k, x) :: l).
Proof.
  induction l as [|[k' y] l IH]; simpl; [reflexivity|].
  destruct (k <? k')%Z; [|reflexivity].
  rewrite IH. apply perm_swap.
Qed.

Lemma sorted_desc_Permutation {A : Type} (keyed : list (Z * A)) :
  Permutation (sorted_desc keyed) (map snd keyed).
Proof.
  unfold sorted_desc. apply Permutation_map.
  induction keyed as [|[k x] keyed IH]; simpl; [reflexivity|].
  rewrite insert_desc_Permutation. apply perm_skip. exact IH.
Qed.

Section GateCompletion.

Variable kamis_solve : nat -> list (nat * nat) -> nat -> res (list nat).
Variable maximalis_solve : nat -> list (nat * nat) -> res (list nat).

(** The contract of the external solvers. *)
Hypothesis kamis_sound :
  forall n edges batch sel,
    kamis_solve n edges batch = Ok sel -> independent_set n edges sel.
Hypothesis maximalis_sound :
  forall n edges sel, maximalis_solve n edges = Ok sel -> independent_set n edges sel.

Lemma solve_first_sound (s : strategy) (n : nat) (edges : list (nat * nat))
    (batch : nat) (sel : list nat) :
  solve_first kamis_solve maximalis_solve s n edges batch = Ok sel ->
  independent_set n edges sel.
Proof.
  destruct s; simpl; intros H.
  - eapply kamis_sound; eauto.
  - eapply maximalis_sound; eauto.
  - apply maximalis_solve_sort_sound; exact H.
Qed.

(** The gates of the layer being routed, no two of which share a qubit, and
    the mapping at the start of the layer, which puts no two qubits on one
    site. *)
Variable layer_gates : list gate.
Variable m0 : mapping.
Hypothesis layer_disjoint : NoDup (qubits_of layer_gates).
Hypothesis m0_injective : NoDup m0.

(** The invariant of the first routing phase: the executed gates and the
    remaining gates together are the layer; [gates_dict] lists the executed
    gates with their positions in the layer; qubits of gates not yet
    executed are still on their sites; no sub-layer carries gates yet. *)
Definition route_inv (st : route_state) : Prop :=
  exists executed : list gate,
    Permutation (executed ++ rs_remain st) layer_gates /\
    map pair_of (rs_gates_dict st) = executed /\
    Forall (fun e => layer_gates !! g_id e = Some (pair_of e)) (rs_gates_dict st) /\
    (forall q, ~ In q (qubits_of executed) -> rs_mapping st !! q = m0 !! q) /\
    Forall (fun l => l_gates l = []) (rs_layers st) /\
    (length (rs_layers st) <= 1 -> rs_gates_dict st = []).

Lemma remaining_sites_distinct (st : route_state) (g q0 q1 : nat) (s0 s1 : Z * Z) :
  route_inv st ->
  rs_remain st !! g = Some (q0, q1) ->
  rs_mapping st !! q0 = Some s0 -> rs_mapping st !! q1 = Some s1 ->
  s0 <> s1.
Proof.
  intros (executed & Hperm & _ & _ & Hframe & _ & _) Hg H0 H1 Heq. subst s1.
  apply list_elem_of_lookup_2, list_elem_of_In in Hg.
  pose proof (qubits_of_Permutation _ _ Hperm) as Hq. rewrite qubits_of_app in Hq.
  assert (Hnd : NoDup (qubits_of executed ++ qubits_of (rs_remain st))).
  { eapply NoDup_Permutation_proper; [exact Hq|exact layer_disjoint]. }
  apply NoDup_app in Hnd. destruct Hnd as (_ & Hdisj & Hndr).
  pose proof (qubits_distinct _ _ _ Hndr Hg) as Hne.
  destruct (in_qubits_of _ _ _ Hg) as [Hi0 Hi1].
  assert (Hn0 : ~ In q0 (qubits_of executed)).
  { intros Hin. apply list_elem_of_In in Hin. apply (Hdisj _ Hin).
    apply list_elem_of_In. exact Hi0. }
  assert (Hn1 : ~ In q1 (qubits_of executed)).
  { intros Hin. apply list_elem_of_In in Hin. apply (Hdisj _ Hin).
    apply list_elem_of_In. exact Hi1. }
  rewrite (Hframe _ Hn0) in H0. rewrite (Hframe _ Hn1) in H1.
  apply Hne. exact (NoDup_lookup m0 q0 q1 s0 m0_injective H0 H1).
Qed.

(** No gate has both its candidates selected. *)
Lemma halves_nodup (w : bool) (st : route_state) (vectors : list motion) (sel : list nat) :
  route_inv st ->
  build_vectors w (rs_mapping st) (rs_remain st) = Ok vectors ->
  independent_set (length vectors) (build_violations vectors) sel ->
  NoDup (map (fun i => i / 2) sel).
Proof.
  intros Hinv Hv (Hnd & Hrange & Hind).
  apply NoDup_fmap_2_strong; [|exact Hnd].
  intros x y Hx Hy Hxy. apply list_elem_of_In in Hx. apply list_elem_of_In in Hy.
  destruct (Nat.eq_dec x y) as [|Hne]; [assumption|exfalso].
  set (g := x / 2) in *.
  assert (Hcase : (x = 2 * g /\ y = 2 * g + 1) \/ (y = 2 * g /\ x = 2 * g + 1)).
  { pose proof (Nat.div_mod_eq x 2). pose proof (Nat.div_mod_eq y 2).
    pose proof (Nat.mod_upper_bound x 2 ltac:(lia)).
    pose proof (Nat.mod_upper_bound y 2 ltac:(lia)). subst g. lia. }
  assert (Ha : In (2 * g) sel) by (destruct Hcase as [[<- _]|[<- _]]; assumption).
  assert (Hb : In (2 * g + 1) sel) by (destruct Hcase as [[_ <-]|[_ <-]]; assumption).
  apply build_vectors_spec in Hv. destruct Hv as (L & Hlen & _ & _ & Hent).
  pose proof (Hrange _ Hb) as Hlt.
  destruct (Hent g) as (q0 & q1 & s0 & s1 & E1 & E2 & E3 & E4 & E5); [lia|].
  pose proof (remaining_sites_distinct st g q0 q1 s0 s1 Hinv E1 E2 E3) as Hs.
  destruct (Hind (2 * g) (2 * g + 1) Ha Hb ltac:(lia)) as [Hno _].
  apply Hno. apply in_build_violations. split; [lia|]. split; [exact Hlt|].
  rewrite (list_lookup_total_correct _ _ _ E4), (list_lookup_total_correct _ _ _ E5).
  apply candidates_incompatible. exact Hs.
Qed.

Lemma route_step_inv (s : strategy) (w : bool) (n_q : nat) (st st' : route_state) :
  route_inv st ->
  route_step kamis_solve maximalis_solve s w n_q layer_gates st = Ok st' ->
  route_inv st'.
Proof.
  intros Hinv H. unfold route_step in H.
  bind_ok H. bind_ok H. bind_ok H. destruct a1 as [[aod set_aod] target].
  bind_ok H. bind_ok H. bind_ok H. bind_ok H. bind_ok H.
  inversion H; subst st'; clear H.
  apply solve_first_sound in E0.
  pose proof (halves_nodup w st a a0 Hinv E E0) as HD.
  apply mapM_get_spec in E2. destruct E2 as [Htmp Hlt].
  destruct Hinv as (executed & Hperm & Hgd & Hids & Hframe & Hlayers & _).
  assert (Hsplit : Permutation (a1 ++ drop_executed 0 a0 (rs_remain st)) (rs_remain st)).
  { rewrite drop_executed_eq, Htmp.
    rewrite <- (map_map (fun i => i / 2) (fun g => rs_remain st !!! g)).
    erewrite (map_ext (fun k => rs_remain st !!! (k - 0))); [|intros k; rewrite Nat.sub_0_r; reflexivity].
    apply split_by_positions; [exact HD|].
    intros g Hg. apply list_elem_of_In, in_map_iff in Hg.
    destruct Hg as (i & <- & Hi). apply Hlt. exact Hi. }
  assert (Hsub : forall g, In g a1 -> g ∈ layer_gates).
  { intros g Hg. apply list_elem_of_In.
    eapply Permutation_in; [exact Hperm|]. apply in_app_iff. right.
    eapply Permutation_in; [exact Hsplit|]. apply in_app_iff. left. exact Hg. }
  apply gate_entries_spec in E3; [|exact Hsub]. destruct E3 as [Hpairs Hids'].
  exists (executed ++ a1). cbn [rs_remain rs_gates_dict rs_mapping rs_layers].
  split; [|split; [|split; [|split; [|split]]]].
  - rewrite <- app_assoc. rewrite Hsplit. exact Hperm.
  - rewrite map_app. congruence.
  - apply Forall_app. split; assumption.
  - intros q Hq. rewrite qubits_of_app, in_app_iff in Hq.
    rewrite (move_qubits_frame _ _ _ _ _ E4).
    + apply Hframe. tauto.
    + intros Haod. destruct (pick_mover_aod _ _ _ _ E1 q Haod) as [[]|Hin].
      rewrite <- Htmp in Hin. tauto.
  - apply Forall_alter_keep; [intros l Hl; exact Hl|].
    apply Forall_app. split; [exact Hlayers|].
    constructor; [|constructor]. eapply snapshot_gates; eauto.
  - intros Hlen. exfalso. rewrite length_alter in Hlen.
    unfold from_end in E6.
    destruct (Nat.leb_spec 2 (length (rs_layers st ++ [a4]))); [lia|discriminate].
Qed.

Lemma route_loop_inv (fuel : nat) (s : strategy) (w : bool) (n_q : nat)
    (st st' : route_state) :
  route_inv st ->
  route_loop kamis_solve maximalis_solve fuel s w n_q layer_gates st = Ok st' ->
  route_inv st' /\ rs_remain st' = [].
Proof.
  revert st. induction fuel as [|fuel IH]; intros st Hinv H; simpl in H.
  - destruct (rs_remain st) eqn:E; [|discriminate]. inversion H; subst. auto.
  - destruct (rs_remain st) eqn:E.
    + inversion H; subst. auto.
    + bind_ok H. eapply IH; [|exact H]. eapply route_step_inv; eauto.
Qed.

End GateCompletion.

(** ** The sub-layer that carries the gates *)

(** A fired list is right for a layer when it lists the gates of the layer,
    each once, with its position in the layer as ["id"]. *)
Definition fired_ok (layer_gates : list gate) (gs : list gate_rec) : Prop :=
  Permutation (map pair_of gs) layer_gates /\
  Forall (fun e => layer_gates !! g_id e = Some (pair_of e)) gs.

Lemma map_gates_alter (f : layer -> layer) (k : nat) (ls : list layer) :
  (forall l, l_gates (f l) = l_gates l) ->
  map l_gates (alter f k ls) = map l_gates ls.
Proof.
  intros Hf. revert k. induction ls as [|l ls IH]; intros k; [reflexivity|].
  destruct k; simpl; [rewrite Hf; reflexivity|]. f_equal. apply IH.
Qed.

Lemma quiet_map_gates (ls : list layer) :
  Forall (fun l => l_gates l = []) ls -> map l_gates ls = replicate (length ls) [].
Proof. induction 1 as [|l ls Hl _ IH]; simpl; congruence. Qed.

Lemma map_gates_set_last (gd : list gate_rec) (k : nat) (ls : list layer) :
  Forall (fun l => l_gates l = []) ls -> from_end ls 1 = Ok k ->
  length ls = S k /\
  map l_gates (alter (set_gates gd) k ls) = replicate k [] ++ [gd].
Proof.
  intros Hq Hk. unfold from_end in Hk.
  destruct (Nat.leb_spec 1 (length ls)); [|discriminate]. inversion Hk; subst k; clear Hk.
  split; [lia|].
  destruct ls as [|l0 lt] using rev_ind; [simpl in *; lia|]. clear IHlt.
  rename lt into ls'. rename l0 into x.
  rewrite length_app; simpl. replace (length ls' + 1 - 1) with (length ls' + 0) by lia.
  rewrite alter_app_r. simpl. rewrite map_app. simpl.
  apply Forall_app in Hq. destruct Hq as [Hq _].
  rewrite (quiet_map_gates _ Hq). rewrite Nat.add_0_r. reflexivity.
Qed.

Lemma mapM_Forall {A B : Type} (P : B -> Prop) (f : A -> res B) (xs : list A) (ys : list B) :
  (forall x y, f x = Ok y -> P y) -> mapM f xs = Ok ys -> Forall P ys.
Proof.
  intros Hf H. apply mapM_Forall2 in H. induction H; constructor; eauto.
Qed.

Lemma mapM_keyed_snd {A K : Type} (f : A -> res (K * A)) (xs : list A) (ys : list (K * A)) :
  (forall x y, f x = Ok y -> snd y = x) ->
  mapM f xs = Ok ys -> map snd ys = xs.
Proof.
  intros Hf H. apply mapM_Forall2 in H.
  induction H as [|x y xs ys Hxy _ IH]; [reflexivity|].
  simpl. f_equal; [|exact IH]. exact (Hf _ _ Hxy).
Qed.

Lemma copy_a_from_prev_gates (ls ls' : list layer) :
  copy_a_from_prev ls = Ok ls' -> map l_gates ls' = map l_gates ls.
Proof.
  unfold copy_a_from_prev. intros H. bind_ok H. bind_ok H.
  apply (foldM_inv (fun l : list layer => map l_gates l = map l_gates ls) _ _ _ _) in H;
    [exact H| |reflexivity].
  intros s q s' Hs Hstep. bind_ok Hstep. bind_ok Hstep. bind_ok Hstep.
  inversion Hstep; subst s'. rewrite map_gates_alter; [exact Hs|]. reflexivity.
Qed.

Lemma copy_acr_from_prev_gates (ls ls' : list layer) :
  copy_acr_from_prev ls = Ok ls' -> map l_gates ls' = map l_gates ls.
Proof.
  unfold copy_acr_from_prev. intros H. bind_ok H. bind_ok H.
  apply (foldM_inv (fun l : list layer => map l_gates l = map l_gates ls) _ _ _ _) in H;
    [exact H| |reflexivity].
  intros s q s' Hs Hstep. bind_ok Hstep. bind_ok Hstep.
  inversion Hstep; subst s'. rewrite map_gates_alter; [exact Hs|]. reflexivity.
Qed.

Lemma reverse_layer_gates (n_q : nat) (ls : list layer) (i : nat) (l : layer) :
  reverse_layer n_q ls i = Ok l -> l_gates l = [].
Proof.
  unfold reverse_layer. intros H. bind_ok H. bind_ok H. bind_ok H. bind_ok H.
  inversion H. reflexivity.
Qed.

Lemma reverse_to_initial_tail_gates (n_q : nat) (last_layer : layer) (ls ls' : list layer) :
  l_gates last_layer = [] ->
  reverse_to_initial_tail n_q last_layer ls = Ok ls' ->
  exists b, map l_gates ls' = map l_gates ls ++ replicate b [].
Proof.
  intros Hlast H. unfold reverse_to_initial_tail in H.
  bind_ok H. bind_ok H. bind_ok H. inversion H; subst ls'; clear H.
  apply copy_a_from_prev_gates in E. apply copy_acr_from_prev_gates in E0.
  apply (mapM_Forall (fun l => l_gates l = [])) in E1;
    [|intros x y Hxy; eapply reverse_layer_gates; eauto].
  exists (length a1 + 1).
  rewrite !map_app, (quiet_map_gates _ E1). simpl. rewrite Hlast.
  rewrite E0, E. rewrite replicate_add. reflexivity.
Qed.

Section LayerResult.

Variable kamis_solve : nat -> list (nat * nat) -> nat -> res (list nat).
Variable maximalis_solve : nat -> list (nat * nat) -> res (list nat).
Variable list_of_set : list nat -> list nat.
Variable place_qubit_partial :
  nat * nat -> nat -> list (list gate) -> mapping -> list nat -> bool -> res mapping.

Hypothesis kamis_sound :
  forall n edges batch sel,
    kamis_solve n edges batch = Ok sel -> independent_set n edges sel.
Hypothesis maximalis_sound :
  forall n edges sel, maximalis_solve n edges = Ok sel -> independent_set n edges sel.

Lemma replace_loop_gates (fuel : nat) (s : strategy) (w : bool) (n_q : nat)
    (im : mapping) (aod : list nat) (st st' : route_state) :
  replace_loop kamis_solve maximalis_solve fuel s w n_q im aod st = Ok st' ->
  exists b, map l_gates (rs_layers st') = map l_gates (rs_layers st) ++ replicate b [].
Proof.
  revert aod st. induction fuel as [|fuel IH]; intros aod st H; simpl in H.
  - destruct aod; [|discriminate]. inversion H; subst. exists 0. simpl.
    rewrite app_nil_r. reflexivity.
  - destruct aod as [|q aod].
    + inversion H; subst. exists 0. simpl. rewrite app_nil_r. reflexivity.
    + bind_ok H. apply IH in H. destruct H as [b Hb].
      unfold replace_step in E. bind_ok E. bind_ok E. bind_ok E.
      destruct a2 as [aod_qubits qm]. bind_ok E. bind_ok E. bind_ok E.
      inversion E; subst a; clear E. cbn [snd rs_layers] in Hb.
      rewrite map_gates_alter in Hb by reflexivity.
      rewrite map_app in Hb. simpl in Hb. rewrite (snapshot_gates _ _ _ E3) in Hb.
      exists (S b). rewrite Hb, <- app_assoc. reflexivity.
Qed.

(** The sub-layers returned for a layer: one of them carries the gates of
    the layer, every other one carries none, and the one of stage 0 carries
    none. *)
Lemma route_qubit_mis_gates (fuel : nat) (chip_dim : nat * nat) (n_q index_list_gate : nat)
    (list_gates : list (list gate)) (qubit_mapping : mapping) (s : strategy)
    (r2i l2 w : bool) (layer_gates : list gate) (layers : list layer)
    (final_mapping : mapping) :
  list_gates !! index_list_gate = Some layer_gates ->
  NoDup (qubits_of layer_gates) -> NoDup qubit_mapping ->
  route_qubit_mis kamis_solve maximalis_solve list_of_set place_qubit_partial
    fuel chip_dim n_q index_list_gate list_gates qubit_mapping s r2i l2 w
    = Ok (layers, final_mapping) ->
  exists gd a b,
    fired_ok layer_gates gd /\
    map l_gates layers = replicate a [] ++ [gd] ++ replicate b [] /\
    (a = 0 -> gd = []).
Proof.
  intros Hl Hdisj Hinj H. unfold route_qubit_mis in H.
  bind_ok H. bind_ok H. apply get_ok in E0. rewrite Hl in E0. inversion E0; subst a0.
  bind_ok H. bind_ok H. bind_ok H. bind_ok H.
  assert (Hinit : route_inv layer_gates qubit_mapping
                    (mk_route_state qubit_mapping a0 [a] [] [] [] 0)).
  { exists []. cbn. split; [|split; [reflexivity|split; [constructor|split; [auto|split]]]].
    - destruct s; try (inversion E1; subst; reflexivity).
      bind_ok E1. inversion E1; subst a0.
      rewrite sorted_desc_Permutation.
      match goal with
      | Hm : mapM _ layer_gates = Ok _ |- _ =>
          apply mapM_keyed_snd in Hm;
          [rewrite Hm; reflexivity
          |intros x y Hxy; bind_ok Hxy; bind_ok Hxy; inversion Hxy; reflexivity]
      end.
    - constructor; [|constructor]. eapply snapshot_gates; eauto.
    - intros _. reflexivity. }
  destruct (route_loop_inv kamis_solve maximalis_solve kamis_sound maximalis_sound
              layer_gates qubit_mapping Hdisj Hinj fuel s w n_q _ _ Hinit E2)
    as [(executed & Hperm & Hgd & Hids & _ & Hquiet & Hhead) Hrem].
  rewrite Hrem, app_nil_r in Hperm.
  destruct (map_gates_set_last (rs_gates_dict a1) a2 (rs_layers a1) Hquiet E3)
    as [Hlen Hshape].
  assert (Hfired : fired_ok layer_gates (rs_gates_dict a1)).
  { split; [rewrite Hgd; exact Hperm|exact Hids]. }
  assert (Hzero : a2 = 0 -> rs_gates_dict a1 = []) by (intros ->; apply Hhead; lia).
  assert (Htail : exists b, map l_gates (fst a3)
                            = (replicate a2 [] ++ [rs_gates_dict a1]) ++ replicate b []).
  { destruct ((index_list_gate + 1 <? length list_gates) || r2i).
    - destruct r2i.
      + bind_ok E4. inversion E4; subst a3; clear E4. cbn [fst].
        match goal with
        | Ht : reverse_to_initial_tail _ _ _ = Ok _ |- _ =>
            apply reverse_to_initial_tail_gates in Ht; [|eapply snapshot_gates; eauto];
            destruct Ht as [b Hb]
        end.
        exists b. rewrite Hb, Hshape. reflexivity.
      + bind_ok E4. bind_ok E4. bind_ok E4. inversion E4; subst a3; clear E4. cbn [fst].
        match goal with
        | Ht : replace_loop _ _ _ _ _ _ _ _ _ = Ok _ |- _ =>
            apply replace_loop_gates in Ht; destruct Ht as [b Hb]
        end.
        exists b. rewrite Hb. cbn [rs_layers]. rewrite Hshape. reflexivity.
    - inversion E4; subst a3. cbn [fst]. exists 0. simpl.
      rewrite app_nil_r. exact Hshape. }
  destruct Htail as [b Hb]. destruct a3 as [ls im]. cbn [fst] in Hb.
  bind_ok H. inversion H; subst layers final_mapping; clear H.
  exists (rs_gates_dict a1), a2, b.
  split; [exact Hfired|]. split; [|exact Hzero].
  rewrite map_gates_alter by reflexivity. rewrite Hb, <- app_assoc. reflexivity.
Qed.

(** The mapping returned for a layer is the one given, or the one of the
    partial placer run on the one given. *)
Lemma route_qubit_mis_mapping (fuel : nat) (chip_dim : nat * nat) (n_q index_list_gate : nat)
    (list_gates : list (list gate)) (qubit_mapping : mapping) (s : strategy)
    (r2i l2 w : bool) (layers : list layer) (final_mapping : mapping) :
  route_qubit_mis kamis_solve maximalis_solve list_of_set place_qubit_partial
    fuel chip_dim n_q index_list_gate list_gates qubit_mapping s r2i l2 w
    = Ok (layers, final_mapping) ->
  final_mapping = qubit_mapping \/
  exists next_gates targets,
    place_qubit_partial chip_dim n_q next_gates qubit_mapping targets l2 = Ok final_mapping.
Proof.
  intros H. unfold route_qubit_mis in H.
  bind_ok H. bind_ok H. bind_ok H. bind_ok H. bind_ok H. bind_ok H.
  destruct a4 as [ls im]. bind_ok H. inversion H; subst layers final_mapping; clear H.
  match goal with
  | Ht : (if _ then _ else _) = Ok (ls, im) |- _ => rename Ht into Hend
  end.
  destruct ((index_list_gate + 1 <? length list_gates) || r2i).
  - destruct r2i.
    + bind_ok Hend. inversion Hend. left. reflexivity.
    + bind_ok Hend. bind_ok Hend. bind_ok Hend. inversion Hend; subst. right. eauto.
  - inversion Hend. left. reflexivity.
Qed.

End LayerResult.

Definition nonempty {A : Type} (l : list A) : Prop := 0 < length l.

#[global] Instance nonempty_dec {A : Type} (l : list A) : Decision (nonempty l).
Proof. unfold nonempty. apply _. Defined.

Lemma filter_nonempty_replicate {A : Type} (n : nat) :
  filter nonempty (replicate n (@nil A)) = [].
Proof.
  induction n as [|n IH]; [reflexivity|]. simpl.
  rewrite filter_cons_False; [exact IH|]. unfold nonempty. simpl. lia.
Qed.

Lemma filter_nonempty_profile {A : Type} (a b : nat) (gd : list A) :
  filter nonempty (replicate a [] ++ [gd] ++ replicate b []) = filter nonempty [gd].
Proof.
  rewrite !filter_app, !filter_nonempty_replicate, app_nil_r. reflexivity.
Qed.

Lemma concat_filter_nonempty {A : Type} (ls : list (list A)) :
  concat (filter nonempty ls) = concat ls.
Proof.
  induction ls as [|l ls IH]; [reflexivity|].
  destruct l as [|x l].
  - rewrite filter_cons_False; [exact IH|]. unfold nonempty. simpl. lia.
  - rewrite filter_cons_True; [|unfold nonempty; simpl; lia].
    simpl. rewrite IH. reflexivity.
Qed.

Lemma fired_ok_nonempty (layer_gates : list gate) (gd : list gate_rec) :
  fired_ok layer_gates gd -> (nonempty layer_gates <-> nonempty gd).
Proof.
  intros [Hp _]. apply Permutation_length in Hp. rewrite length_map in Hp.
  unfold nonempty. lia.
Qed.

Lemma fired_ok_concat (ls : list (list gate)) (fired : list (list gate_rec)) :
  Forall2 fired_ok ls fired ->
  Permutation (map pair_of (concat fired)) (concat ls).
Proof.
  induction 1 as [|l f ls fired [Hp _] _ IH]; [reflexivity|].
  simpl. rewrite map_app. apply Permutation_app; assumption.
Qed.

(** ** Further properties of the router *)

(** X7: two motions are compatible exactly when, along each axis, their
    start coordinates compare the way their end coordinates do. *)
Theorem compatible_2D_order (a0 a1 a2 a3 b0 b1 b2 b3 : Z) :
  compatible_2D (a0, a1, a2, a3) (b0, b1, b2, b3) = true <->
  (a0 ?= b0)%Z = (a1 ?= b1)%Z /\ (a2 ?= b2)%Z = (a3 ?= b3)%Z.
Proof.
  rewrite compatible_2D_spec. unfold axis_ok.
  destruct (Z.compare_spec a0 b0), (Z.compare_spec a1 b1),
    (Z.compare_spec a2 b2), (Z.compare_spec a3 b3);
    split; intros [Hx Hy]; try discriminate; try (split; reflexivity); lia.
Qed.

(** *** The greedy independent set is maximal *)

Lemma mark_only (c : list bool) (l : list nat) (k : nat) :
  foldl (fun c j => <[j := true]> c) c l !! k = Some true ->
  c !! k = Some true \/ In k l.
Proof.
  revert c. induction l as [|j l IH]; intros c H; simpl in H; [left; exact H|].
  apply IH in H. destruct H as [H|H]; [|right; right; exact H].
  destruct (Nat.eq_dec j k) as [->|Hne]; [right; left; reflexivity|].
  rewrite list_lookup_insert_ne in H by exact Hne. left. exact H.
Qed.

(** After the vertices below [k]: a vertex is marked only by a selected
    neighbour, and every vertex below [k] is selected or has a selected
    neighbour before it. *)
Definition greedy_max (nn : list (list nat)) (k : nat) (st : list bool * list nat) : Prop :=
  (forall j, fst st !! j = Some true -> exists r, In r (snd st) /\ In j (nn !!! r)) /\
  (forall j, j < k -> In j (snd st) \/
                      exists r, In r (snd st) /\ r < j /\ In j (nn !!! r)).

Lemma greedy_max_run (nn : list (list nat)) (n k : nat) :
  k <= n ->
  greedy_max nn k (foldl (mis_visit nn) (replicate n false, []) (seq 0 k)).
Proof.
  induction k as [|k IH]; intros Hk.
  - split.
    + intros j Hj. cbn in Hj. apply lookup_replicate in Hj. destruct Hj; discriminate.
    + intros j Hj. lia.
  - rewrite seq_S, foldl_snoc. cbn [Nat.add].
    pose proof (greedy_inv_run nn n k ltac:(lia)) as (Hlen & Hlt & _ & _).
    destruct (IH ltac:(lia)) as [Hmark Hdone].
    set (st := foldl (mis_visit nn) (replicate n false, []) (seq 0 k)) in *.
    unfold mis_visit. destruct (fst st !!! k) eqn:E.
    + split; [exact Hmark|]. intros j Hj.
      destruct (Nat.eq_dec j k) as [->|Hne]; [|apply Hdone; lia].
      right. assert (Hc : fst st !! k = Some true).
      { rewrite <- E. apply list_lookup_lookup_total_lt. lia. }
      destruct (Hmark k Hc) as (r & Hr & Hadj).
      exists r. split; [exact Hr|]. split; [exact (Hlt r Hr)|exact Hadj].
    + cbn [fst snd]. split.
      * intros j Hj. apply mark_only in Hj. destruct Hj as [Hj|Hj].
        -- destruct (Hmark j Hj) as (r & Hr & Hadj).
           exists r. split; [apply in_app_iff; left; exact Hr|exact Hadj].
        -- exists k. split; [apply in_app_iff; right; left; reflexivity|exact Hj].
      * intros j Hj. destruct (Nat.eq_dec j k) as [->|Hne].
        -- left. apply in_app_iff. right. left. reflexivity.
        -- destruct (Hdone j ltac:(lia)) as [Hin|(r & Hr & Hrj & Hadj)].
           ++ left. apply in_app_iff. left. exact Hin.
           ++ right. exists r. split; [apply in_app_iff; left; exact Hr|].
              split; assumption.
Qed.

(** X8: the set returned by [maximalis_solve_sort] is maximal, and it is the
    greedy one: every vertex below [n] that is left out is joined by an edge
    to a selected vertex with a smaller index. *)
Theorem maximalis_solve_sort_maximal (n : nat) (edges : list (nat * nat))
    (result : list nat) (j : nat) :
  maximalis_solve_sort n edges = Ok result ->
  j < n -> ~ In j result ->
  exists r, In r result /\ r < j /\ (In (r, j) edges \/ In (j, r) edges).
Proof.
  unfold maximalis_solve_sort. intros H Hj Hout.
  destruct (foldM add_neighbors edges (replicate n [])) as [nn| |] eqn:E;
    simpl in H; try discriminate.
  inversion H; subst result; clear H.
  apply node_neighbors_spec in E. destruct E as (_ & _ & Hadj).
  destruct (greedy_max_run nn n n (le_n n)) as [_ Hdone].
  destruct (Hdone j Hj) as [Hin|(r & Hr & Hrj & Hnb)]; [contradiction|].
  exists r. split; [exact Hr|]. split; [exact Hrj|].
  apply Hadj in Hnb. destruct Hnb as [Hnb|Hnb]; [|exact Hnb].
  rewrite list_lookup_total_alt in Hnb.
  destruct (replicate n [] !! r) as [l|] eqn:Hl.
  - apply lookup_replicate in Hl. destruct Hl as [-> _]. destruct Hnb.
  - destruct Hnb.
Qed.

Lemma maximalis_solve_sort_maximal_witness :
  maximalis_solve_sort 3 [(0, 1); (1, 2)] = Ok [0; 2] /\
  exists r, In r [0; 2] /\ r < 1 /\ (In (r, 1) [(0, 1); (1, 2)] \/ In (1, r) [(0, 1); (1, 2)]).
Proof.
  split; [reflexivity|].
  apply (maximalis_solve_sort_maximal 3 [(0, 1); (1, 2)] [0; 2] 1).
  - reflexivity.
  - lia.
  - intros [H|[H|[]]]; discriminate.
Defined.

(** X9: [maximalis_solve_sort] raises [KeyError] exactly when an edge names a
    vertex that is not below [n]; otherwise it returns a result. *)
Theorem maximalis_solve_sort_KeyError (n : nat) (edges : list (nat * nat)) :
  (maximalis_solve_sort n edges = Raise KeyError <->
   exists e, In e edges /\ (n <= fst e \/ n <= snd e)) /\
  ((forall e, In e edges -> fst e < n /\ snd e < n) <->
   exists result, maximalis_solve_sort n edges = Ok result).
Proof.
  assert (Hfold : forall (es : list (nat * nat)) (nn : list (list nat)),
             length nn = n ->
             (exists e, In e es /\ (n <= fst e \/ n <= snd e)) ->
             foldM add_neighbors es nn = Raise KeyError).
  { induction es as [|e es IH]; intros nn Hlen (e' & Hin & Hbad); [destruct Hin|].
    cbn [foldM]. destruct (add_neighbors nn e) as [nn1| |] eqn:E.
    - pose proof (add_neighbors_spec _ _ _ E) as (Ha & Hb & Hlen1 & _).
      cbn. apply IH; [congruence|]. destruct Hin as [<-|Hin]; [lia|].
      exists e'. split; assumption.
    - unfold add_neighbors in E. destruct (nn !! fst e); [|inversion E; reflexivity].
      destruct (_ !! snd e); [discriminate|inversion E; reflexivity].
    - unfold add_neighbors in E. destruct (nn !! fst e); [|discriminate].
      destruct (_ !! snd e); discriminate. }
  assert (Hbad : (exists e, In e edges /\ (n <= fst e \/ n <= snd e)) ->
                 maximalis_solve_sort n edges = Raise KeyError).
  { intros H. unfold maximalis_solve_sort.
    rewrite (Hfold edges (replicate n []) (length_replicate _ _) H). reflexivity. }
  assert (Hdec : (forall e, In e edges -> fst e < n /\ snd e < n) \/
                 (exists e, In e edges /\ (n <= fst e \/ n <= snd e))).
  { clear. induction edges as [|e edges IH]; [left; intros e []|].
    destruct IH as [IH|(e' & Hin & Hb)].
    - destruct (Nat.lt_ge_cases (fst e) n) as [Ha|Ha];
        [destruct (Nat.lt_ge_cases (snd e) n) as [Hb|Hb]|].
      + left. intros e' [<-|Hin]; [split; assumption|apply IH; exact Hin].
      + right. exists e. split; [left; reflexivity|right; exact Hb].
      + right. exists e. split; [left; reflexivity|left; exact Ha].
    - right. exists e'. split; [right; exact Hin|exact Hb]. }
  split; split.
  - intros H. destruct Hdec as [Hok|Hex]; [|exact Hex].
    destruct (maximalis_solve_sort_total n edges Hok) as [result Hr]. congruence.
  - exact Hbad.
  - apply maximalis_solve_sort_total.
  - intros [result Hr]. destruct Hdec as [Hok|Hex]; [exact Hok|].
    rewrite (Hbad Hex) in Hr. discriminate.
Qed.

(** *** The two qubits of a gate meet *)

Lemma qubits_of_lookup (gs : list gate) (g a b : nat) :
  gs !! g = Some (a, b) ->
  qubits_of gs !! (2 * g) = Some a /\ qubits_of gs !! (2 * g + 1) = Some b.
Proof.
  revert g. induction gs as [|[a' b'] gs IH]; intros g H; [discriminate|].
  destruct g as [|g].
  - inversion H; subst. split; reflexivity.
  - cbn in H. destruct (IH g H) as [H1 H2].
    replace (2 * S g) with (S (S (2 * g))) by lia.
    replace (S (S (2 * g)) + 1) with (S (S (2 * g + 1))) by lia.
    split; assumption.
Qed.

(** In a layer whose gates share no qubit, a qubit names its gate. *)
Lemma same_gate (gs : list gate) (g1 g2 : nat) (p1 p2 : gate) (x : nat) :
  NoDup (qubits_of gs) ->
  gs !! g1 = Some p1 -> gs !! g2 = Some p2 ->
  (x = fst p1 \/ x = snd p1) -> (x = fst p2 \/ x = snd p2) ->
  g1 = g2.
Proof.
  intros Hnd H1 H2 Hx1 Hx2. destruct p1 as [a1 b1], p2 as [a2 b2]. cbn in Hx1, Hx2.
  destruct (qubits_of_lookup _ _ _ _ H1) as [Ha1 Hb1].
  destruct (qubits_of_lookup _ _ _ _ H2) as [Ha2 Hb2].
  destruct Hx1 as [->| ->]; destruct Hx2 as [E|E]; subst.
  - pose proof (NoDup_lookup _ _ _ _ Hnd Ha1 Ha2). lia.
  - pose proof (NoDup_lookup _ _ _ _ Hnd Ha1 Hb2). lia.
  - pose proof (NoDup_lookup _ _ _ _ Hnd Hb1 Ha2). lia.
  - pose proof (NoDup_lookup _ _ _ _ Hnd Hb1 Hb2). lia.
Qed.

(** The qubit that candidate [i] moves, and the one it is moved onto. *)
Definition mover (remain : list gate) (i : nat) : nat :=
  if i mod 2 =? 0 then fst (remain !!! (i / 2)) else snd (remain !!! (i / 2)).

Definition partner (remain : list gate) (i : nat) : nat :=
  if i mod 2 =? 0 then snd (remain !!! (i / 2)) else fst (remain !!! (i / 2)).

Lemma pick_mover_spec (remain : list gate) (sel : list nat)
    (acc acc' : list nat * list nat * gmap nat nat) :
  foldM (pick_mover remain) sel acc = Ok acc' ->
  fst (fst acc') = fst (fst acc) ++ map (mover remain) sel /\
  (forall i, In i sel -> i / 2 < length remain) /\
  (forall q p, snd acc' !! q = Some p ->
     snd acc !! q = Some p \/
     exists i, In i sel /\ q = mover remain i /\ p = partner remain i) /\
  (forall q, is_Some (snd acc !! q) -> is_Some (snd acc' !! q)) /\
  (forall i, In i sel -> is_Some (snd acc' !! mover remain i)).
Proof.
  revert acc. induction sel as [|i sel IH]; intros acc H.
  - inversion H; subst. rewrite app_nil_r. repeat split; auto; intros i [].
  - cbn [foldM] in H. bind_ok H.
    destruct (IH _ H) as (Haod & Hlt & Hbind & Hdom & Hsel). clear IH.
    unfold pick_mover in E. destruct acc as [[aod0 sa0] tg0].
    bind_ok E. apply get_ok in E0.
    pose proof (lookup_lt_Some _ _ _ E0) as Hi.
    assert (Ha : fst (fst a) = aod0 ++ [mover remain i] /\
                 snd a = <[mover remain i := partner remain i]> tg0).
    { unfold mover, partner. rewrite (list_lookup_total_correct _ _ _ E0).
      destruct (i mod 2 =? 0); inversion E; subst a; split; reflexivity. }
    destruct Ha as [Ha1 Ha2]. cbn [fst snd].
    split; [rewrite Haod, Ha1, <- app_assoc; reflexivity|].
    split; [intros j [<-|Hj]; [exact Hi|exact (Hlt j Hj)]|].
    split; [|split].
    + intros q p Hq. destruct (Hbind q p Hq) as [Hq'|(j & Hj & -> & ->)].
      * rewrite Ha2 in Hq'. destruct (decide (mover remain i = q)) as [<-|Hne].
        -- rewrite lookup_insert_eq in Hq'. inversion Hq'; subst p.
           right. exists i. split; [left; reflexivity|split; reflexivity].
        -- rewrite lookup_insert_ne in Hq' by exact Hne. left. exact Hq'.
      * right. exists j. split; [right; exact Hj|split; reflexivity].
    + intros q Hq. apply Hdom. rewrite Ha2.
      destruct (decide (mover remain i = q)) as [<-|Hne].
      * rewrite lookup_insert_eq. eauto.
      * rewrite lookup_insert_ne by exact Hne. exact Hq.
    + intros j [<-|Hj]; [|exact (Hsel j Hj)].
      apply Hdom. rewrite Ha2, lookup_insert_eq. eauto.
Qed.

Lemma foldM_seq_ind {T : Type} (P : nat -> T -> Prop) (f : T -> nat -> res T)
    (a n : nat) (s s' : T) :
  (forall k s s', a <= k < a + n -> P k s -> f s k = Ok s' -> P (S k) s') ->
  P a s -> foldM f (seq a n) s = Ok s' -> P (a + n) s'.
Proof.
  revert a s. induction n as [|n IH]; intros a s Hstep Ha H.
  - inversion H; subst. rewrite Nat.add_0_r. exact Ha.
  - cbn [seq foldM] in H. bind_ok H.
    replace (a + S n) with (S a + n) by lia.
    apply (IH (S a) a0); [|eapply Hstep; eauto; lia|exact H].
    intros k s1 s2 Hk. apply Hstep. lia.
Qed.

(** A mover whose target stays put ends on the site of its target. *)
Lemma move_qubits_spec (n_q : nat) (aod : list nat) (target : gmap nat nat)
    (qm qm' : mapping) (q p : nat) :
  move_qubits n_q aod target qm = Ok qm' ->
  q < n_q -> In q aod -> target !! q = Some p -> ~ In p aod ->
  qm' !! q = qm !! p /\ is_Some (qm !! p).
Proof.
  intros H Hq Hin Ht Hp. unfold move_qubits in H.
  apply (foldM_seq_ind
           (fun k (m : mapping) =>
              (forall x, ~ In x aod -> m !! x = qm !! x) /\
              (q < k -> m !! q = qm !! p /\ is_Some (qm !! p)) /\
              (k <= q -> m !! q = qm !! q))) in H.
  - destruct H as (_ & H & _). apply H. cbn. exact Hq.
  - intros k m m' _ (Hframe & Hdone & Htodo) Hstep.
    destruct (decide (k ∈ aod)) as [Hk|Hk].
    + destruct (target !! k) as [t|] eqn:Htk; [|discriminate].
      bind_ok Hstep. apply get_ok in E.
      destruct (Nat.ltb_spec k (length m)) as [Hlt|]; [|discriminate].
      inversion Hstep; subst m'; clear Hstep.
      split; [|split].
      * intros x Hx. rewrite list_lookup_insert_ne; [exact (Hframe x Hx)|].
        intros ->. apply Hx. apply list_elem_of_In. exact Hk.
      * intros Hqk. destruct (decide (k = q)) as [->|Hne].
        -- rewrite list_lookup_insert_eq by exact Hlt.
           rewrite Ht in Htk. inversion Htk; subst t.
           rewrite (Hframe p Hp) in E. rewrite E. split; [reflexivity|eauto].
        -- rewrite list_lookup_insert_ne by exact Hne. apply Hdone. lia.
      * intros Hkq. rewrite list_lookup_insert_ne by lia. apply Htodo. lia.
    + inversion Hstep; subst m'. split; [exact Hframe|]. split.
      * intros Hqk. destruct (decide (k = q)) as [->|Hne].
        -- exfalso. apply Hk. apply list_elem_of_In. exact Hin.
        -- apply Hdone. lia.
      * intros Hkq. apply Htodo. lia.
  - split; [reflexivity|]. split; [intros Hlt; lia|reflexivity].
Qed.

Lemma mover_partner (remain : list gate) (i a b : nat) :
  remain !! (i / 2) = Some (a, b) ->
  (mover remain i = a /\ partner remain i = b) \/
  (mover remain i = b /\ partner remain i = a).
Proof.
  intros H. unfold mover, partner. rewrite (list_lookup_total_correct _ _ _ H).
  destruct (i mod 2 =? 0); [left|right]; split; reflexivity.
Qed.

Lemma NoDup_map_eq {A B : Type} (f : A -> B) (l : list A) (x y : A) :
  NoDup (map f l) -> In x l -> In y l -> f x = f y -> x = y.
Proof.
  induction l as [|z l IH]; intros Hnd Hx Hy Hf; [destruct Hx|].
  cbn in Hnd. apply NoDup_cons in Hnd. destruct Hnd as [Hz Hnd].
  destruct Hx as [->|Hx]; destruct Hy as [->|Hy].
  - reflexivity.
  - exfalso. apply Hz. rewrite Hf. apply list_elem_of_In, in_map. exact Hy.
  - exfalso. apply Hz. rewrite <- Hf. apply list_elem_of_In, in_map. exact Hx.
  - exact (IH Hnd Hx Hy Hf).
Qed.

(** One round of the first phase: every selected candidate brings its qubit
    onto the site of the other qubit of its gate. *)
Lemma round_meets (remain : list gate) (sel sa0 aod sa : list nat) (tg : gmap nat nat)
    (n_q : nat) (qm qm' : mapping) (i : nat) :
  NoDup (qubits_of remain) ->
  NoDup (map (fun i => i / 2) sel) ->
  (forall q, In q (qubits_of remain) -> q < n_q) ->
  foldM (pick_mover remain) sel ([], sa0, ∅) = Ok (aod, sa, tg) ->
  move_qubits n_q aod tg qm = Ok qm' ->
  In i sel ->
  qm' !! mover remain i = qm' !! partner remain i.
Proof.
  intros Hnd Hhalves Hrange Hpick Hmove Hi.
  destruct (pick_mover_spec _ _ _ _ Hpick) as (Haod & Hlt & Hbind & _ & Hsel).
  cbn [fst snd app] in Haod, Hbind, Hsel. subst aod.
  destruct (lookup_lt_is_Some_2 remain (i / 2) (Hlt i Hi)) as [[a b] Hg].
  assert (Hab : a <> b).
  { apply (qubits_distinct remain); [exact Hnd|].
    apply list_elem_of_In. eapply list_elem_of_lookup_2; eauto. }
  assert (Hsame : forall j, In j sel ->
                    mover remain j = mover remain i \/ mover remain j = partner remain i ->
                    j = i).
  { intros j Hj Hshare.
    destruct (lookup_lt_is_Some_2 remain (j / 2) (Hlt j Hj)) as [[a' b'] Hg'].
    apply (NoDup_map_eq (fun i => i / 2) sel); [exact Hhalves|exact Hj|exact Hi|].
    destruct (mover_partner _ _ _ _ Hg) as [[E1 E2]|[E1 E2]];
      destruct (mover_partner _ _ _ _ Hg') as [[E3 _]|[E3 _]];
      rewrite E1, E2, E3 in Hshare;
      apply (same_gate remain (j / 2) (i / 2) (a', b') (a, b) (mover remain j)
               Hnd Hg' Hg); cbn; rewrite ?E3; destruct Hshare; auto. }
  assert (Hne : mover remain i <> partner remain i).
  { destruct (mover_partner _ _ _ _ Hg) as [[-> ->]|[-> ->]]; congruence. }
  assert (Htg : tg !! mover remain i = Some (partner remain i)).
  { destruct (Hsel i Hi) as [p Hp].
    destruct (Hbind _ _ Hp) as [Hempty|(j & Hj & Hm & ->)].
    - rewrite lookup_empty in Hempty. discriminate.
    - rewrite (Hsame j Hj (or_introl (eq_sym Hm))) in Hp. exact Hp. }
  assert (Hout : ~ In (partner remain i) (map (mover remain) sel)).
  { intros Hin. apply in_map_iff in Hin. destruct Hin as (j & Hm & Hj).
    pose proof (Hsame j Hj (or_intror Hm)) as ->. exact (Hne Hm). }
  assert (Hq : mover remain i < n_q).
  { apply Hrange. destruct (in_qubits_of remain a b) as [Ha Hb].
    - apply list_elem_of_In. eapply list_elem_of_lookup_2; eauto.
    - destruct (mover_partner _ _ _ _ Hg) as [[-> _]|[-> _]]; assumption. }
  destruct (move_qubits_spec _ _ _ _ _ _ _ Hmove Hq (in_map _ _ _ Hi) Htg Hout)
    as [Hmv _].
  rewrite Hmv. symmetry. exact (move_qubits_frame _ _ _ _ _ Hmove _ Hout).
Qed.

(** The sites of a sub-layer: [(q["x"], q["y"])] for each entry of
    ["qubits"]. *)
Definition sites (l : layer) : list site := map (fun q => (q_x q, q_y q)) (l_qubits l).

(** In a sub-layer the gates meet when, for every entry of ["gates"], the
    entries [qubits[q0]] and [qubits[q1]] exist and have the same x and y. *)
Definition gates_meet (l : layer) : Prop :=
  forall e, In e (l_gates l) ->
    exists s, sites l !! g_q0 e = Some s /\ sites l !! g_q1 e = Some s.

Lemma gates_meet_quiet (l : layer) : l_gates l = [] -> gates_meet l.
Proof. intros H e He. rewrite H in He. destruct He. Qed.

Lemma gates_meet_eq (l l' : layer) :
  sites l' = sites l -> l_gates l' = l_gates l -> gates_meet l -> gates_meet l'.
Proof. unfold gates_meet. intros -> ->. auto. Qed.

Lemma map_alter_keep {A B : Type} (f : A -> B) (g : A -> A) (k : nat) (l : list A) :
  (forall x, f (g x) = f x) -> map f (alter g k l) = map f l.
Proof.
  intros Hf. revert k. induction l as [|x l IH]; intros k; [reflexivity|].
  destruct k; simpl; [rewrite Hf; reflexivity|]. f_equal. apply IH.
Qed.

Lemma gates_meet_mark_aod (aod : list nat) (l : layer) :
  gates_meet l -> gates_meet (mark_aod aod l).
Proof.
  apply gates_meet_eq; [|reflexivity].
  unfold sites, mark_aod. cbn [l_qubits]. rewrite map_map. apply map_ext.
  intros q. destruct (decide (q_id q ∈ aod)); reflexivity.
Qed.

Lemma gates_meet_alter_qubits (f : qubit_rec -> qubit_rec) (q : nat) (l : layer) :
  (forall r, (q_x (f r), q_y (f r)) = (q_x r, q_y r)) ->
  gates_meet l -> gates_meet (mk_layer (alter f q (l_qubits l)) (l_gates l)).
Proof.
  intros Hf. apply gates_meet_eq; [|reflexivity].
  unfold sites. cbn [l_qubits]. apply map_alter_keep. exact Hf.
Qed.

Lemma snapshot_sites (n_q : nat) (qm : mapping) (l : layer) :
  snapshot n_q qm = Ok l ->
  length (sites l) = n_q /\ forall q, q < n_q -> sites l !! q = qm !! q.
Proof.
  unfold snapshot. intros H. bind_ok H. inversion H; subst l; clear H.
  apply mapM_Forall2 in E. unfold sites. cbn [l_qubits]. split.
  - rewrite length_map, <- (Forall2_length _ _ _ E). apply length_seq.
  - intros q Hq.
    destruct (Forall2_lookup_l _ _ _ q q E) as (r & Hr & Hf);
      [apply lookup_seq; lia|].
    bind_ok Hf. inversion Hf; subst r. apply get_ok in E0.
    rewrite lookup_map, Hr. cbn. rewrite E0. destruct a0; reflexivity.
Qed.

Section Meeting.

Variable kamis_solve : nat -> list (nat * nat) -> nat -> res (list nat).
Variable maximalis_solve : nat -> list (nat * nat) -> res (list nat).
Variable list_of_set : list nat -> list nat.
Variable place_qubit_partial :
  nat * nat -> nat -> list (list gate) -> mapping -> list nat -> bool -> res mapping.

Hypothesis kamis_sound :
  forall n edges batch sel,
    kamis_solve n edges batch = Ok sel -> independent_set n edges sel.
Hypothesis maximalis_sound :
  forall n edges sel, maximalis_solve n edges = Ok sel -> independent_set n edges sel.

Variable layer_gates : list gate.
Variable m0 : mapping.
Variable n_q : nat.
Hypothesis layer_disjoint : NoDup (qubits_of layer_gates).
Hypothesis m0_injective : NoDup m0.
Hypothesis layer_range : forall q, In q (qubits_of layer_gates) -> q < n_q.

(** The invariant of the first routing phase, continued: the two qubits of
    every executed gate are on one site of the current mapping, and the last
    sub-layer shows the current mapping. *)
Definition meet_inv (st : route_state) : Prop :=
  route_inv layer_gates m0 st /\
  (forall e, In e (rs_gates_dict st) ->
             rs_mapping st !! g_q0 e = rs_mapping st !! g_q1 e) /\
  exists init last,
    rs_layers st = init ++ [last] /\
    length (sites last) = n_q /\
    forall q, q < n_q -> sites last !! q = rs_mapping st !! q.

Lemma route_step_meet (s : strategy) (w : bool) (st st' : route_state) :
  meet_inv st ->
  route_step kamis_solve maximalis_solve s w n_q layer_gates st = Ok st' ->
  meet_inv st'.
Proof.
  intros (Hinv & Hmeet & init & last & Hlayers & _ & _) H.
  split; [exact (route_step_inv kamis_solve maximalis_solve kamis_sound maximalis_sound
                   layer_gates m0 layer_disjoint m0_injective s w n_q st st' Hinv H)|].
  unfold route_step in H.
  bind_ok H. bind_ok H. bind_ok H. destruct a1 as [[aod set_aod] target].
  bind_ok H. bind_ok H. bind_ok H. bind_ok H. bind_ok H.
  inversion H; subst st'; clear H.
  cbn [rs_remain rs_gates_dict rs_mapping rs_layers].
  apply (solve_first_sound kamis_solve maximalis_solve kamis_sound maximalis_sound) in E0.
  pose proof (halves_nodup layer_gates m0 layer_disjoint m0_injective w st a a0
                Hinv E E0) as HD.
  apply mapM_get_spec in E2. destruct E2 as [Htmp Hlt].
  destruct Hinv as (executed & Hperm & Hgd & _ & _ & _ & _).
  pose proof (qubits_of_Permutation _ _ Hperm) as Hq. rewrite qubits_of_app in Hq.
  assert (Hnd : NoDup (qubits_of executed ++ qubits_of (rs_remain st))).
  { eapply NoDup_Permutation_proper; [exact Hq|exact layer_disjoint]. }
  apply NoDup_app in Hnd. destruct Hnd as (_ & Hdisj & Hndr).
  assert (Hrange : forall q, In q (qubits_of (rs_remain st)) -> q < n_q).
  { intros q Hin. apply layer_range. eapply Permutation_in; [exact Hq|].
    apply in_app_iff. right. exact Hin. }
  assert (Hsub : forall g, In g a1 -> In g (rs_remain st)).
  { intros g Hg. rewrite Htmp in Hg. apply in_map_iff in Hg.
    destruct Hg as (i & <- & Hi). apply list_elem_of_In.
    apply list_elem_of_lookup_total_2. apply Hlt. exact Hi. }
  assert (Hpairs : map pair_of a2 = a1).
  { apply (gate_entries_spec layer_gates); [|exact E3].
    intros g Hg. apply list_elem_of_In. eapply Permutation_in; [exact Hperm|].
    apply in_app_iff. right. apply Hsub. exact Hg. }
  split.
  - intros e He. apply in_app_iff in He. destruct He as [He|He].
    + assert (Hex : In (pair_of e) executed)
        by (rewrite <- Hgd; apply in_map; exact He).
      destruct (in_qubits_of _ _ _ Hex) as [H0 H1].
      assert (Hout : forall q, In q (qubits_of executed) -> ~ In q aod).
      { intros q Hin Haod.
        destruct (pick_mover_aod _ _ _ _ E1 q Haod) as [[]|Hin'].
        rewrite <- Htmp in Hin'. apply list_elem_of_In in Hin.
        apply (Hdisj _ Hin). apply list_elem_of_In.
        unfold qubits_of in *. apply in_flat_map in Hin'.
        destruct Hin' as (g & Hg & Hqg). apply in_flat_map. exists g.
        split; [apply Hsub; exact Hg|exact Hqg]. }
      rewrite (move_qubits_frame _ _ _ _ _ E4 _ (Hout _ H0)).
      rewrite (move_qubits_frame _ _ _ _ _ E4 _ (Hout _ H1)).
      apply Hmeet. exact He.
    + assert (Hin : In (pair_of e) a1) by (rewrite <- Hpairs; apply in_map; exact He).
      rewrite Htmp in Hin. apply in_map_iff in Hin. destruct Hin as (i & Hi & Hsel).
      pose proof (round_meets _ _ _ _ _ _ _ _ _ i Hndr HD Hrange E1 E4 Hsel) as Hm.
      destruct (lookup_lt_is_Some_2 _ _ (Hlt i Hsel)) as [[x y] Hg].
      rewrite (list_lookup_total_correct _ _ _ Hg) in Hi.
      unfold pair_of in Hi. injection Hi as Hx Hy. rewrite <- Hx, <- Hy.
      destruct (mover_partner _ _ _ _ Hg) as [[E7 E8]|[E7 E8]];
        rewrite E7, E8 in Hm; congruence.
  - unfold from_end in E6. rewrite length_app in E6. cbn [length] in E6.
    destruct (Nat.leb_spec 2 (length (rs_layers st) + 1)); [|discriminate].
    inversion E6; subst a5; clear E6.
    exists (alter (mark_aod aod) (length (rs_layers st) + 1 - 2) (rs_layers st)), a4.
    split; [apply alter_app_l; lia|].
    exact (snapshot_sites _ _ _ E5).
Qed.

Lemma route_loop_meet (fuel : nat) (s : strategy) (w : bool) (st st' : route_state) :
  meet_inv st ->
  route_loop kamis_solve maximalis_solve fuel s w n_q layer_gates st = Ok st' ->
  meet_inv st'.
Proof.
  revert st. induction fuel as [|fuel IH]; intros st Hinv H; simpl in H.
  - destruct (rs_remain st) eqn:E; [|discriminate]. inversion H; subst. auto.
  - destruct (rs_remain st) eqn:E.
    + inversion H; subst. auto.
    + bind_ok H. eapply IH; [|exact H]. eapply route_step_meet; eauto.
Qed.

(** What follows the first phase keeps the sites and the gates of the
    sub-layers made so far, and adds sub-layers without gates. *)
Lemma copy_a_from_prev_meet (ls ls' : list layer) :
  copy_a_from_prev ls = Ok ls' -> Forall gates_meet ls -> Forall gates_meet ls'.
Proof.
  unfold copy_a_from_prev. intros H Hls. bind_ok H. bind_ok H.
  apply (foldM_inv (fun l : list layer => Forall gates_meet l) _ _ _ _) in H;
    [exact H| |exact Hls].
  intros s q s' Hs Hstep. bind_ok Hstep. bind_ok Hstep. bind_ok Hstep.
  inversion Hstep; subst s'. apply Forall_alter_keep; [|exact Hs].
  intros l. apply gates_meet_alter_qubits. reflexivity.
Qed.

Lemma copy_acr_from_prev_meet (ls ls' : list layer) :
  copy_acr_from_prev ls = Ok ls' -> Forall gates_meet ls -> Forall gates_meet ls'.
Proof.
  unfold copy_acr_from_prev. intros H Hls. bind_ok H. bind_ok H.
  apply (foldM_inv (fun l : list layer => Forall gates_meet l) _ _ _ _) in H;
    [exact H| |exact Hls].
  intros s q s' Hs Hstep. bind_ok Hstep. bind_ok Hstep.
  inversion Hstep; subst s'. apply Forall_alter_keep; [|exact Hs].
  intros l. apply gates_meet_alter_qubits. reflexivity.
Qed.

Lemma reverse_to_initial_tail_meet (last_layer : layer) (ls ls' : list layer) :
  l_gates last_layer = [] ->
  reverse_to_initial_tail n_q last_layer ls = Ok ls' ->
  Forall gates_meet ls -> Forall gates_meet ls'.
Proof.
  intros Hlast H Hls. unfold reverse_to_initial_tail in H.
  bind_ok H. bind_ok H. bind_ok H. inversion H; subst ls'; clear H.
  apply copy_a_from_prev_meet in E; [|exact Hls].
  apply copy_acr_from_prev_meet in E0; [|exact E].
  apply (mapM_Forall gates_meet) in E1;
    [|intros x y Hxy; apply gates_meet_quiet; eapply reverse_layer_gates; eauto].
  apply Forall_app. split; [exact E0|]. apply Forall_app. split; [exact E1|].
  constructor; [apply gates_meet_quiet; exact Hlast|constructor].
Qed.

Lemma replace_loop_meet (fuel : nat) (s : strategy) (w : bool) (im : mapping)
    (aod : list nat) (st st' : route_state) :
  replace_loop kamis_solve maximalis_solve fuel s w n_q im aod st = Ok st' ->
  Forall gates_meet (rs_layers st) -> Forall gates_meet (rs_layers st').
Proof.
  revert aod st. induction fuel as [|fuel IH]; intros aod st H Hst; simpl in H.
  - destruct aod; [|discriminate]. inversion H; subst. exact Hst.
  - destruct aod as [|q aod].
    + inversion H; subst. exact Hst.
    + bind_ok H. apply IH in H; [exact H|].
      unfold replace_step in E. bind_ok E. bind_ok E. bind_ok E.
      destruct a2 as [aod_qubits qm]. bind_ok E. bind_ok E. bind_ok E.
      inversion E; subst a; clear E. cbn [snd rs_layers].
      apply Forall_alter_keep; [intros l; apply gates_meet_mark_aod|].
      apply Forall_app. split; [exact Hst|].
      constructor; [|constructor]. apply gates_meet_quiet.
      eapply snapshot_gates; eauto.
Qed.

(** X11: in every sub-layer returned for a layer, the two qubits of each
    listed gate are on one site; and every gate of the layer is listed in
    such a sub-layer.  The gates of the layer share no qubit, their qubits
    are below [n_q], and the mapping puts no two qubits on one site. *)
Theorem route_qubit_mis_gates_meet (fuel : nat) (chip_dim : nat * nat)
    (index_list_gate : nat) (list_gates : list (list gate)) (s : strategy)
    (r2i l2 w : bool) (layers : list layer) (final_mapping : mapping) :
  list_gates !! index_list_gate = Some layer_gates ->
  route_qubit_mis kamis_solve maximalis_solve list_of_set place_qubit_partial
    fuel chip_dim n_q index_list_gate list_gates m0 s r2i l2 w
    = Ok (layers, final_mapping) ->
  Forall gates_meet layers /\
  forall g, In g layer_gates ->
    exists l p, In l layers /\ In g (map pair_of (l_gates l)) /\
                sites l !! fst g = Some p /\ sites l !! snd g = Some p.
Proof.
  intros Hl Hrun.
  assert (Hall : Forall gates_meet layers).
  { pose proof Hrun as H. unfold route_qubit_mis in H.
    bind_ok H. bind_ok H. apply get_ok in E0. rewrite Hl in E0. inversion E0; subst a0.
    bind_ok H. bind_ok H. bind_ok H. bind_ok H.
    assert (Hinit : meet_inv (mk_route_state m0 a0 [a] [] [] [] 0)).
    { split; [|split].
      - exists []. cbn.
        split; [|split; [reflexivity|split; [constructor|split; [auto|split]]]].
        + destruct s; try (inversion E1; subst; reflexivity).
          bind_ok E1. inversion E1; subst a0.
          rewrite sorted_desc_Permutation.
          match goal with
          | Hm : mapM _ layer_gates = Ok _ |- _ =>
              apply mapM_keyed_snd in Hm;
              [rewrite Hm; reflexivity
              |intros x y Hxy; bind_ok Hxy; bind_ok Hxy; inversion Hxy; reflexivity]
          end.
        + constructor; [|constructor]. eapply snapshot_gates; eauto.
        + intros _. reflexivity.
      - intros e [].
      - exists [], a. split; [reflexivity|]. exact (snapshot_sites _ _ _ E). }
    pose proof (route_loop_meet fuel s w _ _ Hinit E2)
      as (Hinv & Hmeet & init & last & Hlayers & Hlen & Hsites).
    destruct Hinv as (executed & Hperm & Hgd & _ & _ & Hquiet & _).
    unfold from_end in E3. rewrite Hlayers, length_app in E3. cbn [length] in E3.
    destruct (Nat.leb_spec 1 (length init + 1)); [|lia]. inversion E3; subst a2; clear E3.
    assert (Hfirst : Forall gates_meet
                       (alter (set_gates (rs_gates_dict a1)) (length init + 1 - 1)
                              (rs_layers a1))).
    { rewrite Hlayers. replace (length init + 1 - 1) with (length init + 0) by lia.
      rewrite alter_app_r. cbn [alter list_alter].
      rewrite Hlayers in Hquiet. apply Forall_app in Hquiet. destruct Hquiet as [Hquiet _].
      apply Forall_app. split.
      - eapply Forall_impl; [exact Hquiet|]. intros l. apply gates_meet_quiet.
      - constructor; [|constructor]. intros e He. cbn [set_gates l_gates] in He.
        change (sites (set_gates (rs_gates_dict a1) last)) with (sites last).
        assert (Hin : In (pair_of e) layer_gates).
        { eapply Permutation_in; [exact Hperm|]. apply in_app_iff. left.
          rewrite <- Hgd. apply in_map. exact He. }
        destruct (in_qubits_of _ _ _ Hin) as [Hq0 Hq1].
        apply layer_range in Hq0. apply layer_range in Hq1.
        destruct (lookup_lt_is_Some_2 (sites last) (g_q0 e)) as [p Hp]; [lia|].
        exists p. split; [exact Hp|].
        rewrite (Hsites _ Hq1), <- (Hmeet e He), <- (Hsites _ Hq0). exact Hp. }
    assert (Htail : Forall gates_meet (fst a3)).
    { destruct ((index_list_gate + 1 <? length list_gates) || r2i).
      - destruct r2i.
        + bind_ok E4. inversion E4; subst a3; clear E4. cbn [fst].
          match goal with
          | Ht : reverse_to_initial_tail _ _ _ = Ok _ |- _ =>
              apply reverse_to_initial_tail_meet in Ht;
              [exact Ht|eapply snapshot_gates; eauto|exact Hfirst]
          end.
        + bind_ok E4. bind_ok E4. bind_ok E4. inversion E4; subst a3; clear E4. cbn [fst].
          match goal with
          | Ht : replace_loop _ _ _ _ _ _ _ _ _ = Ok _ |- _ =>
              apply replace_loop_meet in Ht; [exact Ht|exact Hfirst]
          end.
      - inversion E4; subst a3. exact Hfirst. }
    destruct a3 as [ls im]. cbn [fst] in Htail.
    bind_ok H. inversion H; subst layers final_mapping; clear H.
    apply Forall_alter_keep; [|exact Htail].
    intros l. apply gates_meet_eq; [|reflexivity].
    unfold sites. cbn [l_qubits]. rewrite map_map. reflexivity. }
  split; [exact Hall|].
  intros g Hg.
  destruct (route_qubit_mis_gates kamis_solve maximalis_solve list_of_set
              place_qubit_partial kamis_sound maximalis_sound fuel chip_dim n_q
              index_list_gate list_gates m0 s r2i l2 w layer_gates layers final_mapping
              Hl layer_disjoint m0_injective Hrun)
    as (gd & a & b & [Hperm _] & Hshape & _).
  assert (Hlk : map l_gates layers !! a = Some gd).
  { rewrite Hshape. rewrite lookup_app_r; rewrite length_replicate; [|lia].
    rewrite Nat.sub_diag. reflexivity. }
  rewrite lookup_map in Hlk.
  destruct (layers !! a) as [l|] eqn:Hla; [|discriminate].
  cbn in Hlk. injection Hlk as Hlg.
  assert (Hin : In g (map pair_of (l_gates l))).
  { rewrite Hlg. eapply Permutation_in; [symmetry; exact Hperm|exact Hg]. }
  pose proof (Forall_lookup_1 _ _ _ _ Hall Hla) as Hmeet.
  destruct (proj1 (in_map_iff _ _ _) Hin) as (e & He & Hine).
  destruct (Hmeet e Hine) as (p & Hp0 & Hp1).
  exists l, p. split; [apply list_elem_of_In; eapply list_elem_of_lookup_2; eauto|].
  split; [exact Hin|]. rewrite <- He. split; assumption.
Qed.

End Meeting.

Lemma route_qubit_mis_gates_meet_witness :
  exists layers final_mapping,
    route_qubit_mis (fun n e _ => maximalis_solve_sort n e) maximalis_solve_sort
      (fun s => s) (fun _ _ _ m _ _ => Ok m)
      4 (3, 3) 4 0 [[(0, 1); (2, 3)]; [(0, 2); (1, 3)]]
      [(0, 0); (1, 0); (0, 1); (1, 1)]%Z MaximalisSorted false false false
    = Ok (layers, final_mapping) /\
    Forall gates_meet layers /\
    forall g, In g [(0, 1); (2, 3)] ->
      exists l p, In l layers /\ In g (map pair_of (l_gates l)) /\
                  sites l !! fst g = Some p /\ sites l !! snd g = Some p.
Proof.
  eexists. eexists. split; [vm_compute; reflexivity|].
  eapply (route_qubit_mis_gates_meet
           (fun n e _ => maximalis_solve_sort n e) maximalis_solve_sort
           (fun s => s) (fun _ _ _ m _ _ => Ok m)
           (fun n e _ sel => maximalis_solve_sort_sound n e sel)
           maximalis_solve_sort_sound
           [(0, 1); (2, 3)] [(0, 0); (1, 0); (0, 1); (1, 1)]%Z 4
           ltac:(apply (bool_decide_unpack _); vm_compute; reflexivity)
           ltac:(apply (bool_decide_unpack _); vm_compute; reflexivity)
           ltac:(intros q Hq; cbn in Hq; intuition lia)
           4 (3, 3) 0 [[(0, 1); (2, 3)]; [(0, 2); (1, 3)]]
           MaximalisSorted false false false).
  - reflexivity.
  - vm_compute. reflexivity.
Defined.

(** *** Reversing retraces the positions *)

Lemma sites_mark_aod (aod : list nat) (l : layer) : sites (mark_aod aod l) = sites l.
Proof.
  unfold sites, mark_aod. cbn [l_qubits]. rewrite map_map. apply map_ext.
  intros q. destruct (decide (q_id q ∈ aod)); reflexivity.
Qed.

Lemma sites_alter_qubits (f : qubit_rec -> qubit_rec) (q : nat) (l : layer) :
  (forall r, (q_x (f r), q_y (f r)) = (q_x r, q_y r)) ->
  sites (mk_layer (alter f q (l_qubits l)) (l_gates l)) = sites l.
Proof. intros Hf. unfold sites. cbn [l_qubits]. apply map_alter_keep. exact Hf. Qed.

Lemma copy_a_from_prev_sites (ls ls' : list layer) :
  copy_a_from_prev ls = Ok ls' -> map sites ls' = map sites ls.
Proof.
  unfold copy_a_from_prev. intros H. bind_ok H. bind_ok H.
  apply (foldM_inv (fun l : list layer => map sites l = map sites ls) _ _ _ _) in H;
    [exact H| |reflexivity].
  intros s q s' Hs Hstep. bind_ok Hstep. bind_ok Hstep. bind_ok Hstep.
  inversion Hstep; subst s'. rewrite map_alter_keep; [exact Hs|].
  intros l. apply sites_alter_qubits. reflexivity.
Qed.

Lemma copy_acr_from_prev_sites (ls ls' : list layer) :
  copy_acr_from_prev ls = Ok ls' -> map sites ls' = map sites ls.
Proof.
  unfold copy_acr_from_prev. intros H. bind_ok H. bind_ok H.
  apply (foldM_inv (fun l : list layer => map sites l = map sites ls) _ _ _ _) in H;
    [exact H| |reflexivity].
  intros s q s' Hs Hstep. bind_ok Hstep. bind_ok Hstep.
  inversion Hstep; subst s'. rewrite map_alter_keep; [exact Hs|].
  intros l. apply sites_alter_qubits. reflexivity.
Qed.

(** A reverse sub-layer shows the positions of the sub-layer it mirrors. *)
Lemma reverse_layer_sites (n_q : nat) (ls : list layer) (i : nat) (l : layer) :
  reverse_layer n_q ls i = Ok l ->
  exists li, ls !! i = Some li /\ sites l = take n_q (sites li) /\ n_q <= length (sites li).
Proof.
  unfold reverse_layer. intros H. bind_ok H. bind_ok H. bind_ok H. bind_ok H.
  inversion H; subst l; clear H. apply get_ok in E. exists a. split; [exact E|].
  assert (Hqs : map (fun q => (q_x q, q_y q)) a0 = take n_q (sites a) /\
                n_q <= length (sites a)).
  { apply mapM_Forall2 in E0. clear -E0.
    assert (Hlk : forall j, j < n_q ->
               exists r q, a0 !! j = Some r /\ l_qubits a !! j = Some q /\
                           (q_x r, q_y r) = (q_x q, q_y q)).
    { intros j Hj.
      destruct (Forall2_lookup_l _ _ _ j j E0) as (r & Hr & Hf); [apply lookup_seq; lia|].
      bind_ok Hf. inversion Hf; subst r. apply get_ok in E. eauto. }
    assert (Hlen : length a0 = n_q)
      by (rewrite <- (Forall2_length _ _ _ E0); apply length_seq).
    assert (Hle : n_q <= length (sites a)).
    { unfold sites. rewrite length_map. destruct n_q as [|n]; [lia|].
      destruct (Hlk n) as (_ & q & _ & Hq & _); [lia|].
      apply lookup_lt_Some in Hq. lia. }
    split; [|exact Hle]. apply list_eq. intros j.
    rewrite lookup_map. destruct (decide (j < n_q)) as [Hj|Hj].
    - rewrite lookup_take_lt by exact Hj. unfold sites. rewrite lookup_map.
      destruct (Hlk j Hj) as (r & q & -> & -> & Heq). cbn. congruence.
    - rewrite lookup_take_ge by lia. rewrite (lookup_ge_None_2 a0) by lia. reflexivity. }
  destruct Hqs as [Hqs Hle]. split; [|exact Hle]. rewrite <- Hqs.
  unfold sites. cbn [l_qubits].
  match goal with
  | Hf : foldM _ _ a0 = Ok _ |- _ =>
      apply (foldM_inv (fun qs : list qubit_rec =>
                          map (fun q => (q_x q, q_y q)) qs
                          = map (fun q => (q_x q, q_y q)) a0) _ _ _ _) in Hf;
      [exact Hf| |reflexivity]
  end.
  intros s q s' Hs Hstep. bind_ok Hstep. inversion Hstep; subst s'.
  rewrite map_alter_keep; [exact Hs|reflexivity].
Qed.

Lemma lookup_total_middle {A : Type} `{!Inhabited A} (pre mid post : list A) :
  map (fun i => (pre ++ mid ++ post) !!! i) (seq (length pre) (length mid)) = mid.
Proof.
  revert pre. induction mid as [|x mid IH]; intros pre; [reflexivity|].
  cbn [length seq map]. f_equal.
  - apply list_lookup_total_correct. apply list_lookup_middle. reflexivity.
  - specialize (IH (pre ++ [x])). rewrite length_app in IH. cbn [length] in IH.
    rewrite Nat.add_1_r, <- app_assoc in IH. exact IH.
Qed.

Lemma retrace_tail {A : Type} `{!Inhabited A} (ss : list A) :
  2 <= length ss ->
  map (fun i => ss !!! i) (rev (seq 1 (length ss - 2))) ++ [ss !!! 0] = tail (rev ss).
Proof.
  intros Hlen. destruct ss as [|s0 rest]; [cbn in Hlen; lia|].
  destruct rest as [|sk mid] using rev_ind; [cbn in Hlen; lia|]. clear IHmid.
  rewrite map_rev.
  replace (length (s0 :: mid ++ [sk]) - 2) with (length mid)
    by (cbn [length]; rewrite length_app; cbn [length]; lia).
  rewrite (lookup_total_middle [s0] mid [sk]).
  cbn [rev]. rewrite rev_app_distr. reflexivity.
Qed.

Lemma copy_a_from_prev_two (ls ls' : list layer) (n : nat) :
  copy_a_from_prev ls = Ok ls' ->
  Forall (fun p => length p = S n) (map sites ls) ->
  2 <= length ls.
Proof.
  unfold copy_a_from_prev. intros H Hall. bind_ok H. bind_ok H. apply get_ok in E0.
  assert (Hq : length (l_qubits a0) = S n).
  { assert (Hs : map sites ls !! a = Some (sites a0)) by (rewrite lookup_map, E0; reflexivity).
    pose proof (Forall_lookup_1 _ _ _ _ Hall Hs) as Hlen. unfold sites in Hlen.
    rewrite length_map in Hlen. exact Hlen. }
  rewrite Hq in H. cbn [seq foldM] in H. bind_ok H. bind_ok E1.
  unfold from_end in E2. destruct (Nat.leb_spec 2 (length ls)); [lia|discriminate].
Qed.

Section Retrace.

Variable kamis_solve : nat -> list (nat * nat) -> nat -> res (list nat).
Variable maximalis_solve : nat -> list (nat * nat) -> res (list nat).
Variable list_of_set : list nat -> list nat.
Variable place_qubit_partial :
  nat * nat -> nat -> list (list gate) -> mapping -> list nat -> bool -> res mapping.

(** Each round of the first phase adds one sub-layer of [n_q] qubits and
    leaves the positions of the earlier ones. *)
Lemma route_loop_sites (fuel : nat) (s : strategy) (w : bool) (n_q : nat)
    (layer_gates : list gate) (st st' : route_state) :
  route_loop kamis_solve maximalis_solve fuel s w n_q layer_gates st = Ok st' ->
  exists more,
    map sites (rs_layers st') = map sites (rs_layers st) ++ more /\
    Forall (fun p => length p = n_q) more.
Proof.
  revert st. induction fuel as [|fuel IH]; intros st H; cbn [route_loop] in H.
  - destruct (rs_remain st); [|discriminate]. inversion H; subst.
    exists []. rewrite app_nil_r. auto.
  - destruct (rs_remain st).
    + inversion H; subst. exists []. rewrite app_nil_r. auto.
    + bind_ok H. destruct (IH _ H) as (more & Hmore & Hlen).
      unfold route_step in E. bind_ok E. bind_ok E. bind_ok E.
      destruct a2 as [[aod set_aod] target].
      bind_ok E. bind_ok E. bind_ok E. bind_ok E. bind_ok E.
      inversion E; subst a; clear E. cbn [rs_layers] in Hmore.
      rewrite map_alter_keep in Hmore by (intros ly; apply sites_mark_aod).
      rewrite map_app in Hmore. cbn [map] in Hmore.
      match goal with
      | Hs : snapshot _ _ = Ok _ |- _ => apply snapshot_sites in Hs; destruct Hs as [Hn _]
      end.
      eexists. rewrite Hmore, <- app_assoc. split; [reflexivity|].
      constructor; [exact Hn|exact Hlen].
Qed.

(** X25: with [reverse_to_initial] and at least one qubit, the positions
    shown by the sub-layers of a layer read the same forwards and backwards:
    they go from the given mapping to the sub-layer of the gates and back
    through the same positions to the given mapping. *)
Theorem reverse_to_initial_retraces (fuel : nat) (chip_dim : nat * nat)
    (n_q index_list_gate : nat) (list_gates : list (list gate)) (qubit_mapping : mapping)
    (s : strategy) (l2 w : bool) (layers : list layer) (final_mapping : mapping) :
  0 < n_q ->
  route_qubit_mis kamis_solve maximalis_solve list_of_set place_qubit_partial
    fuel chip_dim n_q index_list_gate list_gates qubit_mapping s true l2 w
    = Ok (layers, final_mapping) ->
  exists first rest,
    map sites layers = (first :: rest) ++ tail (rev (first :: rest)) /\
    rest <> [] /\
    first = take n_q qubit_mapping /\
    Forall (fun p => length p = n_q) (first :: rest).
Proof.
  intros Hpos H. unfold route_qubit_mis in H.
  bind_ok H. rename a into first, E into Hsnap.
  bind_ok H. rename a into lg, E into Hget.
  bind_ok H. rename a into remain, E into Hremain.
  bind_ok H. rename a into st, E into Hloop.
  bind_ok H. rename a into k, E into Hk.
  bind_ok H. rename a into r, E into Hr.
  rewrite orb_true_r in Hr. bind_ok Hr. rename a into ls, E into Htail.
  inversion Hr; subst r; clear Hr.
  bind_ok H. inversion H; subst layers final_mapping; clear H.
  destruct (snapshot_sites _ _ _ Hsnap) as [Hn Hfirst].
  apply route_loop_sites in Hloop. destruct Hloop as (more & Hmore & Hlen).
  cbn [rs_layers map] in Hmore.
  unfold reverse_to_initial_tail in Htail.
  bind_ok Htail. rename a0 into ls1, E0 into Hcopy1.
  bind_ok Htail. rename a0 into ls2, E0 into Hcopy2.
  bind_ok Htail. rename a0 into rls, E0 into Hrls.
  inversion Htail; subst ls; clear Htail.
  assert (Hss : map sites ls2 = sites first :: more).
  { rewrite (copy_acr_from_prev_sites _ _ Hcopy2), (copy_a_from_prev_sites _ _ Hcopy1).
    rewrite map_alter_keep by reflexivity. exact Hmore. }
  assert (Hall : Forall (fun p => length p = n_q) (sites first :: more))
    by (constructor; assumption).
  assert (Hlen2 : length ls2 = length (sites first :: more))
    by (rewrite <- Hss, length_map; reflexivity).
  assert (Hrev : map sites rls
                 = map (fun i => (sites first :: more) !!! i)
                       (rev (seq 1 (length ls2 - 2)))).
  { apply mapM_Forall2 in Hrls. clear E. revert Hrls.
    generalize (rev (seq 1 (length ls2 - 2))). intros idx Hrls.
    induction Hrls as [|i l idx ls Hil _ IH]; [reflexivity|].
    cbn [map]. f_equal; [|exact IH].
    destruct (reverse_layer_sites _ _ _ _ Hil) as (li & Hli & Hsl & _).
    assert (Hsi : (sites first :: more) !! i = Some (sites li))
      by (rewrite <- Hss, lookup_map, Hli; reflexivity).
    rewrite (list_lookup_total_correct _ _ _ Hsi), Hsl.
    apply take_ge. rewrite (Forall_lookup_1 _ _ _ _ Hall Hsi). lia. }
  assert (Htwo : 2 <= length ls2).
  { assert (Hsame : map sites (alter (set_gates (rs_gates_dict st)) k (rs_layers st))
                    = sites first :: more)
      by (rewrite map_alter_keep by reflexivity; exact Hmore).
    assert (Hl : length (alter (set_gates (rs_gates_dict st)) k (rs_layers st))
                 = length ls2).
    { rewrite <- (length_map sites), <- (length_map sites ls2), Hsame, Hss. reflexivity. }
    rewrite <- Hl. apply (copy_a_from_prev_two _ _ (n_q - 1) Hcopy1).
    rewrite Hsame. replace (S (n_q - 1)) with n_q by lia. exact Hall. }
  exists (sites first), more. split; [|split; [|split]].
  - rewrite map_alter_keep by (intros ly; unfold sites; cbn [l_qubits];
                               rewrite map_map; reflexivity).
    rewrite !map_app, Hss, Hrev. cbn [map]. rewrite Hlen2.
    rewrite <- retrace_tail by (rewrite <- Hlen2; exact Htwo).
    reflexivity.
  - intros ->. cbn [length] in Hlen2. lia.
  - apply list_eq. intros q. destruct (decide (q < n_q)) as [Hq|Hq].
    + rewrite lookup_take_lt by exact Hq. apply Hfirst. exact Hq.
    + rewrite lookup_take_ge by lia. apply lookup_ge_None_2. lia.
  - exact Hall.
Qed.

End Retrace.

Lemma reverse_to_initial_retraces_witness :
  exists layers final_mapping,
    route_qubit_mis (fun n e _ => maximalis_solve_sort n e) maximalis_solve_sort
      (fun s => s) (fun _ _ _ m _ _ => Ok m)
      4 (3, 3) 4 0 [[(0, 1); (2, 3)]; [(0, 2); (1, 3)]]
      [(0, 0); (1, 0); (0, 1); (1, 1)]%Z MaximalisSorted true false false
    = Ok (layers, final_mapping) /\
    exists first rest,
      map sites layers = (first :: rest) ++ tail (rev (first :: rest)) /\
      rest <> [] /\
      first = take 4 [(0, 0); (1, 0); (0, 1); (1, 1)]%Z /\
      Forall (fun p => length p = 4) (first :: rest).
Proof.
  eexists. eexists. split; [vm_compute; reflexivity|].
  eapply (reverse_to_initial_retraces
            (fun n e _ => maximalis_solve_sort n e) maximalis_solve_sort
            (fun s => s) (fun _ _ _ m _ _ => Ok m)
            4 (3, 3) 4 0 [[(0, 1); (2, 3)]; [(0, 2); (1, 3)]]
            [(0, 0); (1, 0); (0, 1); (1, 1)]%Z MaximalisSorted false false).
  - lia.
  - vm_compute. reflexivity.
Defined.

(** *** Reversing an empty layer *)

Lemma mapM_get_cases {B : Type} (qm : mapping) (f : nat -> site -> B) (l : list nat) :
  mapM (fun i => s ← get qm i; Ok (f i s)) l = Raise IndexError \/
  exists ys, mapM (fun i => s ← get qm i; Ok (f i s)) l = Ok ys /\ length ys = length l.
Proof.
  induction l as [|i l IH]; [right; exists []; split; reflexivity|].
  cbn [mapM]. destruct (get qm i) as [s|e|] eqn:Hg.
  2: { left. unfold get in Hg. destruct (qm !! i); inversion Hg. reflexivity. }
  2: { unfold get in Hg. destruct (qm !! i); discriminate. }
  cbn. destruct IH as [->|(ys & -> & Hlen)]; [left; reflexivity|].
  right. exists (f i s :: ys). split; [reflexivity|]. cbn. rewrite Hlen. reflexivity.
Qed.

Lemma snapshot_cases (n_q : nat) (qm : mapping) :
  snapshot n_q qm = Raise IndexError \/
  exists l, snapshot n_q qm = Ok l /\ length (l_qubits l) = n_q /\ l_gates l = [].
Proof.
  unfold snapshot.
  destruct (mapM_get_cases qm
              (fun i s => mk_qubit_rec i 0 (fst s) (snd s) (fst s) (snd s)) (seq 0 n_q))
    as [->|(ys & -> & Hlen)]; [left; reflexivity|].
  right. exists (mk_layer ys []). split; [reflexivity|].
  split; [cbn; rewrite Hlen; apply length_seq|reflexivity].
Qed.

Section EmptyLayer.

Variable kamis_solve : nat -> list (nat * nat) -> nat -> res (list nat).
Variable maximalis_solve : nat -> list (nat * nat) -> res (list nat).
Variable list_of_set : list nat -> list nat.
Variable place_qubit_partial :
  nat * nat -> nat -> list (list gate) -> mapping -> list nat -> bool -> res mapping.

(** X10: with [reverse_to_initial], a layer without gates makes
    [route_qubit_mis] raise [IndexError] as soon as there is a qubit: the
    reversal reads [layers[-2]] while the layer has produced one sub-layer
    only. *)
Theorem route_qubit_mis_reverse_empty_layer (fuel : nat) (chip_dim : nat * nat)
    (n_q index_list_gate : nat) (list_gates : list (list gate)) (qubit_mapping : mapping)
    (routing_strategy : strategy) (l2 use_window : bool) :
  0 < n_q ->
  list_gates !! index_list_gate = Some [] ->
  route_qubit_mis kamis_solve maximalis_solve list_of_set place_qubit_partial
    fuel chip_dim n_q index_list_gate list_gates qubit_mapping routing_strategy
    true l2 use_window = Raise IndexError.
Proof.
  intros Hn Hl. unfold route_qubit_mis.
  destruct (snapshot_cases n_q qubit_mapping) as [->|(first & -> & Hlen & Hg)];
    [reflexivity|].
  assert (Hget : get list_gates index_list_gate = Ok [])
    by (unfold get; rewrite Hl; reflexivity).
  cbn [mbind res_bind]. rewrite Hget. cbn [mbind res_bind].
  assert (Hremain :
            match routing_strategy with
            | MaximalisSorted =>
                keyed ← mapM (fun x : gate =>
                                s0 ← get qubit_mapping (fst x);
                                s1 ← get qubit_mapping (snd x);
                                Ok (dist2 s0 s1, x)) [];
                Ok (sorted_desc keyed)
            | _ => Ok []
            end = Ok []) by (destruct routing_strategy; reflexivity).
  rewrite Hremain. cbn [mbind res_bind].
  assert (Hloop : forall st, rs_remain st = [] ->
             route_loop kamis_solve maximalis_solve fuel routing_strategy use_window
               n_q [] st = Ok st).
  { intros st Hst. destruct fuel; cbn [route_loop]; rewrite Hst; reflexivity. }
  assert (Htail : forall last,
             reverse_to_initial_tail n_q last [set_gates [] first] = Raise IndexError).
  { intros last. unfold reverse_to_initial_tail, copy_a_from_prev.
    change (from_end [set_gates [] first] 1) with (Ok 0 : res nat).
    cbn [mbind res_bind].
    change (get [set_gates [] first] 0) with (Ok (set_gates [] first)).
    cbn [mbind res_bind set_gates l_qubits]. rewrite Hlen.
    destruct n_q as [|n]; [lia|]. reflexivity. }
  rewrite Hloop by reflexivity. cbn [mbind res_bind rs_layers rs_gates_dict].
  rewrite orb_true_r.
  change (from_end [first] 1) with (Ok 0 : res nat).
  cbn [mbind res_bind alter list_alter]. rewrite Htail. reflexivity.
Qed.

End EmptyLayer.

Lemma route_qubit_mis_reverse_empty_layer_witness :
  route_qubit_mis (fun n e _ => maximalis_solve_sort n e) maximalis_solve_sort
    (fun s => s) (fun _ _ _ m _ _ => Ok m)
    0 (2, 2) 1 0 [[]] [(0, 0)%Z] MaximalisSorted true false false = Raise IndexError.
Proof.
  apply route_qubit_mis_reverse_empty_layer; [lia|reflexivity].
Defined.

End Router.

(** * Scheduler: [enola/scheduler/gate_scheduler.py] *)

Module Scheduler.



(** A colouring is proper when two distinct edges sharing a vertex never
    receive the same colour. *)
Definition shares_vertex (e1 e2 : nat * nat) : Prop :=
  fst e1 = fst e2 \/ fst e1 = snd e2 \/ snd e1 = fst e2 \/ snd e1 = snd e2.

Definition proper_coloring (list_gate : list (nat * nat)) (edge_colors : gmap nat nat) : Prop :=
  (forall i, i < length list_gate -> is_Some (edge_colors !! i)) /\
  (forall i j e1 e2 c,
      i <> j -> list_gate !! i = Some e1 -> list_gate !! j = Some e2 ->
      shares_vertex e1 e2 ->
      edge_colors !! i = Some c -> edge_colors !! j <> Some c).

Section Coloring.

(** External collaborator: [rx.graph_misra_gries_edge_color], which maps the
    index of every edge to its colour. *)
Variable graph_misra_gries_edge_color : nat -> list (nat * nat) -> gmap nat nat.

(** [graph_coloring_rustworkx]: the status (always [0]) and the gate indices
    grouped by colour. *)
Definition graph_coloring_rustworkx (n_qubit : nat) (list_gate : list (nat * nat))
  : res (Z * list (list nat)) :=
  let edge_colors := graph_misra_gries_edge_color n_qubit list_gate in
  let max_color := map_fold (fun _ c acc => Nat.max acc c) 0 edge_colors in
  result ← foldM (fun result i =>
                    match edge_colors !! i with
                    | None => Raise KeyError
                    | Some c =>
                        match result !! c with
                        | None => Raise IndexError
                        | Some l => Ok (<[c := l ++ [i]]> result)
                        end
                    end)
                 (seq 0 (length list_gate))
                 (replicate (max_color + 1) []);
  Ok (0%Z, result).

(** [gate_scheduling]: [assert status == 0] and return the layers. *)
Definition gate_scheduling (n_qubit : nat) (list_gate : list (nat * nat))
  : res (list (list nat)) :=
  r ← graph_coloring_rustworkx n_qubit list_gate;
  let '(status, result) := r in
  if (status =? 0)%Z then Ok result else Raise AssertionError.


End Coloring.

(** Three qubits, every pair joined by two gates: [Delta = 4]. *)
Definition doubled_triangle : list (nat * nat) :=
  [(0, 1); (0, 1); (1, 2); (1, 2); (0, 2); (0, 2)].

(** A proper colouring of the doubled triangle: one colour per gate. *)
Definition six_colors (n_qubit : nat) (list_gate : list (nat * nat)) : gmap nat nat :=
  list_to_map (map (fun i => (i, i)) (seq 0 (length list_gate))).

Lemma six_colors_proper : proper_coloring doubled_triangle (six_colors 3 doubled_triangle).
Proof.
  split.
  - intros i Hi. simpl in Hi.
    do 6 (destruct i as [|i]; [vm_compute; eauto|]). lia.
  - intros i j e1 e2 c Hne H1 H2 _ Hc Hc'.
    assert (Hi : i < 6) by (apply lookup_lt_Some in H1; exact H1).
    assert (Hj : j < 6) by (apply lookup_lt_Some in H2; exact H2).
    assert (Hci : c = i).
    { clear - Hi Hc. do 6 (destruct i as [|i]; [vm_compute in Hc; congruence|]). lia. }
    assert (Hcj : c = j).
    { clear - Hj Hc'. do 6 (destruct j as [|j]; [vm_compute in Hc'; congruence|]). lia. }
    congruence.
Qed.

Lemma max_color_ge (edge_colors : gmap nat nat) (i c : nat) :
  edge_colors !! i = Some c ->
  c <= map_fold (fun _ c acc => Nat.max acc c) 0 edge_colors.
Proof.
  revert i c.
  apply (map_fold_weak_ind
           (fun (r : nat) (m : gmap nat nat) => forall i c, m !! i = Some c -> c <= r)).
  - intros i c H. rewrite lookup_empty in H. discriminate.
  - intros k x m r Hk IH i c H.
    destruct (decide (i = k)) as [->|Hne].
    + rewrite lookup_insert_eq in H. inversion H; subst. lia.
    + rewrite lookup_insert_ne in H by congruence. specialize (IH i c H). lia.
Qed.







(** ** Further properties of the scheduler *)

(** The gates of colour [c] among the first [n], in the order of the list. *)
Definition of_color (edge_colors : gmap nat nat) (n c : nat) : list nat :=
  filter (fun i => edge_colors !! i = Some c) (seq 0 n).

Lemma map_nil_replicate {A : Type} (s m : nat) :
  map (fun _ => @nil A) (seq s m) = replicate m [].
Proof. revert s. induction m as [|m IH]; intros s; simpl; [reflexivity|]. f_equal. apply IH. Qed.

Lemma of_color_snoc (ec : gmap nat nat) (k c m : nat) :
  ec !! k = Some c -> c < m ->
  <[c := of_color ec k c ++ [k]]> (map (of_color ec k) (seq 0 m))
  = map (of_color ec (S k)) (seq 0 m).
Proof.
  intros Hc Hlt. apply list_eq. intros j.
  assert (Hseq : seq 0 (S k) = seq 0 k ++ [k]) by (rewrite seq_S; reflexivity).
  destruct (decide (j = c)) as [->|Hne].
  - rewrite list_lookup_insert_eq by (rewrite length_map, length_seq; exact Hlt).
    rewrite lookup_map, lookup_seq_lt by exact Hlt.
    cbn [fmap option_fmap option_map Nat.add].
    unfold of_color. rewrite Hseq, filter_app.
    rewrite (filter_cons_True _ k []) by exact Hc. reflexivity.
  - rewrite list_lookup_insert_ne by congruence.
    rewrite !lookup_map. destruct (seq 0 m !! j) as [j'|] eqn:Hj; [|reflexivity].
    apply lookup_seq in Hj. destruct Hj as [-> _].
    cbn [fmap option_fmap option_map Nat.add].
    unfold of_color. rewrite Hseq, filter_app.
    rewrite (filter_cons_False _ k []) by (rewrite Hc; congruence).
    rewrite app_nil_r. reflexivity.
Qed.

(** The loop [for i in range(len(list_gate)): result[edge_colors[i]].append(i)]. *)
Lemma group_by_color (ec : gmap nat nat) (n m : nat) :
  (forall i, i < n -> exists c, ec !! i = Some c /\ c < m) ->
  foldM (fun result i =>
           match ec !! i with
           | None => Raise KeyError
           | Some c =>
               match result !! c with
               | None => Raise IndexError
               | Some l => Ok (<[c := l ++ [i]]> result)
               end
           end)
        (seq 0 n) (replicate m [])
  = Ok (map (of_color ec n) (seq 0 m)).
Proof.
  induction n as [|k IH]; intros Hcol.
  - cbn [seq foldM]. f_equal. symmetry. apply (map_nil_replicate 0 m).
  - rewrite seq_S, foldM_app, IH by (intros i Hi; apply Hcol; lia).
    cbn [mbind res_bind foldM Nat.add].
    destruct (Hcol k) as (c & Hc & Hlt); [lia|]. rewrite Hc.
    rewrite lookup_map, lookup_seq_lt by exact Hlt. cbn [fmap option_fmap option_map].
    cbn [mbind res_bind Nat.add]. f_equal. apply of_color_snoc; assumption.
Qed.

Lemma concat_insert_snoc {A : Type} (r : list (list A)) (c : nat) (l : list A) (x : A) :
  r !! c = Some l -> Permutation (concat (<[c := l ++ [x]]> r)) (concat r ++ [x]).
Proof.
  revert c. induction r as [|l0 r IH]; intros [|c] H; try discriminate.
  - inversion H; subst l0. cbn. rewrite <- !app_assoc.
    apply Permutation_app_head, Permutation_app_comm.
  - cbn. rewrite <- app_assoc. apply Permutation_app_head. apply IH. exact H.
Qed.

Lemma concat_of_color (ec : gmap nat nat) (n m : nat) :
  (forall i, i < n -> exists c, ec !! i = Some c /\ c < m) ->
  Permutation (concat (map (of_color ec n) (seq 0 m))) (seq 0 n).
Proof.
  induction n as [|k IH]; intros Hcol.
  - unfold of_color. cbn [seq filter list_filter].
    change (fun _ : nat => filter _ []) with (fun _ : nat => @nil nat).
    rewrite (map_nil_replicate 0 m). clear. induction m; [reflexivity|assumption].
  - destruct (Hcol k) as (c & Hc & Hlt); [lia|].
    rewrite <- (of_color_snoc ec k c m Hc Hlt), seq_S.
    rewrite concat_insert_snoc
      by (rewrite lookup_map, lookup_seq_lt by exact Hlt; reflexivity).
    apply Permutation_app_tail. apply IH. intros i Hi. apply Hcol. lia.
Qed.

Lemma colors_in_range (ec : gmap nat nat) (n : nat) :
  (forall i, i < n -> is_Some (ec !! i)) ->
  forall i, i < n ->
    exists c, ec !! i = Some c /\ c < map_fold (fun _ c acc => Nat.max acc c) 0 ec + 1.
Proof.
  intros Hcol i Hi. destruct (Hcol i Hi) as [c Hc]. exists c. split; [exact Hc|].
  pose proof (max_color_ge ec i c Hc). lia.
Qed.

(** X12: when the library gives every gate a colour, [gate_scheduling]
    returns one layer per colour from [0] to the largest colour in use; the
    layer of colour [c] lists the gates of colour [c] in the order of
    [list_gate] (so a colour that no gate has gives an empty layer). *)
Theorem gate_scheduling_layers (f : nat -> list (nat * nat) -> gmap nat nat)
    (n_qubit : nat) (list_gate : list (nat * nat)) :
  (forall i, i < length list_gate -> is_Some (f n_qubit list_gate !! i)) ->
  gate_scheduling f n_qubit list_gate
  = Ok (map (of_color (f n_qubit list_gate) (length list_gate))
            (seq 0 (map_fold (fun _ c acc => Nat.max acc c) 0 (f n_qubit list_gate) + 1))).
Proof.
  intros Hcol. unfold gate_scheduling, graph_coloring_rustworkx.
  rewrite group_by_color by (apply colors_in_range; exact Hcol). reflexivity.
Qed.

Lemma gate_scheduling_layers_witness :
  gate_scheduling six_colors 3 doubled_triangle
  = Ok (map (of_color (six_colors 3 doubled_triangle) 6) (seq 0 6)).
Proof.
  apply (gate_scheduling_layers six_colors 3 doubled_triangle).
  apply (proj1 six_colors_proper).
Defined.

(** X13: when the colouring of the library is proper, the layers of
    [gate_scheduling] list every gate once, and no two gates of a layer
    share a qubit. *)
Theorem gate_scheduling_proper_layers (f : nat -> list (nat * nat) -> gmap nat nat)
    (n_qubit : nat) (list_gate : list (nat * nat)) :
  proper_coloring list_gate (f n_qubit list_gate) ->
  exists result,
    gate_scheduling f n_qubit list_gate = Ok result /\
    Permutation (concat result) (seq 0 (length list_gate)) /\
    Forall (fun layer =>
              forall i j e1 e2,
                In i layer -> In j layer -> i <> j ->
                list_gate !! i = Some e1 -> list_gate !! j = Some e2 ->
                ~ shares_vertex e1 e2)
           result.
Proof.
  intros [Hcol Hproper]. eexists. split; [|split].
  - unfold gate_scheduling, graph_coloring_rustworkx.
    rewrite group_by_color by (apply colors_in_range; exact Hcol). reflexivity.
  - apply concat_of_color. apply colors_in_range. exact Hcol.
  - apply Forall_forall. intros layer Hlayer.
    apply list_elem_of_In, in_map_iff in Hlayer. destruct Hlayer as (c & <- & _).
    intros i j e1 e2 Hi Hj Hne H1 H2 Hshare.
    apply list_elem_of_In, list_elem_of_filter in Hi. destruct Hi as [Hi _].
    apply list_elem_of_In, list_elem_of_filter in Hj. destruct Hj as [Hj _].
    exact (Hproper i j e1 e2 c Hne H1 H2 Hshare Hi Hj).
Qed.

(** A path on four qubits: the two outer gates get colour [0], the middle
    one colour [1]. *)
Definition path_gates : list (nat * nat) := [(0, 1); (2, 3); (1, 2)].

Definition path_colors (n_qubit : nat) (list_gate : list (nat * nat)) : gmap nat nat :=
  list_to_map [(0, 0); (1, 0); (2, 1)].

Lemma path_colors_proper : proper_coloring path_gates (path_colors 4 path_gates).
Proof.
  split.
  - intros i Hi. simpl in Hi.
    do 3 (destruct i as [|i]; [vm_compute; eauto|]). lia.
  - intros i j e1 e2 c Hne H1 H2 Hshare Hc Hc'.
    assert (Hi : i < 3) by (apply lookup_lt_Some in H1; exact H1).
    assert (Hj : j < 3) by (apply lookup_lt_Some in H2; exact H2).
    destruct i as [|[|[|i]]]; [| | |lia];
      (destruct j as [|[|[|j]]]; [| | |lia]);
      try congruence;
      vm_compute in Hc, Hc', H1, H2;
      try congruence;
      inversion H1; inversion H2; subst e1 e2;
      unfold shares_vertex in Hshare; cbn in Hshare; lia.
Qed.

Lemma gate_scheduling_proper_layers_witness :
  gate_scheduling path_colors 4 path_gates = Ok [[0; 1]; [2]] /\
  exists result,
    gate_scheduling path_colors 4 path_gates = Ok result /\
    Permutation (concat result) (seq 0 3) /\
    Forall (fun layer =>
              forall i j e1 e2,
                In i layer -> In j layer -> i <> j ->
                path_gates !! i = Some e1 -> path_gates !! j = Some e2 ->
                ~ shares_vertex e1 e2)
           result.
Proof.
  split; [vm_compute; reflexivity|].
  apply (gate_scheduling_proper_layers path_colors 4 path_gates).
  exact path_colors_proper.
Defined.

(** ** The coloured graph of [graph.py] *)

(** [Graph]: [adj_mat] holds the colour of the edge [{i, j}] in the upper
    triangle of an [n x n] matrix stored row by row; colour [0] means not
    coloured.  [adj_list[u]] lists the neighbours of [u]. *)
Record Graph : Type := mk_Graph
  { G_n : Z; G_m : Z; adj_mat : list Z; adj_list : list (list Z) }.

(** [Graph.__init__]. *)
Definition Graph_init (n m : Z) : Graph :=
  mk_Graph n m
    (replicate (Z.to_nat (Z.shiftr (n * (n + 1)) 1)) 0%Z)
    (replicate (Z.to_nat n) []).

Definition _idx (g : Graph) (i j : Z) : Z :=
  let '(i, j) := if (i >? j)%Z then (j, i) else (i, j) in
  (Z.shiftr (i * (2 * G_n g - i + 1)) 1 + j - i)%Z.

Definition _setColor (g : Graph) (u v c : Z) : res Graph :=
  match py_norm (length (adj_mat g)) (_idx g u v) with
  | Some k => Ok (mk_Graph (G_n g) (G_m g) (<[k := c]> (adj_mat g)) (adj_list g))
  | None => Raise IndexError
  end.

Definition _getColor (g : Graph) (u v : Z) : res Z :=
  py_get (adj_mat g) (_idx g u v).

Definition get_edge_color (g : Graph) (u v : Z) : res Z := _getColor g u v.

Definition edge_is_colored (g : Graph) (u v : Z) : res bool :=
  c ← get_edge_color g u v; Ok (c >? 0)%Z.

Definition rm_edge_color (g : Graph) (u v : Z) : res Graph := _setColor g u v 0%Z.

Definition set_edge_color (g : Graph) (u v c : Z) : res Graph := _setColor g u v c.

(** [add_edge]: the two neighbour lists are fetched first, so when [u] and
    [v] name the same vertex both appends land in one list. *)
Definition add_edge (g : Graph) (u v : Z) : res (Z * Graph) :=
  match py_norm (length (adj_list g)) v with
  | None => Raise IndexError
  | Some kv =>
      match py_norm (length (adj_list g)) u with
      | None => Raise IndexError
      | Some ku =>
          let al := alter (fun l => l ++ [u]) kv (alter (fun l => l ++ [v]) ku (adj_list g)) in
          let len_u := Z.of_nat (length (al !!! ku)) in
          let len_v := Z.of_nat (length (al !!! kv)) in
          Ok (if (len_u >? len_v)%Z then len_u else len_v,
              mk_Graph (G_n g) (G_m g) (adj_mat g) al)
      end
  end.

(** [color_is_free_at_vertex]: the search stops at the first neighbour whose
    edge has the colour. *)
Fixpoint color_is_free_among (g : Graph) (c u : Z) (neigh : list Z) : res bool :=
  match neigh with
  | [] => Ok true
  | v :: rest =>
      col ← get_edge_color g u v;
      if (c =? col)%Z then Ok false else color_is_free_among g c u rest
  end.

Definition color_is_free_at_vertex (g : Graph) (c u : Z) : res bool :=
  neigh ← py_get (adj_list g) u;
  color_is_free_among g c u neigh.

(** The offset of row [i] of the triangle. *)
Definition row_offset (n i : Z) : Z := Z.shiftr (i * (2 * n - i + 1)) 1.

Lemma row_offset_double (n i : Z) : (2 * row_offset n i = i * (2 * n - i + 1))%Z.
Proof.
  unfold row_offset. rewrite Z.shiftr_div_pow2 by lia. change (2 ^ 1)%Z with 2%Z.
  destruct (Z.Even_or_Odd i) as [[a ->]|[a ->]].
  - replace (2 * a * (2 * n - 2 * a + 1))%Z
      with ((a * (2 * n - 2 * a + 1)) * 2)%Z by ring.
    rewrite Z.div_mul by lia. ring.
  - replace ((2 * a + 1) * (2 * n - (2 * a + 1) + 1))%Z
      with (((2 * a + 1) * (n - a)) * 2)%Z by ring.
    rewrite Z.div_mul by lia. ring.
Qed.

Lemma triangle_injective (n i j i' j' : Z) :
  (0 <= i <= j)%Z -> (j < n)%Z -> (0 <= i' <= j')%Z -> (j' < n)%Z ->
  (row_offset n i + j - i = row_offset n i' + j' - i')%Z -> i = i' /\ j = j'.
Proof.
  intros. pose proof (row_offset_double n i). pose proof (row_offset_double n i').
  assert (i = i') by nia. subst. lia.
Qed.

Lemma triangle_range (n i j : Z) :
  (0 <= i <= j)%Z -> (j < n)%Z ->
  (0 <= row_offset n i + j - i < Z.shiftr (n * (n + 1)) 1)%Z.
Proof.
  intros. pose proof (row_offset_double n i). pose proof (row_offset_double n n).
  unfold row_offset in H2 at 1.
  replace (n * (2 * n - n + 1))%Z with (n * (n + 1))%Z in H2 by ring. nia.
Qed.

Lemma _idx_sym (g : Graph) (u v : Z) : _idx g u v = _idx g v u.
Proof.
  unfold _idx. destruct (Z.gtb_spec u v), (Z.gtb_spec v u); try reflexivity; try lia.
  replace v with u by lia. reflexivity.
Qed.

Lemma _idx_sorted (g : Graph) (u v : Z) :
  _idx g u v = (row_offset (G_n g) (Z.min u v) + Z.max u v - Z.min u v)%Z.
Proof.
  unfold _idx, row_offset. destruct (Z.gtb_spec u v).
  - rewrite Z.min_r, Z.max_l by lia. reflexivity.
  - rewrite Z.min_l, Z.max_r by lia. reflexivity.
Qed.

Lemma _idx_in_range (g : Graph) (u v : Z) :
  length (adj_mat g) = Z.to_nat (Z.shiftr (G_n g * (G_n g + 1)) 1) ->
  (0 <= u < G_n g)%Z -> (0 <= v < G_n g)%Z ->
  (0 <= _idx g u v < Z.of_nat (length (adj_mat g)))%Z.
Proof.
  intros Hlen Hu Hv. rewrite _idx_sorted, Hlen.
  pose proof (triangle_range (G_n g) (Z.min u v) (Z.max u v) ltac:(lia) ltac:(lia)).
  lia.
Qed.

(** X14: on a graph whose matrix has the size [__init__] gives it,
    [set_edge_color(u, v, c)] with both vertices in [0, n) succeeds and
    changes the colour of the edge [{u, v}] only: afterwards
    [get_edge_color] returns [c] for [(u, v)] and [(v, u)] and the old colour
    for every other pair of vertices in [0, n). *)
Theorem set_edge_color_then_get (g : Graph) (u v c u' v' : Z) :
  length (adj_mat g) = Z.to_nat (Z.shiftr (G_n g * (G_n g + 1)) 1) ->
  (0 <= u < G_n g)%Z -> (0 <= v < G_n g)%Z ->
  (0 <= u' < G_n g)%Z -> (0 <= v' < G_n g)%Z ->
  exists g',
    set_edge_color g u v c = Ok g' /\
    G_n g' = G_n g /\ adj_list g' = adj_list g /\
    length (adj_mat g') = length (adj_mat g) /\
    get_edge_color g' u' v'
    = if decide ((u' = u /\ v' = v) \/ (u' = v /\ v' = u)) then Ok c
      else get_edge_color g u' v'.
Proof.
  intros Hlen Hu Hv Hu' Hv'.
  pose proof (_idx_in_range g u v Hlen Hu Hv) as Hk.
  pose proof (_idx_in_range g u' v' Hlen Hu' Hv') as Hk'.
  unfold set_edge_color, _setColor. rewrite (py_norm_nonneg _ _ Hk).
  eexists. split; [reflexivity|]. cbn [G_n adj_list adj_mat].
  split; [reflexivity|]. split; [reflexivity|].
  split; [apply length_insert|].
  unfold get_edge_color, _getColor, py_get. cbn [adj_mat].
  change (_idx (mk_Graph (G_n g) (G_m g) (<[Z.to_nat (_idx g u v) := c]> (adj_mat g))
                         (adj_list g)) u' v') with (_idx g u' v').
  rewrite length_insert. rewrite !(py_norm_nonneg _ _ Hk').
  unfold get. destruct (decide ((u' = u /\ v' = v) \/ (u' = v /\ v' = u))) as [Hsame|Hother].
  - assert (Heq : _idx g u' v' = _idx g u v).
    { destruct Hsame as [[-> ->]|[-> ->]]; [reflexivity|apply _idx_sym]. }
    rewrite Heq, list_lookup_insert_eq by lia. reflexivity.
  - rewrite list_lookup_insert_ne; [reflexivity|].
    intros Heq. apply Hother. apply Z2Nat.inj in Heq; [|lia|lia].
    rewrite !_idx_sorted in Heq.
    apply triangle_injective in Heq; lia.
Qed.

Lemma set_edge_color_then_get_witness :
  exists g',
    set_edge_color (Graph_init 3 0) 0 2 5 = Ok g' /\
    G_n g' = 3%Z /\ adj_list g' = [[]; []; []] /\
    length (adj_mat g') = 6 /\
    get_edge_color g' 2 0 = Ok 5%Z.
Proof.
  apply (set_edge_color_then_get (Graph_init 3 0) 0 2 5 2 0); cbn; try lia.
  reflexivity.
Defined.

End Scheduler.

(** * Placers: [enola/placer/placer.py], [enola/placer/placer_parital_mapping.py] *)

Module Placer.

(** The first lines of [SAPlacer.run] and of [SAPlacerPartial.run], which are
    the same: [length = int(math.sqrt(n_qubit)) + 4], then the working grid
    [self.chip_dim].  [int(math.sqrt(n))] is the integer square root for
    every [n] below [2^52]. *)
Definition working_grid (chip_dim : nat * nat) (n_qubit : nat) : nat * nat :=
  let length := Nat.sqrt n_qubit + 4 in
  let dim := (Nat.min (fst chip_dim) length, Nat.min (snd chip_dim) length) in
  if fst dim * snd dim <? n_qubit then chip_dim else dim.

(** The sizing as the specification words it, with the side
    [ceil(sqrt(Nq)) + 4]. *)
Definition ceil_sqrt (n : nat) : nat :=
  if Nat.sqrt n * Nat.sqrt n =? n then Nat.sqrt n else S (Nat.sqrt n).

Definition spec_working_grid (chip_dim : nat * nat) (n_qubit : nat) : nat * nat :=
  let length := ceil_sqrt n_qubit + 4 in
  let dim := (Nat.min (fst chip_dim) length, Nat.min (snd chip_dim) length) in
  if fst dim * snd dim <? n_qubit then chip_dim else dim.

(** C6, counterexample: on a 10 x 10 chip with two qubits the code works on a
    5 x 5 grid, the side [ceil(sqrt 2) + 4] would give 6 x 6. *)
Lemma working_grid_not_ceil :
  working_grid (10, 10) 2 = (5, 5) /\ spec_working_grid (10, 10) 2 = (6, 6) /\
  working_grid (10, 10) 2 <> spec_working_grid (10, 10) 2.
Proof. vm_compute. repeat split; congruence. Qed.

(** C6, amended: the side of the virtual square is [floor(sqrt(Nq)) + 4],
    i.e. [L - 4] is the largest integer whose square is at most [Nq]; the
    working grid is [(min Nx L, min Ny L)], unless that holds fewer than
    [Nq] sites, in which case it is the full chip. *)
Theorem working_grid_floor_sqrt (Nx Ny Nq : nat) :
  exists L,
    4 <= L /\ (L - 4) * (L - 4) <= Nq < (L - 3) * (L - 3) /\
    working_grid (Nx, Ny) Nq =
      (if Nat.min Nx L * Nat.min Ny L <? Nq then (Nx, Ny)
       else (Nat.min Nx L, Nat.min Ny L)) /\
    (working_grid (Nx, Ny) Nq <> (Nx, Ny) ->
     Nq <= fst (working_grid (Nx, Ny) Nq) * snd (working_grid (Nx, Ny) Nq)).
Proof.
  exists (Nat.sqrt Nq + 4).
  split; [lia|]. split.
  - replace (Nat.sqrt Nq + 4 - 4) with (Nat.sqrt Nq) by lia.
    replace (Nat.sqrt Nq + 4 - 3) with (S (Nat.sqrt Nq)) by lia.
    apply Nat.sqrt_spec. lia.
  - unfold working_grid. cbn [fst snd].
    split; [reflexivity|].
    destruct (Nat.ltb_spec (Nat.min Nx (Nat.sqrt Nq + 4) * Nat.min Ny (Nat.sqrt Nq + 4)) Nq).
    + intros H'. congruence.
    + intros _. cbn [fst snd]. lia.
Qed.

(** ** The partial placer: [SAPlacerPartial]

    Costs, temperatures and the acceptance test are floating-point
    computations on random draws.  They are not modelled: every random draw
    and every outcome of a comparison on costs is read from an oracle, so a
    run of the model exists for each run of the program.  Qubit indices are
    natural numbers. *)

Record sa_oracle : Type := mk_sa_oracle
  { (* the draws [randrange(len(self.target_qubits))] and
       [randrange(len(self.list_position))] of the k-th movement *)
    draw_qubit : nat -> nat;
    draw_position : nat -> nat;
    (* [self.best_cost - self.current_cost > 1e-9] in [init_sa_solution] *)
    improves_init : bool;
    (* the same test after the k-th movement *)
    improves : nat -> bool;
    (* [self.sa_delta > 0] after the k-th movement *)
    delta_positive : nat -> bool;
    (* [accept_worse_sol()] after the k-th movement *)
    accept_worse : nat -> bool;
    (* [self.sa_t > self.sa_t_frozen] when [self.sa_n = n] *)
    still_hot : nat -> bool }.

(** The mutable fields of the placer object that carry the solution.
    [sa_movement] is [self.movement]; [sa_tick] counts the movements made. *)
Record sa_state : Type := mk_sa_state
  { sa_current_mapping : list (Z * Z);
    sa_physical_to_program : list (list Z);
    sa_movement : option (nat * Z * Z * Z * Z);
    sa_best_mapping : option (list (Z * Z));
    sa_tick : nat }.

Definition sa_init_perturb_num : nat := 100.
Definition sa_l : nat := 400.
Definition sa_iter_limit : nat := 100 * 100.

(** [grid[x][y]] and [grid[x][y] = v] with Python indexing. *)
Definition grid_get (grid : list (list Z)) (x y : Z) : res Z :=
  row ← py_get grid x; py_get row y.

Definition grid_set (grid : list (list Z)) (x y v : Z) : res (list (list Z)) :=
  match py_norm (length grid) x with
  | None => Raise IndexError
  | Some i =>
      row ← get grid i;
      match py_norm (length row) y with
      | None => Raise IndexError
      | Some j => Ok (<[i := <[j := v]> row]> grid)
      end
  end.

(** [l[i] = v] for an index held in a Python integer. *)
Definition py_set {A : Type} (l : list A) (i : Z) (v : A) : res (list A) :=
  match py_norm (length l) i with
  | None => Raise IndexError
  | Some k => Ok (<[k := v]> l)
  end.

(** [randrange(n)]: [ValueError] on an empty range. *)
Definition randrange (draw n : nat) : res nat :=
  if n =? 0 then Raise ValueError else Ok (draw mod n).

Section Annealing.

Variable orc : sa_oracle.
Variable n_qubit : nat.
Variable target_qubits : list nat.
Variable list_position : list (Z * Z).

(** [make_movement()] with [given_movement = False].  Reading
    [self.list_qubit_list_gate[q]] needs [q < n_qubit]. *)
Definition make_movement (st : sa_state) : res sa_state :=
  qubit_idx ← randrange (draw_qubit orc (sa_tick st)) (length target_qubits);
  qubit_to_move ← get target_qubits qubit_idx;
  position_idx ← randrange (draw_position orc (sa_tick st)) (length list_position);
  pos ← get list_position position_idx;
  let '(new_x, new_y) := pos in
  old ← get (sa_current_mapping st) qubit_to_move;
  let '(old_x, old_y) := old in
  qubit_be_affected ← grid_get (sa_physical_to_program st) new_x new_y;
  _ ← (if qubit_to_move <? n_qubit then Ok () else Raise IndexError);
  _ ← (if (qubit_be_affected >? -1)%Z then
         if bool_decide (qubit_be_affected ∈ map Z.of_nat target_qubits)
         then py_get (replicate n_qubit ()) qubit_be_affected
         else Raise AssertionError
       else Ok ());
  let cm1 := <[qubit_to_move := (new_x, new_y)]> (sa_current_mapping st) in
  p1 ← grid_set (sa_physical_to_program st) new_x new_y (Z.of_nat qubit_to_move);
  p2 ← grid_set p1 old_x old_y qubit_be_affected;
  cm2 ← (if (qubit_be_affected >? -1)%Z
         then py_set cm1 qubit_be_affected (old_x, old_y)
         else Ok cm1);
  Ok (mk_sa_state cm2 p2 (Some (qubit_to_move, new_x, new_y, old_x, old_y))
                  (sa_best_mapping st) (sa_tick st + 1)).

(** [recover()]: it unpacks [self.movement] as
    [qubit_to_move, old_x, old_y, new_x, new_y], so its [old] is the position
    the movement went to and its [new] the one it came from. *)
Definition recover (st : sa_state) : res sa_state :=
  match sa_movement st with
  | None => Raise ValueError
  | Some (qubit_to_move, old_x, old_y, new_x, new_y) =>
      qubit_be_affected ← grid_get (sa_physical_to_program st) new_x new_y;
      cm1 ← (if qubit_to_move <? length (sa_current_mapping st)
             then Ok (<[qubit_to_move := (new_x, new_y)]> (sa_current_mapping st))
             else Raise IndexError);
      p1 ← grid_set (sa_physical_to_program st) new_x new_y (Z.of_nat qubit_to_move);
      p2 ← grid_set p1 old_x old_y qubit_be_affected;
      cm2 ← (if (qubit_be_affected >? -1)%Z
             then py_set cm1 qubit_be_affected (old_x, old_y)
             else Ok cm1);
      Ok (mk_sa_state cm2 p2 (sa_movement st) (sa_best_mapping st) (sa_tick st))
  end.

(** [update_optimal_sol()] *)
Definition update_optimal_sol (st : sa_state) : sa_state :=
  mk_sa_state (sa_current_mapping st) (sa_physical_to_program st) (sa_movement st)
              (Some (sa_current_mapping st)) (sa_tick st).

(** One iteration of the loop of [init_perturb]; the second component counts
    the up-hill movements. *)
Definition perturb_step (acc : sa_state * nat) (_ : nat) : res (sa_state * nat) :=
  let k := sa_tick (fst acc) in
  st ← make_movement (fst acc);
  let st := if improves orc k then update_optimal_sol st else st in
  Ok (st, if delta_positive orc k then S (snd acc) else snd acc).

Definition init_perturb (st : sa_state) : res sa_state :=
  r ← foldM perturb_step (seq 0 sa_init_perturb_num) (st, 0);
  if snd r =? 0 then Raise ZeroDivisionError else Ok (fst r).

(** One iteration of the inner loop of [run]. *)
Definition anneal_step (st : sa_state) (_ : nat) : res sa_state :=
  let k := sa_tick st in
  st ← make_movement st;
  if negb (delta_positive orc k) then
    Ok (if improves orc k then update_optimal_sol st else st)
  else if accept_worse orc k then Ok st
  else recover st.

(** The loop [while self.sa_t > self.sa_t_frozen], left by [break] once
    [self.sa_n > self.sa_iter_limit]: at most [sa_iter_limit + 1] rounds. *)
Fixpoint anneal (rounds sa_n : nat) (st : sa_state) : res sa_state :=
  match rounds with
  | O => Ok st
  | S rounds' =>
      if still_hot orc sa_n then
        st' ← foldM anneal_step (seq 0 sa_l) st;
        anneal rounds' (S sa_n) st'
      else Ok st
  end.

End Annealing.

(** [init_sa_solution()] up to the call of [init_perturb]: the candidate
    positions, the inverse table and the first best solution. *)
Definition candidate_positions (chip_dim : nat * nat) (initial_mapping : list (Z * Z))
    (target_qubits : list nat) : res (list (Z * Z)) :=
  let empty :=
    flat_map (fun x =>
                flat_map (fun y =>
                            if bool_decide ((Z.of_nat x, Z.of_nat y) ∈ initial_mapping)
                            then [] else [(Z.of_nat x, Z.of_nat y)])
                         (seq 0 (snd chip_dim)))
             (seq 0 (fst chip_dim)) in
  held ← mapM (fun i => get initial_mapping i) target_qubits;
  Ok (empty ++ held).

Definition inverse_table (chip_dim : nat * nat) (n_qubit : nat)
    (current_mapping : list (Z * Z)) : res (list (list Z)) :=
  foldM (fun table i =>
           s ← get current_mapping i;
           grid_set table (fst s) (snd s) (Z.of_nat i))
        (seq 0 n_qubit)
        (replicate (fst chip_dim) (replicate (snd chip_dim) (-1)%Z)).

(** [SAPlacerPartial.run]; [self.list_qubit_list_gate] has [n_qubit] entries
    and is indexed by the qubits of every gate. *)
Definition run (orc : sa_oracle) (chip_dim : nat * nat) (n_qubit : nat)
    (list_gate : list (list (nat * nat))) (qubit_mapping : list (Z * Z))
    (target_qubits : list nat) : res sa_state :=
  let chip_dim := working_grid chip_dim n_qubit in
  _ ← (if forallb (fun g : nat * nat => (fst g <? n_qubit) && (snd g <? n_qubit))
                  (concat list_gate)
       then Ok () else Raise IndexError);
  list_position ← candidate_positions chip_dim qubit_mapping target_qubits;
  table ← inverse_table chip_dim n_qubit qubit_mapping;
  let st := mk_sa_state qubit_mapping table None None 0 in
  let st := if improves_init orc then update_optimal_sol st else st in
  st ← init_perturb orc n_qubit target_qubits list_position st;
  anneal orc n_qubit target_qubits list_position (sa_iter_limit + 1) 1 st.

(** [place_qubit_partial] returns [sa_placer.best_mapping], which is [None]
    when no solution was ever recorded. *)
Definition place_qubit_partial (orc : sa_oracle) (chip_dim : nat * nat) (n_qubit : nat)
    (list_gate : list (list (nat * nat))) (qubit_mapping : list (Z * Z))
    (target_qubits : list nat) (l2 : bool) : res (option (list (Z * Z))) :=
  sa_best_mapping <$> run orc chip_dim n_qubit list_gate qubit_mapping target_qubits.

(** ** The qubits outside the target set stay where they are *)

Lemma grid_get_set (grid grid' : list (list Z)) (x y v : Z) :
  grid_set grid x y v = Ok grid' -> grid_get grid' x y = Ok v.
Proof.
  unfold grid_set, grid_get, py_get.
  destruct (py_norm (length grid) x) as [i|] eqn:Ex; [|discriminate].
  intros H. bind_ok H. apply get_ok in E.
  destruct (py_norm (length a) y) as [j|] eqn:Ey; [|discriminate].
  inversion H; subst grid'; clear H.
  rewrite length_insert, Ex. unfold get.
  rewrite list_lookup_insert_eq by (eapply lookup_lt_Some; eauto).
  cbn [mbind res_bind]. rewrite length_insert, Ey.
  rewrite list_lookup_insert_eq by (eapply py_norm_lt; eauto). reflexivity.
Qed.

(** [cm] agrees with [m] on every qubit outside [T]. *)
Definition frame (T : list nat) (m cm : list (Z * Z)) : Prop :=
  length cm = length m /\ forall q, q ∉ T -> cm !! q = m !! q.

Lemma frame_refl (T : list nat) (m : list (Z * Z)) : frame T m m.
Proof. split; auto. Qed.

Lemma frame_insert (T : list nat) (m cm : list (Z * Z)) (q : nat) (s : Z * Z) :
  q ∈ T -> frame T m cm -> frame T m (<[q := s]> cm).
Proof.
  intros Hq [Hlen Hf]. split.
  - rewrite length_insert. exact Hlen.
  - intros q' Hq'. rewrite list_lookup_insert_ne; [apply Hf; exact Hq'|].
    intros ->. contradiction.
Qed.

Lemma frame_py_set (T : list nat) (m cm cm' : list (Z * Z)) (a : Z) (s : Z * Z) :
  (a > -1)%Z -> a ∈ map Z.of_nat T -> frame T m cm ->
  py_set cm a s = Ok cm' -> frame T m cm'.
Proof.
  intros Ha HaT Hf. unfold py_set.
  destruct (py_norm (length cm) a) as [k|] eqn:E; [|discriminate].
  intros H; inversion H; subst cm'; clear H.
  apply frame_insert; [|exact Hf].
  apply list_elem_of_In in HaT. apply in_map_iff in HaT.
  destruct HaT as (t & <- & Ht). apply list_elem_of_In in Ht.
  unfold py_norm in E.
  destruct (Z.leb_spec 0 (Z.of_nat t)); [|lia].
  destruct (Z.ltb_spec (Z.of_nat t) (Z.of_nat (length cm))); inversion E.
  rewrite Nat2Z.id. exact Ht.
Qed.

(** The last movement was made by a target qubit, and the cell it left now
    holds a target qubit or nothing. *)
Definition moved_ok (T : list nat) (st : sa_state) : Prop :=
  exists q nx ny ox oy a,
    sa_movement st = Some (q, nx, ny, ox, oy) /\ q ∈ T /\
    grid_get (sa_physical_to_program st) ox oy = Ok a /\
    ((a > -1)%Z -> a ∈ map Z.of_nat T).

Section Frame.

Variable orc : sa_oracle.
Variable n_qubit : nat.
Variable T : list nat.
Variable list_position : list (Z * Z).
Variable m : list (Z * Z).

(** Every movement moves a qubit of [T] to one of the candidate positions,
    and displaces at most another qubit of [T]. *)
Lemma make_movement_frame (st st' : sa_state) :
  frame T m (sa_current_mapping st) ->
  make_movement orc n_qubit T list_position st = Ok st' ->
  frame T m (sa_current_mapping st') /\
  sa_best_mapping st' = sa_best_mapping st /\
  moved_ok T st' /\
  exists q nx ny ox oy,
    sa_movement st' = Some (q, nx, ny, ox, oy) /\ q ∈ T /\ (nx, ny) ∈ list_position.
Proof.
  intros Hf H. unfold make_movement in H.
  bind_ok H. bind_ok H. bind_ok H. bind_ok H. destruct a2 as [new_x new_y].
  bind_ok H. destruct a2 as [old_x old_y]. bind_ok H. bind_ok H. bind_ok H.
  bind_ok H. bind_ok H. bind_ok H.
  inversion H; subst st'; clear H. cbn [sa_current_mapping sa_best_mapping
    sa_movement sa_physical_to_program].
  apply get_ok in E0. apply list_elem_of_lookup_2 in E0.
  apply get_ok in E2. apply list_elem_of_lookup_2 in E2.
  assert (HaT : (a2 > -1)%Z -> a2 ∈ map Z.of_nat T).
  { intros Hgt. destruct (Z.gtb_spec a2 (-1)); [|lia].
    destruct (bool_decide (a2 ∈ map Z.of_nat T)) eqn:Eb; [|discriminate].
    apply bool_decide_eq_true in Eb. exact Eb. }
  split; [|split; [reflexivity|split]].
  - destruct (Z.gtb_spec a2 (-1)).
    + apply (frame_py_set T m (<[a0:=(new_x, new_y)]> (sa_current_mapping st)) a7 a2
               (old_x, old_y));
        [lia|apply HaT; lia|apply frame_insert; auto|exact E9].
    + inversion E9; subst. apply frame_insert; auto.
  - exists a0, new_x, new_y, old_x, old_y, a2.
    split; [reflexivity|]. split; [exact E0|]. split; [|exact HaT].
    eapply grid_get_set; eauto.
  - exists a0, new_x, new_y, old_x, old_y. auto.
Qed.

Lemma recover_frame (st st' : sa_state) :
  frame T m (sa_current_mapping st) -> moved_ok T st ->
  recover st = Ok st' ->
  frame T m (sa_current_mapping st') /\ sa_best_mapping st' = sa_best_mapping st.
Proof.
  intros Hf (q & nx & ny & ox & oy & a & Hmv & HqT & Hget & HaT) H.
  unfold recover in H. rewrite Hmv in H. rewrite Hget in H. cbn [mbind res_bind] in H.
  bind_ok H. bind_ok H. bind_ok H. bind_ok H.
  inversion H; subst st'; clear H. cbn [sa_current_mapping sa_best_mapping].
  split; [|reflexivity].
  assert (Hf0 : frame T m a0).
  { destruct (q <? length (sa_current_mapping st)); inversion E; subst.
    apply frame_insert; auto. }
  destruct (Z.gtb_spec a (-1)).
  - apply (frame_py_set T m a0 a3 a (nx, ny)); [lia|apply HaT; lia|exact Hf0|exact E2].
  - inversion E2; subst. exact Hf0.
Qed.

(** The invariant of a run: the current and the best mapping agree with the
    given mapping outside [T]. *)
Definition sa_inv (st : sa_state) : Prop :=
  frame T m (sa_current_mapping st) /\
  forall b, sa_best_mapping st = Some b -> frame T m b.

Lemma update_optimal_sol_inv (st : sa_state) : sa_inv st -> sa_inv (update_optimal_sol st).
Proof.
  intros [Hc Hb]. split; [exact Hc|].
  intros b Hb'. simpl in Hb'. inversion Hb'; subst. exact Hc.
Qed.

Lemma make_movement_inv (st st' : sa_state) :
  sa_inv st -> make_movement orc n_qubit T list_position st = Ok st' ->
  sa_inv st' /\ moved_ok T st'.
Proof.
  intros [Hc Hb] H. apply make_movement_frame in H; [|exact Hc].
  destruct H as (Hc' & Hbest & Hmv & _).
  split; [|exact Hmv]. split; [exact Hc'|]. rewrite Hbest. exact Hb.
Qed.

Lemma init_perturb_inv (st st' : sa_state) :
  sa_inv st -> init_perturb orc n_qubit T list_position st = Ok st' -> sa_inv st'.
Proof.
  intros Hs H. unfold init_perturb in H. bind_ok H.
  destruct (snd a =? 0); [discriminate|]. inversion H; subst st'; clear H.
  apply (foldM_inv (fun acc : sa_state * nat => sa_inv (fst acc)) _ _ _ _) in E;
    [exact E| |exact Hs].
  intros acc x acc' Hacc Hstep. unfold perturb_step in Hstep. bind_ok Hstep.
  inversion Hstep; subst acc'; clear Hstep. cbn [fst].
  apply make_movement_inv in E0; [|exact Hacc]. destruct E0 as [Hinv _].
  destruct (improves orc (sa_tick (fst acc))); [apply update_optimal_sol_inv|]; exact Hinv.
Qed.

Lemma anneal_step_inv (st st' : sa_state) (i : nat) :
  sa_inv st -> anneal_step orc n_qubit T list_position st i = Ok st' -> sa_inv st'.
Proof.
  intros Hs H. unfold anneal_step in H. bind_ok H.
  apply make_movement_inv in E; [|exact Hs]. destruct E as [Hinv Hmv].
  destruct (delta_positive orc (sa_tick st)); cbn [negb] in H.
  - destruct (accept_worse orc (sa_tick st)).
    + inversion H; subst; exact Hinv.
    + destruct Hinv as [Hc Hb]. apply recover_frame in H; auto.
      destruct H as [Hc' Hbest]. split; [exact Hc'|]. rewrite Hbest. exact Hb.
  - inversion H; subst st'.
    destruct (improves orc (sa_tick st)); [apply update_optimal_sol_inv|]; exact Hinv.
Qed.

Lemma anneal_inv (rounds sa_n : nat) (st st' : sa_state) :
  sa_inv st -> anneal orc n_qubit T list_position rounds sa_n st = Ok st' -> sa_inv st'.
Proof.
  revert sa_n st. induction rounds as [|rounds IH]; intros sa_n st Hs H; cbn [anneal] in H.
  - inversion H; subst; exact Hs.
  - destruct (still_hot orc sa_n).
    + bind_ok H. eapply IH; [|exact H].
      eapply (foldM_inv sa_inv); [|exact Hs|exact E].
      intros s x s' Hs0 Hstep. eapply anneal_step_inv; eauto.
    + inversion H; subst; exact Hs.
Qed.

End Frame.

Lemma candidate_positions_spec (chip_dim : nat * nat) (initial_mapping : list (Z * Z))
    (T : list nat) (lp : list (Z * Z)) :
  candidate_positions chip_dim initial_mapping T = Ok lp ->
  forall p, p ∈ lp <->
    (exists x y, p = (Z.of_nat x, Z.of_nat y) /\ x < fst chip_dim /\ y < snd chip_dim /\
                 p ∉ initial_mapping) \/
    (exists i, i ∈ T /\ initial_mapping !! i = Some p).
Proof.
  unfold candidate_positions. intros H. bind_ok H. inversion H; subst lp; clear H.
  intros p. rewrite elem_of_app.
  match goal with |- ?A \/ ?B <-> ?A' \/ ?B' =>
    cut ((A <-> A') /\ (B <-> B')); [tauto|split] end.
  - rewrite list_elem_of_In, in_flat_map. split.
    + intros (x & Hx & Hin). apply in_flat_map in Hin. destruct Hin as (y & Hy & Hin).
      apply in_seq in Hx. apply in_seq in Hy.
      destruct (bool_decide ((Z.of_nat x, Z.of_nat y) ∈ initial_mapping)) eqn:Eb.
      * destruct Hin.
      * destruct Hin as [<-|[]]. exists x, y. apply bool_decide_eq_false in Eb.
        repeat split; auto; lia.
    + intros (x & y & -> & Hx & Hy & Hnot). exists x. split; [apply in_seq; lia|].
      apply in_flat_map. exists y. split; [apply in_seq; lia|].
      rewrite bool_decide_eq_false_2 by exact Hnot. left; reflexivity.
  - clear -E. revert a E. induction T as [|t T IH]; intros a E; simpl in E.
    + inversion E; subst. split; [intros H; inversion H|].
      intros (i & Hi & _). inversion Hi.
    + bind_ok E. bind_ok E. inversion E; subst a; clear E.
      apply get_ok in E0. rewrite elem_of_cons, (IH a1 eq_refl). split.
      * intros [->|(i & Hi & Hp)].
        -- exists t. split; [left|exact E0].
        -- exists i. split; [right; exact Hi|exact Hp].
      * intros (i & Hi & Hp). apply elem_of_cons in Hi. destruct Hi as [->|Hi].
        -- left. congruence.
        -- right. exists i. auto.
Qed.

(** C7: the mapping returned by [place_qubit_partial] agrees with the given
    mapping on every qubit outside the target set; every movement of the
    annealing is made by a target qubit, goes to an empty cell of the working
    grid or to the initial site of a target qubit, and leaves the qubits
    outside the target set in place. *)
Theorem partial_placer_moves_only_targets
    (orc : sa_oracle) (chip_dim : nat * nat) (n_qubit : nat)
    (list_gate : list (list (nat * nat))) (qubit_mapping : list (Z * Z))
    (target_qubits : list nat) (l2 : bool) (best : list (Z * Z)) :
  place_qubit_partial orc chip_dim n_qubit list_gate qubit_mapping target_qubits l2
    = Ok (Some best) ->
  (length best = length qubit_mapping /\
   forall q, q ∉ target_qubits -> best !! q = qubit_mapping !! q) /\
  exists list_position,
    candidate_positions (working_grid chip_dim n_qubit) qubit_mapping target_qubits
      = Ok list_position /\
    (forall p, p ∈ list_position ->
       p ∉ qubit_mapping \/ exists i, i ∈ target_qubits /\ qubit_mapping !! i = Some p) /\
    forall st st',
      frame target_qubits qubit_mapping (sa_current_mapping st) ->
      make_movement orc n_qubit target_qubits list_position st = Ok st' ->
      frame target_qubits qubit_mapping (sa_current_mapping st') /\
      exists q nx ny ox oy,
        sa_movement st' = Some (q, nx, ny, ox, oy) /\
        q ∈ target_qubits /\ (nx, ny) ∈ list_position.
Proof.
  intros H. unfold place_qubit_partial in H. bind_ok H.
  inversion H as [Hbest]; clear H. unfold run in E.
  bind_ok E. bind_ok E. bind_ok E. bind_ok E.
  split.
  - assert (Hinv : sa_inv target_qubits qubit_mapping a).
    { eapply anneal_inv; [|exact E].
      eapply init_perturb_inv; [|exact E3].
      destruct (improves_init orc).
      - apply update_optimal_sol_inv. split; [apply frame_refl|]. intros b Hb. discriminate.
      - split; [apply frame_refl|]. intros b Hb. discriminate. }
    destruct Hinv as [_ Hb]. apply Hb in Hbest. exact Hbest.
  - exists a1. split; [reflexivity|]. split.
    + intros p Hp. apply (candidate_positions_spec _ _ _ _ E1) in Hp.
      destruct Hp as [(x & y & _ & _ & _ & Hnot)|Hheld]; [left|right]; auto.
    + intros st st' Hf Hmv.
      destruct (make_movement_frame orc n_qubit target_qubits a1 qubit_mapping st st' Hf Hmv)
        as (Hf' & _ & _ & Hsel).
      split; [exact Hf'|exact Hsel].
Qed.

(** A run on three qubits of which qubits 0 and 2 may move: the hundred
    perturbation movements and one round of four hundred annealing movements
    are made; the best mapping was recorded after the fourth movement. *)
Definition example_oracle : sa_oracle :=
  mk_sa_oracle (fun _ => 0) (fun k => k) true (fun k => k =? 3)
               (fun _ => true) Nat.even (fun n => n <? 2).

Lemma partial_placer_witness :
  place_qubit_partial example_oracle (4, 4) 3 [[(0, 1)]; [(1, 2)]]
      [(0, 0); (1, 1); (2, 2)]%Z [0; 2] false
    = Ok (Some [(1, 0); (1, 1); (2, 2)]%Z) /\
  [(1, 0); (1, 1); (2, 2)]%Z !! 1 = [(0, 0); (1, 1); (2, 2)]%Z !! 1.
Proof.
  split; [vm_compute; reflexivity|].
  apply (partial_placer_moves_only_targets example_oracle (4, 4) 3
           [[(0, 1)]; [(1, 2)]] [(0, 0); (1, 1); (2, 2)]%Z [0; 2] false
           [(1, 0); (1, 1); (2, 2)]%Z).
  - vm_compute; reflexivity.
  - intros H. apply list_elem_of_In in H. simpl in H. intuition discriminate.
Defined.

(** ** The inverse table stays the inverse of the mapping *)

(** A site of the working grid, and a table with one cell per site. *)
Definition on_grid (dim : nat * nat) (s : Z * Z) : Prop :=
  (0 <= fst s < Z.of_nat (fst dim))%Z /\ (0 <= snd s < Z.of_nat (snd dim))%Z.

Definition shaped (dim : nat * nat) (table : list (list Z)) : Prop :=
  length table = fst dim /\ Forall (fun row => length row = snd dim) table.

Lemma grid_get_lookup (dim : nat * nat) (table : list (list Z)) (x y : Z) :
  shaped dim table -> on_grid dim (x, y) ->
  exists row a,
    table !! Z.to_nat x = Some row /\ row !! Z.to_nat y = Some a /\
    length row = snd dim /\ grid_get table x y = Ok a.
Proof.
  intros [Hlen Hrows] [Hx Hy]. cbn [fst snd] in Hx, Hy.
  destruct (lookup_lt_is_Some_2 table (Z.to_nat x)) as [row Hrow]; [lia|].
  assert (Hrl : length row = snd dim) by exact (Forall_lookup_1 _ _ _ _ Hrows Hrow).
  destruct (lookup_lt_is_Some_2 row (Z.to_nat y)) as [a Ha]; [lia|].
  exists row, a. split; [exact Hrow|]. split; [exact Ha|]. split; [exact Hrl|].
  assert (Hg1 : get table (Z.to_nat x) = Ok row) by (unfold get; rewrite Hrow; reflexivity).
  assert (Hg2 : get row (Z.to_nat y) = Ok a) by (unfold get; rewrite Ha; reflexivity).
  unfold grid_get, py_get. rewrite py_norm_nonneg by lia. rewrite Hg1.
  cbn [mbind res_bind]. rewrite py_norm_nonneg by lia. exact Hg2.
Qed.

Lemma grid_set_on_grid (dim : nat * nat) (table : list (list Z)) (x y v : Z) :
  shaped dim table -> on_grid dim (x, y) ->
  exists table',
    grid_set table x y v = Ok table' /\ shaped dim table' /\
    grid_get table' x y = Ok v /\
    forall x' y', on_grid dim (x', y') -> (x', y') <> (x, y) ->
                  grid_get table' x' y' = grid_get table x' y'.
Proof.
  intros Hshape Hon.
  destruct (grid_get_lookup dim table x y Hshape Hon) as (row & a & Hrow & Ha & Hrl & _).
  destruct Hshape as [Hlen Hrows]. destruct Hon as [Hx Hy]. cbn [fst snd] in Hx, Hy.
  assert (Hset : grid_set table x y v
                 = Ok (<[Z.to_nat x := <[Z.to_nat y := v]> row]> table)).
  { unfold grid_set. rewrite py_norm_nonneg by lia. unfold get. rewrite Hrow.
    cbn [mbind res_bind]. rewrite py_norm_nonneg by lia. reflexivity. }
  eexists. split; [exact Hset|].
  assert (Hshape' : shaped dim (<[Z.to_nat x := <[Z.to_nat y := v]> row]> table)).
  { split; [rewrite length_insert; exact Hlen|].
    apply Forall_insert; [exact Hrows|]. rewrite length_insert. exact Hrl. }
  split; [exact Hshape'|]. split; [eapply grid_get_set; exact Hset|].
  intros x' y' Hon' Hne.
  destruct (grid_get_lookup dim table x' y' (conj Hlen Hrows) Hon')
    as (row' & a' & Hrow' & Ha' & _ & ->).
  destruct (grid_get_lookup dim _ x' y' Hshape' Hon') as (row2 & a2 & Hrow2 & Ha2 & _ & ->).
  f_equal. destruct Hon' as [Hx' Hy']. cbn [fst snd] in Hx', Hy'.
  destruct (decide (x' = x)) as [->|Hxne].
  - rewrite list_lookup_insert_eq in Hrow2 by lia. inversion Hrow2; subst row2.
    rewrite list_lookup_insert_ne in Ha2 by (intros Heq; apply Hne; f_equal; lia).
    congruence.
  - rewrite list_lookup_insert_ne in Hrow2 by lia. congruence.
Qed.

(** The table is the inverse of the mapping: every qubit is on a site of the
    grid whose cell names it, and every cell names nobody ([-1]) or a qubit
    that is on its site. *)
Definition inverse_ok (dim : nat * nat) (cm : list (Z * Z)) (table : list (list Z)) : Prop :=
  shaped dim table /\
  (forall q s, cm !! q = Some s ->
               on_grid dim s /\ grid_get table (fst s) (snd s) = Ok (Z.of_nat q)) /\
  (forall s a, on_grid dim s -> grid_get table (fst s) (snd s) = Ok a ->
               a = (-1)%Z \/ (0 <= a)%Z /\ cm !! Z.to_nat a = Some s).

(** The mapping after qubit [q] went to [new] and the qubit [a] found there,
    if any, to [old]. *)
Definition swapped (cm : list (Z * Z)) (q : nat) (old new : Z * Z) (a : Z) : list (Z * Z) :=
  if (a >? -1)%Z then <[Z.to_nat a := old]> (<[q := new]> cm) else <[q := new]> cm.

Lemma inverse_ok_NoDup (dim : nat * nat) (cm : list (Z * Z)) (table : list (list Z)) :
  inverse_ok dim cm table -> NoDup cm.
Proof.
  intros (_ & H3 & _). apply NoDup_alt. intros i j s Hi Hj.
  destruct (H3 i s Hi) as [_ Gi]. destruct (H3 j s Hj) as [_ Gj].
  rewrite Gi in Gj. inversion Gj. lia.
Qed.

(** The four assignments at the heart of [make_movement] and [recover]. *)
Lemma swap_spec (dim : nat * nat) (cm : list (Z * Z)) (table : list (list Z))
    (q : nat) (old new : Z * Z) :
  inverse_ok dim cm table -> cm !! q = Some old -> on_grid dim new ->
  exists a p1 p2,
    grid_get table (fst new) (snd new) = Ok a /\
    (a = (-1)%Z \/ (0 <= a)%Z /\ cm !! Z.to_nat a = Some new) /\
    grid_set table (fst new) (snd new) (Z.of_nat q) = Ok p1 /\
    grid_set p1 (fst old) (snd old) a = Ok p2 /\
    grid_get p2 (fst old) (snd old) = Ok a /\
    (new <> old -> grid_get p2 (fst new) (snd new) = Ok (Z.of_nat q)) /\
    (forall s, on_grid dim s -> s <> old -> s <> new ->
               grid_get p2 (fst s) (snd s) = grid_get table (fst s) (snd s)) /\
    inverse_ok dim (swapped cm q old new a) p2.
Proof.
  intros (Hs & H3 & H4) Hq Hnew.
  destruct (H3 q old Hq) as [Hold Gold].
  destruct new as [nx ny]. destruct old as [ox oy]. cbn [fst snd] in *.
  destruct (grid_get_lookup dim table nx ny Hs Hnew) as (_ & a & _ & _ & _ & Gnew).
  pose proof (H4 (nx, ny) a Hnew Gnew) as Ha.
  destruct (grid_set_on_grid dim table nx ny (Z.of_nat q) Hs Hnew)
    as (p1 & Hp1 & Hs1 & G1 & F1).
  destruct (grid_set_on_grid dim p1 ox oy a Hs1 Hold) as (p2 & Hp2 & Hs2 & G2 & F2).
  assert (Hsame : a = Z.of_nat q <-> (nx, ny) = (ox, oy)).
  { split.
    - intros ->. destruct Ha as [Ha|[_ Ha]]; [lia|]. rewrite Nat2Z.id in Ha. congruence.
    - intros Heq. inversion Heq; subst. rewrite Gold in Gnew. inversion Gnew. reflexivity. }
  assert (Gn2 : (nx, ny) <> (ox, oy) -> grid_get p2 nx ny = Ok (Z.of_nat q)).
  { intros Hne. rewrite (F2 nx ny Hnew Hne). exact G1. }
  assert (Go2 : forall s, on_grid dim s -> s <> (ox, oy) -> s <> (nx, ny) ->
                  grid_get p2 (fst s) (snd s) = grid_get table (fst s) (snd s)).
  { intros [x y] Hon Hno Hnn. cbn [fst snd]. rewrite (F2 x y Hon Hno). apply F1; assumption. }
  exists a, p1, p2.
  split; [exact Gnew|]. split; [exact Ha|]. split; [exact Hp1|]. split; [exact Hp2|].
  split; [exact G2|]. split; [exact Gn2|]. split; [exact Go2|].
  assert (Hqlt : q < length cm) by (eapply lookup_lt_Some; eauto).
  assert (Hcm2 : forall q',
             swapped cm q (ox, oy) (nx, ny) a !! q'
             = if decide ((0 <= a)%Z /\ q' = Z.to_nat a) then Some (ox, oy)
               else if decide (q' = q) then Some (nx, ny) else cm !! q').
  { intros q'. unfold swapped. destruct (Z.gtb_spec a (-1)) as [Hgt|Hle].
    - destruct Ha as [Ha|[Ha0 Ha]]; [lia|].
      assert (Z.to_nat a < length cm) by (eapply lookup_lt_Some; eauto).
      destruct (decide ((0 <= a)%Z /\ q' = Z.to_nat a)) as [[_ ->]|Hn].
      + apply list_lookup_insert_eq. rewrite length_insert. lia.
      + rewrite list_lookup_insert_ne by (intros Heq; apply Hn; split; [lia|congruence]).
        destruct (decide (q' = q)) as [->|Hnq].
        * apply list_lookup_insert_eq. lia.
        * apply list_lookup_insert_ne. congruence.
    - destruct (decide ((0 <= a)%Z /\ q' = Z.to_nat a)) as [[Hge _]|_]; [lia|].
      destruct (decide (q' = q)) as [->|Hnq].
      + apply list_lookup_insert_eq. lia.
      + apply list_lookup_insert_ne. congruence. }
  split; [exact Hs2|]. split.
  - intros q' s Hq'. rewrite Hcm2 in Hq'.
    destruct (decide ((0 <= a)%Z /\ q' = Z.to_nat a)) as [[Hge ->]|Hna].
    + inversion Hq'; subst s. split; [exact Hold|]. cbn [fst snd].
      rewrite G2, Z2Nat.id by lia. reflexivity.
    + destruct (decide (q' = q)) as [->|Hnq].
      * inversion Hq'; subst s. split; [exact Hnew|]. cbn [fst snd].
        apply Gn2. intros Heq. apply Hsame in Heq. apply Hna.
        split; [lia|]. rewrite Heq, Nat2Z.id. reflexivity.
      * destruct (H3 q' s Hq') as [Hon Gs]. split; [exact Hon|].
        rewrite Go2; [exact Gs|exact Hon| |].
        -- intros ->. cbn [fst snd] in Gs. rewrite Gold in Gs. inversion Gs. lia.
        -- intros ->. cbn [fst snd] in Gs. rewrite Gnew in Gs. inversion Gs.
           apply Hna. split; [lia|]. subst a. rewrite Nat2Z.id. reflexivity.
  - intros s a' Hon Gs. destruct (decide (s = (ox, oy))) as [->|Hno].
    + cbn [fst snd] in Gs. rewrite G2 in Gs. inversion Gs; subst a'.
      destruct Ha as [Ha|[Ha0 Ha]]; [left; exact Ha|right].
      split; [exact Ha0|]. rewrite Hcm2.
      destruct (decide ((0 <= a)%Z /\ Z.to_nat a = Z.to_nat a)) as [_|Hn]; [reflexivity|].
      exfalso. apply Hn. auto.
    + destruct (decide (s = (nx, ny))) as [->|Hnn].
      * cbn [fst snd] in Gs. rewrite Gn2 in Gs by congruence. inversion Gs; subst a'.
        right. split; [lia|]. rewrite Nat2Z.id, Hcm2.
        destruct (decide ((0 <= a)%Z /\ q = Z.to_nat a)) as [[Hge Heq]|_].
        -- exfalso. apply Hno. apply Hsame. rewrite Heq, Z2Nat.id by lia. reflexivity.
        -- destruct (decide (q = q)); [reflexivity|congruence].
      * rewrite Go2 in Gs by assumption.
        destruct (H4 s a' Hon Gs) as [Hm|[Hge Hcm]]; [left; exact Hm|right].
        split; [exact Hge|]. rewrite Hcm2.
        destruct (decide ((0 <= a)%Z /\ Z.to_nat a' = Z.to_nat a)) as [[Hge' Heq]|_].
        -- exfalso. destruct Ha as [Ha|[_ Ha]]; [lia|]. apply Hnn. congruence.
        -- destruct (decide (Z.to_nat a' = q)) as [Heq|_]; [|exact Hcm].
           exfalso. apply Hno. congruence.
Qed.

Lemma swapped_lookup (cm : list (Z * Z)) (q : nat) (old new : Z * Z) (a : Z) (q' : nat) :
  q < length cm -> (a = (-1)%Z \/ (0 <= a)%Z /\ Z.to_nat a < length cm) ->
  swapped cm q old new a !! q'
  = if decide ((0 <= a)%Z /\ q' = Z.to_nat a) then Some old
    else if decide (q' = q) then Some new else cm !! q'.
Proof.
  intros Hq Ha. unfold swapped. destruct (Z.gtb_spec a (-1)) as [Hgt|Hle].
  - destruct Ha as [Ha|[Ha0 Ha]]; [lia|].
    destruct (decide ((0 <= a)%Z /\ q' = Z.to_nat a)) as [[_ ->]|Hn].
    + apply list_lookup_insert_eq. rewrite length_insert. lia.
    + rewrite list_lookup_insert_ne by (intros Heq; apply Hn; split; [lia|congruence]).
      destruct (decide (q' = q)) as [->|Hnq].
      * apply list_lookup_insert_eq. lia.
      * apply list_lookup_insert_ne. congruence.
  - destruct (decide ((0 <= a)%Z /\ q' = Z.to_nat a)) as [[Hge _]|_]; [lia|].
    destruct (decide (q' = q)) as [->|Hnq].
    + apply list_lookup_insert_eq. lia.
    + apply list_lookup_insert_ne. congruence.
Qed.

Lemma swapped_length (cm : list (Z * Z)) (q : nat) (old new : Z * Z) (a : Z) :
  length (swapped cm q old new a) = length cm.
Proof. unfold swapped. destruct (a >? -1)%Z; rewrite ?length_insert; reflexivity. Qed.

Lemma shaped_ext (dim : nat * nat) (t1 t2 : list (list Z)) :
  shaped dim t1 -> shaped dim t2 ->
  (forall s, on_grid dim s -> grid_get t1 (fst s) (snd s) = grid_get t2 (fst s) (snd s)) ->
  t1 = t2.
Proof.
  intros Hs1 Hs2 Hext. apply list_eq. intros i.
  destruct (decide (i < fst dim)) as [Hi|Hi].
  2: { rewrite !lookup_ge_None_2; [reflexivity| |]; [destruct Hs2|destruct Hs1]; lia. }
  destruct (lookup_lt_is_Some_2 t1 i) as [r1 Hr1]; [destruct Hs1; lia|].
  destruct (lookup_lt_is_Some_2 t2 i) as [r2 Hr2]; [destruct Hs2; lia|].
  rewrite Hr1, Hr2. f_equal. apply list_eq. intros j.
  assert (Hl1 : length r1 = snd dim) by exact (Forall_lookup_1 _ _ _ _ (proj2 Hs1) Hr1).
  assert (Hl2 : length r2 = snd dim) by exact (Forall_lookup_1 _ _ _ _ (proj2 Hs2) Hr2).
  destruct (decide (j < snd dim)) as [Hj|Hj].
  2: { rewrite !lookup_ge_None_2; [reflexivity| |]; lia. }
  assert (Hon : on_grid dim (Z.of_nat i, Z.of_nat j)) by (split; cbn [fst snd]; lia).
  specialize (Hext _ Hon). cbn [fst snd] in Hext.
  destruct (grid_get_lookup dim t1 _ _ Hs1 Hon) as (r1' & a1 & Hr1' & Ha1 & _ & G1).
  destruct (grid_get_lookup dim t2 _ _ Hs2 Hon) as (r2' & a2 & Hr2' & Ha2 & _ & G2).
  rewrite Nat2Z.id in Hr1', Hr2', Ha1, Ha2. congruence.
Qed.

Section Consistency.

Variable orc : sa_oracle.
Variable n_qubit : nat.
Variable T : list nat.
Variable list_position : list (Z * Z).
Variable m : list (Z * Z).
Variable dim : nat * nat.

(** The target qubits exist; the given mapping puts no two qubits on one
    site; a candidate position is a site of the grid that is free in the
    given mapping or held there by a target qubit. *)
Hypothesis targets_known : forall q, q ∈ T -> q < n_qubit.
Hypothesis m_injective : NoDup m.
Hypothesis positions_ok :
  forall p, p ∈ list_position ->
    on_grid dim p /\ (p ∉ m \/ exists i, i ∈ T /\ m !! i = Some p).

Definition consistent (st : sa_state) : Prop :=
  length (sa_current_mapping st) = n_qubit /\
  inverse_ok dim (sa_current_mapping st) (sa_physical_to_program st) /\
  frame T m (sa_current_mapping st).

(** A qubit found on a candidate position is a target qubit, so the
    assertion of [make_movement] holds. *)
Lemma candidate_holds_target (st : sa_state) (p : Z * Z) (a : Z) :
  consistent st -> p ∈ list_position ->
  grid_get (sa_physical_to_program st) (fst p) (snd p) = Ok a -> (a > -1)%Z ->
  a ∈ map Z.of_nat T.
Proof.
  intros (_ & (_ & _ & H4) & [_ Hframe]) Hp Hget Ha.
  destruct (positions_ok p Hp) as [Hon Hfree].
  destruct (H4 p a Hon Hget) as [Hm|[Hge Hcm]]; [lia|].
  apply list_elem_of_In, in_map_iff. exists (Z.to_nat a).
  split; [lia|]. apply list_elem_of_In.
  destruct (decide (Z.to_nat a ∈ T)) as [Hin|Hout]; [exact Hin|exfalso].
  rewrite (Hframe _ Hout) in Hcm.
  destruct Hfree as [Hfree|(i & Hi & Hmi)].
  - apply Hfree. eapply list_elem_of_lookup_2; eauto.
  - apply Hout. rewrite <- (NoDup_lookup m i (Z.to_nat a) p m_injective Hmi Hcm). exact Hi.
Qed.

(** A movement never fails in a consistent state, and leaves a consistent
    state. *)
Lemma make_movement_consistent (st : sa_state) :
  consistent st -> T <> [] -> list_position <> [] ->
  exists st' q old new a,
    make_movement orc n_qubit T list_position st = Ok st' /\
    consistent st' /\
    sa_current_mapping st !! q = Some old /\ on_grid dim old /\
    grid_get (sa_physical_to_program st) (fst new) (snd new) = Ok a /\
    (a = (-1)%Z \/ (0 <= a)%Z /\ sa_current_mapping st !! Z.to_nat a = Some new) /\
    sa_movement st' = Some (q, fst new, snd new, fst old, snd old) /\
    sa_current_mapping st' = swapped (sa_current_mapping st) q old new a /\
    grid_get (sa_physical_to_program st') (fst old) (snd old) = Ok a /\
    (new <> old ->
     grid_get (sa_physical_to_program st') (fst new) (snd new) = Ok (Z.of_nat q)) /\
    (forall s, on_grid dim s -> s <> old -> s <> new ->
               grid_get (sa_physical_to_program st') (fst s) (snd s)
               = grid_get (sa_physical_to_program st) (fst s) (snd s)) /\
    sa_best_mapping st' = sa_best_mapping st /\ sa_tick st' = sa_tick st + 1.
Proof.
  intros Hcons HT HP. pose proof Hcons as (Hlen & Hinv & Hframe).
  assert (HTlen : 0 < length T) by (destruct T; [congruence|cbn; lia]).
  set (qi := draw_qubit orc (sa_tick st) mod length T).
  assert (Hqi : qi < length T) by (apply Nat.mod_upper_bound; lia).
  destruct (lookup_lt_is_Some_2 T qi Hqi) as [q Hq].
  assert (HqT : q ∈ T) by (eapply list_elem_of_lookup_2; eauto).
  assert (Hqn : q < n_qubit) by (apply targets_known; exact HqT).
  destruct (lookup_lt_is_Some_2 (sa_current_mapping st) q) as [old Hold]; [lia|].
  assert (Hlp : 0 < length list_position).
  { destruct list_position; [congruence|cbn; lia]. }
  set (pi := draw_position orc (sa_tick st) mod length list_position).
  assert (Hpi : pi < length list_position) by (apply Nat.mod_upper_bound; lia).
  destruct (lookup_lt_is_Some_2 list_position pi Hpi) as [new Hnew].
  assert (Hnewin : new ∈ list_position) by (eapply list_elem_of_lookup_2; eauto).
  destruct (positions_ok new Hnewin) as [Hon _].
  destruct (swap_spec dim _ _ q old new Hinv Hold Hon)
    as (a & p1 & p2 & Gnew & Ha & Hp1 & Hp2 & G2 & Gn2 & Go2 & Hinv').
  destruct (proj1 (proj2 Hinv) q old Hold) as [Holdon _].
  pose proof (candidate_holds_target st new a Hcons Hnewin Gnew) as HaT.
  eexists _, q, old, new, a.
  assert (Hrun : make_movement orc n_qubit T list_position st
                 = Ok (mk_sa_state (swapped (sa_current_mapping st) q old new a) p2
                                   (Some (q, fst new, snd new, fst old, snd old))
                                   (sa_best_mapping st) (sa_tick st + 1))).
  { unfold make_movement, randrange.
    destruct (Nat.eqb_spec (length T) 0) as [|_]; [lia|]. cbn [mbind res_bind].
    fold qi. assert (Hg1 : get T qi = Ok q) by (unfold get; rewrite Hq; reflexivity).
    rewrite Hg1. cbn [mbind res_bind].
    destruct (Nat.eqb_spec (length list_position) 0) as [|_]; [lia|]. cbn [mbind res_bind].
    fold pi. assert (Hg2 : get list_position pi = Ok new)
      by (unfold get; rewrite Hnew; reflexivity).
    rewrite Hg2. cbn [mbind res_bind]. destruct new as [nx ny].
    assert (Hg3 : get (sa_current_mapping st) q = Ok old)
      by (unfold get; rewrite Hold; reflexivity).
    rewrite Hg3. cbn [mbind res_bind]. destruct old as [ox oy]. cbn [fst snd] in *.
    rewrite Gnew. cbn [mbind res_bind].
    destruct (Nat.ltb_spec q n_qubit) as [_|]; [|lia]. cbn [mbind res_bind].
    rewrite Hp1. unfold swapped.
    destruct (Z.gtb_spec a (-1)) as [Hgt|Hle].
    - specialize (HaT ltac:(lia)).
      rewrite bool_decide_eq_true_2 by exact HaT.
      destruct Ha as [Ha|[Ha0 Ha]]; [lia|].
      assert (Hna : Z.to_nat a < n_qubit) by (rewrite <- Hlen; eapply lookup_lt_Some; eauto).
      assert (Hu : py_get (replicate n_qubit ()) a = Ok ()).
      { unfold py_get. rewrite length_replicate, py_norm_nonneg by lia.
        unfold get. rewrite (proj2 (lookup_replicate _ _ _ _) (conj eq_refl Hna)).
        reflexivity. }
      rewrite Hu. cbn [mbind res_bind]. rewrite Hp2. cbn [mbind res_bind].
      unfold py_set. rewrite length_insert, py_norm_nonneg by lia. reflexivity.
    - cbn [mbind res_bind]. rewrite Hp2. reflexivity. }
  split; [exact Hrun|]. cbn [sa_current_mapping sa_physical_to_program sa_movement
                            sa_best_mapping sa_tick].
  split.
  { unfold consistent. cbn [sa_current_mapping sa_physical_to_program].
    split; [rewrite swapped_length; exact Hlen|]. split; [exact Hinv'|].
    destruct (make_movement_frame orc n_qubit T list_position m st _ Hframe Hrun)
      as [Hf _]. exact Hf. }
  repeat (split; [assumption || reflexivity|]). split; reflexivity.
Qed.

(** [recover] after a movement puts the mapping and the table back. *)
Lemma recover_restores (st st' : sa_state) :
  consistent st -> T <> [] -> list_position <> [] ->
  make_movement orc n_qubit T list_position st = Ok st' ->
  exists st'',
    recover st' = Ok st'' /\
    sa_current_mapping st'' = sa_current_mapping st /\
    sa_physical_to_program st'' = sa_physical_to_program st /\
    sa_best_mapping st'' = sa_best_mapping st /\
    sa_movement st'' = sa_movement st' /\ sa_tick st'' = sa_tick st'.
Proof.
  intros Hcons HT HP Hmv.
  destruct (make_movement_consistent st Hcons HT HP)
    as (st0 & q & old & new & a & Hrun & Hcons' & Hold & Holdon & Gnew & Ha & Hmov & Hcm'
        & G2 & Gn2 & Go2 & Hbest & Htick).
  rewrite Hmv in Hrun. inversion Hrun; subst st0; clear Hrun.
  destruct Hcons as (Hlen & Hinv & _). destruct Hcons' as (Hlen' & Hinv' & _).
  assert (Hqlt : q < length (sa_current_mapping st)) by (eapply lookup_lt_Some; eauto).
  assert (Ha' : a = (-1)%Z \/ (0 <= a)%Z /\ Z.to_nat a < length (sa_current_mapping st)).
  { destruct Ha as [Ha|[Ha0 Ha]]; [left; exact Ha|right].
    split; [exact Ha0|eapply lookup_lt_Some; eauto]. }
  assert (Hq' : sa_current_mapping st' !! q = Some new).
  { rewrite Hcm', swapped_lookup by assumption.
    destruct (decide ((0 <= a)%Z /\ q = Z.to_nat a)) as [[Hge Heq]|_].
    - destruct Ha as [Ha|[_ Ha]]; [lia|]. rewrite <- Heq in Ha. congruence.
    - destruct (decide (q = q)); [reflexivity|congruence]. }
  destruct (swap_spec dim _ _ q new old Hinv' Hq' Holdon)
    as (a' & p1 & p2 & Gold' & _ & Hp1 & Hp2 & G2' & Gn2' & Go2' & Hinv'').
  rewrite G2 in Gold'. inversion Gold'; subst a'; clear Gold'.
  assert (Hcm'' : swapped (sa_current_mapping st') q new old a = sa_current_mapping st).
  { apply list_eq. intros q'.
    rewrite swapped_lookup; [|rewrite Hlen', <- Hlen; exact Hqlt
                              |rewrite Hlen', <- Hlen; exact Ha'].
    rewrite Hcm', swapped_lookup by assumption.
    destruct (decide ((0 <= a)%Z /\ q' = Z.to_nat a)) as [[Hge ->]|_].
    - destruct Ha as [Ha|[_ Ha]]; [lia|]. symmetry. exact Ha.
    - destruct (decide (q' = q)) as [->|_]; [symmetry; exact Hold|reflexivity]. }
  assert (Htable : p2 = sa_physical_to_program st).
  { apply (shaped_ext dim); [exact (proj1 Hinv'')|exact (proj1 Hinv)|].
    intros s Hon. destruct (decide (s = new)) as [->|Hnn].
    - rewrite G2', Gnew. reflexivity.
    - destruct (decide (s = old)) as [->|Hno].
      + rewrite Gn2' by congruence. symmetry.
        exact (proj2 (proj1 (proj2 Hinv) q old Hold)).
      + rewrite Go2' by assumption. apply Go2; assumption. }
  exists (mk_sa_state (sa_current_mapping st) (sa_physical_to_program st)
                      (sa_movement st') (sa_best_mapping st') (sa_tick st')).
  split.
  { unfold recover. rewrite Hmov. rewrite G2. cbn [mbind res_bind].
    destruct (Nat.ltb_spec q (length (sa_current_mapping st'))) as [_|Hge];
      [|rewrite Hlen', <- Hlen in Hge; lia].
    cbn [mbind res_bind]. rewrite Hp1. cbn [mbind res_bind]. rewrite Hp2.
    cbn [mbind res_bind]. unfold swapped in Hcm''. subst p2.
    destruct new as [nx ny]. destruct old as [ox oy]. cbn [fst snd] in *.
    destruct (Z.gtb_spec a (-1)) as [Hgt|Hle].
    - destruct Ha' as [Ha'|[Ha0 Ha']]; [lia|].
      unfold py_set. rewrite length_insert, py_norm_nonneg
        by (rewrite Hlen', <- Hlen; lia).
      cbn [mbind res_bind]. rewrite Hcm''. reflexivity.
    - cbn [mbind res_bind]. rewrite Hcm''. reflexivity. }
  cbn [sa_current_mapping sa_physical_to_program sa_best_mapping sa_movement sa_tick].
  split; [reflexivity|]. split; [reflexivity|]. split; [exact Hbest|]. split; reflexivity.
Qed.

(** The invariant of a run, continued: the state is consistent and the best
    mapping recorded so far is a placement on the grid. *)
Definition placement (b : list (Z * Z)) : Prop :=
  length b = n_qubit /\ NoDup b /\ Forall (on_grid dim) b.

Definition run_inv (st : sa_state) : Prop :=
  consistent st /\ forall b, sa_best_mapping st = Some b -> placement b.

Lemma consistent_placement (st : sa_state) :
  consistent st -> placement (sa_current_mapping st).
Proof.
  intros (Hlen & Hinv & _). split; [exact Hlen|].
  split; [eapply inverse_ok_NoDup; eauto|].
  apply Forall_lookup_2. intros q s Hs. exact (proj1 (proj1 (proj2 Hinv) q s Hs)).
Qed.

Lemma update_optimal_sol_run_inv (st : sa_state) :
  run_inv st -> run_inv (update_optimal_sol st).
Proof.
  intros [Hc Hb]. split; [exact Hc|]. intros b Hb'. cbn in Hb'.
  inversion Hb'; subst b. apply consistent_placement. exact Hc.
Qed.

Lemma make_movement_run_inv (st : sa_state) :
  run_inv st -> T <> [] -> list_position <> [] ->
  exists st', make_movement orc n_qubit T list_position st = Ok st' /\
              run_inv st' /\ sa_tick st' = sa_tick st + 1.
Proof.
  intros [Hc Hb] HT HP.
  destruct (make_movement_consistent st Hc HT HP)
    as (st' & q & old & new & a & Hrun & Hc' & _ & _ & _ & _ & _ & _ & _ & _ & _ & Hbest
        & Htick).
  exists st'. split; [exact Hrun|]. split; [|exact Htick].
  split; [exact Hc'|]. rewrite Hbest. exact Hb.
Qed.

Lemma perturb_step_run_inv (acc : sa_state * nat) (i : nat) :
  run_inv (fst acc) -> T <> [] -> list_position <> [] ->
  exists acc',
    perturb_step orc n_qubit T list_position acc i = Ok acc' /\
    run_inv (fst acc') /\ sa_tick (fst acc') = sa_tick (fst acc) + 1 /\
    snd acc' = if delta_positive orc (sa_tick (fst acc)) then S (snd acc) else snd acc.
Proof.
  intros Hinv HT HP.
  destruct (make_movement_run_inv (fst acc) Hinv HT HP) as (st' & Hrun & Hinv' & Htick).
  eexists. split; [unfold perturb_step; rewrite Hrun; reflexivity|]. cbn [fst snd].
  split; [|split; [|reflexivity]].
  - destruct (improves orc (sa_tick (fst acc)));
      [apply update_optimal_sol_run_inv|]; exact Hinv'.
  - destruct (improves orc (sa_tick (fst acc))); exact Htick.
Qed.

Lemma perturb_run (n : nat) (l : list nat) (acc : sa_state * nat) :
  length l = n -> run_inv (fst acc) -> T <> [] -> list_position <> [] ->
  exists acc',
    foldM (perturb_step orc n_qubit T list_position) l acc = Ok acc' /\
    run_inv (fst acc') /\
    (snd acc' = 0 <->
     snd acc = 0 /\ forall k, k < n -> delta_positive orc (sa_tick (fst acc) + k) = false).
Proof.
  intros Hl Hinv HT HP. revert n acc Hl Hinv.
  induction l as [|i l IH]; intros n acc Hl Hinv; cbn [length] in Hl; subst n.
  - exists acc. split; [reflexivity|]. split; [exact Hinv|].
    split; [intros H0; split; [exact H0|intros k Hk; lia]|tauto].
  - destruct (perturb_step_run_inv acc i Hinv HT HP) as (acc1 & Hstep & Hinv1 & Htick & Hcnt).
    destruct (IH (length l) acc1 eq_refl Hinv1) as (acc' & Hrun & Hinv' & Hzero).
    exists acc'. cbn [foldM]. rewrite Hstep. cbn [mbind res_bind].
    split; [exact Hrun|]. split; [exact Hinv'|].
    rewrite Hzero, Hcnt, Htick. split.
    + intros [H0 Hall].
      destruct (delta_positive orc (sa_tick (fst acc))) eqn:Ed; [discriminate|].
      split; [exact H0|]. intros [|k] Hk.
      * rewrite Nat.add_0_r. exact Ed.
      * replace (sa_tick (fst acc) + S k) with (sa_tick (fst acc) + 1 + k) by lia.
        apply Hall. lia.
    + intros [H0 Hall]. pose proof (Hall 0 ltac:(lia)) as Ed.
      rewrite Nat.add_0_r in Ed. rewrite Ed. split; [exact H0|].
      intros k Hk. replace (sa_tick (fst acc) + 1 + k) with (sa_tick (fst acc) + S k) by lia.
      apply Hall. lia.
Qed.

Lemma anneal_step_run_inv (st : sa_state) (i : nat) :
  run_inv st -> T <> [] -> list_position <> [] ->
  exists st', anneal_step orc n_qubit T list_position st i = Ok st' /\ run_inv st'.
Proof.
  intros Hinv HT HP.
  destruct (make_movement_run_inv st Hinv HT HP) as (st1 & Hrun & Hinv1 & _).
  unfold anneal_step. rewrite Hrun. cbn [mbind res_bind].
  destruct (delta_positive orc (sa_tick st)); cbn [negb].
  - destruct (accept_worse orc (sa_tick st)); [eauto|].
    destruct (recover_restores st st1 (proj1 Hinv) HT HP Hrun)
      as (st2 & Hrec & Hcm & Htb & Hbest & _ & _).
    exists st2. split; [exact Hrec|]. destruct Hinv as [Hc Hb]. split.
    + unfold consistent. rewrite Hcm, Htb. exact Hc.
    + rewrite Hbest. exact Hb.
  - eexists. split; [reflexivity|].
    destruct (improves orc (sa_tick st)); [apply update_optimal_sol_run_inv|]; exact Hinv1.
Qed.

Lemma anneal_run_inv (rounds sa_n : nat) (st : sa_state) :
  run_inv st -> T <> [] -> list_position <> [] ->
  exists st', anneal orc n_qubit T list_position rounds sa_n st = Ok st' /\ run_inv st'.
Proof.
  intros Hinv HT HP. revert sa_n st Hinv.
  induction rounds as [|rounds IH]; intros sa_n st Hinv; cbn [anneal]; [eauto|].
  destruct (still_hot orc sa_n); [|eauto].
  assert (Hfold : forall (l : list nat) (s : sa_state), run_inv s ->
             exists s', foldM (anneal_step orc n_qubit T list_position) l s = Ok s' /\
                        run_inv s').
  { induction l as [|i l IHl]; intros s Hs; [eauto|].
    destruct (anneal_step_run_inv s i Hs HT HP) as (s1 & Hstep & Hs1).
    destruct (IHl s1 Hs1) as (s' & Hrun & Hs'). exists s'. cbn [foldM].
    rewrite Hstep. auto. }
  destruct (Hfold (seq 0 sa_l) st Hinv) as (st1 & Hrun & Hinv1). rewrite Hrun.
  cbn [mbind res_bind]. apply IH. exact Hinv1.
Qed.

End Consistency.

(** The set-up of [init_sa_solution] succeeds on a placement. *)
Lemma candidate_positions_total (dim : nat * nat) (m : list (Z * Z)) (T : list nat) :
  (forall q, q ∈ T -> q < length m) ->
  exists lp, candidate_positions dim m T = Ok lp.
Proof.
  intros HT. unfold candidate_positions.
  assert (Hheld : exists held, mapM (fun i => get m i) T = Ok held).
  { induction T as [|t T IH]; [exists []; reflexivity|].
    destruct (lookup_lt_is_Some_2 m t) as [s Hs]; [apply HT; left|].
    destruct IH as [held Hheld]; [intros q Hq; apply HT; right; exact Hq|].
    assert (Hg : get m t = Ok s) by (unfold get; rewrite Hs; reflexivity).
    exists (s :: held). cbn [mapM]. rewrite Hg. cbn [mbind res_bind].
    rewrite Hheld. reflexivity. }
  destruct Hheld as [held ->]. eexists. reflexivity.
Qed.

Lemma inverse_table_prefix (dim : nat * nat) (m : list (Z * Z)) (k : nat) :
  k <= length m -> NoDup m -> Forall (on_grid dim) m ->
  exists table,
    foldM (fun table i => s ← get m i; grid_set table (fst s) (snd s) (Z.of_nat i))
          (seq 0 k) (replicate (fst dim) (replicate (snd dim) (-1)%Z)) = Ok table /\
    shaped dim table /\
    (forall q s, q < k -> m !! q = Some s ->
                 grid_get table (fst s) (snd s) = Ok (Z.of_nat q)) /\
    (forall s a, on_grid dim s -> grid_get table (fst s) (snd s) = Ok a ->
                 a = (-1)%Z \/ (0 <= a < Z.of_nat k)%Z /\ m !! Z.to_nat a = Some s).
Proof.
  intros Hk Hnd Hgrid. induction k as [|k IH].
  - eexists. split; [reflexivity|].
    assert (Hs : shaped dim (replicate (fst dim) (replicate (snd dim) (-1)%Z))).
    { split; [apply length_replicate|]. apply Forall_replicate, length_replicate. }
    split; [exact Hs|]. split; [intros q s Hq; lia|].
    intros [x y] a Hon Hget. left.
    destruct (grid_get_lookup dim _ x y Hs Hon) as (row & a' & Hrow & Ha' & _ & Hget').
    cbn [fst snd] in Hget. rewrite Hget' in Hget. inversion Hget; subst a'.
    apply lookup_replicate in Hrow. destruct Hrow as [-> _].
    apply lookup_replicate in Ha'. destruct Ha' as [-> _]. reflexivity.
  - destruct IH as (table & Hrun & Hs & H3 & H4); [lia|].
    destruct (lookup_lt_is_Some_2 m k) as [s Hsk]; [lia|].
    assert (Hon : on_grid dim s) by exact (Forall_lookup_1 _ _ _ _ Hgrid Hsk).
    destruct s as [x y].
    destruct (grid_set_on_grid dim table x y (Z.of_nat k) Hs Hon)
      as (table' & Hset & Hs' & Gk & Frame).
    exists table'. split.
    { assert (Hg : get m k = Ok (x, y)) by (unfold get; rewrite Hsk; reflexivity).
      rewrite seq_S, foldM_app, Hrun. cbn [mbind res_bind foldM Nat.add].
      rewrite Hg. cbn [mbind res_bind fst snd]. rewrite Hset. reflexivity. }
    split; [exact Hs'|]. split.
    + intros q s Hq Hqs. destruct (decide (q = k)) as [->|Hne].
      * rewrite Hsk in Hqs. inversion Hqs; subst s. exact Gk.
      * assert (Hsne : s <> (x, y)).
        { intros ->. apply Hne. exact (NoDup_lookup m q k (x, y) Hnd Hqs Hsk). }
        destruct s as [x' y']. cbn [fst snd].
        rewrite (Frame x' y' (Forall_lookup_1 _ _ _ _ Hgrid Hqs) Hsne).
        apply (H3 q (x', y')); [lia|exact Hqs].
    + intros s a Hons Hget. destruct (decide (s = (x, y))) as [->|Hsne].
      * cbn [fst snd] in Hget. rewrite Gk in Hget. inversion Hget; subst a.
        right. split; [lia|]. rewrite Nat2Z.id. exact Hsk.
      * destruct s as [x' y']. cbn [fst snd] in Hget.
        rewrite (Frame x' y' Hons Hsne) in Hget.
        destruct (H4 (x', y') a Hons Hget) as [Ha|[Ha Hm]]; [left; exact Ha|right].
        split; [lia|exact Hm].
Qed.

Lemma inverse_table_ok (dim : nat * nat) (n_qubit : nat) (m : list (Z * Z)) :
  length m = n_qubit -> NoDup m -> Forall (on_grid dim) m ->
  exists table, inverse_table dim n_qubit m = Ok table /\ inverse_ok dim m table.
Proof.
  intros Hlen Hnd Hgrid.
  destruct (inverse_table_prefix dim m n_qubit ltac:(lia) Hnd Hgrid)
    as (table & Hrun & Hs & H3 & H4).
  exists table. split; [exact Hrun|]. split; [exact Hs|]. split.
  - intros q s Hq. split; [exact (Forall_lookup_1 _ _ _ _ Hgrid Hq)|].
    apply H3; [|exact Hq]. rewrite <- Hlen. eapply lookup_lt_Some; eauto.
  - intros s a Hon Hget. destruct (H4 s a Hon Hget) as [Ha|[Ha Hm]]; [left; exact Ha|right].
    split; [lia|exact Hm].
Qed.

Section PlacementRun.

Variable orc : sa_oracle.
Variable chip_dim : nat * nat.
Variable n_qubit : nat.
Variable list_gate : list (list (nat * nat)).
Variable qubit_mapping : list (Z * Z).
Variable target_qubits : list nat.

(** What [place_qubit_partial] is given: gates on known qubits, one site of
    the working grid for each qubit and no site twice, target qubits that
    exist. *)
Hypothesis gates_known :
  forall g, In g (concat list_gate) -> fst g < n_qubit /\ snd g < n_qubit.
Hypothesis mapping_length : length qubit_mapping = n_qubit.
Hypothesis mapping_injective : NoDup qubit_mapping.
Hypothesis mapping_on_grid :
  Forall (on_grid (working_grid chip_dim n_qubit)) qubit_mapping.
Hypothesis targets_known : forall q, q ∈ target_qubits -> q < n_qubit.

(** The state in which [init_perturb] is entered. *)
Definition entry_state (table : list (list Z)) : sa_state :=
  let st := mk_sa_state qubit_mapping table None None 0 in
  if improves_init orc then update_optimal_sol st else st.

Lemma run_prepared :
  exists lp table,
    (forall p, p ∈ lp ->
       on_grid (working_grid chip_dim n_qubit) p /\
       (p ∉ qubit_mapping \/ exists i, i ∈ target_qubits /\ qubit_mapping !! i = Some p)) /\
    (target_qubits <> [] -> lp <> []) /\
    run_inv n_qubit target_qubits qubit_mapping (working_grid chip_dim n_qubit)
            (entry_state table) /\
    sa_tick (entry_state table) = 0 /\
    run orc chip_dim n_qubit list_gate qubit_mapping target_qubits
    = (st ← init_perturb orc n_qubit target_qubits lp (entry_state table);
       anneal orc n_qubit target_qubits lp (sa_iter_limit + 1) 1 st).
Proof.
  destruct (candidate_positions_total (working_grid chip_dim n_qubit) qubit_mapping
              target_qubits) as [lp Hlp].
  { intros q Hq. rewrite mapping_length. apply targets_known. exact Hq. }
  destruct (inverse_table_ok (working_grid chip_dim n_qubit) n_qubit qubit_mapping
              mapping_length mapping_injective mapping_on_grid) as (table & Htable & Hinv).
  exists lp, table.
  pose proof (candidate_positions_spec _ _ _ _ Hlp) as Hspec.
  split; [|split; [|split; [|split]]].
  - intros p Hp. apply Hspec in Hp.
    destruct Hp as [(x & y & -> & Hx & Hy & Hfree)|(i & Hi & Hp)].
    + split; [split; cbn [fst snd]; lia|left; exact Hfree].
    + split; [exact (Forall_lookup_1 _ _ _ _ mapping_on_grid Hp)|right; eauto].
  - intros HT Hnil. destruct target_qubits as [|t T'] eqn:ET; [congruence|].
    destruct (lookup_lt_is_Some_2 qubit_mapping t) as [s Hs].
    { rewrite mapping_length. apply targets_known. left. }
    assert (Hin : s ∈ lp) by (apply Hspec; right; exists t; split; [left|exact Hs]).
    rewrite Hnil in Hin. apply elem_of_nil in Hin. exact Hin.
  - assert (Hc : consistent n_qubit target_qubits qubit_mapping
                   (working_grid chip_dim n_qubit)
                   (mk_sa_state qubit_mapping table None None 0)).
    { split; [exact mapping_length|]. split; [exact Hinv|apply frame_refl]. }
    unfold entry_state. destruct (improves_init orc).
    + apply update_optimal_sol_run_inv. split; [exact Hc|]. intros b Hb. discriminate.
    + split; [exact Hc|]. intros b Hb. discriminate.
  - unfold entry_state. destruct (improves_init orc); reflexivity.
  - unfold run.
    assert (Hgates : forallb (fun g : nat * nat => (fst g <? n_qubit) && (snd g <? n_qubit))
                             (concat list_gate) = true).
    { apply forallb_forall. intros g Hg. destruct (gates_known g Hg) as [H0 H1].
      apply andb_true_iff. split; apply Nat.ltb_lt; assumption. }
    rewrite Hgates. cbn [mbind res_bind]. rewrite Hlp. cbn [mbind res_bind].
    rewrite Htable. reflexivity.
Qed.

Lemma run_outcome :
  (target_qubits = [] ->
   run orc chip_dim n_qubit list_gate qubit_mapping target_qubits = Raise ValueError) /\
  (target_qubits <> [] ->
   (forall k, k < sa_init_perturb_num -> delta_positive orc k = false) ->
   run orc chip_dim n_qubit list_gate qubit_mapping target_qubits
   = Raise ZeroDivisionError) /\
  (target_qubits <> [] ->
   (exists k, k < sa_init_perturb_num /\ delta_positive orc k = true) ->
   exists st,
     run orc chip_dim n_qubit list_gate qubit_mapping target_qubits = Ok st /\
     run_inv n_qubit target_qubits qubit_mapping (working_grid chip_dim n_qubit) st).
Proof.
  destruct run_prepared as (lp & table & Hpos & Hne & Hinv & Htick & ->).
  split; [|split].
  - intros HT. unfold init_perturb.
    change (seq 0 sa_init_perturb_num) with (0 :: seq 1 99). cbn [foldM].
    unfold perturb_step at 1. cbn [fst]. unfold make_movement, randrange.
    rewrite HT. reflexivity.
  - intros HT Hflat.
    destruct (perturb_run orc n_qubit target_qubits lp qubit_mapping
                (working_grid chip_dim n_qubit) targets_known mapping_injective Hpos
                sa_init_perturb_num (seq 0 sa_init_perturb_num) (entry_state table, 0)
                (length_seq _ _) Hinv HT (Hne HT)) as (acc & Hrun & _ & Hzero).
    unfold init_perturb. rewrite Hrun. cbn [mbind res_bind].
    assert (H0 : snd acc = 0).
    { apply Hzero. cbn [fst snd]. split; [reflexivity|]. intros k Hk.
      rewrite Htick. apply Hflat. exact Hk. }
    rewrite H0. reflexivity.
  - intros HT (k & Hk & Hup).
    destruct (perturb_run orc n_qubit target_qubits lp qubit_mapping
                (working_grid chip_dim n_qubit) targets_known mapping_injective Hpos
                sa_init_perturb_num (seq 0 sa_init_perturb_num) (entry_state table, 0)
                (length_seq _ _) Hinv HT (Hne HT)) as (acc & Hrun & Hinv' & Hzero).
    unfold init_perturb. rewrite Hrun. cbn [mbind res_bind].
    destruct (Nat.eqb_spec (snd acc) 0) as [H0|_].
    + apply Hzero in H0. destruct H0 as [_ Hflat]. specialize (Hflat k Hk).
      cbn [fst] in Hflat. rewrite Htick in Hflat. cbn in Hflat. congruence.
    + cbn [mbind res_bind].
      exact (anneal_run_inv orc n_qubit target_qubits lp qubit_mapping
               (working_grid chip_dim n_qubit) targets_known mapping_injective Hpos
               (sa_iter_limit + 1) 1 (fst acc) Hinv' HT (Hne HT)).
Qed.

(** X22: given gates on known qubits, a mapping that puts each of the
    [n_qubit] qubits on a site of the working grid and no two on one site,
    and target qubits that exist, the mapping [place_qubit_partial] returns
    is again such a placement. *)
Theorem partial_placer_returns_placement (l2 : bool) (best : list (Z * Z)) :
  place_qubit_partial orc chip_dim n_qubit list_gate qubit_mapping target_qubits l2
    = Ok (Some best) ->
  length best = n_qubit /\ NoDup best /\
  Forall (on_grid (working_grid chip_dim n_qubit)) best.
Proof.
  intros H. unfold place_qubit_partial in H.
  destruct run_outcome as (Hempty & Hflat & Hgood).
  destruct (decide (target_qubits = [])) as [HT|HT].
  { rewrite (Hempty HT) in H. discriminate. }
  destruct (decide (Forall (fun k => delta_positive orc k = false)
                           (seq 0 sa_init_perturb_num))) as [Hall|Hsome].
  - rewrite Hflat in H; [discriminate|exact HT|].
    intros k Hk. apply (proj1 (Forall_forall _ _) Hall). apply elem_of_seq. lia.
  - apply not_Forall_Exists in Hsome; [|intros k; apply _].
    apply Exists_exists in Hsome. destruct Hsome as (k & Hk & Hup).
    apply elem_of_seq in Hk. unfold compose in Hup.
    destruct (Hgood HT) as (st & Hrun & _ & Hbest).
    { exists k. split; [lia|]. destruct (delta_positive orc k); congruence. }
    rewrite Hrun in H. cbn in H. inversion H as [Hb]. exact (Hbest best Hb).
Qed.

(** X23: under the same conditions the assertion of [make_movement] never
    fails and no index is out of range.  The run raises [ValueError] when
    there is no target qubit, [ZeroDivisionError] when none of the hundred
    perturbation movements raises the cost, and returns otherwise. *)
Theorem partial_placer_outcome (l2 : bool) :
  (target_qubits = [] ->
   place_qubit_partial orc chip_dim n_qubit list_gate qubit_mapping target_qubits l2
   = Raise ValueError) /\
  (target_qubits <> [] ->
   (forall k, k < sa_init_perturb_num -> delta_positive orc k = false) ->
   place_qubit_partial orc chip_dim n_qubit list_gate qubit_mapping target_qubits l2
   = Raise ZeroDivisionError) /\
  (target_qubits <> [] ->
   (exists k, k < sa_init_perturb_num /\ delta_positive orc k = true) ->
   exists best,
     place_qubit_partial orc chip_dim n_qubit list_gate qubit_mapping target_qubits l2
     = Ok best).
Proof.
  destruct run_outcome as (Hempty & Hflat & Hgood). unfold place_qubit_partial.
  split; [|split].
  - intros HT. rewrite (Hempty HT). reflexivity.
  - intros HT Hall. rewrite (Hflat HT Hall). reflexivity.
  - intros HT Hsome. destruct (Hgood HT Hsome) as (st & -> & _). eexists. reflexivity.
Qed.

End PlacementRun.

Lemma example_gates_known :
  forall g, In g (concat [[(0, 1)]; [(1, 2)]]) -> fst g < 3 /\ snd g < 3.
Proof. intros g Hg. cbn in Hg. decompose [or] Hg; subst; cbn; lia. Qed.

Lemma example_mapping_on_grid :
  Forall (on_grid (working_grid (4, 4) 3)) [(0, 0); (1, 1); (2, 2)]%Z.
Proof. repeat constructor; cbn; lia. Qed.

Lemma example_targets_known : forall q, q ∈ [0; 2] -> q < 3.
Proof.
  intros q Hq. rewrite !elem_of_cons, elem_of_nil in Hq. decompose [or] Hq; subst; lia.
Qed.

Lemma example_mapping_injective : NoDup [(0, 0); (1, 1); (2, 2)]%Z.
Proof. apply (bool_decide_unpack _). vm_compute. reflexivity. Qed.

Lemma partial_placer_returns_placement_witness :
  place_qubit_partial example_oracle (4, 4) 3 [[(0, 1)]; [(1, 2)]]
      [(0, 0); (1, 1); (2, 2)]%Z [0; 2] false
    = Ok (Some [(1, 0); (1, 1); (2, 2)]%Z) /\
  length [(1, 0); (1, 1); (2, 2)]%Z = 3 /\ NoDup [(1, 0); (1, 1); (2, 2)]%Z /\
  Forall (on_grid (working_grid (4, 4) 3)) [(1, 0); (1, 1); (2, 2)]%Z.
Proof.
  split; [vm_compute; reflexivity|].
  apply (partial_placer_returns_placement example_oracle (4, 4) 3 [[(0, 1)]; [(1, 2)]]
           [(0, 0); (1, 1); (2, 2)]%Z [0; 2]
           example_gates_known eq_refl example_mapping_injective example_mapping_on_grid
           example_targets_known false).
  vm_compute. reflexivity.
Defined.

Lemma partial_placer_outcome_witness :
  ([0; 2] = [] ->
   place_qubit_partial example_oracle (4, 4) 3 [[(0, 1)]; [(1, 2)]]
     [(0, 0); (1, 1); (2, 2)]%Z [0; 2] false = Raise ValueError) /\
  ([0; 2] <> [] ->
   (forall k, k < sa_init_perturb_num -> delta_positive example_oracle k = false) ->
   place_qubit_partial example_oracle (4, 4) 3 [[(0, 1)]; [(1, 2)]]
     [(0, 0); (1, 1); (2, 2)]%Z [0; 2] false = Raise ZeroDivisionError) /\
  ([0; 2] <> [] ->
   (exists k, k < sa_init_perturb_num /\ delta_positive example_oracle k = true) ->
   exists best,
     place_qubit_partial example_oracle (4, 4) 3 [[(0, 1)]; [(1, 2)]]
       [(0, 0); (1, 1); (2, 2)]%Z [0; 2] false = Ok best).
Proof.
  exact (partial_placer_outcome example_oracle (4, 4) 3 [[(0, 1)]; [(1, 2)]]
           [(0, 0); (1, 1); (2, 2)]%Z [0; 2]
           example_gates_known eq_refl example_mapping_injective example_mapping_on_grid
           example_targets_known false).
Defined.

(** X24: in a consistent state a movement that is rejected changes nothing:
    [anneal_step] ends with the mapping, the inverse table and the best
    mapping it started with, because [recover] undoes [make_movement]. *)
Theorem rejected_movement_changes_nothing
    (orc : sa_oracle) (n_qubit : nat) (T : list nat) (list_position m : list (Z * Z))
    (dim : nat * nat) (st : sa_state) (i : nat) :
  (forall q, q ∈ T -> q < n_qubit) ->
  NoDup m ->
  (forall p, p ∈ list_position ->
     on_grid dim p /\ (p ∉ m \/ exists i, i ∈ T /\ m !! i = Some p)) ->
  consistent n_qubit T m dim st -> T <> [] -> list_position <> [] ->
  delta_positive orc (sa_tick st) = true -> accept_worse orc (sa_tick st) = false ->
  exists st',
    anneal_step orc n_qubit T list_position st i = Ok st' /\
    sa_current_mapping st' = sa_current_mapping st /\
    sa_physical_to_program st' = sa_physical_to_program st /\
    sa_best_mapping st' = sa_best_mapping st.
Proof.
  intros HTk Hnd Hpos Hc HT HP Hup Hrej.
  destruct (make_movement_consistent orc n_qubit T list_position m dim HTk Hnd Hpos
              st Hc HT HP) as (st1 & q & old & new & a & Hrun & _).
  destruct (recover_restores orc n_qubit T list_position m dim HTk Hnd Hpos
              st st1 Hc HT HP Hrun) as (st2 & Hrec & Hcm & Htb & Hbest & _).
  exists st2. unfold anneal_step. rewrite Hrun. cbn [mbind res_bind].
  rewrite Hup, Hrej. cbn [negb]. auto.
Qed.

(** An oracle under which every movement raises the cost and is rejected. *)
Definition rejecting_oracle : sa_oracle :=
  mk_sa_oracle (fun _ => 0) (fun _ => 0) true (fun _ => false)
               (fun _ => true) (fun _ => false) (fun _ => true).

Definition example_table : list (list Z) :=
  [[0; -1; -1; -1]; [-1; 1; -1; -1]; [-1; -1; 2; -1]; [-1; -1; -1; -1]]%Z.

Lemma example_consistent :
  consistent 3 [0; 2] [(0, 0); (1, 1); (2, 2)]%Z (4, 4)
    (mk_sa_state [(0, 0); (1, 1); (2, 2)]%Z example_table None None 0).
Proof.
  split; [reflexivity|]. split; [|apply frame_refl]. cbn [sa_current_mapping
    sa_physical_to_program].
  destruct (inverse_table_ok (4, 4) 3 [(0, 0); (1, 1); (2, 2)]%Z eq_refl
              example_mapping_injective example_mapping_on_grid) as (table & Hrun & Hinv).
  vm_compute in Hrun. inversion Hrun; subst table. exact Hinv.
Qed.

Lemma rejected_movement_changes_nothing_witness :
  exists st',
    anneal_step rejecting_oracle 3 [0; 2] [(1, 0)%Z]
      (mk_sa_state [(0, 0); (1, 1); (2, 2)]%Z example_table None None 0) 0 = Ok st' /\
    sa_current_mapping st' = [(0, 0); (1, 1); (2, 2)]%Z /\
    sa_physical_to_program st' = example_table /\
    sa_best_mapping st' = None.
Proof.
  apply (rejected_movement_changes_nothing rejecting_oracle 3 [0; 2] [(1, 0)%Z]
           [(0, 0); (1, 1); (2, 2)]%Z (4, 4)
           (mk_sa_state [(0, 0); (1, 1); (2, 2)]%Z example_table None None 0) 0
           example_targets_known example_mapping_injective).
  - intros p Hp. apply elem_of_cons in Hp. destruct Hp as [->|Hp].
    + split; [split; cbn; lia|]. left. intros Hin.
      rewrite !elem_of_cons, elem_of_nil in Hin. decompose [or] Hin; try discriminate.
      contradiction.
    + apply elem_of_nil in Hp. destruct Hp.
  - exact example_consistent.
  - discriminate.
  - discriminate.
  - reflexivity.
  - reflexivity.
Defined.

(** ** The full placer: [SAPlacer]

    The full placer starts from a random placement and may move every qubit
    to every site of the working grid.  Its draws are read from the same
    kind of oracle: [draw_qubit] is [randrange(self.n_qubit)],
    [draw_position] is [randrange(self.chip_dim[0])], and two more
    components give [randrange(self.chip_dim[1])] and the outcome of
    [shuffle]. *)

Section FullPlacer.

Variable orc : sa_oracle.
Variable draw_y : nat -> nat.
Variable shuffle : list nat -> list nat.

Definition full_make_movement (chip_dim : nat * nat) (n_qubit : nat) (st : sa_state)
  : res sa_state :=
  qubit_to_move ← randrange (draw_qubit orc (sa_tick st)) n_qubit;
  new_x ← randrange (draw_position orc (sa_tick st)) (fst chip_dim);
  new_y ← randrange (draw_y (sa_tick st)) (snd chip_dim);
  let new_x := Z.of_nat new_x in
  let new_y := Z.of_nat new_y in
  old ← get (sa_current_mapping st) qubit_to_move;
  let '(old_x, old_y) := old in
  qubit_be_affected ← grid_get (sa_physical_to_program st) new_x new_y;
  _ ← (if qubit_to_move <? n_qubit then Ok () else Raise IndexError);
  _ ← (if (qubit_be_affected >? -1)%Z
       then py_get (replicate n_qubit ()) qubit_be_affected
       else Ok ());
  let cm1 := <[qubit_to_move := (new_x, new_y)]> (sa_current_mapping st) in
  p1 ← grid_set (sa_physical_to_program st) new_x new_y (Z.of_nat qubit_to_move);
  p2 ← grid_set p1 old_x old_y qubit_be_affected;
  cm2 ← (if (qubit_be_affected >? -1)%Z
         then py_set cm1 qubit_be_affected (old_x, old_y)
         else Ok cm1);
  Ok (mk_sa_state cm2 p2 (Some (qubit_to_move, new_x, new_y, old_x, old_y))
                  (sa_best_mapping st) (sa_tick st + 1)).

Definition full_perturb_step (chip_dim : nat * nat) (n_qubit : nat)
    (acc : sa_state * nat) (_ : nat) : res (sa_state * nat) :=
  let k := sa_tick (fst acc) in
  st ← full_make_movement chip_dim n_qubit (fst acc);
  let st := if improves orc k then update_optimal_sol st else st in
  Ok (st, if delta_positive orc k then S (snd acc) else snd acc).

Definition full_init_perturb (chip_dim : nat * nat) (n_qubit : nat) (st : sa_state)
  : res sa_state :=
  r ← foldM (full_perturb_step chip_dim n_qubit) (seq 0 sa_init_perturb_num) (st, 0);
  if snd r =? 0 then Raise ZeroDivisionError else Ok (fst r).

Definition full_anneal_step (chip_dim : nat * nat) (n_qubit : nat) (st : sa_state)
    (_ : nat) : res sa_state :=
  let k := sa_tick st in
  st ← full_make_movement chip_dim n_qubit st;
  if negb (delta_positive orc k) then
    Ok (if improves orc k then update_optimal_sol st else st)
  else if accept_worse orc k then Ok st
  else recover st.

Fixpoint full_anneal (chip_dim : nat * nat) (n_qubit : nat) (rounds sa_n : nat)
    (st : sa_state) : res sa_state :=
  match rounds with
  | O => Ok st
  | S rounds' =>
      if still_hot orc sa_n then
        st' ← foldM (full_anneal_step chip_dim n_qubit) (seq 0 sa_l) st;
        full_anneal chip_dim n_qubit rounds' (S sa_n) st'
      else Ok st
  end.

(** The random placement of [init_sa_solution]: qubit [i] goes to the site
    numbered [list_possible_position[i]], row by row. *)
Definition random_placement (chip_dim : nat * nat) (n_qubit : nat)
  : res (list (Z * Z) * list (list Z)) :=
  let list_possible_position := shuffle (seq 0 (fst chip_dim * snd chip_dim)) in
  foldM (fun acc i =>
           p ← get list_possible_position i;
           if snd chip_dim =? 0 then Raise ZeroDivisionError
           else
             let y := Z.of_nat (p mod snd chip_dim) in
             let x := Z.of_nat (p / snd chip_dim) in
             table ← grid_set (snd acc) x y (Z.of_nat i);
             Ok (fst acc ++ [(x, y)], table))
        (seq 0 n_qubit)
        ([], replicate (fst chip_dim) (replicate (snd chip_dim) (-1)%Z)).

(** [SAPlacer.run] and [place_qubit]. *)
Definition full_run (chip_dim : nat * nat) (n_qubit : nat)
    (list_gate : list (list (nat * nat))) : res sa_state :=
  let chip_dim := working_grid chip_dim n_qubit in
  _ ← (if forallb (fun g : nat * nat => (fst g <? n_qubit) && (snd g <? n_qubit))
                  (concat list_gate)
       then Ok () else Raise IndexError);
  placed ← random_placement chip_dim n_qubit;
  let st := mk_sa_state (fst placed) (snd placed) None None 0 in
  let st := if improves_init orc then update_optimal_sol st else st in
  st ← full_init_perturb chip_dim n_qubit st;
  full_anneal chip_dim n_qubit (sa_iter_limit + 1) 1 st.

Definition place_qubit (chip_dim : nat * nat) (n_qubit : nat)
    (list_gate : list (list (nat * nat))) (l2 : bool) : res (option (list (Z * Z))) :=
  sa_best_mapping <$> full_run chip_dim n_qubit list_gate.

(** Every site of the grid, row by row. *)
Definition all_sites (chip_dim : nat * nat) : list (Z * Z) :=
  flat_map (fun x => map (fun y => (Z.of_nat x, Z.of_nat y)) (seq 0 (snd chip_dim)))
           (seq 0 (fst chip_dim)).

Lemma rows_lookup (d1 a n x y : nat) :
  a <= x < a + n -> y < d1 ->
  flat_map (fun x => map (fun y => (Z.of_nat x, Z.of_nat y)) (seq 0 d1)) (seq a n)
    !! ((x - a) * d1 + y) = Some (Z.of_nat x, Z.of_nat y).
Proof.
  revert a. induction n as [|n IH]; intros a Hx Hy; [lia|].
  cbn [seq flat_map]. destruct (decide (x = a)) as [->|Hne].
  - rewrite Nat.sub_diag. cbn [Nat.mul Nat.add].
    rewrite lookup_app_l by (rewrite length_map, length_seq; exact Hy).
    rewrite lookup_map, lookup_seq_lt by exact Hy. reflexivity.
  - rewrite lookup_app_r by (rewrite length_map, length_seq; nia).
    rewrite length_map, length_seq.
    replace ((x - a) * d1 + y - d1) with ((x - S a) * d1 + y) by nia.
    apply IH; lia.
Qed.

Lemma all_sites_lookup (chip_dim : nat * nat) (x y : nat) :
  x < fst chip_dim -> y < snd chip_dim ->
  all_sites chip_dim !! (x * snd chip_dim + y) = Some (Z.of_nat x, Z.of_nat y).
Proof.
  intros Hx Hy. unfold all_sites.
  pose proof (rows_lookup (snd chip_dim) 0 (fst chip_dim) x y ltac:(lia) Hy) as H.
  rewrite Nat.sub_0_r in H. exact H.
Qed.

Lemma all_sites_length (chip_dim : nat * nat) :
  length (all_sites chip_dim) = fst chip_dim * snd chip_dim.
Proof.
  unfold all_sites. generalize 0 at 2. induction (fst chip_dim) as [|n IH]; intros a.
  - reflexivity.
  - cbn [seq flat_map]. rewrite length_app, length_map, length_seq, IH. cbn. lia.
Qed.

Lemma all_sites_on_grid (chip_dim : nat * nat) (p : Z * Z) :
  p ∈ all_sites chip_dim -> on_grid chip_dim p.
Proof.
  unfold all_sites. intros Hp. apply list_elem_of_In, in_flat_map in Hp.
  destruct Hp as (x & Hx & Hp). apply in_map_iff in Hp. destruct Hp as (y & <- & Hy).
  apply in_seq in Hx. apply in_seq in Hy. split; cbn [fst snd]; lia.
Qed.

(** The oracle of a partial placer that draws the same site. *)
Definition as_partial (chip_dim : nat * nat) : sa_oracle :=
  mk_sa_oracle (draw_qubit orc)
               (fun k => (draw_position orc k mod fst chip_dim) * snd chip_dim
                         + draw_y k mod snd chip_dim)
               (improves_init orc) (improves orc) (delta_positive orc)
               (accept_worse orc) (still_hot orc).

(** In a consistent state a movement of the full placer is a movement of the
    partial placer for which every qubit is a target and every site a
    candidate. *)
Lemma full_make_movement_as_partial (chip_dim : nat * nat) (n_qubit : nat)
    (m : list (Z * Z)) (st : sa_state) :
  0 < fst chip_dim -> 0 < snd chip_dim ->
  consistent n_qubit (seq 0 n_qubit) m chip_dim st ->
  full_make_movement chip_dim n_qubit st
  = make_movement (as_partial chip_dim) n_qubit (seq 0 n_qubit) (all_sites chip_dim) st.
Proof.
  intros H0 H1 (Hlen & (Hs & H3 & H4) & _).
  unfold full_make_movement, make_movement, randrange.
  rewrite length_seq, all_sites_length.
  destruct (Nat.eqb_spec n_qubit 0) as [|Hn]; [reflexivity|]. cbn [mbind res_bind].
  set (q := draw_qubit orc (sa_tick st) mod n_qubit).
  assert (Hq : q < n_qubit) by (apply Nat.mod_upper_bound; exact Hn).
  assert (Hgq : get (seq 0 n_qubit) q = Ok q)
    by (unfold get; rewrite lookup_seq_lt by exact Hq; reflexivity).
  cbn [as_partial draw_qubit draw_position]. fold q. rewrite Hgq. cbn [mbind res_bind].
  destruct (Nat.eqb_spec (fst chip_dim) 0) as [|_]; [lia|].
  destruct (Nat.eqb_spec (snd chip_dim) 0) as [|_]; [lia|].
  destruct (Nat.eqb_spec (fst chip_dim * snd chip_dim) 0) as [|_]; [nia|].
  cbn [mbind res_bind].
  set (x := draw_position orc (sa_tick st) mod fst chip_dim).
  set (y := draw_y (sa_tick st) mod snd chip_dim).
  assert (Hx : x < fst chip_dim) by (apply Nat.mod_upper_bound; lia).
  assert (Hy : y < snd chip_dim) by (apply Nat.mod_upper_bound; lia).
  rewrite (Nat.mod_small (x * snd chip_dim + y)) by nia.
  assert (Hgp : get (all_sites chip_dim) (x * snd chip_dim + y)
                = Ok (Z.of_nat x, Z.of_nat y))
    by (unfold get; rewrite all_sites_lookup by assumption; reflexivity).
  rewrite Hgp. cbn [mbind res_bind].
  destruct (get (sa_current_mapping st) q) as [[ox oy]| |]; [|reflexivity|reflexivity].
  cbn [mbind res_bind].
  destruct (grid_get (sa_physical_to_program st) (Z.of_nat x) (Z.of_nat y))
    as [a| |] eqn:Ga; [|reflexivity|reflexivity].
  cbn [mbind res_bind].
  destruct (Z.gtb_spec a (-1)) as [Hgt|Hle]; [|reflexivity].
  assert (Hon : on_grid chip_dim (Z.of_nat x, Z.of_nat y))
    by (split; cbn [fst snd]; lia).
  destruct (H4 (Z.of_nat x, Z.of_nat y) a Hon Ga) as [Ha|[Ha Hcm]]; [lia|].
  apply lookup_lt_Some in Hcm. rewrite Hlen in Hcm.
  rewrite bool_decide_eq_true_2; [reflexivity|].
  apply list_elem_of_In, in_map_iff. exists (Z.to_nat a). split; [lia|].
  apply in_seq. lia.
Qed.

Section FullRun.

Variable chip_dim : nat * nat.
Variable n_qubit : nat.
Variable m : list (Z * Z).
Hypothesis rows : 0 < fst chip_dim.
Hypothesis cols : 0 < snd chip_dim.
Hypothesis qubits : 0 < n_qubit.
Hypothesis m_length : length m = n_qubit.
Hypothesis m_injective : NoDup m.

Lemma full_targets_known : forall q, q ∈ seq 0 n_qubit -> q < n_qubit.
Proof. intros q Hq. apply elem_of_seq in Hq. lia. Qed.

Lemma full_positions_ok :
  forall p, p ∈ all_sites chip_dim ->
    on_grid chip_dim p /\ (p ∉ m \/ exists i, i ∈ seq 0 n_qubit /\ m !! i = Some p).
Proof.
  intros p Hp. split; [apply all_sites_on_grid; exact Hp|].
  destruct (decide (p ∈ m)) as [Hin|Hout]; [right|left; exact Hout].
  apply list_elem_of_lookup_1 in Hin. destruct Hin as [i Hi]. exists i.
  split; [|exact Hi]. apply elem_of_seq. apply lookup_lt_Some in Hi. lia.
Qed.

Lemma full_targets_nonempty : seq 0 n_qubit <> [].
Proof. destruct n_qubit; [lia|discriminate]. Qed.

Lemma full_sites_nonempty : all_sites chip_dim <> [].
Proof.
  intros H. pose proof (all_sites_length chip_dim) as Hl. rewrite H in Hl. cbn in Hl. nia.
Qed.

Lemma full_perturb_fold (l : list nat) (acc : sa_state * nat) :
  run_inv n_qubit (seq 0 n_qubit) m chip_dim (fst acc) ->
  foldM (full_perturb_step chip_dim n_qubit) l acc
  = foldM (perturb_step (as_partial chip_dim) n_qubit (seq 0 n_qubit)
             (all_sites chip_dim)) l acc.
Proof.
  revert acc. induction l as [|i l IH]; intros acc Hinv; [reflexivity|].
  cbn [foldM].
  assert (Hstep : full_perturb_step chip_dim n_qubit acc i
                  = perturb_step (as_partial chip_dim) n_qubit (seq 0 n_qubit)
                      (all_sites chip_dim) acc i).
  { unfold full_perturb_step, perturb_step.
    rewrite (full_make_movement_as_partial chip_dim n_qubit m _ rows cols (proj1 Hinv)).
    reflexivity. }
  rewrite Hstep.
  destruct (perturb_step_run_inv (as_partial chip_dim) n_qubit (seq 0 n_qubit)
              (all_sites chip_dim) m chip_dim full_targets_known m_injective
              full_positions_ok acc i Hinv full_targets_nonempty full_sites_nonempty)
    as (acc1 & -> & Hinv1 & _).
  cbn [mbind res_bind]. apply IH. exact Hinv1.
Qed.

Lemma full_anneal_fold (l : list nat) (st : sa_state) :
  run_inv n_qubit (seq 0 n_qubit) m chip_dim st ->
  foldM (full_anneal_step chip_dim n_qubit) l st
  = foldM (anneal_step (as_partial chip_dim) n_qubit (seq 0 n_qubit)
             (all_sites chip_dim)) l st /\
  exists st', foldM (full_anneal_step chip_dim n_qubit) l st = Ok st' /\
              run_inv n_qubit (seq 0 n_qubit) m chip_dim st'.
Proof.
  revert st. induction l as [|i l IH]; intros st Hinv; [split; [reflexivity|eauto]|].
  cbn [foldM].
  assert (Hstep : full_anneal_step chip_dim n_qubit st i
                  = anneal_step (as_partial chip_dim) n_qubit (seq 0 n_qubit)
                      (all_sites chip_dim) st i).
  { unfold full_anneal_step, anneal_step.
    rewrite (full_make_movement_as_partial chip_dim n_qubit m _ rows cols (proj1 Hinv)).
    reflexivity. }
  rewrite Hstep.
  destruct (anneal_step_run_inv (as_partial chip_dim) n_qubit (seq 0 n_qubit)
              (all_sites chip_dim) m chip_dim full_targets_known m_injective
              full_positions_ok st i Hinv full_targets_nonempty full_sites_nonempty)
    as (st1 & -> & Hinv1).
  cbn [mbind res_bind]. apply IH. exact Hinv1.
Qed.

Lemma full_anneal_run_inv (rounds sa_n : nat) (st : sa_state) :
  run_inv n_qubit (seq 0 n_qubit) m chip_dim st ->
  exists st', full_anneal chip_dim n_qubit rounds sa_n st = Ok st' /\
              run_inv n_qubit (seq 0 n_qubit) m chip_dim st'.
Proof.
  revert sa_n st. induction rounds as [|rounds IH]; intros sa_n st Hinv;
    cbn [full_anneal]; [eauto|].
  destruct (still_hot orc sa_n); [|eauto].
  destruct (proj2 (full_anneal_fold (seq 0 sa_l) st Hinv)) as (st1 & -> & Hinv1).
  cbn [mbind res_bind]. apply IH. exact Hinv1.
Qed.

(** From a consistent state the perturbation and the annealing of the full
    placer end with a consistent state, unless no perturbation movement
    raises the cost. *)
Lemma full_search_outcome (st : sa_state) :
  run_inv n_qubit (seq 0 n_qubit) m chip_dim st -> sa_tick st = 0 ->
  ((forall k, k < sa_init_perturb_num -> delta_positive orc k = false) ->
   (st1 ← full_init_perturb chip_dim n_qubit st;
    full_anneal chip_dim n_qubit (sa_iter_limit + 1) 1 st1) = Raise ZeroDivisionError) /\
  ((exists k, k < sa_init_perturb_num /\ delta_positive orc k = true) ->
   exists st',
     (st1 ← full_init_perturb chip_dim n_qubit st;
      full_anneal chip_dim n_qubit (sa_iter_limit + 1) 1 st1) = Ok st' /\
     run_inv n_qubit (seq 0 n_qubit) m chip_dim st').
Proof.
  intros Hinv Htick.
  destruct (perturb_run (as_partial chip_dim) n_qubit (seq 0 n_qubit)
              (all_sites chip_dim) m chip_dim full_targets_known m_injective
              full_positions_ok sa_init_perturb_num (seq 0 sa_init_perturb_num) (st, 0)
              (length_seq _ _) Hinv full_targets_nonempty full_sites_nonempty)
    as (acc & Hrun & Hinv' & Hzero).
  cbn [fst snd] in Hzero. rewrite Htick in Hzero.
  unfold full_init_perturb. rewrite (full_perturb_fold _ (st, 0) Hinv), Hrun.
  cbn [mbind res_bind]. split.
  - intros Hflat. assert (H0 : snd acc = 0) by (apply Hzero; auto).
    rewrite H0. reflexivity.
  - intros (k & Hk & Hup). destruct (Nat.eqb_spec (snd acc) 0) as [H0|_].
    + apply Hzero in H0. destruct H0 as [_ Hflat]. specialize (Hflat k Hk).
      cbn in Hflat. congruence.
    + cbn [mbind res_bind]. apply full_anneal_run_inv. exact Hinv'.
Qed.

End FullRun.

(** The site numbered [p], row by row. *)
Definition site_of (chip_dim : nat * nat) (p : nat) : Z * Z :=
  (Z.of_nat (p / snd chip_dim), Z.of_nat (p mod snd chip_dim)).

Lemma random_placement_ok (chip_dim : nat * nat) (n_qubit : nat) :
  Permutation (shuffle (seq 0 (fst chip_dim * snd chip_dim)))
              (seq 0 (fst chip_dim * snd chip_dim)) ->
  n_qubit <= fst chip_dim * snd chip_dim ->
  exists cm table,
    random_placement chip_dim n_qubit = Ok (cm, table) /\
    length cm = n_qubit /\ NoDup cm /\ inverse_ok chip_dim cm table.
Proof.
  intros Hperm Hfit. set (lpp := shuffle (seq 0 (fst chip_dim * snd chip_dim))) in *.
  assert (Hlpp_len : length lpp = fst chip_dim * snd chip_dim)
    by (rewrite (Permutation_length Hperm); apply length_seq).
  assert (Hlpp_nd : NoDup lpp) by (rewrite Hperm; apply NoDup_seq).
  assert (Hlpp_lt : forall p, p ∈ lpp -> p < fst chip_dim * snd chip_dim).
  { intros p Hp. rewrite Hperm in Hp. apply elem_of_seq in Hp. lia. }
  set (m := map (site_of chip_dim) (take n_qubit lpp)).
  assert (Hm_len : length m = n_qubit)
    by (unfold m; rewrite length_map, length_take; lia).
  assert (Htake : forall p, p ∈ take n_qubit lpp -> p ∈ lpp).
  { intros p Hp. eapply elem_of_sublist; [exact Hp|apply sublist_take]. }
  assert (Hcols : forall p, p ∈ lpp -> 0 < snd chip_dim).
  { intros p Hp. specialize (Hlpp_lt p Hp). nia. }
  assert (Hm_nd : NoDup m).
  { apply (NoDup_fmap_2_strong (site_of chip_dim)).
    - intros p p' Hp Hp' Heq. unfold site_of in Heq. injection Heq as Hd Hr.
      apply Nat2Z.inj in Hd. apply Nat2Z.inj in Hr.
      rewrite (Nat.div_mod_eq p (snd chip_dim)), (Nat.div_mod_eq p' (snd chip_dim)).
      congruence.
    - eapply sublist_NoDup; [exact Hlpp_nd|apply sublist_take]. }
  assert (Hm_grid : Forall (on_grid chip_dim) m).
  { apply Forall_forall. intros s Hs. apply list_elem_of_In, in_map_iff in Hs.
    destruct Hs as (p & <- & Hp). apply list_elem_of_In, Htake in Hp.
    pose proof (Hcols p Hp) as Hc. specialize (Hlpp_lt p Hp).
    unfold site_of. split; cbn [fst snd].
    - assert (p / snd chip_dim < fst chip_dim)
        by (apply Nat.Div0.div_lt_upper_bound; lia). lia.
    - pose proof (Nat.mod_upper_bound p (snd chip_dim) ltac:(lia)). lia. }
  destruct (inverse_table_ok chip_dim n_qubit m Hm_len Hm_nd Hm_grid)
    as (table & Htable & Hinv).
  exists m, table. split; [|auto].
  assert (Hfold : forall k tbl, k <= n_qubit ->
             foldM (fun table i => s ← get m i; grid_set table (fst s) (snd s) (Z.of_nat i))
                   (seq 0 k) (replicate (fst chip_dim) (replicate (snd chip_dim) (-1)%Z))
             = Ok tbl ->
             foldM (fun acc i =>
                      p ← get lpp i;
                      if snd chip_dim =? 0 then Raise ZeroDivisionError
                      else
                        let y := Z.of_nat (p mod snd chip_dim) in
                        let x := Z.of_nat (p / snd chip_dim) in
                        table ← grid_set (snd acc) x y (Z.of_nat i);
                        Ok (fst acc ++ [(x, y)], table))
                   (seq 0 k)
                   ([], replicate (fst chip_dim) (replicate (snd chip_dim) (-1)%Z))
             = Ok (take k m, tbl)).
  { induction k as [|k IH]; intros tbl Hk Hrun.
    - cbn in Hrun |- *. inversion Hrun. reflexivity.
    - rewrite seq_S in Hrun. rewrite foldM_app in Hrun. rewrite seq_S, foldM_app.
      bind_ok Hrun.
      rewrite (IH a ltac:(lia) eq_refl). cbn [mbind res_bind foldM Nat.add fst snd] in *.
      bind_ok Hrun. inversion Hrun; subst a0; clear Hrun.
      bind_ok E0. apply get_ok in E1.
      destruct (lookup_lt_is_Some_2 lpp k) as [p Hp]; [lia|].
      assert (Hgp : get lpp k = Ok p) by (unfold get; rewrite Hp; reflexivity).
      rewrite Hgp. cbn [mbind res_bind].
      pose proof (Hcols p (list_elem_of_lookup_2 _ _ _ Hp)) as Hc.
      destruct (Nat.eqb_spec (snd chip_dim) 0) as [|_]; [lia|].
      assert (Hmk : m !! k = Some (site_of chip_dim p))
        by (unfold m; rewrite lookup_map, lookup_take_lt, Hp by lia; reflexivity).
      rewrite Hmk in E1. inversion E1; subst a0; clear E1.
      unfold site_of in E0. cbn [fst snd] in E0. rewrite E0. cbn [mbind res_bind].
      rewrite (take_S_r m k (site_of chip_dim p) Hmk). reflexivity. }
  pose proof (Hfold n_qubit table (le_n _) Htable) as Hrun.
  rewrite take_ge in Hrun by lia. exact Hrun.
Qed.

Lemma working_grid_fits (chip_dim : nat * nat) (n_qubit : nat) :
  n_qubit <= fst chip_dim * snd chip_dim ->
  n_qubit <= fst (working_grid chip_dim n_qubit) * snd (working_grid chip_dim n_qubit).
Proof.
  intros Hfit. unfold working_grid. cbn [fst snd].
  destruct (Nat.ltb_spec (Nat.min (fst chip_dim) (Nat.sqrt n_qubit + 4)
                          * Nat.min (snd chip_dim) (Nat.sqrt n_qubit + 4)) n_qubit);
    cbn [fst snd]; lia.
Qed.

Section FullOutcome.

Variable chip_dim : nat * nat.
Variable n_qubit : nat.
Variable list_gate : list (list (nat * nat)).

(** [shuffle] permutes; the gates are on known qubits; the chip has a site
    for every qubit. *)
Hypothesis shuffle_permutes : forall l, Permutation (shuffle l) l.
Hypothesis gates_known :
  forall g, In g (concat list_gate) -> fst g < n_qubit /\ snd g < n_qubit.
Hypothesis chip_fits : n_qubit <= fst chip_dim * snd chip_dim.

Lemma full_run_outcome :
  (n_qubit = 0 -> full_run chip_dim n_qubit list_gate = Raise ValueError) /\
  (0 < n_qubit ->
   (forall k, k < sa_init_perturb_num -> delta_positive orc k = false) ->
   full_run chip_dim n_qubit list_gate = Raise ZeroDivisionError) /\
  (0 < n_qubit ->
   (exists k, k < sa_init_perturb_num /\ delta_positive orc k = true) ->
   exists st m,
     full_run chip_dim n_qubit list_gate = Ok st /\
     run_inv n_qubit (seq 0 n_qubit) m (working_grid chip_dim n_qubit) st).
Proof.
  pose proof (working_grid_fits chip_dim n_qubit chip_fits) as Hfit.
  destruct (random_placement_ok (working_grid chip_dim n_qubit) n_qubit
              (shuffle_permutes _) Hfit) as (cm & table & Hplace & Hlen & Hnd & Hinv).
  assert (Hgates : forallb (fun g : nat * nat => (fst g <? n_qubit) && (snd g <? n_qubit))
                           (concat list_gate) = true).
  { apply forallb_forall. intros g Hg. destruct (gates_known g Hg) as [H0 H1].
    apply andb_true_iff. split; apply Nat.ltb_lt; assumption. }
  set (st0 := if improves_init orc
              then update_optimal_sol (mk_sa_state cm table None None 0)
              else mk_sa_state cm table None None 0).
  assert (Hrun : full_run chip_dim n_qubit list_gate
                 = (st1 ← full_init_perturb (working_grid chip_dim n_qubit) n_qubit st0;
                    full_anneal (working_grid chip_dim n_qubit) n_qubit
                                (sa_iter_limit + 1) 1 st1)).
  { unfold full_run. rewrite Hgates. cbn [mbind res_bind]. rewrite Hplace. reflexivity. }
  assert (Htick : sa_tick st0 = 0) by (unfold st0; destruct (improves_init orc); reflexivity).
  rewrite Hrun. split; [|split].
  - intros ->. unfold full_init_perturb.
    change (seq 0 sa_init_perturb_num) with (0 :: seq 1 99). reflexivity.
  - intros Hq Hflat.
    assert (Hc : consistent n_qubit (seq 0 n_qubit) cm (working_grid chip_dim n_qubit)
                   (mk_sa_state cm table None None 0))
      by (split; [exact Hlen|split; [exact Hinv|apply frame_refl]]).
    assert (Hri : run_inv n_qubit (seq 0 n_qubit) cm (working_grid chip_dim n_qubit) st0).
    { unfold st0. destruct (improves_init orc).
      - apply update_optimal_sol_run_inv. split; [exact Hc|]. intros b Hb. discriminate.
      - split; [exact Hc|]. intros b Hb. discriminate. }
    apply (proj1 (full_search_outcome (working_grid chip_dim n_qubit) n_qubit cm
                    ltac:(nia) ltac:(nia) Hq Hlen Hnd st0 Hri Htick)).
    exact Hflat.
  - intros Hq Hup.
    assert (Hc : consistent n_qubit (seq 0 n_qubit) cm (working_grid chip_dim n_qubit)
                   (mk_sa_state cm table None None 0))
      by (split; [exact Hlen|split; [exact Hinv|apply frame_refl]]).
    assert (Hri : run_inv n_qubit (seq 0 n_qubit) cm (working_grid chip_dim n_qubit) st0).
    { unfold st0. destruct (improves_init orc).
      - apply update_optimal_sol_run_inv. split; [exact Hc|]. intros b Hb. discriminate.
      - split; [exact Hc|]. intros b Hb. discriminate. }
    destruct (proj2 (full_search_outcome (working_grid chip_dim n_qubit) n_qubit cm
                       ltac:(nia) ltac:(nia) Hq Hlen Hnd st0 Hri Htick) Hup)
      as (st' & Hst' & Hinv').
    exists st', cm. split; [exact Hst'|exact Hinv'].
Qed.

(** X26: when [shuffle] permutes, the gates are on known qubits and the
    chip has a site for every qubit, the mapping returned by [place_qubit]
    gives each of the [n_qubit] qubits a site of the working grid and no
    site to two qubits. *)
Theorem place_qubit_returns_placement (l2 : bool) (best : list (Z * Z)) :
  place_qubit chip_dim n_qubit list_gate l2 = Ok (Some best) ->
  length best = n_qubit /\ NoDup best /\
  Forall (on_grid (working_grid chip_dim n_qubit)) best.
Proof.
  intros H. unfold place_qubit in H.
  destruct full_run_outcome as (Hnone & Hflat & Hgood).
  destruct (decide (n_qubit = 0)) as [H0|H0].
  { rewrite (Hnone H0) in H. discriminate. }
  destruct (decide (Forall (fun k => delta_positive orc k = false)
                           (seq 0 sa_init_perturb_num))) as [Hall|Hsome].
  - rewrite Hflat in H; [discriminate|lia|].
    intros k Hk. apply (proj1 (Forall_forall _ _) Hall). apply elem_of_seq. lia.
  - apply not_Forall_Exists in Hsome; [|intros k; apply _].
    apply Exists_exists in Hsome. destruct Hsome as (k & Hk & Hup).
    apply elem_of_seq in Hk. unfold compose in Hup.
    destruct (Hgood ltac:(lia)) as (st & m & Hrun & _ & Hbest).
    { exists k. split; [lia|]. destruct (delta_positive orc k); congruence. }
    rewrite Hrun in H. cbn in H. inversion H as [Hb]. exact (Hbest best Hb).
Qed.

(** X27: under the same conditions no index is out of range in
    [place_qubit]: it raises [ValueError] when there is no qubit,
    [ZeroDivisionError] when none of the hundred perturbation movements
    raises the cost, and returns otherwise. *)
Theorem place_qubit_outcome (l2 : bool) :
  (n_qubit = 0 -> place_qubit chip_dim n_qubit list_gate l2 = Raise ValueError) /\
  (0 < n_qubit ->
   (forall k, k < sa_init_perturb_num -> delta_positive orc k = false) ->
   place_qubit chip_dim n_qubit list_gate l2 = Raise ZeroDivisionError) /\
  (0 < n_qubit ->
   (exists k, k < sa_init_perturb_num /\ delta_positive orc k = true) ->
   exists best, place_qubit chip_dim n_qubit list_gate l2 = Ok best).
Proof.
  destruct full_run_outcome as (Hnone & Hflat & Hgood). unfold place_qubit.
  split; [|split].
  - intros H0. rewrite (Hnone H0). reflexivity.
  - intros Hq Hall. rewrite (Hflat Hq Hall). reflexivity.
  - intros Hq Hsome. destruct (Hgood Hq Hsome) as (st & m & -> & _). eexists. reflexivity.
Qed.

End FullOutcome.

End FullPlacer.

Lemma rev_permutes (l : list nat) : Permutation (rev l) l.
Proof. symmetry. apply Permutation_rev. Qed.

Lemma place_qubit_returns_placement_witness :
  place_qubit example_oracle (fun k => k) (@rev nat) (4, 4) 3 [[(0, 1)]; [(1, 2)]] false
    = Ok (Some [(3, 3); (3, 2); (3, 1)]%Z) /\
  length [(3, 3); (3, 2); (3, 1)]%Z = 3 /\ NoDup [(3, 3); (3, 2); (3, 1)]%Z /\
  Forall (on_grid (working_grid (4, 4) 3)) [(3, 3); (3, 2); (3, 1)]%Z.
Proof.
  split; [vm_compute; reflexivity|].
  apply (place_qubit_returns_placement example_oracle (fun k => k) (@rev nat) (4, 4) 3
           [[(0, 1)]; [(1, 2)]] rev_permutes example_gates_known ltac:(cbn; lia) false).
  vm_compute. reflexivity.
Defined.

Lemma place_qubit_outcome_witness :
  (3 = 0 ->
   place_qubit example_oracle (fun k => k) (@rev nat) (4, 4) 3 [[(0, 1)]; [(1, 2)]] false
   = Raise ValueError) /\
  (0 < 3 ->
   (forall k, k < sa_init_perturb_num -> delta_positive example_oracle k = false) ->
   place_qubit example_oracle (fun k => k) (@rev nat) (4, 4) 3 [[(0, 1)]; [(1, 2)]] false
   = Raise ZeroDivisionError) /\
  (0 < 3 ->
   (exists k, k < sa_init_perturb_num /\ delta_positive example_oracle k = true) ->
   exists best,
     place_qubit example_oracle (fun k => k) (@rev nat) (4, 4) 3 [[(0, 1)]; [(1, 2)]] false
     = Ok best).
Proof.
  exact (place_qubit_outcome example_oracle (fun k => k) (@rev nat) (4, 4) 3
           [[(0, 1)]; [(1, 2)]] rev_permutes example_gates_known ltac:(cbn; lia) false).
Defined.

End Placer.

(** * Code generator: [enola/router/codegen.py] *)

Module Codegen.

(** Physics constants (micrometres). *)
Definition AOD_SEP : Z := 2.
Definition RYD_SEP : Z := 15.
Definition SITE_WIDTH : Z := 4.
Definition X_SITE_SEP : Z := RYD_SEP + SITE_WIDTH.
Definition Y_SITE_SEP : Z := RYD_SEP.
Definition X_LOW_PAD : Z := 2 * AOD_SEP.
Definition Y_LOW_PAD : Z := 4 * AOD_SEP.

(** ** The physical entities *)

Inductive array_kind : Type := SLM | AOD.

#[global] Instance array_kind_eq_dec : EqDecision array_kind.
Proof. solve_decision. Defined.

(** [class Qubit], [class Row], [class Col].  The field [activate] records
    that [Init.operate] has set the attribute of that name (it writes
    [.activate], not [.active]). *)
Record Qubit : Type := mk_Qubit
  { qb_array : array_kind; qb_id : Z; qb_c : Z; qb_r : Z; qb_x : Z; qb_y : Z }.
Record Row : Type := mk_Row
  { row_id : Z; row_active : bool; row_activate : bool; row_y : Z }.
Record Col : Type := mk_Col
  { col_id : Z; col_active : bool; col_activate : bool; col_x : Z }.

Definition new_Qubit (id : Z) : Qubit :=
  mk_Qubit SLM id (-1) (-1) (- X_LOW_PAD - 1) (- Y_LOW_PAD - 1).
Definition new_Row (id : Z) : Row := mk_Row id false false (- Y_LOW_PAD - 1).
Definition new_Col (id : Z) : Col := mk_Col id false false (- X_LOW_PAD - 1).

(** The records shared by all instructions of a program: [col_objs],
    [row_objs], [qubit_objs]. *)
Record dpqa : Type := mk_dpqa
  { col_objs : list Col; row_objs : list Row; qubit_objs : list Qubit }.

(** [CodeGen.builder] creates [Qubit(i)], [Row(i)], [Col(i)] for [i] in the
    respective ranges. *)
Definition fresh_dpqa (c_high r_high n_q : nat) : dpqa :=
  mk_dpqa (map (fun i => new_Col (Z.of_nat i)) (seq 0 c_high))
          (map (fun i => new_Row (Z.of_nat i)) (seq 0 r_high))
          (map (fun i => new_Qubit (Z.of_nat i)) (seq 0 n_q)).

Definition set_col_x (x : Z) (c : Col) : Col :=
  mk_Col (col_id c) (col_active c) (col_activate c) x.
Definition set_col_active (b : bool) (c : Col) : Col :=
  mk_Col (col_id c) b (col_activate c) (col_x c).
Definition set_col_activate (c : Col) : Col :=
  mk_Col (col_id c) (col_active c) true (col_x c).
Definition set_row_y (y : Z) (r : Row) : Row :=
  mk_Row (row_id r) (row_active r) (row_activate r) y.
Definition set_row_active (b : bool) (r : Row) : Row :=
  mk_Row (row_id r) b (row_activate r) (row_y r).
Definition set_row_activate (r : Row) : Row :=
  mk_Row (row_id r) (row_active r) true (row_y r).
Definition set_qb_array (a : array_kind) (q : Qubit) : Qubit :=
  mk_Qubit a (qb_id q) (qb_c q) (qb_r q) (qb_x q) (qb_y q).
Definition set_qb_xy (x y : Z) (q : Qubit) : Qubit :=
  mk_Qubit (qb_array q) (qb_id q) (qb_c q) (qb_r q) x y.
Definition set_qb_cr (c r : Z) (q : Qubit) : Qubit :=
  mk_Qubit (qb_array q) (qb_id q) c r (qb_x q) (qb_y q).

(** ** Statements that mutate the shared records

    A statement returns its outcome together with the records as it left
    them: an exception does not undo the assignments made before it. *)
Definition stmt (S : Type) : Type := S -> res unit * S.

(** [objs[i].field = ...] with Python indexing. *)
Definition py_update {A : Type} (f : A -> A) (i : Z) : stmt (list A) :=
  fun l =>
    match py_norm (length l) i with
    | Some k => (Ok (), alter f k l)
    | None => (Raise IndexError, l)
    end.

(** A [for] loop of statements: it stops at the first exception. *)
Fixpoint for_each {A S : Type} (body : A -> stmt S) (l : list A) : stmt S :=
  fun s =>
    match l with
    | [] => (Ok (), s)
    | x :: l' =>
        match body x s with
        | (Ok _, s') => for_each body l' s'
        | (r, s') => (r, s')
        end
    end.

(** A [for] loop of checks that mutate nothing. *)
Definition check_each {A : Type} (body : A -> res unit) (l : list A) : res unit :=
  foldM (fun _ x => body x) l ().

Definition seq_stmt {S : Type} (a b : stmt S) : stmt S :=
  fun s =>
    match a s with
    | (Ok _, s') => b s'
    | (r, s') => (r, s')
    end.

Definition on_cols (a : stmt (list Col)) : stmt dpqa :=
  fun d => let '(r, cs) := a (col_objs d) in (r, mk_dpqa cs (row_objs d) (qubit_objs d)).
Definition on_rows (a : stmt (list Row)) : stmt dpqa :=
  fun d => let '(r, rs) := a (row_objs d) in (r, mk_dpqa (col_objs d) rs (qubit_objs d)).
Definition on_qubits (a : stmt (list Qubit)) : stmt dpqa :=
  fun d => let '(r, qs) := a (qubit_objs d) in (r, mk_dpqa (col_objs d) (row_objs d) qs).

(** The shape of every instruction's [__init__]: [self.verify(...)], then
    [self.operate(...)]. *)
Definition inst_init (verify : dpqa -> res unit) (operate : stmt dpqa) : stmt dpqa :=
  fun d =>
    match verify d with
    | Ok _ => operate d
    | Raise e => (Raise e, d)
    | OutOfFuel => (OutOfFuel, d)
    end.

(** [for i in range(1, len(xs)): if xs[i-1] + AOD_SEP > xs[i]: raise] *)
Fixpoint ordered_gaps (xs : list Z) : bool :=
  match xs with
  | a :: (b :: _) as rest => (a + AOD_SEP <=? b)%Z && ordered_gaps rest
  | _ => true
  end.

(** ** Move *)

Record move_args : Type := mk_move_args
  { mv_col_idx : list Z; mv_col_begin : list Z; mv_col_end : list Z;
    mv_row_idx : list Z; mv_row_begin : list Z; mv_row_end : list Z }.

(** The scan of the active columns (or rows), given as [(id, active, coord)]:
    the ids and coordinates of the active ones, [ValueError] when one is
    closer than [AOD_SEP] to the previous active one. *)
Definition scan_active (objs : list (Z * bool * Z)) : res (list Z * list Z) :=
  foldM (fun (acc : list Z * list Z) (o : Z * bool * Z) =>
           let '(activated_idx, activated_xs) := acc in
           let '(id, active, x) := o in
           if active then
             if negb (bool_decide (activated_idx = [])) &&
                (x <? List.last activated_xs 0%Z + AOD_SEP)%Z
             then Raise ValueError
             else Ok (activated_idx ++ [id], activated_xs ++ [x])
           else Ok acc)
        objs ([], []).

(** The position of [x] in [l], as [l.index(x)] after [x in l]. *)
Fixpoint index_of (x : Z) (l : list Z) : option nat :=
  match l with
  | [] => None
  | y :: l' => if (x =? y)%Z then Some 0 else S <$> index_of x l'
  end.

(** The loop [for i, moving_id in enumerate(idx)] of [Move.verify]; the three
    payload lists have equal lengths at this point. *)
Definition simulate_moves (activated_idx activated_xs : list Z)
    (idx begin_ end_ : list Z) : res (list Z) :=
  foldM (fun (xs : list Z) (m : Z * (Z * Z)) =>
           let '(moving_id, (b, e)) := m in
           match index_of moving_id activated_idx with
           | None => Raise ValueError
           | Some j =>
               x ← get xs j;
               if negb (b =? x)%Z then Raise ValueError else Ok (<[j := e]> xs)
           end)
        (zip idx (zip begin_ end_)) activated_xs.

Definition verify_axis (objs : list (Z * bool * Z)) (idx begin_ end_ : list Z) : res unit :=
  scanned ← scan_active objs;
  let '(activated_idx, activated_xs) := scanned in
  xs ← simulate_moves activated_idx activated_xs idx begin_ end_;
  if ordered_gaps xs then Ok () else Raise ValueError.

Definition col_view (c : Col) : Z * bool * Z := (col_id c, col_active c, col_x c).
Definition row_view (r : Row) : Z * bool * Z := (row_id r, row_active r, row_y r).

Definition Move_verify (a : move_args) (d : dpqa) : res unit :=
  if negb ((length (mv_col_idx a) =? length (mv_col_begin a)) &&
           (length (mv_col_idx a) =? length (mv_col_end a)))
  then Raise ValueError
  else if negb ((length (mv_row_idx a) =? length (mv_row_begin a)) &&
                (length (mv_row_idx a) =? length (mv_row_end a)))
  then Raise ValueError
  else
    _ ← verify_axis (map col_view (col_objs d))
          (mv_col_idx a) (mv_col_begin a) (mv_col_end a);
    verify_axis (map row_view (row_objs d))
      (mv_row_idx a) (mv_row_begin a) (mv_row_end a).

(** [for i in range(len(idx)): if abs(end[i] - begin[i]) > 0:
       objs[idx[i]].coord = end[i]] *)
Definition shift_each {A : Type} (set_coord : Z -> A -> A) (idx begin_ end_ : list Z)
  : stmt (list A) :=
  for_each (fun (m : Z * (Z * Z)) =>
              let '(i, (b, e)) := m in
              if (0 <? Z.abs (e - b))%Z then py_update (set_coord e) i
              else (fun l => (Ok (), l)))
           (zip idx (zip begin_ end_)).

(** [for qubit_obj in qubit_objs: if qubit_obj.array == 'AOD':
       qubit_obj.x = col_objs[qubit_obj.c].x;
       qubit_obj.y = row_objs[qubit_obj.r].y] *)
Definition follow_lattice : stmt dpqa :=
  fun d =>
    for_each (fun (k : nat) (d : dpqa) =>
                match qubit_objs d !! k with
                | None => (Ok (), d)
                | Some q =>
                    if decide (qb_array q = AOD) then
                      match py_get (col_objs d) (qb_c q) with
                      | Ok c =>
                          let qs1 := alter (set_qb_xy (col_x c) (qb_y q)) k (qubit_objs d) in
                          let d1 := mk_dpqa (col_objs d) (row_objs d) qs1 in
                          match py_get (row_objs d) (qb_r q) with
                          | Ok r =>
                              (Ok (),
                               mk_dpqa (col_objs d) (row_objs d)
                                       (alter (set_qb_xy (col_x c) (row_y r)) k (qubit_objs d)))
                          | Raise e => (Raise e, d1)
                          | OutOfFuel => (OutOfFuel, d1)
                          end
                      | Raise e => (Raise e, d)
                      | OutOfFuel => (OutOfFuel, d)
                      end
                    else (Ok (), d)
                end)
             (seq 0 (length (qubit_objs d))) d.

Definition Move_operate (a : move_args) : stmt dpqa :=
  seq_stmt (on_cols (shift_each set_col_x (mv_col_idx a) (mv_col_begin a) (mv_col_end a)))
    (seq_stmt (on_rows (shift_each set_row_y (mv_row_idx a) (mv_row_begin a) (mv_row_end a)))
       follow_lattice).

Definition Move (a : move_args) : stmt dpqa :=
  inst_init (Move_verify a) (Move_operate a).


(** ** Activate and Deactivate *)

Record switch_args : Type := mk_switch_args
  { sw_col_idx : list Z; sw_col_xs : list Z;
    sw_row_idx : list Z; sw_row_ys : list Z;
    sw_qs : list Z }.

(** The exception raised by the statement
    [raise ValueError(f'... row {j} at y={col_objs[j].y} is too low ...')] of
    the second inner row loop: the message is evaluated first, and it reads
    [col_objs[j].y]; a [Col] has no attribute [y]. *)
Definition raise_row_too_low (cols : list Col) (j : Z) : exn :=
  match py_norm (length cols) j with
  | Some _ => AttributeError
  | None => IndexError
  end.

(** The column loop shared by [Activate.verify] ([want_active = false]: the
    column must not be active yet) and [Deactivate.verify]
    ([want_active = true]). *)
Definition check_cols (want_active : bool) (cols : list Col) (col_idx col_xs : list Z)
  : res unit :=
  check_each (fun (m : Z * Z) =>
                let '(ci, x) := m in
                c ← py_get cols ci;
                if negb (eqb (col_active c) want_active) then Raise ValueError
                else
                  _ ← check_each (fun j =>
                                    cj ← py_get cols j;
                                    if col_active cj && (col_x cj >? x - AOD_SEP)%Z
                                    then Raise ValueError else Ok ())
                                 (seqZ 0 ci);
                  check_each (fun j =>
                                cj ← py_get cols j;
                                if col_active cj && (col_x cj - AOD_SEP <? x)%Z
                                then Raise ValueError else Ok ())
                             (seqZ (ci + 1) (Z.of_nat (length cols) - (ci + 1))))
             (zip col_idx col_xs).

Definition check_rows (want_active : bool) (cols : list Col) (rows : list Row)
    (row_idx row_ys : list Z) : res unit :=
  check_each (fun (m : Z * Z) =>
                let '(ri, y) := m in
                r ← py_get rows ri;
                if negb (eqb (row_active r) want_active) then Raise ValueError
                else
                  _ ← check_each (fun j =>
                                    rj ← py_get rows j;
                                    if row_active rj && (row_y rj >? y - AOD_SEP)%Z
                                    then Raise ValueError else Ok ())
                                 (seqZ 0 ri);
                  check_each (fun j =>
                                rj ← py_get rows j;
                                if row_active rj && (row_y rj - AOD_SEP <? y)%Z
                                then Raise (raise_row_too_low cols j) else Ok ())
                             (seqZ (ri + 1) (Z.of_nat (length rows) - (ri + 1))))
             (zip row_idx row_ys).

Definition active_xs (cols : list Col) : list Z :=
  map col_x (filter (fun c => col_active c = true) cols).
Definition active_ys (rows : list Row) : list Z :=
  map row_y (filter (fun r => row_active r = true) rows).

(** [[(x, y) for x in xs for y in ys]] *)
Definition pairs_xy (xs ys : list Z) : list (Z * Z) :=
  flat_map (fun x => map (fun y => (x, y)) ys) xs.
(** [[(x, y) for y in ys for x in xs]] *)
Definition pairs_yx (ys xs : list Z) : list (Z * Z) :=
  flat_map (fun y => map (fun x => (x, y)) xs) ys.

Definition Activate_verify (a : switch_args) (d : dpqa) : res unit :=
  if negb (length (sw_col_idx a) =? length (sw_col_xs a)) then Raise ValueError
  else if negb (length (sw_row_idx a) =? length (sw_row_ys a)) then Raise ValueError
  else
    _ ← check_cols false (col_objs d) (sw_col_idx a) (sw_col_xs a);
    _ ← check_rows false (col_objs d) (row_objs d) (sw_row_idx a) (sw_row_ys a);
    let active_xys :=
      pairs_xy (active_xs (col_objs d)) (sw_row_ys a) ++
      pairs_yx (active_ys (row_objs d)) (sw_col_xs a) ++
      pairs_xy (sw_col_xs a) (sw_row_ys a) in
    check_each (fun (kq : nat * Qubit) =>
                  let '(q_id, q) := kq in
                  if bool_decide (Z.of_nat q_id ∈ sw_qs a) then
                    if bool_decide ((qb_x q, qb_y q) ∈ active_xys) then Ok ()
                    else Raise ValueError
                  else
                    if bool_decide ((qb_x q, qb_y q) ∈ active_xys) then Raise ValueError
                    else Ok ())
               (zip (seq 0 (length (qubit_objs d))) (qubit_objs d)).

Definition Activate_operate (a : switch_args) : stmt dpqa :=
  seq_stmt
    (on_cols (for_each (fun (m : Z * Z) =>
                          let '(ci, x) := m in
                          seq_stmt (py_update (set_col_active true) ci)
                                   (py_update (set_col_x x) ci))
                       (zip (sw_col_idx a) (sw_col_xs a))))
    (seq_stmt
       (on_rows (for_each (fun (m : Z * Z) =>
                             let '(ri, y) := m in
                             seq_stmt (py_update (set_row_active true) ri)
                                      (py_update (set_row_y y) ri))
                          (zip (sw_row_idx a) (sw_row_ys a))))
       (on_qubits (for_each (fun q_id => py_update (set_qb_array AOD) q_id) (sw_qs a)))).

Definition Activate (a : switch_args) : stmt dpqa :=
  inst_init (Activate_verify a) (Activate_operate a).

Definition Deactivate_verify (a : switch_args) (d : dpqa) : res unit :=
  if negb (length (sw_col_idx a) =? length (sw_col_xs a)) then Raise ValueError
  else if negb (length (sw_row_idx a) =? length (sw_row_ys a)) then Raise ValueError
  else
    _ ← check_cols true (col_objs d) (sw_col_idx a) (sw_col_xs a);
    _ ← check_rows true (col_objs d) (row_objs d) (sw_row_idx a) (sw_row_ys a);
    let deactive_xys := pairs_xy (active_xs (col_objs d)) (sw_row_ys a) in
    check_each (fun (kq : nat * Qubit) =>
                  let '(q_id, q) := kq in
                  if bool_decide (Z.of_nat q_id ∈ sw_qs a) then
                    if bool_decide ((qb_x q, qb_y q) ∈ deactive_xys) then Ok ()
                    else Raise ValueError
                  else if decide (qb_array q = AOD) then
                    if bool_decide ((qb_x q, qb_y q) ∈ deactive_xys) then Raise ValueError
                    else Ok ()
                  else Ok ())
               (zip (seq 0 (length (qubit_objs d))) (qubit_objs d)).

Definition Deactivate_operate (a : switch_args) : stmt dpqa :=
  seq_stmt
    (on_cols (for_each (fun ci => py_update (set_col_active false) ci) (sw_col_idx a)))
    (seq_stmt
       (on_rows (for_each (fun ri => py_update (set_row_active false) ri) (sw_row_idx a)))
       (on_qubits (for_each (fun q_id => py_update (set_qb_array SLM) q_id) (sw_qs a)))).

Definition Deactivate (a : switch_args) : stmt dpqa :=
  inst_init (Deactivate_verify a) (Deactivate_operate a).

(** ** Init *)

Record init_args : Type := mk_init_args
  { in_slm_qubit_idx : list Z; in_slm_qubit_xys : list (list Z);
    in_aod_qubit_idx : list Z; in_aod_qubit_crs : list (list Z);
    in_aod_col_act_idx : list Z; in_aod_col_xs : list Z;
    in_aod_row_act_idx : list Z; in_aod_row_ys : list Z }.

(** [for i in range(n): for j in range(i+1, n): if xys[i] == xys[j]: raise] *)
Fixpoint all_distinct (xys : list (list Z)) : bool :=
  match xys with
  | [] => true
  | p :: rest => negb (bool_decide (p ∈ rest)) && all_distinct rest
  end.

Definition Init_verify (a : init_args) (d : dpqa) : res unit :=
  if negb (length (in_slm_qubit_idx a) =? length (in_slm_qubit_xys a)) then Raise ValueError
  else if negb (forallb (fun p : list Z => length p =? 2) (in_slm_qubit_xys a))
  then Raise ValueError
  else if negb (all_distinct (in_slm_qubit_xys a)) then Raise ValueError
  else Ok ().

(** The unpacking [(a, b) = pair] of a two-element sequence. *)
Definition unpack2 (p : list Z) : res (Z * Z) :=
  match p with
  | [a; b] => Ok (a, b)
  | _ => Raise ValueError
  end.

(** [enumerate(l)] *)
Definition enumerate {A : Type} (l : list A) : list (nat * A) :=
  zip (seq 0 (length l)) l.

Definition with_qubits (d : dpqa) (qs : list Qubit) : dpqa :=
  mk_dpqa (col_objs d) (row_objs d) qs.

Definition Init_operate (a : init_args) : stmt dpqa :=
  seq_stmt
    (on_qubits
       (for_each (fun (m : nat * Z) =>
                    seq_stmt (py_update (set_qb_array SLM) (snd m))
                             (fun qs => match in_slm_qubit_xys a !! fst m with
                                        | None => (Raise IndexError, qs)
                                        | Some xy =>
                                            match unpack2 xy with
                                            | Ok (x, y) => py_update (set_qb_xy x y) (snd m) qs
                                            | Raise e => (Raise e, qs)
                                            | OutOfFuel => (OutOfFuel, qs)
                                            end
                                        end))
                 (enumerate (in_slm_qubit_idx a))))
    (seq_stmt
       (on_cols
          (for_each (fun (m : nat * Z) =>
                       seq_stmt (py_update set_col_activate (snd m))
                                (fun cs => match in_aod_col_xs a !! fst m with
                                           | Some x => py_update (set_col_x x) (snd m) cs
                                           | None => (Raise IndexError, cs)
                                           end))
                    (enumerate (in_aod_col_act_idx a))))
       (seq_stmt
          (on_rows
             (for_each (fun (m : nat * Z) =>
                          seq_stmt (py_update set_row_activate (snd m))
                                   (fun rs => match in_aod_row_ys a !! fst m with
                                              | Some y => py_update (set_row_y y) (snd m) rs
                                              | None => (Raise IndexError, rs)
                                              end))
                       (enumerate (in_aod_col_act_idx a))))
          (for_each (fun (m : nat * Z) (d : dpqa) =>
                       let q_id := snd m in
                       match py_update (set_qb_array AOD) q_id (qubit_objs d) with
                       | (Ok _, qs) =>
                           match in_aod_qubit_crs a !! fst m with
                           | None => (Raise IndexError, with_qubits d qs)
                           | Some cr =>
                               match unpack2 cr with
                               | Ok (c, r) =>
                                   let qs1 := snd (py_update (set_qb_cr c r) q_id qs) in
                                   match py_get (col_objs d) c with
                                   | Ok co =>
                                       let qs2 :=
                                         snd (py_update (fun q => set_qb_xy (col_x co) (qb_y q) q)
                                                        q_id qs1) in
                                       match py_get (row_objs d) r with
                                       | Ok ro =>
                                           (Ok (),
                                            with_qubits d
                                              (snd (py_update
                                                      (fun q => set_qb_xy (qb_x q) (row_y ro) q)
                                                      q_id qs2)))
                                       | Raise e => (Raise e, with_qubits d qs2)
                                       | OutOfFuel => (OutOfFuel, with_qubits d qs2)
                                       end
                                   | Raise e => (Raise e, with_qubits d qs1)
                                   | OutOfFuel => (OutOfFuel, with_qubits d qs1)
                                   end
                               | Raise e => (Raise e, with_qubits d qs)
                               | OutOfFuel => (OutOfFuel, with_qubits d qs)
                               end
                           end
                       | (r, qs) => (r, with_qubits d qs)
                       end)
                    (enumerate (in_aod_qubit_idx a))))).

Definition Init (a : init_args) : stmt dpqa :=
  inst_init (Init_verify a) (Init_operate a).

(** The lattice ordering of C1: the coordinates of the active columns, in the
    order of their ids, increase by at least [AOD_SEP]; likewise the rows. *)
Definition lattice_ordered (d : dpqa) : bool :=
  ordered_gaps (active_xs (col_objs d)) && ordered_gaps (active_ys (row_objs d)).

(** ** The program builder and the Rydberg instructions *)

(** The dictionary [data] handed to [CodeGen]: the routed sub-layers and the
    dimensions. *)
Record compiled : Type := mk_compiled
  { c_n_q : nat; c_n_x : nat; c_n_y : nat; c_n_c : nat; c_n_r : nat;
    c_layers : list layer }.

(** An emitted dictionary: the one of [Init], one of a motion instruction
    ([Move], [Activate] or [Deactivate]), or the one of a [Rydberg]
    instruction of stage [s] with its ["gates"]. *)
Inductive code (init_code motion_code : Type) : Type :=
| Init_code (c : init_code)
| Motion_code (c : motion_code)
| Rydberg_code (s : nat) (gates : list gate_rec).
Arguments Init_code {init_code motion_code} c.
Arguments Motion_code {init_code motion_code} c.
Arguments Rydberg_code {init_code motion_code} s gates.

(** The ["gates"] lists of the [Rydberg] instructions of a program, in the
    order of the instruction stream. *)
Definition rydberg_gates {init_code motion_code : Type}
    (program : list (code init_code motion_code)) : list (list gate_rec) :=
  omap (fun c => match c with
                 | Rydberg_code _ gates => Some gates
                 | _ => None
                 end) program.

Section Builder.

(** The geometry of the motion is not needed to follow the gates.
    [builder_init] stands for the payload of the [Init] instruction built by
    [CodeGen.builder_init]; [builder_motion data s] for the dictionaries of
    [Reload_s], [BigMove_s] and [Offload_s] that [remove_trivial_insts]
    keeps.  Building either runs the verifications above and may raise. *)
Variables init_code motion_code : Type.
Variable builder_init : compiled -> res init_code.
Variable builder_motion : compiled -> nat -> res (list motion_code).

(** [builder_rydberg]: [Rydberg(s, ..., self.layers[s]['gates'])]. *)
Definition builder_rydberg (data : compiled) (s : nat) : res (code init_code motion_code) :=
  l ← get (c_layers data) s;
  Ok (Rydberg_code s (l_gates l)).

(** [CodeGen.builder(no_transfer=False).emit_full()]: [Rydberg_0] is appended
    by [builder_init]; for [s >= 1] the motion of stage [s], then
    [Rydberg_s] when [layers[s]['gates']] is not empty.  A [Rydberg]
    instruction is never trivial (its [duration] attribute stays [-1]); the
    [Init] instruction is put in front at the end. *)
Definition builder (data : compiled) : res (list (code init_code motion_code)) :=
  init ← builder_init data;
  rydberg_0 ← builder_rydberg data 0;
  program ← foldM (fun program s =>
                     motion ← builder_motion data s;
                     l ← get (c_layers data) s;
                     if 0 <? length (l_gates l) then
                       r ← builder_rydberg data s;
                       Ok (program ++ map Motion_code motion ++ [r])
                     else Ok (program ++ map Motion_code motion))
                  (seq 1 (length (c_layers data) - 1))
                  [rydberg_0];
  Ok (Init_code init :: program).

End Builder.

(** ** Verification comes first *)

Lemma inst_init_raises (verify : dpqa -> res unit) (operate : stmt dpqa) (d : dpqa) (e : exn) :
  verify d = Raise e -> inst_init verify operate d = (Raise e, d).
Proof. intros H. unfold inst_init. rewrite H. reflexivity. Qed.

Lemma inst_init_passes (verify : dpqa -> res unit) (operate : stmt dpqa) (d : dpqa) :
  verify d = Ok () -> inst_init verify operate d = operate d.
Proof. intros H. unfold inst_init. rewrite H. reflexivity. Qed.

(** Whenever the verification of an instruction raises, the instruction
    raises the same exception and leaves every record as it was. *)
Lemma verify_raises_state_unchanged (d : dpqa) (e : exn) :
  (forall a, Init_verify a d = Raise e -> Init a d = (Raise e, d)) /\
  (forall a, Move_verify a d = Raise e -> Move a d = (Raise e, d)) /\
  (forall a, Activate_verify a d = Raise e -> Activate a d = (Raise e, d)) /\
  (forall a, Deactivate_verify a d = Raise e -> Deactivate a d = (Raise e, d)).
Proof.
  repeat split; intros a H; apply inst_init_raises; exact H.
Qed.

(** Argument lists of different lengths are rejected with [ValueError]. *)
Lemma Activate_length_mismatch (a : switch_args) (d : dpqa) :
  length (sw_col_idx a) <> length (sw_col_xs a) \/
  length (sw_row_idx a) <> length (sw_row_ys a) ->
  Activate a d = (Raise ValueError, d).
Proof.
  intros H. apply inst_init_raises. unfold Activate_verify.
  destruct (Nat.eqb_spec (length (sw_col_idx a)) (length (sw_col_xs a))); simpl; auto.
  destruct (Nat.eqb_spec (length (sw_row_idx a)) (length (sw_row_ys a))); simpl; auto.
  tauto.
Qed.

Lemma Deactivate_length_mismatch (a : switch_args) (d : dpqa) :
  length (sw_col_idx a) <> length (sw_col_xs a) \/
  length (sw_row_idx a) <> length (sw_row_ys a) ->
  Deactivate a d = (Raise ValueError, d).
Proof.
  intros H. apply inst_init_raises. unfold Deactivate_verify.
  destruct (Nat.eqb_spec (length (sw_col_idx a)) (length (sw_col_xs a))); simpl; auto.
  destruct (Nat.eqb_spec (length (sw_row_idx a)) (length (sw_row_ys a))); simpl; auto.
  tauto.
Qed.

Lemma Move_length_mismatch (a : move_args) (d : dpqa) :
  ~ (length (mv_col_idx a) = length (mv_col_begin a) /\
     length (mv_col_idx a) = length (mv_col_end a)) \/
  ~ (length (mv_row_idx a) = length (mv_row_begin a) /\
     length (mv_row_idx a) = length (mv_row_end a)) ->
  Move a d = (Raise ValueError, d).
Proof.
  intros H. apply inst_init_raises. unfold Move_verify.
  destruct (Nat.eqb_spec (length (mv_col_idx a)) (length (mv_col_begin a)));
    destruct (Nat.eqb_spec (length (mv_col_idx a)) (length (mv_col_end a))); simpl; auto.
  destruct (Nat.eqb_spec (length (mv_row_idx a)) (length (mv_row_begin a)));
    destruct (Nat.eqb_spec (length (mv_row_idx a)) (length (mv_row_end a))); simpl; auto.
  tauto.
Qed.

Lemma Init_length_mismatch (a : init_args) (d : dpqa) :
  length (in_slm_qubit_idx a) <> length (in_slm_qubit_xys a) ->
  Init a d = (Raise ValueError, d).
Proof.
  intros H. apply inst_init_raises. unfold Init_verify.
  destruct (Nat.eqb_spec (length (in_slm_qubit_idx a)) (length (in_slm_qubit_xys a)));
    simpl; auto. contradiction.
Qed.

(** ** The two failing inputs *)

(** Two columns, none active; both are switched on at [x = 5]. *)
Definition activate_two_cols : switch_args := mk_switch_args [0; 1]%Z [5; 5]%Z [] [] [].

(** C1, at the failing input: [Activate.verify] compares every new column
    with the columns that are already active, but not with the other columns
    of the same payload.  Starting from two inactive columns (an ordered
    lattice), the instruction passes its verification and leaves columns 0
    and 1 both active at [x = 5]: the ordering no longer holds. *)
Theorem Activate_breaks_lattice_order :
  let d := fresh_dpqa 2 2 0 in
  lattice_ordered d = true /\
  Activate_verify activate_two_cols d = Ok () /\
  fst (Activate activate_two_cols d) = Ok () /\
  active_xs (col_objs (snd (Activate activate_two_cols d))) = [5; 5]%Z /\
  lattice_ordered (snd (Activate activate_two_cols d)) = false.
Proof. vm_compute. repeat split; reflexivity. Qed.

(** Row 1 is switched on at [y = 0]; then row 0 is to be switched on at the
    same [y = 0], which is closer than [AOD_SEP] to row 1. *)
Definition activate_row_1 : switch_args := mk_switch_args [] [] [1]%Z [0]%Z [].
Definition activate_row_0 : switch_args := mk_switch_args [] [] [0]%Z [0]%Z [].
Definition activate_col_1 : switch_args := mk_switch_args [1]%Z [0]%Z [] [] [].
Definition activate_col_0 : switch_args := mk_switch_args [0]%Z [0]%Z [] [] [].

(** C8, at the failing input: the violated precondition "no active row above
    is closer than [AOD_SEP]" does not raise [ValueError].  The message of
    that [raise] reads [col_objs[j].y], so an [AttributeError] is raised
    instead (the records stay unchanged); the same violation on the column
    axis raises [ValueError]. *)
Theorem Activate_row_too_low_raises_AttributeError :
  let d := snd (Activate activate_row_1 (fresh_dpqa 2 2 0)) in
  let d' := snd (Activate activate_col_1 (fresh_dpqa 2 2 0)) in
  fst (Activate activate_row_1 (fresh_dpqa 2 2 0)) = Ok () /\
  row_active <$> row_objs d = [false; true] /\
  Activate_verify activate_row_0 d = Raise AttributeError /\
  Activate activate_row_0 d = (Raise AttributeError, d) /\
  Activate activate_col_0 d' = (Raise ValueError, d').
Proof. vm_compute. repeat split; reflexivity. Qed.

(** ** Which instructions keep the lattice order

    [Deactivate] and [Move] keep it; [Activate] keeps it when the columns
    (rows) of its payload are themselves in order. *)

Lemma for_each_inv {A S : Type} (P : S -> Prop) (body : A -> stmt S) (l : list A)
    (s s' : S) (r : res unit) :
  (forall x s r s', P s -> body x s = (r, s') -> P s') ->
  P s -> for_each body l s = (r, s') -> P s'.
Proof.
  intros Hbody. revert s. induction l as [|x l IH]; intros s Hs H; simpl in H.
  - inversion H; subst. exact Hs.
  - destruct (body x s) as [r1 s1] eqn:E. specialize (Hbody x s r1 s1 Hs E).
    destruct r1 as [[]| |]; [exact (IH s1 Hbody H)| |]; inversion H; subst; exact Hbody.
Qed.

Lemma py_update_inv {A : Type} (P : list A -> Prop) (f : A -> A) (i : Z)
    (l l' : list A) (r : res unit) :
  (forall k, P l -> P (alter f k l)) -> P l -> py_update f i l = (r, l') -> P l'.
Proof.
  intros Hf Hl H. unfold py_update in H.
  destruct (py_norm (length l) i); inversion H; subst; auto.
Qed.

Lemma check_each_ok {A : Type} (body : A -> res unit) (l : list A) (x : A) :
  check_each body l = Ok () -> x ∈ l -> body x = Ok ().
Proof.
  unfold check_each. induction l as [|y l IH]; intros H Hx.
  - inversion Hx.
  - cbn [foldM] in H. bind_ok H. destruct a.
    apply elem_of_cons in Hx. destruct Hx as [->|Hx]; [exact E|exact (IH H Hx)].
Qed.

Lemma ordered_gaps_cons (a : Z) (l : list Z) :
  ordered_gaps (a :: l) = true <->
  Forall (fun b => (a + AOD_SEP <= b)%Z) l /\ ordered_gaps l = true.
Proof.
  revert a. induction l as [|b l IH]; intros a.
  - simpl. split; [intros _; split; [constructor|reflexivity]|reflexivity].
  - change (ordered_gaps (a :: b :: l))
      with ((a + AOD_SEP <=? b)%Z && ordered_gaps (b :: l)).
    rewrite andb_true_iff, Z.leb_le. split.
    + intros [Hab Hbl]. split; [|exact Hbl]. constructor; [exact Hab|].
      apply IH in Hbl. destruct Hbl as [Hb _].
      eapply Forall_impl; [exact Hb|]. intros c Hc. simpl in Hc.
      unfold AOD_SEP in *. lia.
    + intros [Hall Hbl]. split; [|exact Hbl]. inversion Hall; assumption.
Qed.

Section Axis.

(** An axis of the lattice: the columns with their [active] and [x], or the
    rows with their [active] and [y]. *)
Context {A : Type}.
Variable act : A -> bool.
Variable coord : A -> Z.

Definition active_coords (l : list A) : list Z :=
  map coord (filter (fun a => act a = true) l).

(** The order, stated for pairs of positions. *)
Definition pairwise_ordered (l : list A) : Prop :=
  forall i j a b,
    i < j -> l !! i = Some a -> l !! j = Some b ->
    act a = true -> act b = true -> (coord a + AOD_SEP <= coord b)%Z.

Lemma active_coords_Forall (P : Z -> Prop) (l : list A) :
  Forall P (active_coords l) <->
  forall j b, l !! j = Some b -> act b = true -> P (coord b).
Proof.
  unfold active_coords. rewrite Forall_forall. split.
  - intros H j b Hj Hb. apply H. apply list_elem_of_fmap. exists b. split; [reflexivity|].
    apply list_elem_of_filter. split; [exact Hb|]. eapply list_elem_of_lookup_2; eauto.
  - intros H x Hx. apply list_elem_of_fmap in Hx. destruct Hx as (b & -> & Hb).
    apply list_elem_of_filter in Hb. destruct Hb as [Hact Hb].
    apply list_elem_of_lookup in Hb. destruct Hb as [j Hj]. eauto.
Qed.

Lemma ordered_gaps_pairwise (l : list A) :
  ordered_gaps (active_coords l) = true <-> pairwise_ordered l.
Proof.
  induction l as [|a l IH].
  - split; [|reflexivity]. intros _ i j a b _ Hi. discriminate.
  - unfold active_coords. rewrite filter_cons.
    destruct (decide (act a = true)) as [Ha|Ha].
    + cbn [map]. fold (active_coords l).
      rewrite ordered_gaps_cons, active_coords_Forall, IH. split.
      * intros [Hhead Htail] i j x y Hij Hi Hj Hx Hy.
        destruct j as [|j]; [lia|]. destruct i as [|i].
        -- inversion Hi; subst x. exact (Hhead j y Hj Hy).
        -- exact (Htail i j x y ltac:(lia) Hi Hj Hx Hy).
      * intros H. split.
        -- intros j b Hj Hb. exact (H 0 (S j) a b ltac:(lia) eq_refl Hj Ha Hb).
        -- intros i j x y Hij Hi Hj. exact (H (S i) (S j) x y ltac:(lia) Hi Hj).
    + fold (active_coords l). rewrite IH. split.
      * intros Htail i j x y Hij Hi Hj Hx Hy.
        destruct j as [|j]; [lia|]. destruct i as [|i].
        -- inversion Hi; subst x. contradiction.
        -- exact (Htail i j x y ltac:(lia) Hi Hj Hx Hy).
      * intros H i j x y Hij Hi Hj. exact (H (S i) (S j) x y ltac:(lia) Hi Hj).
Qed.

(** Records that are switched off or left as they are keep the order. *)
Lemma pairwise_ordered_Forall2 (l l' : list A) :
  Forall2 (fun a' a => act a' = true -> act a = true /\ coord a' = coord a) l' l ->
  pairwise_ordered l -> pairwise_ordered l'.
Proof.
  intros HR H i j a' b' Hij Hi Hj Ha Hb.
  destruct (Forall2_lookup_l _ _ _ _ _ HR Hi) as (a & Hia & Ra).
  destruct (Forall2_lookup_l _ _ _ _ _ HR Hj) as (b & Hjb & Rb).
  destruct (Ra Ha) as [Ha' ->]. destruct (Rb Hb) as [Hb' ->].
  exact (H i j a b Hij Hia Hjb Ha' Hb').
Qed.

End Axis.

Lemma seq_stmt_inv {S : Type} (P : S -> Prop) (a b : stmt S) (s s' : S) (r : res unit) :
  (forall s r s', P s -> a s = (r, s') -> P s') ->
  (forall s r s', P s -> b s = (r, s') -> P s') ->
  P s -> seq_stmt a b s = (r, s') -> P s'.
Proof.
  intros Ha Hb Hs H. unfold seq_stmt in H.
  destruct (a s) as [r1 s1] eqn:E. specialize (Ha s r1 s1 Hs E).
  destruct r1 as [[]| |]; [exact (Hb s1 r s' Ha H)| |]; inversion H; subst; exact Ha.
Qed.

Lemma on_cols_inv (P : list Col -> Prop) (a : stmt (list Col)) (d d' : dpqa) (r : res unit) :
  (forall cs r cs', P cs -> a cs = (r, cs') -> P cs') ->
  P (col_objs d) -> on_cols a d = (r, d') ->
  P (col_objs d') /\ row_objs d' = row_objs d /\ qubit_objs d' = qubit_objs d.
Proof.
  intros Ha Hd H. unfold on_cols in H. destruct (a (col_objs d)) as [r1 cs] eqn:E.
  inversion H; subst. cbn. split; [exact (Ha _ _ _ Hd E)|split; reflexivity].
Qed.

Lemma on_rows_inv (P : list Row -> Prop) (a : stmt (list Row)) (d d' : dpqa) (r : res unit) :
  (forall rs r rs', P rs -> a rs = (r, rs') -> P rs') ->
  P (row_objs d) -> on_rows a d = (r, d') ->
  P (row_objs d') /\ col_objs d' = col_objs d /\ qubit_objs d' = qubit_objs d.
Proof.
  intros Ha Hd H. unfold on_rows in H. destruct (a (row_objs d)) as [r1 rs] eqn:E.
  inversion H; subst. cbn. split; [exact (Ha _ _ _ Hd E)|split; reflexivity].
Qed.

Lemma on_qubits_frame (a : stmt (list Qubit)) (d d' : dpqa) (r : res unit) :
  on_qubits a d = (r, d') -> col_objs d' = col_objs d /\ row_objs d' = row_objs d.
Proof.
  intros H. unfold on_qubits in H. destruct (a (qubit_objs d)) as [r1 qs].
  inversion H; subst. split; reflexivity.
Qed.

Lemma lattice_ordered_pairwise (d : dpqa) :
  lattice_ordered d = true <->
  pairwise_ordered col_active col_x (col_objs d) /\
  pairwise_ordered row_active row_y (row_objs d).
Proof.
  unfold lattice_ordered. rewrite andb_true_iff.
  change (active_xs (col_objs d)) with (active_coords col_active col_x (col_objs d)).
  change (active_ys (row_objs d)) with (active_coords row_active row_y (row_objs d)).
  rewrite !ordered_gaps_pairwise. reflexivity.
Qed.

(** X1: [Deactivate] keeps the lattice order, whatever its outcome: it only
    switches columns and rows off. *)
Lemma Deactivate_keeps_lattice_order (a : switch_args) (d d' : dpqa) (r : res unit) :
  Deactivate a d = (r, d') ->
  lattice_ordered d = true -> lattice_ordered d' = true.
Proof.
  intros H Hd. unfold Deactivate, inst_init in H.
  destruct (Deactivate_verify a d) as [[]| |]; try (inversion H; subst; exact Hd).
  apply lattice_ordered_pairwise in Hd. destruct Hd as [Hc Hr].
  apply lattice_ordered_pairwise.
  set (Rc := fun c' c : Col =>
               col_active c' = true -> col_active c = true /\ col_x c' = col_x c).
  set (Rr := fun r' r : Row =>
               row_active r' = true -> row_active r = true /\ row_y r' = row_y r).
  assert (Hinv : Forall2 Rc (col_objs d') (col_objs d) /\
                 Forall2 Rr (row_objs d') (row_objs d)).
  { revert H. unfold Deactivate_operate.
    apply (seq_stmt_inv (fun s => Forall2 Rc (col_objs s) (col_objs d) /\
                                  Forall2 Rr (row_objs s) (row_objs d))).
    - intros s r1 s1 [Hs1 Hs2] H1.
      apply (on_cols_inv (fun cs => Forall2 Rc cs (col_objs d))) in H1.
      + destruct H1 as (H1 & -> & _). split; assumption.
      + intros cs r2 cs'.
        apply (for_each_inv (fun cs => Forall2 Rc cs (col_objs d))).
        intros ci cs1 r3 cs2.
        apply (py_update_inv (fun cs => Forall2 Rc cs (col_objs d))).
        intros k Hk. apply Forall2_alter_l; [exact Hk|].
        intros x y _ _ _ Hx. discriminate.
      + exact Hs1.
    - intros s r1 s1.
      apply (seq_stmt_inv (fun s => Forall2 Rc (col_objs s) (col_objs d) /\
                                    Forall2 Rr (row_objs s) (row_objs d))).
      + intros s2 r2 s3 [Hs1 Hs2] H1.
        apply (on_rows_inv (fun rs => Forall2 Rr rs (row_objs d))) in H1.
        * destruct H1 as (H1 & -> & _). split; assumption.
        * intros rs r3 rs'.
          apply (for_each_inv (fun rs => Forall2 Rr rs (row_objs d))).
          intros ri rs1 r4 rs2.
          apply (py_update_inv (fun rs => Forall2 Rr rs (row_objs d))).
          intros k Hk. apply Forall2_alter_l; [exact Hk|].
          intros x y _ _ _ Hx. discriminate.
        * exact Hs2.
      + intros s2 r2 s3 [Hs1 Hs2] H1. apply on_qubits_frame in H1.
        destruct H1 as [-> ->]. split; assumption.
    - split; apply Forall_Forall2_diag, Forall_forall; intros x _ Hx; auto. }
  destruct Hinv as [Hc' Hr']. split.
  - exact (pairwise_ordered_Forall2 col_active col_x _ _ Hc' Hc).
  - exact (pairwise_ordered_Forall2 row_active row_y _ _ Hr' Hr).
Qed.

Lemma for_each_inv_in {A S : Type} (P : S -> Prop) (body : A -> stmt S) (l : list A)
    (s s' : S) (r : res unit) :
  (forall x s r s', x ∈ l -> P s -> body x s = (r, s') -> P s') ->
  P s -> for_each body l s = (r, s') -> P s'.
Proof.
  revert s. induction l as [|x l IH]; intros s Hbody Hs H; simpl in H.
  - inversion H; subst. exact Hs.
  - destruct (body x s) as [r1 s1] eqn:E.
    assert (Hs1 : P s1) by (apply (Hbody x s r1 s1); [left|exact Hs|exact E]).
    destruct r1 as [[]| |]; [|inversion H; subst; exact Hs1..].
    apply (IH s1); [|exact Hs1|exact H].
    intros y t r2 t' Hy. apply Hbody. right. exact Hy.
Qed.

Lemma seq_stmt_cases {S : Type} (a b : stmt S) (s s' : S) (r : res unit) :
  seq_stmt a b s = (r, s') ->
  (exists s1, a s = (Ok (), s1) /\ b s1 = (r, s')) \/ a s = (r, s').
Proof.
  unfold seq_stmt. destruct (a s) as [r1 s1]. destruct r1 as [[]| |]; eauto.
Qed.

Lemma py_norm_nonneg_inv (len : nat) (i : Z) (k : nat) :
  py_norm len i = Some k -> (0 <= i)%Z -> i = Z.of_nat k.
Proof.
  unfold py_norm. intros H Hi. destruct (Z.leb_spec 0 i); [|lia].
  destruct (Z.ltb_spec i (Z.of_nat len)); inversion H. lia.
Qed.

Lemma py_get_nat {A : Type} (l : list A) (j : nat) (b : A) :
  l !! j = Some b -> py_get l (Z.of_nat j) = Ok b.
Proof.
  intros H. unfold py_get. rewrite py_norm_nonneg.
  - rewrite Nat2Z.id. unfold get. rewrite H. reflexivity.
  - apply lookup_lt_Some in H. lia.
Qed.

(** The payload of an [Activate] is in order when its indices are not
    negative and a larger index always comes with a coordinate that is larger
    by [AOD_SEP] at least. *)
Definition payload_ordered (idx xs : list Z) : Prop :=
  Forall (fun ci => (0 <= ci)%Z) idx /\
  forall p q : Z * Z,
    p ∈ zip idx xs -> q ∈ zip idx xs -> (fst p < fst q)%Z ->
    (snd p + AOD_SEP <= snd q)%Z.

Section SwitchOn.

Context {A : Type}.
Variable act : A -> bool.
Variable coord : A -> Z.
Variable set_on : A -> A.
Variable set_c : Z -> A -> A.
Hypothesis act_on : forall x a, act (set_c x (set_on a)) = true.
Hypothesis coord_on : forall x a, coord (set_c x (set_on a)) = x.

(** What the two inner loops of [Activate.verify] establish for an entry
    [(ci, x)] of the payload. *)
Definition entry_ok (l : list A) (ci x : Z) : Prop :=
  forall j b,
    l !! j = Some b -> act b = true ->
    ((Z.of_nat j < ci)%Z -> (coord b + AOD_SEP <= x)%Z) /\
    ((ci < Z.of_nat j)%Z -> (x + AOD_SEP <= coord b)%Z).

Lemma switch_on_keeps_order (l l' : list A) (idx xs : list Z) (r : res unit) :
  payload_ordered idx xs ->
  (forall p, p ∈ zip idx xs -> entry_ok l (fst p) (snd p)) ->
  pairwise_ordered act coord l ->
  for_each (fun m : Z * Z =>
              let '(ci, x) := m in
              seq_stmt (py_update set_on ci) (py_update (set_c x) ci))
           (zip idx xs) l = (r, l') ->
  pairwise_ordered act coord l'.
Proof.
  intros [Hnonneg Hpayload] Hentries Hl Hrun.
  set (T := fun cs : list A =>
              length cs = length l /\
              forall k c', cs !! k = Some c' ->
                l !! k = Some c' \/
                (act c' = true /\
                 exists p, p ∈ zip idx xs /\ fst p = Z.of_nat k /\ coord c' = snd p)).
  assert (HT : T l').
  { revert Hrun. apply (for_each_inv_in T).
    - intros [ci x] cs r1 cs' Hin [Hlen Hcs] Hbody.
      assert (Hci : (0 <= ci)%Z).
      { rewrite Forall_forall in Hnonneg. apply Hnonneg.
        exact (elem_of_zip_l _ _ _ _ Hin). }
      unfold seq_stmt, py_update in Hbody.
      destruct (py_norm (length cs) ci) as [k|] eqn:Hk.
      + rewrite length_alter, Hk in Hbody. inversion Hbody; subst r1 cs'; clear Hbody.
        apply py_norm_nonneg_inv in Hk; [|exact Hci].
        split; [rewrite !length_alter; exact Hlen|].
        intros k' c' Hc'. destruct (decide (k = k')) as [<-|Hne].
        * rewrite list_lookup_alter_eq, list_lookup_alter_eq in Hc'.
          destruct (cs !! k) as [c0|]; [|discriminate]. inversion Hc'; subst c'.
          right. split; [apply act_on|]. exists (ci, x).
          split; [exact Hin|]. split; [exact Hk|apply coord_on].
        * rewrite !list_lookup_alter_ne in Hc' by exact Hne. exact (Hcs k' c' Hc').
      + inversion Hbody; subst. split; assumption.
    - split; [reflexivity|]. intros k c' Hc'. left. exact Hc'. }
  destruct HT as [_ HT].
  intros i j a' b' Hij Hi Hj Ha Hb.
  destruct (HT i a' Hi) as [Hia|(_ & p & Hp & Hpi & Hpx)];
    destruct (HT j b' Hj) as [Hjb|(_ & q & Hq & Hqj & Hqx)].
  - exact (Hl i j a' b' Hij Hia Hjb Ha Hb).
  - rewrite Hqx. apply (Hentries q Hq i a' Hia Ha). lia.
  - rewrite Hpx. apply (Hentries p Hp j b' Hjb Hb). lia.
  - rewrite Hpx, Hqx. apply Hpayload; [exact Hp|exact Hq|lia].
Qed.

End SwitchOn.

Lemma check_cols_ok (want_active : bool) (cols : list Col) (col_idx col_xs : list Z)
    (p : Z * Z) :
  check_cols want_active cols col_idx col_xs = Ok () ->
  p ∈ zip col_idx col_xs -> (0 <= fst p)%Z ->
  entry_ok col_active col_x cols (fst p) (snd p).
Proof.
  intros H Hp Hci. unfold check_cols in H.
  pose proof (check_each_ok _ _ p H Hp) as Hbody. clear H.
  destruct p as [ci x]. cbn [fst snd] in *. cbn beta iota in Hbody.
  bind_ok Hbody. destruct (negb _); [discriminate|]. bind_ok Hbody. destruct a0.
  intros j b Hj Hb. pose proof (lookup_lt_Some _ _ _ Hj) as Hlt. split; intros Hlt'.
  - assert (Hin : Z.of_nat j ∈ seqZ 0 ci) by (apply elem_of_seqZ; lia).
    pose proof (check_each_ok _ _ _ E0 Hin) as Hjb. cbn beta in Hjb.
    rewrite (py_get_nat _ _ _ Hj) in Hjb. cbn in Hjb. rewrite Hb in Hjb. cbn in Hjb.
    destruct (Z.gtb_spec (col_x b) (x - AOD_SEP)); [discriminate|]. lia.
  - assert (Hin : Z.of_nat j ∈ seqZ (ci + 1) (Z.of_nat (length cols) - (ci + 1)))
      by (apply elem_of_seqZ; lia).
    pose proof (check_each_ok _ _ _ Hbody Hin) as Hjb. cbn beta in Hjb.
    rewrite (py_get_nat _ _ _ Hj) in Hjb. cbn in Hjb. rewrite Hb in Hjb. cbn in Hjb.
    destruct (Z.ltb_spec (col_x b - AOD_SEP) x); [discriminate|]. lia.
Qed.

Lemma check_rows_ok (want_active : bool) (cols : list Col) (rows : list Row)
    (row_idx row_ys : list Z) (p : Z * Z) :
  check_rows want_active cols rows row_idx row_ys = Ok () ->
  p ∈ zip row_idx row_ys -> (0 <= fst p)%Z ->
  entry_ok row_active row_y rows (fst p) (snd p).
Proof.
  intros H Hp Hri. unfold check_rows in H.
  pose proof (check_each_ok _ _ p H Hp) as Hbody. clear H.
  destruct p as [ri y]. cbn [fst snd] in *. cbn beta iota in Hbody.
  bind_ok Hbody. destruct (negb _); [discriminate|]. bind_ok Hbody. destruct a0.
  intros j b Hj Hb. pose proof (lookup_lt_Some _ _ _ Hj) as Hlt. split; intros Hlt'.
  - assert (Hin : Z.of_nat j ∈ seqZ 0 ri) by (apply elem_of_seqZ; lia).
    pose proof (check_each_ok _ _ _ E0 Hin) as Hjb. cbn beta in Hjb.
    rewrite (py_get_nat _ _ _ Hj) in Hjb. cbn in Hjb. rewrite Hb in Hjb. cbn in Hjb.
    destruct (Z.gtb_spec (row_y b) (y - AOD_SEP)); [discriminate|]. lia.
  - assert (Hin : Z.of_nat j ∈ seqZ (ri + 1) (Z.of_nat (length rows) - (ri + 1)))
      by (apply elem_of_seqZ; lia).
    pose proof (check_each_ok _ _ _ Hbody Hin) as Hjb. cbn beta in Hjb.
    rewrite (py_get_nat _ _ _ Hj) in Hjb. cbn in Hjb. rewrite Hb in Hjb. cbn in Hjb.
    destruct (Z.ltb_spec (row_y b - AOD_SEP) y); [discriminate|]. lia.
Qed.

(** X3: [Activate] keeps the lattice order when the columns of its payload
    are in order among themselves, and its rows too; this is the comparison
    that [Activate.verify] leaves out. *)
Lemma Activate_keeps_lattice_order (a : switch_args) (d d' : dpqa) (r : res unit) :
  payload_ordered (sw_col_idx a) (sw_col_xs a) ->
  payload_ordered (sw_row_idx a) (sw_row_ys a) ->
  Activate a d = (r, d') ->
  lattice_ordered d = true -> lattice_ordered d' = true.
Proof.
  intros Hpc Hpr H Hd. unfold Activate, inst_init in H.
  destruct (Activate_verify a d) as [[]| |] eqn:Hv; try (inversion H; subst; exact Hd).
  unfold Activate_verify in Hv.
  destruct (negb _); [discriminate|]. destruct (negb _); [discriminate|].
  bind_ok Hv. bind_ok Hv. clear Hv. destruct a0, a1.
  apply lattice_ordered_pairwise in Hd. destruct Hd as [Hc Hr].
  apply lattice_ordered_pairwise.
  assert (Hcols : forall s r1 s1,
             col_objs s = col_objs d ->
             on_cols (for_each (fun m : Z * Z =>
                                  let '(ci, x) := m in
                                  seq_stmt (py_update (set_col_active true) ci)
                                           (py_update (set_col_x x) ci))
                               (zip (sw_col_idx a) (sw_col_xs a))) s = (r1, s1) ->
             pairwise_ordered col_active col_x (col_objs s1) /\
             row_objs s1 = row_objs s).
  { intros s r1 s1 Hs H1. unfold on_cols in H1.
    destruct (for_each _ _ (col_objs s)) as [r2 cs] eqn:E1. inversion H1; subst. cbn.
    split; [|reflexivity]. rewrite Hs in E1.
    apply (switch_on_keeps_order col_active col_x (set_col_active true) set_col_x
             (fun _ _ => eq_refl) (fun _ _ => eq_refl) _ _ _ _ _ Hpc) in E1;
      [exact E1| |exact Hc].
    intros p Hp. apply (check_cols_ok _ _ _ _ _ E Hp).
    destruct Hpc as [Hn _]. rewrite Forall_forall in Hn. apply Hn.
    destruct p. exact (elem_of_zip_l _ _ _ _ Hp). }
  assert (Hrows : forall s r1 s1,
             row_objs s = row_objs d ->
             on_rows (for_each (fun m : Z * Z =>
                                  let '(ri, y) := m in
                                  seq_stmt (py_update (set_row_active true) ri)
                                           (py_update (set_row_y y) ri))
                               (zip (sw_row_idx a) (sw_row_ys a))) s = (r1, s1) ->
             pairwise_ordered row_active row_y (row_objs s1) /\
             col_objs s1 = col_objs s).
  { intros s r1 s1 Hs H1. unfold on_rows in H1.
    destruct (for_each _ _ (row_objs s)) as [r2 rs] eqn:E1. inversion H1; subst. cbn.
    split; [|reflexivity]. rewrite Hs in E1.
    apply (switch_on_keeps_order row_active row_y (set_row_active true) set_row_y
             (fun _ _ => eq_refl) (fun _ _ => eq_refl) _ _ _ _ _ Hpr) in E1;
      [exact E1| |exact Hr].
    intros p Hp. apply (check_rows_ok _ _ _ _ _ _ E0 Hp).
    destruct Hpr as [Hn _]. rewrite Forall_forall in Hn. apply Hn.
    destruct p. exact (elem_of_zip_l _ _ _ _ Hp). }
  unfold Activate_operate in H.
  apply seq_stmt_cases in H. destruct H as [(s1 & H1 & H2)|H1].
  - destruct (Hcols _ _ _ eq_refl H1) as [Hc1 Hr1].
    apply seq_stmt_cases in H2. destruct H2 as [(s2 & H2 & H3)|H2].
    + destruct (Hrows _ _ _ Hr1 H2) as [Hr2 Hc2].
      apply on_qubits_frame in H3. destruct H3 as [-> ->].
      rewrite Hc2. split; assumption.
    + destruct (Hrows _ _ _ Hr1 H2) as [Hr2 Hc2]. rewrite Hc2. split; assumption.
  - destruct (Hcols _ _ _ eq_refl H1) as [Hc1 Hr1]. rewrite Hr1. split; assumption.
Qed.

(** *** Move: the simulation of [Move.verify] is what [Move.operate] does *)

Definition vid (v : Z * bool * Z) : Z := fst (fst v).
Definition vact (v : Z * bool * Z) : bool := snd (fst v).
Definition vx (v : Z * bool * Z) : Z := snd v.
Definition set_vx (e : Z) (v : Z * bool * Z) : Z * bool * Z := (vid v, vact v, e).

Definition active_ids (vs : list (Z * bool * Z)) : list Z :=
  map vid (filter (fun v => vact v = true) vs).

Lemma scan_active_from (vs : list (Z * bool * Z)) (i0 x0 ids xs : list Z) :
  foldM (fun (acc : list Z * list Z) (o : Z * bool * Z) =>
           let '(activated_idx, activated_xs) := acc in
           let '(id, active, x) := o in
           if active then
             if negb (bool_decide (activated_idx = [])) &&
                (x <? List.last activated_xs 0%Z + AOD_SEP)%Z
             then Raise ValueError
             else Ok (activated_idx ++ [id], activated_xs ++ [x])
           else Ok acc)
        vs (i0, x0) = Ok (ids, xs) ->
  ids = i0 ++ active_ids vs /\ xs = x0 ++ active_coords vact vx vs.
Proof.
  revert i0 x0. induction vs as [|[[id active] x] vs IH]; intros i0 x0 H.
  - inversion H; subst. unfold active_ids, active_coords. cbn.
    rewrite !app_nil_r. split; reflexivity.
  - cbn [foldM] in H. unfold active_ids, active_coords. rewrite !filter_cons.
    destruct active.
    + destruct (decide (vact (id, true, x) = true)) as [_|Hn];
        [|exfalso; apply Hn; reflexivity].
      cbn [mbind res_bind] in H.
      destruct (negb (bool_decide (i0 = [])) && (x <? List.last x0 0 + AOD_SEP)%Z);
        [discriminate|].
      apply IH in H. destruct H as [-> ->]. cbn [map].
      rewrite <- !app_assoc. split; reflexivity.
    + destruct (decide (vact (id, false, x) = true)) as [Hn|_]; [discriminate|].
      apply IH in H. exact H.
Qed.

Lemma scan_active_spec (vs : list (Z * bool * Z)) (ids xs : list Z) :
  scan_active vs = Ok (ids, xs) ->
  ids = active_ids vs /\ xs = active_coords vact vx vs.
Proof. intros H. apply scan_active_from in H. exact H. Qed.

Lemma index_of_lookup (m : Z) (l : list Z) (j : nat) :
  index_of m l = Some j -> l !! j = Some m.
Proof.
  revert j. induction l as [|y l IH]; intros j H; [discriminate|].
  cbn [index_of] in H. destruct (Z.eqb_spec m y) as [->|_].
  - inversion H. reflexivity.
  - destruct (index_of m l) as [j'|]; [|discriminate]. inversion H. exact (IH j' eq_refl).
Qed.

(** With the ids counting the positions from [o], the [j]-th active entry
    whose id is found by [index] sits at the position its id names, and
    writing its coordinate there is writing entry [j] of the active
    coordinates. *)
Lemma active_position (o : nat) (vs : list (Z * bool * Z)) (m : Z) (j : nat) :
  (forall k v, vs !! k = Some v -> vid v = Z.of_nat (o + k)) ->
  index_of m (active_ids vs) = Some j ->
  exists k v,
    vs !! k = Some v /\ m = Z.of_nat (o + k) /\
    active_coords vact vx vs !! j = Some (vx v) /\
    forall e, active_coords vact vx (alter (set_vx e) k vs)
              = <[j := e]> (active_coords vact vx vs).
Proof.
  revert o j. induction vs as [|v vs IH]; intros o j Hids H; [discriminate|].
  assert (Htail : forall k v', vs !! k = Some v' -> vid v' = Z.of_nat (S o + k)).
  { intros k v' Hk. rewrite (Hids (S k) v' Hk). f_equal. lia. }
  unfold active_ids, active_coords in H |- *. rewrite filter_cons in H.
  destruct (decide (vact v = true)) as [Ha|Ha].
  - cbn [map index_of] in H. destruct (Z.eqb_spec m (vid v)) as [->|Hne].
    + inversion H; subst j. exists 0, v.
      split; [reflexivity|]. split; [exact (Hids 0 v eq_refl)|].
      rewrite filter_cons, decide_True by exact Ha. split; [reflexivity|].
      intros e. cbn [alter list_alter]. rewrite filter_cons, decide_True by exact Ha.
      reflexivity.
    + destruct (index_of m (map vid (filter (fun v => vact v = true) vs)))
        as [j'|] eqn:Hj; [|discriminate].
      inversion H; subst j.
      destruct (IH (S o) j' Htail Hj) as (k & v' & Hk & Hm & Hx & Halter).
      unfold active_coords in Hx, Halter.
      exists (S k), v'. split; [exact Hk|]. split; [rewrite Hm; f_equal; lia|].
      rewrite filter_cons, decide_True by exact Ha. split; [exact Hx|].
      intros e. cbn [alter list_alter]. rewrite filter_cons, decide_True by exact Ha.
      cbn [map]. rewrite Halter. reflexivity.
  - destruct (IH (S o) j Htail H) as (k & v' & Hk & Hm & Hx & Halter).
    unfold active_coords in Hx, Halter.
    exists (S k), v'. split; [exact Hk|]. split; [rewrite Hm; f_equal; lia|].
    rewrite filter_cons, decide_False by exact Ha. split; [exact Hx|].
    intros e. cbn [alter list_alter]. rewrite filter_cons, decide_False by exact Ha.
    exact (Halter e).
Qed.

Lemma active_ids_set_vx (e : Z) (k : nat) (vs : list (Z * bool * Z)) :
  active_ids (alter (set_vx e) k vs) = active_ids vs.
Proof.
  revert k. unfold active_ids. induction vs as [|v vs IH]; intros k; [reflexivity|].
  destruct k as [|k]; cbn [alter list_alter]; rewrite !filter_cons.
  - change (vact (set_vx e v)) with (vact v).
    destruct (decide (vact v = true)); reflexivity.
  - destruct (decide (vact v = true)); cbn [map]; rewrite IH; reflexivity.
Qed.

Section MoveAxis.

Context {A : Type}.
Variable view : A -> Z * bool * Z.
Variable set_coord : Z -> A -> A.
Hypothesis view_set : forall e a, view (set_coord e a) = set_vx e (view a).

(** The id of a record is its position in the list, as [CodeGen.builder]
    creates them. *)
Definition ids_are_positions (l : list A) : Prop :=
  forall k a, l !! k = Some a -> vid (view a) = Z.of_nat k.

Lemma map_view_alter (e : Z) (k : nat) (l : list A) :
  map view (alter (set_coord e) k l) = alter (set_vx e) k (map view l).
Proof.
  revert k. induction l as [|a l IH]; intros k; [reflexivity|].
  destruct k as [|k]; cbn [alter list_alter map].
  - rewrite view_set. reflexivity.
  - rewrite IH. reflexivity.
Qed.

Lemma ids_are_positions_alter (e : Z) (k : nat) (l : list A) :
  ids_are_positions l -> ids_are_positions (alter (set_coord e) k l).
Proof.
  intros Hl k' a' Ha'. destruct (decide (k = k')) as [<-|Hne].
  - rewrite list_lookup_alter_eq in Ha'. destruct (l !! k) as [a|] eqn:Ha; [|discriminate].
    inversion Ha'; subst a'. rewrite view_set. exact (Hl k a Ha).
  - rewrite list_lookup_alter_ne in Ha' by exact Hne. exact (Hl k' a' Ha').
Qed.

Lemma active_coords_map (l : list A) :
  active_coords vact vx (map view l)
  = active_coords (fun a => vact (view a)) (fun a => vx (view a)) l.
Proof.
  unfold active_coords. induction l as [|a l IH]; [reflexivity|].
  cbn [map]. rewrite !filter_cons.
  destruct (decide (vact (view a) = true)); cbn [map]; rewrite IH; reflexivity.
Qed.

(** The loop over the payload in [Move.verify] and the loop of
    [Move.operate] go the same way: when the first one ends, the second one
    ends too and leaves the coordinates the first one computed. *)
Lemma simulate_shift (ms : list (Z * (Z * Z))) (ids : list Z) (l : list A) (xs' : list Z) :
  ids_are_positions l ->
  ids = active_ids (map view l) ->
  foldM (fun (xs : list Z) (m : Z * (Z * Z)) =>
           let '(moving_id, (b, e)) := m in
           match index_of moving_id ids with
           | None => Raise ValueError
           | Some j =>
               x ← get xs j;
               if negb (b =? x)%Z then Raise ValueError else Ok (<[j := e]> xs)
           end)
        ms (active_coords vact vx (map view l)) = Ok xs' ->
  exists l',
    for_each (fun (m : Z * (Z * Z)) =>
                let '(i, (b, e)) := m in
                if (0 <? Z.abs (e - b))%Z then py_update (set_coord e) i
                else (fun l => (Ok (), l)))
             ms l = (Ok (), l') /\
    xs' = active_coords vact vx (map view l') /\
    ids_are_positions l'.
Proof.
  revert l. induction ms as [|[m [b e]] ms IH]; intros l Hpos Hids H.
  - inversion H; subst. exists l. split; [reflexivity|]. split; [reflexivity|exact Hpos].
  - cbn [foldM] in H. cbn beta iota in H.
    destruct (index_of m ids) as [j|] eqn:Hj; [|discriminate].
    bind_ok H. bind_ok E. apply get_ok in E0.
    destruct (Z.eqb_spec b a0) as [->|Hne]; [|discriminate].
    cbn [negb] in E. inversion E; subst a; clear E.
    rewrite Hids in Hj.
    destruct (active_position 0 (map view l) m j) as (k & v & Hk & Hm & Hx & Halter);
      [|exact Hj|].
    { intros k v Hk. rewrite list_lookup_fmap in Hk.
      destruct (l !! k) as [a|] eqn:Ha; [|discriminate]. inversion Hk; subst v.
      exact (Hpos k a Ha). }
    rewrite Hx in E0. inversion E0; subst a0; clear E0. cbn [Nat.add] in Hm.
    assert (Hlt : k < length l).
    { apply lookup_lt_Some in Hk. rewrite length_map in Hk. exact Hk. }
    cbn [for_each]. cbn beta iota.
    destruct (Z.ltb_spec 0 (Z.abs (e - vx v))) as [Hmove|Hstay].
    + unfold py_update at 1. rewrite Hm, py_norm_nonneg by lia. rewrite Nat2Z.id.
      apply IH.
      * apply ids_are_positions_alter. exact Hpos.
      * rewrite map_view_alter, active_ids_set_vx. exact Hids.
      * rewrite map_view_alter, Halter. exact H.
    + apply IH; [exact Hpos|exact Hids|].
      rewrite list_insert_id in H; [exact H|]. rewrite Hx. f_equal. lia.
Qed.

Lemma move_axis_keeps_order (l l' : list A) (idx begin_ end_ : list Z) (r : res unit) :
  ids_are_positions l ->
  verify_axis (map view l) idx begin_ end_ = Ok () ->
  shift_each set_coord idx begin_ end_ l = (r, l') ->
  ordered_gaps (active_coords (fun a => vact (view a)) (fun a => vx (view a)) l') = true /\
  ids_are_positions l'.
Proof.
  intros Hpos Hv Hrun. unfold verify_axis in Hv. bind_ok Hv.
  destruct a as [ids xs]. apply scan_active_spec in E. destruct E as [Hids Hxs].
  bind_ok Hv. unfold simulate_moves in E. rewrite Hxs in E.
  destruct (simulate_shift _ ids l a Hpos Hids E) as (l1 & Hl1 & Ha & Hpos1).
  unfold shift_each in Hrun. rewrite Hl1 in Hrun. inversion Hrun; subst r l'.
  split; [|exact Hpos1]. rewrite <- active_coords_map, <- Ha.
  destruct (ordered_gaps a); [reflexivity|discriminate].
Qed.

End MoveAxis.

Lemma follow_lattice_frame (d d' : dpqa) (r : res unit) :
  follow_lattice d = (r, d') ->
  col_objs d' = col_objs d /\ row_objs d' = row_objs d.
Proof.
  unfold follow_lattice.
  apply (for_each_inv (fun s => col_objs s = col_objs d /\ row_objs s = row_objs d));
    [|split; reflexivity].
  intros k s r1 s1 [Hc Hr] H.
  destruct (qubit_objs s !! k) as [q|]; [|inversion H; subst; split; assumption].
  destruct (decide (qb_array q = AOD)); [|inversion H; subst; split; assumption].
  destruct (py_get (col_objs s) (qb_c q)) as [c| |];
    [|inversion H; subst; split; assumption..].
  destruct (py_get (row_objs s) (qb_r q)) as [w| |];
    inversion H; subst; cbn; split; assumption.
Qed.

(** The columns and the rows carry their positions as ids. *)
Definition well_formed (d : dpqa) : Prop :=
  ids_are_positions col_view (col_objs d) /\ ids_are_positions row_view (row_objs d).

Lemma fresh_dpqa_well_formed (c_high r_high n_q : nat) :
  well_formed (fresh_dpqa c_high r_high n_q).
Proof.
  split; intros k a Ha; cbn in Ha; rewrite list_lookup_fmap in Ha;
    destruct (seq 0 _ !! k) as [i|] eqn:Hi; try discriminate;
    inversion Ha; subst a; apply lookup_seq in Hi; destruct Hi as [-> _];
    reflexivity.
Qed.

(** X2: [Move] keeps the lattice order, whatever its outcome, on records that
    carry their positions as ids: when [Move.verify] passes, the coordinates
    it has simulated and checked are the ones [Move.operate] writes. *)
Lemma Move_keeps_lattice_order (a : move_args) (d d' : dpqa) (r : res unit) :
  well_formed d ->
  Move a d = (r, d') ->
  lattice_ordered d = true ->
  lattice_ordered d' = true /\ well_formed d'.
Proof.
  intros [Hwc Hwr] H Hd. unfold Move, inst_init in H.
  destruct (Move_verify a d) as [[]| |] eqn:Hv;
    try (inversion H; subst; split; [exact Hd|split; assumption]).
  unfold Move_verify in Hv.
  destruct (negb _); [discriminate|]. destruct (negb _); [discriminate|].
  bind_ok Hv. destruct a0.
  assert (Hcols : forall s r1 s1,
             col_objs s = col_objs d ->
             on_cols (shift_each set_col_x (mv_col_idx a) (mv_col_begin a)
                        (mv_col_end a)) s = (r1, s1) ->
             (ordered_gaps (active_xs (col_objs s1)) = true /\
              ids_are_positions col_view (col_objs s1)) /\
             row_objs s1 = row_objs s).
  { intros s r1 s1 Hs H1. unfold on_cols in H1.
    destruct (shift_each _ _ _ _ (col_objs s)) as [r2 cs] eqn:E1.
    inversion H1; subst. cbn. split; [|reflexivity]. rewrite Hs in E1.
    exact (move_axis_keeps_order col_view set_col_x (fun _ _ => eq_refl)
             _ _ _ _ _ _ Hwc E E1). }
  assert (Hrows : forall s r1 s1,
             row_objs s = row_objs d ->
             on_rows (shift_each set_row_y (mv_row_idx a) (mv_row_begin a)
                        (mv_row_end a)) s = (r1, s1) ->
             (ordered_gaps (active_ys (row_objs s1)) = true /\
              ids_are_positions row_view (row_objs s1)) /\
             col_objs s1 = col_objs s).
  { intros s r1 s1 Hs H1. unfold on_rows in H1.
    destruct (shift_each _ _ _ _ (row_objs s)) as [r2 rs] eqn:E1.
    inversion H1; subst. cbn. split; [|reflexivity]. rewrite Hs in E1.
    exact (move_axis_keeps_order row_view set_row_y (fun _ _ => eq_refl)
             _ _ _ _ _ _ Hwr Hv E1). }
  apply andb_true_iff in Hd. destruct Hd as [Hdc Hdr].
  unfold lattice_ordered, well_formed. rewrite andb_true_iff.
  unfold Move_operate in H.
  apply seq_stmt_cases in H. destruct H as [(s1 & H1 & H2)|H1].
  - destruct (Hcols _ _ _ eq_refl H1) as [[Hc1 Hi1] Hr1].
    apply seq_stmt_cases in H2. destruct H2 as [(s2 & H2 & H3)|H2].
    + destruct (Hrows _ _ _ Hr1 H2) as [[Hr2 Hi2] Hc2].
      apply follow_lattice_frame in H3. destruct H3 as [-> ->].
      rewrite Hc2. tauto.
    + destruct (Hrows _ _ _ Hr1 H2) as [[Hr2 Hi2] Hc2]. rewrite Hc2. tauto.
  - destruct (Hcols _ _ _ eq_refl H1) as [[Hc1 Hi1] Hr1]. rewrite Hr1. tauto.
Qed.

Lemma ids_are_positions_keep {A : Type} (view : A -> Z * bool * Z) (f : A -> A)
    (k : nat) (l : list A) :
  (forall a, vid (view (f a)) = vid (view a)) ->
  ids_are_positions view l -> ids_are_positions view (alter f k l).
Proof.
  intros Hf Hl k' a' Ha'. destruct (decide (k = k')) as [<-|Hne].
  - rewrite list_lookup_alter_eq in Ha'. destruct (l !! k) as [a|] eqn:Ha; [|discriminate].
    inversion Ha'; subst a'. rewrite Hf. exact (Hl k a Ha).
  - rewrite list_lookup_alter_ne in Ha' by exact Hne. exact (Hl k' a' Ha').
Qed.

(** [Activate] and [Deactivate] never write an id. *)
Lemma switch_keeps_well_formed (a : switch_args) (d d' : dpqa) (r : res unit) :
  well_formed d ->
  Activate a d = (r, d') \/ Deactivate a d = (r, d') ->
  well_formed d'.
Proof.
  intros Hd [H|H].
  - unfold Activate, inst_init in H.
    destruct (Activate_verify a d) as [[]| |]; try (inversion H; subst; exact Hd).
    revert H. unfold Activate_operate. apply (seq_stmt_inv well_formed); [| |exact Hd].
    + intros s r1 s1 [Hc Hr] H1.
      apply (on_cols_inv (ids_are_positions col_view)) in H1; [|clear H1|exact Hc].
      * destruct H1 as (H1 & H2 & _). unfold well_formed. rewrite H2.
           split; assumption.
      * intros cs r2 cs'. apply (for_each_inv (ids_are_positions col_view)).
        intros [ci x] cs1 r3 cs2. apply (seq_stmt_inv (ids_are_positions col_view)).
        -- intros cs3 r4 cs4. apply (py_update_inv (ids_are_positions col_view)).
           intros k. apply ids_are_positions_keep. reflexivity.
        -- intros cs3 r4 cs4. apply (py_update_inv (ids_are_positions col_view)).
           intros k. apply ids_are_positions_keep. reflexivity.
    + intros s r1 s1. apply (seq_stmt_inv well_formed).
      * intros s2 r2 s3 [Hc Hr] H1.
        apply (on_rows_inv (ids_are_positions row_view)) in H1; [|clear H1|exact Hr].
        -- destruct H1 as (H1 & H2 & _). unfold well_formed. rewrite H2.
           split; assumption.
        -- intros rs r3 rs'. apply (for_each_inv (ids_are_positions row_view)).
           intros [ri y] rs1 r4 rs2. apply (seq_stmt_inv (ids_are_positions row_view)).
           ++ intros rs3 r5 rs4. apply (py_update_inv (ids_are_positions row_view)).
              intros k. apply ids_are_positions_keep. reflexivity.
           ++ intros rs3 r5 rs4. apply (py_update_inv (ids_are_positions row_view)).
              intros k. apply ids_are_positions_keep. reflexivity.
      * intros s2 r2 s3 [Hc Hr] H1. apply on_qubits_frame in H1.
        destruct H1 as [H1 H2]. unfold well_formed. rewrite H1, H2. split; assumption.
  - unfold Deactivate, inst_init in H.
    destruct (Deactivate_verify a d) as [[]| |]; try (inversion H; subst; exact Hd).
    revert H. unfold Deactivate_operate. apply (seq_stmt_inv well_formed); [| |exact Hd].
    + intros s r1 s1 [Hc Hr] H1.
      apply (on_cols_inv (ids_are_positions col_view)) in H1; [|clear H1|exact Hc].
      * destruct H1 as (H1 & H2 & _). unfold well_formed. rewrite H2.
           split; assumption.
      * intros cs r2 cs'. apply (for_each_inv (ids_are_positions col_view)).
        intros ci cs1 r3 cs2. apply (py_update_inv (ids_are_positions col_view)).
        intros k. apply ids_are_positions_keep. reflexivity.
    + intros s r1 s1. apply (seq_stmt_inv well_formed).
      * intros s2 r2 s3 [Hc Hr] H1.
        apply (on_rows_inv (ids_are_positions row_view)) in H1; [|clear H1|exact Hr].
        -- destruct H1 as (H1 & H2 & _). unfold well_formed. rewrite H2.
           split; assumption.
        -- intros rs r3 rs'. apply (for_each_inv (ids_are_positions row_view)).
           intros ri rs1 r4 rs2. apply (py_update_inv (ids_are_positions row_view)).
           intros k. apply ids_are_positions_keep. reflexivity.
      * intros s2 r2 s3 [Hc Hr] H1. apply on_qubits_frame in H1.
        destruct H1 as [H1 H2]. unfold well_formed. rewrite H1, H2. split; assumption.
Qed.

(** *** Concrete runs of the three instructions *)

(** Columns 0 and 1 switched on at [x = 0] and [x = 5], row 0 at [y = 0]. *)
Definition example_activate : switch_args :=
  mk_switch_args [0; 1]%Z [0; 5]%Z [0]%Z [0]%Z [].

Definition example_lattice : dpqa := snd (Activate example_activate (fresh_dpqa 2 2 0)).

Definition example_move : move_args :=
  mk_move_args [1]%Z [5]%Z [9]%Z [0]%Z [0]%Z [3]%Z.

Definition example_deactivate : switch_args :=
  mk_switch_args [0]%Z [0]%Z [] [] [].

Lemma Deactivate_keeps_lattice_order_witness :
  Deactivate example_deactivate example_lattice
  = (Ok (), snd (Deactivate example_deactivate example_lattice)) /\
  lattice_ordered (snd (Deactivate example_deactivate example_lattice)) = true.
Proof.
  split; [vm_compute; reflexivity|].
  apply (Deactivate_keeps_lattice_order example_deactivate example_lattice _ (Ok ())).
  - vm_compute. reflexivity.
  - vm_compute. reflexivity.
Defined.

Lemma Move_keeps_lattice_order_witness :
  active_xs (col_objs (snd (Move example_move example_lattice))) = [0; 9]%Z /\
  lattice_ordered (snd (Move example_move example_lattice)) = true /\
  well_formed (snd (Move example_move example_lattice)).
Proof.
  split; [vm_compute; reflexivity|].
  apply (Move_keeps_lattice_order example_move example_lattice _ (Ok ())).
  - apply (switch_keeps_well_formed example_activate (fresh_dpqa 2 2 0) _ (Ok ()));
      [apply fresh_dpqa_well_formed|left; vm_compute; reflexivity].
  - vm_compute. reflexivity.
  - vm_compute. reflexivity.
Defined.

Lemma Activate_keeps_lattice_order_witness :
  active_xs (col_objs example_lattice) = [0; 5]%Z /\
  lattice_ordered example_lattice = true.
Proof.
  split; [vm_compute; reflexivity|].
  apply (Activate_keeps_lattice_order example_activate (fresh_dpqa 2 2 0) _ (Ok ())).
  - split.
    + repeat constructor; vm_compute; discriminate.
    + intros p q Hp Hq Hlt. cbn in Hp, Hq.
      rewrite !elem_of_cons, elem_of_nil in Hp, Hq.
      destruct Hp as [->|[->|[]]]; destruct Hq as [->|[->|[]]];
        cbn in Hlt |- *; unfold AOD_SEP; lia.
  - split.
    + repeat constructor; vm_compute; discriminate.
    + intros p q Hp Hq Hlt. cbn in Hp, Hq.
      rewrite !elem_of_cons, elem_of_nil in Hp, Hq.
      destruct Hp as [->|[]]; destruct Hq as [->|[]]; cbn in Hlt; lia.
  - vm_compute. reflexivity.
  - vm_compute. reflexivity.
Defined.

(** *** A [ValueError] comes from the verification *)

(** A statement that never raises [ValueError]. *)
Definition never_ValueError {S : Type} (st : stmt S) : Prop :=
  forall s, fst (st s) <> Raise ValueError.

Lemma py_get_not_ValueError {A : Type} (l : list A) (i : Z) :
  py_get l i <> Raise ValueError.
Proof.
  unfold py_get, get. destruct (py_norm (length l) i) as [k|]; [|discriminate].
  destruct (l !! k); discriminate.
Qed.

Lemma py_update_never {A : Type} (f : A -> A) (i : Z) : never_ValueError (py_update f i).
Proof.
  intros l. unfold py_update. destruct (py_norm (length l) i); cbn; discriminate.
Qed.

Lemma for_each_never {A S : Type} (body : A -> stmt S) (l : list A) :
  (forall x, never_ValueError (body x)) -> never_ValueError (for_each body l).
Proof.
  intros Hbody. induction l as [|x l IH]; intros s; cbn [for_each].
  - cbn. discriminate.
  - pose proof (Hbody x s) as Hx. destruct (body x s) as [r s1].
    destruct r as [[]|e|]; [apply IH|exact Hx|exact Hx].
Qed.

Lemma seq_stmt_never {S : Type} (a b : stmt S) :
  never_ValueError a -> never_ValueError b -> never_ValueError (seq_stmt a b).
Proof.
  intros Ha Hb s. unfold seq_stmt. pose proof (Ha s) as Hs.
  destruct (a s) as [r s1]. destruct r as [[]|e|]; [apply Hb|exact Hs|exact Hs].
Qed.

Lemma on_cols_never (a : stmt (list Col)) : never_ValueError a -> never_ValueError (on_cols a).
Proof.
  intros Ha d. unfold on_cols. pose proof (Ha (col_objs d)) as Hs.
  destruct (a (col_objs d)) as [r cs]. exact Hs.
Qed.

Lemma on_rows_never (a : stmt (list Row)) : never_ValueError a -> never_ValueError (on_rows a).
Proof.
  intros Ha d. unfold on_rows. pose proof (Ha (row_objs d)) as Hs.
  destruct (a (row_objs d)) as [r rs]. exact Hs.
Qed.

Lemma on_qubits_never (a : stmt (list Qubit)) :
  never_ValueError a -> never_ValueError (on_qubits a).
Proof.
  intros Ha d. unfold on_qubits. pose proof (Ha (qubit_objs d)) as Hs.
  destruct (a (qubit_objs d)) as [r qs]. exact Hs.
Qed.

Lemma shift_each_never {A : Type} (set_coord : Z -> A -> A) (idx begin_ end_ : list Z) :
  never_ValueError (shift_each set_coord idx begin_ end_).
Proof.
  apply for_each_never. intros [i [b e]].
  destruct (0 <? Z.abs (e - b))%Z; [apply py_update_never|].
  intros l. cbn. discriminate.
Qed.

Lemma follow_lattice_never : never_ValueError follow_lattice.
Proof.
  intros d. unfold follow_lattice. apply for_each_never. clear d. intros k d.
  destruct (qubit_objs d !! k) as [q|]; [|cbn; discriminate].
  destruct (decide (qb_array q = AOD)) as [Haod|Haod]; [|cbn; discriminate].
  pose proof (py_get_not_ValueError (col_objs d) (qb_c q)) as Hc.
  destruct (py_get (col_objs d) (qb_c q)) as [c|e|]; cbn; [|congruence|discriminate].
  pose proof (py_get_not_ValueError (row_objs d) (qb_r q)) as Hr.
  destruct (py_get (row_objs d) (qb_r q)) as [r|e|]; cbn; [discriminate|congruence|discriminate].
Qed.

Lemma Move_operate_never (a : move_args) : never_ValueError (Move_operate a).
Proof.
  unfold Move_operate.
  apply seq_stmt_never; [apply on_cols_never, shift_each_never|].
  apply seq_stmt_never; [apply on_rows_never, shift_each_never|apply follow_lattice_never].
Qed.

Lemma Activate_operate_never (a : switch_args) : never_ValueError (Activate_operate a).
Proof.
  unfold Activate_operate.
  apply seq_stmt_never; [|apply seq_stmt_never].
  - apply on_cols_never, for_each_never. intros [ci x].
    apply seq_stmt_never; apply py_update_never.
  - apply on_rows_never, for_each_never. intros [ri y].
    apply seq_stmt_never; apply py_update_never.
  - apply on_qubits_never, for_each_never. intros q_id. apply py_update_never.
Qed.

Lemma Deactivate_operate_never (a : switch_args) : never_ValueError (Deactivate_operate a).
Proof.
  unfold Deactivate_operate.
  apply seq_stmt_never; [|apply seq_stmt_never].
  - apply on_cols_never, for_each_never. intros ci. apply py_update_never.
  - apply on_rows_never, for_each_never. intros ri. apply py_update_never.
  - apply on_qubits_never, for_each_never. intros q_id. apply py_update_never.
Qed.

(** [Init.verify] has checked that every entry of [slm_qubit_xys] is a pair;
    the entries of [aod_qubit_crs] are unpacked unchecked, so the last loop
    of [Init.operate] is left out by listing no AOD qubit. *)
Lemma Init_operate_never (a : init_args) :
  forallb (fun p : list Z => length p =? 2) (in_slm_qubit_xys a) = true ->
  in_aod_qubit_idx a = [] ->
  never_ValueError (Init_operate a).
Proof.
  intros Hpairs Hnone. unfold Init_operate.
  apply seq_stmt_never; [|apply seq_stmt_never; [|apply seq_stmt_never]].
  - apply on_qubits_never, for_each_never. intros m.
    apply seq_stmt_never; [apply py_update_never|]. intros qs.
    destruct (in_slm_qubit_xys a !! fst m) as [xy|] eqn:Hxy; [|cbn; discriminate].
    assert (Hlen : length xy = 2).
    { rewrite forallb_forall in Hpairs. apply Nat.eqb_eq, Hpairs.
      apply list_elem_of_In, (list_elem_of_lookup_2 _ _ _ Hxy). }
    destruct xy as [|x [|y [|z xy]]]; try discriminate Hlen.
    cbn [unpack2]. apply py_update_never.
  - apply on_cols_never, for_each_never. intros m.
    apply seq_stmt_never; [apply py_update_never|]. intros cs.
    destruct (in_aod_col_xs a !! fst m); [apply py_update_never|cbn; discriminate].
  - apply on_rows_never, for_each_never. intros m.
    apply seq_stmt_never; [apply py_update_never|]. intros rs.
    destruct (in_aod_row_ys a !! fst m); [apply py_update_never|cbn; discriminate].
  - rewrite Hnone. intros d. cbn. discriminate.
Qed.

Lemma inst_init_ValueError (verify : dpqa -> res unit) (operate : stmt dpqa) (d d' : dpqa) :
  never_ValueError operate ->
  inst_init verify operate d = (Raise ValueError, d') ->
  verify d = Raise ValueError /\ d' = d.
Proof.
  intros Hop H. unfold inst_init in H.
  destruct (verify d) as [[]|e|].
  - exfalso. apply (Hop d). rewrite H. reflexivity.
  - inversion H; subst. split; reflexivity.
  - discriminate.
Qed.

(** X4: a [ValueError] of [Move], [Activate] or [Deactivate] comes from
    [verify], which runs before [operate] and writes nothing: the lists of
    [Col], [Row] and [Qubit] records are the ones the instruction was given.
    The same holds for [Init] when it lists no AOD qubit. *)
Theorem ValueError_changes_nothing (d d' : dpqa) :
  (forall a, Move a d = (Raise ValueError, d') ->
             Move_verify a d = Raise ValueError /\ d' = d) /\
  (forall a, Activate a d = (Raise ValueError, d') ->
             Activate_verify a d = Raise ValueError /\ d' = d) /\
  (forall a, Deactivate a d = (Raise ValueError, d') ->
             Deactivate_verify a d = Raise ValueError /\ d' = d) /\
  (forall a, in_aod_qubit_idx a = [] ->
             Init a d = (Raise ValueError, d') ->
             Init_verify a d = Raise ValueError /\ d' = d).
Proof.
  split; [|split; [|split]].
  - intros a. apply inst_init_ValueError, Move_operate_never.
  - intros a. apply inst_init_ValueError, Activate_operate_never.
  - intros a. apply inst_init_ValueError, Deactivate_operate_never.
  - intros a Hnone H. unfold Init, inst_init in H.
    destruct (Init_verify a d) as [[]|e|] eqn:Hv.
    + exfalso. refine (Init_operate_never a _ Hnone d _); [|rewrite H; reflexivity].
      unfold Init_verify in Hv.
      destruct (negb (length (in_slm_qubit_idx a) =? length (in_slm_qubit_xys a)));
        [discriminate|].
      destruct (forallb (fun p : list Z => length p =? 2) (in_slm_qubit_xys a));
        [reflexivity|discriminate].
    + inversion H; subst. split; reflexivity.
    + discriminate.
Qed.

(** Column 0 is not active, so it cannot be moved. *)
Lemma ValueError_changes_nothing_witness :
  exists d',
    Move (mk_move_args [0%Z] [0%Z] [3%Z] [] [] []) (fresh_dpqa 2 2 1)
    = (Raise ValueError, d') /\
    Move_verify (mk_move_args [0%Z] [0%Z] [3%Z] [] [] []) (fresh_dpqa 2 2 1)
    = Raise ValueError /\
    d' = fresh_dpqa 2 2 1.
Proof.
  eexists. split; [vm_compute; reflexivity|].
  apply (proj1 (ValueError_changes_nothing (fresh_dpqa 2 2 1) _)
           (mk_move_args [0%Z] [0%Z] [3%Z] [] [] [])).
  vm_compute. reflexivity.
Defined.

(** With an AOD qubit listed, [Init] can raise [ValueError] from [operate]:
    the entry [[1]] of [aod_qubit_crs] is unpacked after the qubit has been
    marked as an AOD qubit. *)
Lemma Init_ValueError_after_write :
  Init (mk_init_args [] [] [0%Z] [[1%Z]] [] [] [] []) (fresh_dpqa 1 1 1)
  = (Raise ValueError,
     mk_dpqa [new_Col 0] [new_Row 0] [set_qb_array AOD (new_Qubit 0)]).
Proof. vm_compute. reflexivity. Qed.

(** *** After a Move the AOD qubits sit on the lattice *)

Lemma seq_stmt_ok {S : Type} (a b : stmt S) (s s' : S) :
  seq_stmt a b s = (Ok (), s') ->
  exists s1, a s = (Ok (), s1) /\ b s1 = (Ok (), s').
Proof.
  unfold seq_stmt. destruct (a s) as [r1 s1]. destruct r1 as [[]| |]; intros H.
  - exists s1. split; [reflexivity|exact H].
  - discriminate.
  - discriminate.
Qed.

Lemma for_each_seq_ok {T : Type} (P : nat -> T -> Prop) (body : nat -> stmt T)
    (a n : nat) (s s' : T) :
  (forall k s s', a <= k < a + n -> P k s -> body k s = (Ok (), s') -> P (S k) s') ->
  P a s -> for_each body (seq a n) s = (Ok (), s') -> P (a + n) s'.
Proof.
  revert a s. induction n as [|n IH]; intros a s Hstep Ha H.
  - inversion H; subst. rewrite Nat.add_0_r. exact Ha.
  - cbn [seq for_each] in H. destruct (body a s) as [r1 s1] eqn:E.
    destruct r1 as [[]| |]; [|discriminate..].
    replace (a + S n) with (S a + n) by lia.
    apply (IH (S a) s1); [|apply (Hstep a s s1); [lia|exact Ha|exact E]|exact H].
    intros k t t' Hk. apply Hstep. lia.
Qed.

(** A qubit follows the lattice when it has the [x] of its column [c] and
    the [y] of its row [r] (both read with Python indexing). *)
Definition follows (d : dpqa) (q : Qubit) : Prop :=
  exists c r,
    py_get (col_objs d) (qb_c q) = Ok c /\ py_get (row_objs d) (qb_r q) = Ok r /\
    qb_x q = col_x c /\ qb_y q = row_y r.

Lemma follow_lattice_follows (d d' : dpqa) :
  follow_lattice d = (Ok (), d') ->
  forall k q, qubit_objs d' !! k = Some q -> qb_array q = AOD -> follows d' q.
Proof.
  intros H. unfold follow_lattice in H.
  set (P := fun (n : nat) (s : dpqa) =>
              col_objs s = col_objs d /\ row_objs s = row_objs d /\
              length (qubit_objs s) = length (qubit_objs d) /\
              forall j q, j < n -> qubit_objs s !! j = Some q -> qb_array q = AOD ->
                          follows s q).
  assert (HP : P (0 + length (qubit_objs d)) d').
  { revert H. apply (for_each_seq_ok P).
    - intros k s s' _ (Hc & Hr & Hlen & Hdone) Hbody.
      destruct (qubit_objs s !! k) as [q|] eqn:Hq.
      + destruct (decide (qb_array q = AOD)) as [Haod|Hslm].
        * destruct (py_get (col_objs s) (qb_c q)) as [c| |] eqn:Hcq; [|discriminate..].
          destruct (py_get (row_objs s) (qb_r q)) as [w| |] eqn:Hrq; [|discriminate..].
          inversion Hbody; subst s'; clear Hbody. unfold P; cbn [col_objs row_objs qubit_objs].
          split; [exact Hc|]. split; [exact Hr|].
          split; [rewrite length_alter; exact Hlen|].
          intros j q' Hj Hq' Haod'. destruct (decide (k = j)) as [<-|Hne].
          -- rewrite list_lookup_alter_eq, Hq in Hq'. inversion Hq'; subst q'.
             exists c, w. cbn. repeat split; assumption.
          -- rewrite list_lookup_alter_ne in Hq' by exact Hne.
             destruct (Hdone j q' ltac:(lia) Hq' Haod') as (c' & w' & H1 & H2 & H3 & H4).
             exists c', w'. cbn. repeat split; assumption.
        * inversion Hbody; subst s'. split; [exact Hc|]. split; [exact Hr|].
          split; [exact Hlen|]. intros j q' Hj Hq' Haod'.
          destruct (decide (k = j)) as [<-|Hne].
          -- rewrite Hq in Hq'. inversion Hq'; subst q'. contradiction.
          -- apply (Hdone j q'); [lia|exact Hq'|exact Haod'].
      + inversion Hbody; subst s'. split; [exact Hc|]. split; [exact Hr|].
        split; [exact Hlen|]. intros j q' Hj Hq' Haod'.
        destruct (decide (k = j)) as [<-|Hne].
        -- rewrite Hq in Hq'. discriminate.
        -- apply (Hdone j q'); [lia|exact Hq'|exact Haod'].
    - unfold P. repeat split. intros j q Hj. lia. }
  destruct HP as (_ & _ & Hlen & Hall). intros k q Hk Haod.
  apply (Hall k q); [|exact Hk|exact Haod].
  apply lookup_lt_Some in Hk. lia.
Qed.

(** X5: after a [Move] that ends without an exception, every qubit held in
    the AOD is at the [x] of its column and the [y] of its row. *)
Theorem Move_qubits_follow_lattice (a : move_args) (d d' : dpqa) :
  Move a d = (Ok (), d') ->
  forall k q, qubit_objs d' !! k = Some q -> qb_array q = AOD -> follows d' q.
Proof.
  intros H. unfold Move, inst_init in H.
  destruct (Move_verify a d) as [[]| |]; [|discriminate..].
  unfold Move_operate in H.
  apply seq_stmt_ok in H. destruct H as (s1 & _ & H).
  apply seq_stmt_ok in H. destruct H as (s2 & _ & H).
  exact (follow_lattice_follows s2 d' H).
Qed.

(** One qubit, picked up by column 1 and row 1 where it lies, then moved. *)
Definition example_pickup : switch_args :=
  mk_switch_args [1]%Z [-5]%Z [1]%Z [-9]%Z [0]%Z.

Definition example_carry : move_args :=
  mk_move_args [1]%Z [-5]%Z [3]%Z [1]%Z [-9]%Z [2]%Z.

Lemma Move_qubits_follow_lattice_witness :
  exists q,
    qubit_objs (snd (Move example_carry (snd (Activate example_pickup (fresh_dpqa 2 2 1)))))
      !! 0 = Some q /\
    (qb_x q, qb_y q) = (3, 2)%Z /\
    follows (snd (Move example_carry (snd (Activate example_pickup (fresh_dpqa 2 2 1))))) q.
Proof.
  eexists. split; [vm_compute; reflexivity|]. split; [reflexivity|].
  apply (Move_qubits_follow_lattice example_carry
           (snd (Activate example_pickup (fresh_dpqa 2 2 1))) _) with (k := 0).
  - vm_compute. reflexivity.
  - vm_compute. reflexivity.
  - reflexivity.
Defined.

(** *** Init with SLM qubits only, as [CodeGen.builder_init] calls it *)

Lemma Init_slm_loop (xys : list (list Z)) (idx : list Z) (o : nat) (qs qs' : list Qubit) :
  Forall (fun q_id => (0 <= q_id)%Z) idx -> NoDup idx ->
  for_each (fun (m : nat * Z) =>
              seq_stmt (py_update (set_qb_array SLM) (snd m))
                       (fun qs => match xys !! fst m with
                                  | None => (Raise IndexError, qs)
                                  | Some xy =>
                                      match unpack2 xy with
                                      | Ok (x, y) => py_update (set_qb_xy x y) (snd m) qs
                                      | Raise e => (Raise e, qs)
                                      | OutOfFuel => (OutOfFuel, qs)
                                      end
                                  end))
           (zip (seq o (length idx)) idx) qs = (Ok (), qs') ->
  length qs' = length qs /\
  (forall k, Z.of_nat k ∉ idx -> qs' !! k = qs !! k) /\
  (forall i k, idx !! i = Some (Z.of_nat k) ->
     exists x y q, xys !! (o + i) = Some [x; y] /\ qs' !! k = Some q /\
                   qb_array q = SLM /\ qb_x q = x /\ qb_y q = y).
Proof.
  revert o qs. induction idx as [|q_id idx IH]; intros o qs Hnn Hnd H.
  - inversion H; subst. split; [reflexivity|]. split; [reflexivity|].
    intros i k Hi. discriminate.
  - cbn [length seq zip zip_with for_each] in H. cbn [fst snd] in H.
    apply Forall_cons in Hnn. destruct Hnn as [Hq Hnn].
    apply NoDup_cons in Hnd. destruct Hnd as [Hnotin Hnd].
    destruct (seq_stmt _ _ qs) as [r1 qs1] eqn:E. destruct r1 as [[]| |]; [|discriminate..].
    apply seq_stmt_ok in E. destruct E as (qs0 & E0 & E1).
    unfold py_update in E0. destruct (py_norm (length qs) q_id) as [k0|] eqn:Hk0;
      [|discriminate].
    inversion E0; subst qs0; clear E0.
    pose proof (py_norm_nonneg_inv _ _ _ Hk0 Hq) as Hqk. subst q_id.
    destruct (xys !! o) as [xy|] eqn:Hxy; [|discriminate].
    destruct xy as [|x [|y [|z xy]]]; cbn [unpack2] in E1; try discriminate.
    unfold py_update in E1. rewrite length_alter, Hk0 in E1.
    inversion E1; subst qs1; clear E1.
    destruct (IH (S o) _ Hnn Hnd H) as (Hlen & Hframe & Hplaced).
    pose proof (py_norm_lt _ _ _ Hk0) as Hlt.
    split; [rewrite Hlen, !length_alter; reflexivity|]. split.
    + intros k Hk. rewrite Hframe by (intros Hin; apply Hk; right; exact Hin).
      assert (k0 <> k) by (intros ->; apply Hk; left).
      rewrite !list_lookup_alter_ne by assumption. reflexivity.
    + intros i k Hi. destruct i as [|i].
      * cbn in Hi. inversion Hi as [Hk]. apply Nat2Z.inj in Hk. subst k0.
        rewrite Nat.add_0_r. rewrite (Hframe k Hnotin).
        rewrite !list_lookup_alter_eq.
        destruct (lookup_lt_is_Some_2 qs k Hlt) as [q0 Hq0]. rewrite Hq0.
        exists x, y, (set_qb_xy x y (set_qb_array SLM q0)).
        split; [exact Hxy|]. repeat split.
      * cbn in Hi. destruct (Hplaced i k Hi) as (x' & y' & q & H1 & H2 & H3).
        exists x', y', q. split; [|split; assumption].
        rewrite <- H1. f_equal. lia.
Qed.

(** X6: an [Init] that places SLM qubits only (the payload of
    [CodeGen.builder_init]), with distinct non-negative qubit ids, leaves the
    columns and rows alone, puts every listed qubit in the SLM at its
    coordinates, and does not touch the other qubits. *)
Theorem Init_places_slm_qubits (a : init_args) (d d' : dpqa) :
  in_aod_qubit_idx a = [] -> in_aod_col_act_idx a = [] ->
  Forall (fun q_id => (0 <= q_id)%Z) (in_slm_qubit_idx a) ->
  NoDup (in_slm_qubit_idx a) ->
  Init a d = (Ok (), d') ->
  col_objs d' = col_objs d /\ row_objs d' = row_objs d /\
  length (qubit_objs d') = length (qubit_objs d) /\
  (forall k, Z.of_nat k ∉ in_slm_qubit_idx a -> qubit_objs d' !! k = qubit_objs d !! k) /\
  (forall i k, in_slm_qubit_idx a !! i = Some (Z.of_nat k) ->
     exists x y q, in_slm_qubit_xys a !! i = Some [x; y] /\
                   qubit_objs d' !! k = Some q /\
                   qb_array q = SLM /\ qb_x q = x /\ qb_y q = y).
Proof.
  intros Haod Hcol Hnn Hnd H. unfold Init, inst_init in H.
  destruct (Init_verify a d) as [[]| |]; [|discriminate..].
  unfold Init_operate in H. rewrite Haod, Hcol in H.
  apply seq_stmt_ok in H. destruct H as (s1 & H1 & H2).
  cbn in H2. inversion H2; subst d'; clear H2.
  unfold on_qubits in H1.
  destruct (for_each _ _ (qubit_objs d)) as [r1 qs'] eqn:E.
  inversion H1; subst r1 s1; clear H1. cbn [col_objs row_objs qubit_objs].
  unfold enumerate in E.
  destruct (Init_slm_loop _ _ 0 _ _ Hnn Hnd E) as (Hlen & Hframe & Hplaced).
  split; [reflexivity|]. split; [reflexivity|]. split; [exact Hlen|].
  split; [exact Hframe|exact Hplaced].
Qed.

Definition example_init : init_args :=
  mk_init_args [0; 1]%Z [[0; 0]; [19; 0]]%Z [] [] [] [] [] [].

Lemma Init_places_slm_qubits_witness :
  exists x y q,
    in_slm_qubit_xys example_init !! 1 = Some [x; y] /\
    qubit_objs (snd (Init example_init (fresh_dpqa 2 2 2))) !! 1 = Some q /\
    qb_array q = SLM /\ qb_x q = x /\ qb_y q = y.
Proof.
  apply (Init_places_slm_qubits example_init (fresh_dpqa 2 2 2)
           (snd (Init example_init (fresh_dpqa 2 2 2)))
           eq_refl eq_refl).
  - repeat constructor; vm_compute; discriminate.
  - apply (bool_decide_unpack _). vm_compute. reflexivity.
  - vm_compute. reflexivity.
  - reflexivity.
Defined.

(** ** The Rydberg instructions of a built program *)

Section BuilderFacts.

Variables init_code motion_code : Type.
Variable builder_init : compiled -> res init_code.
Variable builder_motion : compiled -> nat -> res (list motion_code).

Lemma rydberg_gates_app (p1 p2 : list (code init_code motion_code)) :
  rydberg_gates (p1 ++ p2) = rydberg_gates p1 ++ rydberg_gates p2.
Proof. apply omap_app. Qed.

Lemma rydberg_gates_motion (motion : list motion_code) :
  rydberg_gates (map (@Motion_code init_code motion_code) motion) = [].
Proof. induction motion as [|m motion IH]; [reflexivity|exact IH]. Qed.

Lemma builder_stages (data : compiled) (l0 : layer) (done todo : list layer)
    (program program' : list (code init_code motion_code)) :
  c_layers data = l0 :: done ++ todo ->
  foldM (fun program s =>
           motion ← builder_motion data s;
           l ← get (c_layers data) s;
           if 0 <? length (l_gates l) then
             r ← builder_rydberg init_code motion_code data s;
             Ok (program ++ map Motion_code motion ++ [r])
           else Ok (program ++ map Motion_code motion))
        (seq (S (length done)) (length todo)) program = Ok program' ->
  exists body,
    program' = program ++ body /\
    rydberg_gates body = filter Router.nonempty (map l_gates todo).
Proof.
  intros Hlayers. revert done program Hlayers.
  induction todo as [|l todo IH]; intros done program Hlayers H.
  - inversion H; subst. exists []. rewrite app_nil_r. split; reflexivity.
  - cbn [length seq foldM] in H. bind_ok H.
    assert (Hl : c_layers data !! S (length done) = Some l).
    { rewrite Hlayers. exact (list_lookup_middle done todo l _ eq_refl). }
    bind_ok E. bind_ok E. apply get_ok in E1. rewrite Hl in E1. inversion E1; subst a1.
    specialize (IH (done ++ [l]) a).
    rewrite length_app, Nat.add_1_r, <- app_assoc in IH.
    destruct (IH Hlayers H) as (body & -> & Hbody).
    destruct (Nat.ltb_spec 0 (length (l_gates l))) as [Hpos|Hzero].
    + bind_ok E. inversion E; subst a; clear E.
      unfold builder_rydberg, get in E2. rewrite Hl in E2.
      inversion E2; subst a1.
      exists ((map Motion_code a0 ++ [Rydberg_code (S (length done)) (l_gates l)]) ++ body).
      split; [rewrite <- !app_assoc; reflexivity|].
      rewrite !rydberg_gates_app, rydberg_gates_motion, Hbody. cbn [map].
      rewrite filter_cons_True by exact Hpos. reflexivity.
    + inversion E; subst a; clear E.
      exists (map Motion_code a0 ++ body).
      split; [rewrite <- !app_assoc; reflexivity|].
      rewrite rydberg_gates_app, rydberg_gates_motion, Hbody. cbn [map].
      rewrite filter_cons_False; [reflexivity|]. unfold Router.nonempty. lia.
Qed.

(** A built program is [Init], [Rydberg_0] with the gates of sub-layer 0,
    and then, between motion instructions, one [Rydberg] instruction for
    each later sub-layer with gates. *)
Lemma builder_rydberg_gates (data : compiled) (program : list (code init_code motion_code)) :
  builder init_code motion_code builder_init builder_motion data = Ok program ->
  exists init l0 rest body,
    c_layers data = l0 :: rest /\
    program = Init_code init :: Rydberg_code 0 (l_gates l0) :: body /\
    rydberg_gates body = filter Router.nonempty (map l_gates rest).
Proof.
  unfold builder. intros H. bind_ok H. bind_ok H. bind_ok H.
  inversion H; subst program; clear H.
  unfold builder_rydberg in E0. bind_ok E0. inversion E0; subst a0; clear E0.
  apply get_ok in E2.
  destruct (c_layers data) as [|l0 rest] eqn:Hlayers; [discriminate|].
  cbn in E2. inversion E2; subst a2; clear E2.
  cbn [length] in E1. rewrite Nat.sub_succ, Nat.sub_0_r in E1.
  rewrite <- Hlayers in E1.
  destruct (builder_stages data l0 [] rest _ _ Hlayers E1) as (body & -> & Hbody).
  exists a, l0, rest, body. split; [reflexivity|]. split; [reflexivity|exact Hbody].
Qed.

End BuilderFacts.

End Codegen.

(** * The per-layer driver: [enola/router/router.py] *)

Module Driver.

Import Router Codegen.

Section RouteQubit.

Variable kamis_solve : nat -> list (nat * nat) -> nat -> res (list nat).
Variable maximalis_solve : nat -> list (nat * nat) -> res (list nat).
Variable list_of_set : list nat -> list nat.
Variable place_qubit_partial :
  nat * nat -> nat -> list (list gate) -> mapping -> list nat -> bool -> res mapping.
Variables init_code motion_code : Type.
Variable builder_init : compiled -> res init_code.
Variable builder_motion : compiled -> nat -> res (list motion_code).

(** The body of the loop [for index_list_gate in range(len(list_full_gates))]:
    its variables are [program_list] and [final_mapping]. *)
Definition route_qubit_step (fuel n_x n_y n_q : nat) (list_full_gates : list (list gate))
    (routing_strategy : strategy) (reverse_to_initial l2 use_window : bool)
    (acc : list (code init_code motion_code) * mapping) (index_list_gate : nat)
  : res (list (code init_code motion_code) * mapping) :=
  r ← route_qubit_mis kamis_solve maximalis_solve list_of_set place_qubit_partial
         fuel (n_x, n_y) n_q index_list_gate list_full_gates (snd acc)
         routing_strategy reverse_to_initial l2 use_window;
  let data := mk_compiled n_q n_x n_y n_x n_y (fst r) in
  tmp ← builder init_code motion_code builder_init builder_motion data;
  Ok (fst acc ++ (if index_list_gate =? 0 then tmp else drop 2 tmp), snd r).

Definition route_qubit (fuel n_x n_y n_q : nat) (list_full_gates : list (list gate))
    (qubit_mapping : mapping) (routing_strategy : strategy)
    (reverse_to_initial l2 use_window : bool)
  : res (list (code init_code motion_code)) :=
  fst <$> foldM (route_qubit_step fuel n_x n_y n_q list_full_gates routing_strategy
                   reverse_to_initial l2 use_window)
                (seq 0 (length list_full_gates))
                ([], qubit_mapping).

(** ** Reversing to the initial mapping *)

Lemma route_qubit_step_r2i (fuel n_x n_y n_q : nat) (list_full_gates : list (list gate))
    (routing_strategy : strategy) (l2 use_window : bool)
    (acc acc' : list (code init_code motion_code) * mapping) (index_list_gate : nat) :
  route_qubit_step fuel n_x n_y n_q list_full_gates routing_strategy true l2 use_window
    acc index_list_gate = Ok acc' ->
  snd acc' = snd acc.
Proof.
  unfold route_qubit_step. intros H. bind_ok H. bind_ok H. inversion H; subst acc'.
  destruct a as [layers final_mapping]. cbn [snd].
  exact (proj1 (route_qubit_mis_r2i kamis_solve maximalis_solve list_of_set
                  place_qubit_partial fuel (n_x, n_y) n_q index_list_gate list_full_gates
                  (snd acc) routing_strategy l2 use_window) _ _ E).
Qed.

(** C5: with [reverse_to_initial], [route_qubit_mis] returns the mapping it
    was given, so in [route_qubit] every layer starts from the mapping the
    first one started from; with the default strategy and one unit of fuel
    for each gate of the layer the loops of [route_qubit_mis] run to their
    end. *)
Theorem reverse_to_initial_preserves_mapping (fuel n_x n_y n_q : nat)
    (list_full_gates : list (list gate)) (qubit_mapping : mapping)
    (routing_strategy : strategy) (l2 use_window : bool) :
  (forall index_list_gate layers final_mapping,
      route_qubit_mis kamis_solve maximalis_solve list_of_set place_qubit_partial
        fuel (n_x, n_y) n_q index_list_gate list_full_gates qubit_mapping
        routing_strategy true l2 use_window = Ok (layers, final_mapping) ->
      final_mapping = qubit_mapping) /\
  (forall k acc,
      foldM (route_qubit_step fuel n_x n_y n_q list_full_gates routing_strategy
               true l2 use_window) (seq 0 k) ([], qubit_mapping) = Ok acc ->
      snd acc = qubit_mapping) /\
  (forall index_list_gate layer_gates,
      list_full_gates !! index_list_gate = Some layer_gates ->
      length layer_gates <= fuel ->
      returns (route_qubit_mis kamis_solve maximalis_solve list_of_set place_qubit_partial
                 fuel (n_x, n_y) n_q index_list_gate list_full_gates qubit_mapping
                 MaximalisSorted true l2 use_window)).
Proof.
  split; [|split].
  - intros index_list_gate layers final_mapping H.
    exact (proj1 (route_qubit_mis_r2i kamis_solve maximalis_solve list_of_set
                    place_qubit_partial fuel (n_x, n_y) n_q index_list_gate
                    list_full_gates qubit_mapping routing_strategy l2 use_window) _ _ H).
  - intros k acc H.
    apply (foldM_inv (fun a : list (code init_code motion_code) * mapping =>
                        snd a = qubit_mapping) _ _ _ _) in H; [exact H| |reflexivity].
    intros s x s' Hs Hstep. apply route_qubit_step_r2i in Hstep. congruence.
  - intros index_list_gate layer_gates Hl Hfuel.
    exact (proj2 (route_qubit_mis_r2i kamis_solve maximalis_solve list_of_set
                    place_qubit_partial fuel (n_x, n_y) n_q index_list_gate
                    list_full_gates qubit_mapping MaximalisSorted l2 use_window)
             layer_gates Hl Hfuel).
Qed.

(** ** Every gate is fired once *)

Hypothesis kamis_sound :
  forall n edges batch sel,
    kamis_solve n edges batch = Ok sel -> independent_set n edges sel.
Hypothesis maximalis_sound :
  forall n edges sel, maximalis_solve n edges = Ok sel -> independent_set n edges sel.
Hypothesis placer_injective :
  forall chip_dim n_q next_gates m targets l2 m',
    place_qubit_partial chip_dim n_q next_gates m targets l2 = Ok m' ->
    NoDup m -> NoDup m'.

Lemma foldM_seq_inv {T : Type} (P : nat -> T -> Prop) (f : T -> nat -> res T)
    (a n : nat) (s s' : T) :
  (forall k s s', a <= k < a + n -> P k s -> f s k = Ok s' -> P (S k) s') ->
  P a s -> foldM f (seq a n) s = Ok s' -> P (a + n) s'.
Proof.
  revert a s. induction n as [|n IH]; intros a s Hstep Ha H.
  - inversion H; subst. rewrite Nat.add_0_r. exact Ha.
  - cbn [seq foldM] in H. bind_ok H.
    replace (a + S n) with (S a + n) by lia.
    apply (IH (S a) a0); [|eapply Hstep; eauto; lia|exact H].
    intros k s1 s2 Hk. apply Hstep. lia.
Qed.

Lemma route_qubit_step_gates (fuel n_x n_y n_q : nat) (list_full_gates : list (list gate))
    (routing_strategy : strategy) (reverse_to_initial l2 use_window : bool)
    (acc acc' : list (code init_code motion_code) * mapping) (index_list_gate : nat)
    (layer_gates : list gate) :
  list_full_gates !! index_list_gate = Some layer_gates ->
  NoDup (qubits_of layer_gates) -> NoDup (snd acc) ->
  route_qubit_step fuel n_x n_y n_q list_full_gates routing_strategy reverse_to_initial
    l2 use_window acc index_list_gate = Ok acc' ->
  NoDup (snd acc') /\
  exists body gd,
    fst acc' = fst acc ++ body /\
    fired_ok layer_gates gd /\
    filter nonempty (rydberg_gates body) = filter nonempty [gd].
Proof.
  intros Hl Hdisj Hinj H. unfold route_qubit_step in H.
  bind_ok H. bind_ok H. inversion H; subst acc'; clear H.
  destruct a as [layers final_mapping]. cbn [fst snd] in *.
  split.
  - destruct (route_qubit_mis_mapping _ _ _ _ _ _ _ _ _ _ _ _ _ _ _ _ E)
      as [->|(next_gates & targets & Hp)]; [exact Hinj|].
    exact (placer_injective _ _ _ _ _ _ _ Hp Hinj).
  - destruct (route_qubit_mis_gates kamis_solve maximalis_solve list_of_set
                place_qubit_partial kamis_sound maximalis_sound _ _ _ _ _ _ _ _ _ _
                layer_gates _ _ Hl Hdisj Hinj E)
      as (gd & a & b & Hfired & Hprofile & Hzero).
    destruct (builder_rydberg_gates _ _ _ _ _ _ E0)
      as (init & l0 & rest & body & Hlayers & -> & Hbody).
    cbn [c_layers] in Hlayers. subst layers.
    assert (Hhead : l_gates l0 = [] /\
                    filter nonempty (map l_gates rest) = filter nonempty [gd]).
    { destruct a as [|a].
      - cbn in Hprofile. injection Hprofile as Hg Hrest.
        rewrite Hg, Hrest, (Hzero eq_refl). split; [reflexivity|].
        rewrite filter_nonempty_replicate. rewrite filter_cons_False; [reflexivity|].
        unfold nonempty. simpl. lia.
      - cbn in Hprofile. injection Hprofile as Hg Hrest.
        rewrite Hg, Hrest. split; [reflexivity|]. apply (filter_nonempty_profile a b gd). }
    destruct Hhead as [Hl0 Hrest].
    exists (if index_list_gate =? 0
            then Init_code init :: Rydberg_code 0 (l_gates l0) :: body
            else drop 2 (Init_code init :: Rydberg_code 0 (l_gates l0) :: body)), gd.
    split; [reflexivity|]. split; [exact Hfired|].
    destruct (index_list_gate =? 0).
    + cbn [rydberg_gates omap list_omap]. rewrite Hl0.
      rewrite filter_cons_False by (unfold nonempty; simpl; lia).
      fold (rydberg_gates body). rewrite Hbody. rewrite list_filter_filter_l; [exact Hrest|].
      tauto.
    + change (drop 2 (Init_code init :: Rydberg_code 0 (l_gates l0) :: body)) with body.
      rewrite Hbody. rewrite list_filter_filter_l; [exact Hrest|]. tauto.
Qed.

(** C2: in the program returned by [route_qubit], the [Rydberg] instructions
    with gates correspond, in order, to the layers with gates: the
    instruction of a layer lists the gates of the layer, each once and with
    its position in the layer as ["id"]; so the gates fired by the whole
    program are the input gates, each fired once. *)
Theorem every_gate_in_one_rydberg (fuel n_x n_y n_q : nat)
    (list_full_gates : list (list gate)) (qubit_mapping : mapping)
    (routing_strategy : strategy) (reverse_to_initial l2 use_window : bool)
    (program_list : list (code init_code motion_code)) :
  Forall (fun layer_gates => NoDup (qubits_of layer_gates)) list_full_gates ->
  NoDup qubit_mapping ->
  route_qubit fuel n_x n_y n_q list_full_gates qubit_mapping routing_strategy
    reverse_to_initial l2 use_window = Ok program_list ->
  Forall2 fired_ok (filter nonempty list_full_gates)
          (filter nonempty (rydberg_gates program_list)) /\
  Permutation (map pair_of (concat (rydberg_gates program_list)))
              (concat list_full_gates).
Proof.
  intros Hdisj Hinj H. unfold route_qubit in H.
  destruct (foldM _ _ _) as [[program final_mapping]| |] eqn:Hfold; try discriminate.
  cbn in H. inversion H; subst program_list; clear H.
  assert (Hall : Forall2 fired_ok (filter nonempty list_full_gates)
                         (filter nonempty (rydberg_gates program))).
  { apply (foldM_seq_inv
             (fun k (acc : list (code init_code motion_code) * mapping) =>
                NoDup (snd acc) /\
                Forall2 fired_ok (filter nonempty (take k list_full_gates))
                        (filter nonempty (rydberg_gates (fst acc))))) in Hfold.
    - cbn [fst snd] in Hfold. rewrite take_ge in Hfold by (cbn; lia). apply Hfold.
    - intros k acc acc' Hk [Hnd Hsofar] Hstep.
      destruct (lookup_lt_is_Some_2 list_full_gates k) as [layer_gates Hl]; [lia|].
      assert (Hlayer : NoDup (qubits_of layer_gates)).
      { exact (Forall_lookup_1 _ _ _ _ Hdisj Hl). }
      destruct (route_qubit_step_gates _ _ _ _ _ _ _ _ _ _ _ _ _ Hl Hlayer Hnd Hstep)
        as (Hnd' & body & gd & -> & Hfired & Hbody).
      split; [exact Hnd'|].
      rewrite (take_S_r _ _ _ Hl), rydberg_gates_app, !filter_app, Hbody.
      apply Forall2_app; [exact Hsofar|].
      destruct (decide (nonempty layer_gates)) as [Hne|Hne].
      + rewrite filter_cons_True by exact Hne.
        rewrite filter_cons_True by (apply (fired_ok_nonempty _ _ Hfired); exact Hne).
        constructor; [exact Hfired|constructor].
      + rewrite filter_cons_False by exact Hne.
        rewrite filter_cons_False
          by (intros Hgd; apply Hne, (fired_ok_nonempty _ _ Hfired); exact Hgd).
        constructor.
    - cbn. split; [exact Hinj|constructor]. }
  split; [exact Hall|].
  apply fired_ok_concat in Hall. rewrite !concat_filter_nonempty in Hall. exact Hall.
Qed.

(** ** One [Init] instruction *)

Definition is_init {I M : Type} (c : code I M) : bool :=
  match c with
  | Init_code _ => true
  | _ => false
  end.

Lemma builder_shape (data : compiled) (program : list (code init_code motion_code)) :
  builder init_code motion_code builder_init builder_motion data = Ok program ->
  exists init r0 body,
    program = Init_code init :: Rydberg_code 0 r0 :: body /\
    Forall (fun c => is_init c = false) body.
Proof.
  unfold builder. intros H. bind_ok H. bind_ok H. bind_ok H.
  inversion H; subst program; clear H.
  unfold builder_rydberg in E0. bind_ok E0. inversion E0; subst a0; clear E0.
  apply (foldM_inv
           (fun p : list (code init_code motion_code) =>
              exists body, p = Rydberg_code 0 (l_gates a2) :: body /\
                           Forall (fun c => is_init c = false) body)) in E1.
  - destruct E1 as (body & -> & Hbody). exists a, (l_gates a2), body. tauto.
  - intros p s p' (body & -> & Hbody) Hstep.
    bind_ok Hstep. bind_ok Hstep.
    assert (Hmotion : Forall (fun c : code init_code motion_code => is_init c = false)
                             (map Motion_code a0)).
    { apply Forall_forall. intros c Hc. apply list_elem_of_In, in_map_iff in Hc.
      destruct Hc as (mc & <- & _). reflexivity. }
    destruct (0 <? length (l_gates a3)).
    + bind_ok Hstep. inversion Hstep; subst p'; clear Hstep.
      unfold builder_rydberg in E4. bind_ok E4. inversion E4; subst a4; clear E4.
      eexists. split; [reflexivity|].
      apply Forall_app. split; [exact Hbody|].
      apply Forall_app. split; [exact Hmotion|]. repeat constructor.
    + inversion Hstep; subst p'; clear Hstep.
      eexists. split; [reflexivity|].
      apply Forall_app. split; [exact Hbody|exact Hmotion].
  - exists []. split; [reflexivity|constructor].
Qed.

(** X28: the program returned by [route_qubit] is empty when there is no
    layer; otherwise it begins with the [Init] instruction and the [Rydberg]
    instruction of stage 0 built for the first layer, and no other [Init]
    instruction follows: of the program built for a later layer the first two
    instructions are left out. *)
Theorem route_qubit_one_Init (fuel n_x n_y n_q : nat)
    (list_full_gates : list (list gate)) (qubit_mapping : mapping)
    (routing_strategy : strategy) (reverse_to_initial l2 use_window : bool)
    (program_list : list (code init_code motion_code)) :
  route_qubit fuel n_x n_y n_q list_full_gates qubit_mapping routing_strategy
    reverse_to_initial l2 use_window = Ok program_list ->
  (list_full_gates = [] -> program_list = []) /\
  (list_full_gates <> [] ->
   exists init r0 rest,
     program_list = Init_code init :: Rydberg_code 0 r0 :: rest /\
     Forall (fun c => is_init c = false) rest).
Proof.
  intros H. unfold route_qubit in H.
  destruct (foldM _ _ _) as [[program final_mapping]| |] eqn:Hfold; try discriminate.
  cbn in H. inversion H; subst program_list; clear H.
  apply (foldM_seq_inv
           (fun k (acc : list (code init_code motion_code) * mapping) =>
              (k = 0 -> fst acc = []) /\
              (0 < k ->
               exists init r0 rest,
                 fst acc = Init_code init :: Rydberg_code 0 r0 :: rest /\
                 Forall (fun c => is_init c = false) rest))) in Hfold.
  - cbn [fst Nat.add] in Hfold. destruct Hfold as [Hzero Hpos]. split.
    + intros ->. apply Hzero. reflexivity.
    + intros Hne. apply Hpos. destruct list_full_gates; [congruence|cbn; lia].
  - intros k acc acc' Hk [Hzero Hpos] Hstep. unfold route_qubit_step in Hstep.
    bind_ok Hstep. bind_ok Hstep. inversion Hstep; subst acc'; clear Hstep.
    destruct (builder_shape _ _ E0) as (init & r0 & body & -> & Hbody).
    cbn [fst]. split; [lia|]. intros _.
    destruct k as [|k].
    + rewrite (Hzero eq_refl). cbn [Nat.eqb app]. exists init, r0, body. tauto.
    + destruct (Hpos ltac:(lia)) as (init' & r0' & rest & -> & Hrest).
      cbn [Nat.eqb drop app]. exists init', r0', (rest ++ body).
      split; [reflexivity|]. apply Forall_app. tauto.
  - cbn [fst]. split; [reflexivity|lia].
Qed.

End RouteQubit.

(** ** A concrete run

    Two layers on four qubits placed on a 2 x 2 block of sites.  The external
    solvers are played by the greedy solver of the repository, the set of AOD
    qubits is listed in insertion order, the partial placer keeps every qubit
    where it is, and the builder emits no motion instruction. *)

Definition example_gates : list (list gate) := [[(0, 1); (2, 3)]; [(0, 2); (1, 3)]].

Definition example_mapping : mapping := [(0, 0); (1, 0); (0, 1); (1, 1)]%Z.

Definition example_kamis (n : nat) (edges : list (nat * nat)) (batch : nat) : res (list nat) :=
  maximalis_solve_sort n edges.

Definition example_placer (chip_dim : nat * nat) (n_q : nat) (next_gates : list (list gate))
    (m : mapping) (targets : list nat) (l2 : bool) : res mapping :=
  Ok m.

Definition example_route_qubit (reverse_to_initial : bool) : res (list (code unit unit)) :=
  route_qubit example_kamis maximalis_solve_sort (fun s => s) example_placer
    unit unit (fun _ => Ok tt) (fun _ _ => Ok [])
    4 3 3 4 example_gates example_mapping MaximalisSorted reverse_to_initial false false.

Lemma example_kamis_sound (n : nat) (edges : list (nat * nat)) (batch : nat)
    (sel : list nat) :
  example_kamis n edges batch = Ok sel -> independent_set n edges sel.
Proof. apply maximalis_solve_sort_sound. Qed.

Lemma example_placer_injective (chip_dim : nat * nat) (n_q : nat)
    (next_gates : list (list gate)) (m : mapping) (targets : list nat) (l2 : bool)
    (m' : mapping) :
  example_placer chip_dim n_q next_gates m targets l2 = Ok m' -> NoDup m -> NoDup m'.
Proof. intros H Hm. inversion H; subst. exact Hm. Qed.

Lemma reverse_to_initial_witness :
  exists acc,
    foldM (route_qubit_step example_kamis maximalis_solve_sort (fun s => s) example_placer
             unit unit (fun _ => Ok tt) (fun _ _ => Ok [])
             4 3 3 4 example_gates MaximalisSorted true false false)
          (seq 0 2) ([], example_mapping) = Ok acc /\
    snd acc = example_mapping.
Proof.
  eexists. split; [vm_compute; reflexivity|].
  apply (proj1 (proj2 (reverse_to_initial_preserves_mapping
                         example_kamis maximalis_solve_sort (fun s => s) example_placer
                         unit unit (fun _ => Ok tt) (fun _ _ => Ok [])
                         4 3 3 4 example_gates example_mapping MaximalisSorted
                         false false)) 2).
  vm_compute. reflexivity.
Defined.

Lemma every_gate_witness :
  exists program_list,
    example_route_qubit false = Ok program_list /\
    Forall2 fired_ok (filter nonempty example_gates)
            (filter nonempty (rydberg_gates program_list)) /\
    Permutation (map pair_of (concat (rydberg_gates program_list)))
                (concat example_gates).
Proof.
  eexists. split; [vm_compute; reflexivity|].
  apply (every_gate_in_one_rydberg
           example_kamis maximalis_solve_sort (fun s => s) example_placer
           unit unit (fun _ => Ok tt) (fun _ _ => Ok [])
           example_kamis_sound maximalis_solve_sort_sound example_placer_injective
           4 3 3 4 example_gates example_mapping MaximalisSorted false false false).
  - repeat constructor; apply (bool_decide_unpack _); vm_compute; reflexivity.
  - apply (bool_decide_unpack _). vm_compute. reflexivity.
  - vm_compute. reflexivity.
Defined.

Lemma route_qubit_one_Init_witness :
  exists program_list,
    example_route_qubit false = Ok program_list /\
    example_gates <> [] /\
    exists init r0 rest,
      program_list = Init_code init :: Rydberg_code 0 r0 :: rest /\
      Forall (fun c => is_init c = false) rest.
Proof.
  eexists. split; [vm_compute; reflexivity|]. split; [discriminate|].
  apply (proj2 (route_qubit_one_Init
                  example_kamis maximalis_solve_sort (fun s => s) example_placer
                  unit unit (fun _ => Ok tt) (fun _ _ => Ok [])
                  4 3 3 4 example_gates example_mapping MaximalisSorted false false false
                  _ ltac:(vm_compute; reflexivity))).
  discriminate.
Defined.

End Driver.

(** * The driver class: [enola/enola.py] *)

Module Enola.

(** [setProgram]: [g_q] holds each pair sorted; without [nqubit] (or with
    [nqubit = 0], which [not nqubit] treats alike) the number of qubits is one
    more than the largest index seen, starting from the current [self.n_q]. *)
Definition setProgram (n_q : nat) (program : list gate) (nqubit : option nat)
  : list gate * nat :=
  let g_q := map (fun pair => (Nat.min (fst pair) (snd pair),
                               Nat.max (fst pair) (snd pair))) program in
  let counted :=
    foldl (fun n gate => Nat.max (snd gate) (Nat.max (fst gate) n)) n_q program + 1 in
  (g_q, match nqubit with
        | None | Some 0 => counted
        | Some n => n
        end).

(** One iteration of the loop of [asap]; the state is [list_scheduling] and
    [list_qubit_time]. *)
Definition asap_step (st : list (list nat) * list nat) (ig : nat * gate)
  : res (list (list nat) * list nat) :=
  let '(list_scheduling, list_qubit_time) := st in
  let '(i, gate) := ig in
  tq0 ← get list_qubit_time (fst gate);
  tq1 ← get list_qubit_time (snd gate);
  let tg := Nat.max tq0 tq1 in
  let list_scheduling :=
    if length list_scheduling <=? tg then list_scheduling ++ [[]] else list_scheduling in
  slot ← get list_scheduling tg;
  let list_scheduling := <[tg := slot ++ [i]]> list_scheduling in
  let tg := tg + 1 in
  Ok (list_scheduling, <[snd gate := tg]> (<[fst gate := tg]> list_qubit_time)).

(** [enumerate(l)]. *)
Definition enumerate {A : Type} (l : list A) : list (nat * A) :=
  zip (seq 0 (length l)) l.

Definition asap (n_q : nat) (g_q : list gate) : res (list (list nat)) :=
  fst <$> foldM asap_step (enumerate g_q) ([], replicate n_q 0).

(** The trivial layout of [solve]: the sites are handed out row by row, a row
    ending when [x % length == 0]. *)
Definition trivial_layout_step (n_x : nat) (st : mapping * nat * nat) (i : nat)
  : res (mapping * nat * nat) :=
  let '(qubit_mapping, x, y) := st in
  let qubit_mapping := qubit_mapping ++ [(Z.of_nat x, Z.of_nat y)] in
  let x := x + 1 in
  if n_x =? 0 then Raise ZeroDivisionError
  else if x mod n_x =? 0 then Ok (qubit_mapping, 0, y + 1)
  else Ok (qubit_mapping, x, y).

Definition trivial_layout (n_x n_q : nat) : res mapping :=
  (fun st => fst (fst st)) <$> foldM (trivial_layout_step n_x) (seq 0 n_q) ([], 0, 0).

(** ** The as-soon-as-possible schedule *)

(** Gate [i] is in stage [t]; gate [i] acts on qubit [q]; two gates share a
    qubit. *)
Definition in_stage (ls : list (list nat)) (t i : nat) : Prop :=
  exists l, ls !! t = Some l /\ In i l.

Definition uses (g_q : list gate) (i q : nat) : Prop :=
  exists e, g_q !! i = Some e /\ (fst e = q \/ snd e = q).

Definition shares (g_q : list gate) (i j : nat) : Prop :=
  exists e1 e2, g_q !! i = Some e1 /\ g_q !! j = Some e2 /\ Scheduler.shares_vertex e1 e2.

Lemma shares_uses (g_q : list gate) (i j : nat) :
  shares g_q i j <-> exists q, uses g_q i q /\ uses g_q j q.
Proof.
  unfold shares, uses, Scheduler.shares_vertex. split.
  - intros (e1 & e2 & H1 & H2 & [H|[H|[H|H]]]).
    + exists (fst e1). split; [exists e1|exists e2]; auto.
    + exists (fst e1). split; [exists e1|exists e2]; auto.
    + exists (snd e1). split; [exists e1|exists e2]; auto.
    + exists (snd e1). split; [exists e1|exists e2]; auto.
  - intros (q & (e1 & H1 & Hq1) & (e2 & H2 & Hq2)). exists e1, e2.
    split; [exact H1|]. split; [exact H2|].
    destruct Hq1 as [<-|<-], Hq2 as [Hq|Hq]; auto.
Qed.

(** Putting gate [k] into slot [tg], after opening the slot when it is the
    next one. *)
Lemma asap_slot (ls : list (list nat)) (tg k : nat) :
  tg <= length ls ->
  exists slot,
    get (if length ls <=? tg then ls ++ [[]] else ls) tg = Ok slot /\
    let ls' := <[tg := slot ++ [k]]> (if length ls <=? tg then ls ++ [[]] else ls) in
    length ls' = Nat.max (length ls) (tg + 1) /\
    Permutation (concat ls') (concat ls ++ [k]) /\
    forall t i, in_stage ls' t i <-> in_stage ls t i \/ (t = tg /\ i = k).
Proof.
  intros Hle. destruct (Nat.leb_spec (length ls) tg) as [Hge|Hlt].
  - assert (tg = length ls) by lia. subst tg. exists [].
    assert (Hlk : (ls ++ [[]]) !! length ls = Some (@nil nat)).
    { rewrite lookup_app_r by lia. rewrite Nat.sub_diag. reflexivity. }
    split; [unfold get; rewrite Hlk; reflexivity|]. cbn zeta.
    assert (Hins : <[length ls := [] ++ [k]]> (ls ++ [[]]) = ls ++ [[k]]).
    { replace (length ls) with (length ls + 0) at 1 by lia.
      rewrite insert_app_r. reflexivity. }
    rewrite Hins. split; [rewrite length_app; cbn; lia|].
    split; [rewrite concat_app; cbn; rewrite ?app_nil_r; reflexivity|].
    intros t i. unfold in_stage. split.
    + intros (l & Hl & Hi). destruct (decide (t < length ls)) as [Ht|Ht].
      * rewrite lookup_app_l in Hl by exact Ht. left. eauto.
      * rewrite lookup_app_r in Hl by lia.
        destruct (t - length ls) as [|d] eqn:Hd; [|destruct d; discriminate].
        inversion Hl; subst l. destruct Hi as [<-|[]]. right. split; [lia|reflexivity].
    + intros [(l & Hl & Hi)|[-> ->]].
      * exists l. split; [|exact Hi]. rewrite lookup_app_l; [exact Hl|].
        eapply lookup_lt_Some; eauto.
      * exists [k]. split; [|left; reflexivity].
        rewrite lookup_app_r by lia. rewrite Nat.sub_diag. reflexivity.
  - destruct (lookup_lt_is_Some_2 ls tg Hlt) as [slot Hslot]. exists slot.
    split; [unfold get; rewrite Hslot; reflexivity|]. cbn zeta.
    split; [rewrite length_insert; lia|].
    split.
    { clear Hle Hlt. revert tg Hslot. induction ls as [|l0 ls IH]; intros [|tg] H;
        try discriminate.
      - inversion H; subst l0. cbn. rewrite <- !app_assoc.
        apply Permutation_app_head, Permutation_app_comm.
      - cbn. rewrite <- app_assoc. apply Permutation_app_head. apply IH. exact H. }
    intros t i. unfold in_stage. split.
    + intros (l & Hl & Hi). destruct (decide (t = tg)) as [->|Hne].
      * rewrite list_lookup_insert_eq in Hl by exact Hlt. inversion Hl; subst l.
        apply in_app_iff in Hi. destruct Hi as [Hi|[<-|[]]]; [left; eauto|right; auto].
      * rewrite list_lookup_insert_ne in Hl by congruence. left. eauto.
    + intros [(l & Hl & Hi)|[-> ->]].
      * destruct (decide (t = tg)) as [->|Hne].
        -- exists (slot ++ [k]). rewrite list_lookup_insert_eq by exact Hlt.
           split; [reflexivity|]. apply in_app_iff. left. congruence.
        -- exists l. rewrite list_lookup_insert_ne by congruence. auto.
      * exists (slot ++ [k]). rewrite list_lookup_insert_eq by exact Hlt.
        split; [reflexivity|]. apply in_app_iff. right. left. reflexivity.
Qed.

Lemma in_stage_concat (ls : list (list nat)) (t i : nat) :
  in_stage ls t i -> In i (concat ls).
Proof.
  intros (l & Hl & Hi). apply in_concat. exists l. split; [|exact Hi].
  apply list_elem_of_In. eapply list_elem_of_lookup_2; eauto.
Qed.

Section Asap.

Variable n_q : nat.
Variable g_q : list gate.

(** The invariant of the loop of [asap] after [k] gates: the stages list
    the first [k] gates, each once; no stage is empty; [list_qubit_time[q]]
    is the first stage after every gate on [q]; gates sharing a qubit are in
    stages ordered like the gates; each gate past stage 0 follows a gate of
    the stage before it. *)
Definition asap_inv (k : nat) (st : list (list nat) * list nat) : Prop :=
  length (snd st) = n_q /\
  Permutation (concat (fst st)) (seq 0 k) /\
  (forall t, t < length (fst st) -> exists i, in_stage (fst st) t i) /\
  (forall q tau, snd st !! q = Some tau ->
     tau <= length (fst st) /\
     (forall t i, in_stage (fst st) t i -> uses g_q i q -> t < tau) /\
     (0 < tau -> exists i, in_stage (fst st) (tau - 1) i /\ uses g_q i q)) /\
  (forall t t' i j,
     in_stage (fst st) t i -> in_stage (fst st) t' j -> i < j -> shares g_q i j -> t < t') /\
  (forall t j, in_stage (fst st) (S t) j ->
     exists i, in_stage (fst st) t i /\ i < j /\ shares g_q i j).

Lemma asap_step_inv (k : nat) (g : gate) (st : list (list nat) * list nat) :
  g_q !! k = Some g -> fst g < n_q -> snd g < n_q -> asap_inv k st ->
  exists st', asap_step st (k, g) = Ok st' /\ asap_inv (S k) st'.
Proof.
  destruct st as [ls lqt]. destruct g as [a b].
  intros Hg Ha Hb (Hlen & Hperm & Hne & Htime & Hord & Hasap). cbn [fst snd] in *.
  destruct (lookup_lt_is_Some_2 lqt a) as [ta Hta]; [lia|].
  destruct (lookup_lt_is_Some_2 lqt b) as [tb Htb]; [lia|].
  destruct (Htime a ta Hta) as (Hla & Hba & Hea).
  destruct (Htime b tb Htb) as (Hlb & Hbb & Heb).
  destruct (asap_slot ls (Nat.max ta tb) k) as (slot & Hslot & Hlen' & Hperm' & Hin');
    [lia|].
  assert (Hbound : forall t i, in_stage ls t i -> i < k).
  { intros t i Hi. apply in_stage_concat in Hi.
    eapply Permutation_in in Hi; [|exact Hperm]. apply in_seq in Hi. lia. }
  assert (Huk : forall q, uses g_q k q <-> q = a \/ q = b).
  { intros q. unfold uses. split.
    - intros (e & He & Hq). rewrite Hg in He. inversion He; subst e. cbn in Hq.
      destruct Hq; auto.
    - intros Hq. exists (a, b). split; [exact Hg|]. cbn. destruct Hq; auto. }
  assert (Hold : forall t i q, in_stage ls t i -> uses g_q i q -> q = a \/ q = b ->
                   t < Nat.max ta tb).
  { intros t i q Hi Hu [->| ->]; [specialize (Hba t i Hi Hu)|specialize (Hbb t i Hi Hu)];
      lia. }
  eexists. split.
  { assert (Hga : get lqt a = Ok ta) by (unfold get; rewrite Hta; reflexivity).
    assert (Hgb : get lqt b = Ok tb) by (unfold get; rewrite Htb; reflexivity).
    unfold asap_step. cbn [fst snd]. rewrite Hga. cbn [mbind res_bind].
    rewrite Hgb. cbn [mbind res_bind]. rewrite Hslot. cbn [mbind res_bind].
    reflexivity. }
  cbn zeta in Hlen', Hperm', Hin'.
  unfold asap_inv. cbn [fst snd].
  split; [rewrite !length_insert; exact Hlen|].
  split; [rewrite Hperm', Hperm, seq_S; reflexivity|].
  split; [|split; [|split]].
  - intros t Ht. rewrite Hlen' in Ht.
    destruct (decide (t = Nat.max ta tb)) as [->|Hne'].
    + exists k. apply Hin'. right. auto.
    + destruct (Hne t) as [i Hi]; [lia|]. exists i. apply Hin'. left. exact Hi.
  - intros q tau Hq. rewrite Hlen'.
    destruct (decide (q = a \/ q = b)) as [Hab|Hab].
    + assert (tau = Nat.max ta tb + 1).
      { destruct (decide (q = b)) as [->|Hnb].
        - rewrite list_lookup_insert_eq in Hq by (rewrite length_insert; lia). congruence.
        - rewrite list_lookup_insert_ne in Hq by congruence.
          destruct Hab as [->|]; [|contradiction].
          rewrite list_lookup_insert_eq in Hq by lia. congruence. }
      subst tau. split; [lia|]. split.
      * intros t i Hi Hu. apply Hin' in Hi. destruct Hi as [Hi|[-> _]]; [|lia].
        specialize (Hold t i q Hi Hu Hab). lia.
      * intros _. exists k. split; [|apply Huk; exact Hab].
        apply Hin'. right. split; [lia|reflexivity].
    + rewrite !list_lookup_insert_ne in Hq by (intros ->; apply Hab; auto).
      destruct (Htime q tau Hq) as (Hl & Hbq & Heq). split; [lia|]. split.
      * intros t i Hi Hu. apply Hin' in Hi. destruct Hi as [Hi|[_ ->]]; [eauto|].
        apply Huk in Hu. contradiction.
      * intros Hpos. destruct (Heq Hpos) as (i & Hi & Hu). exists i.
        split; [apply Hin'; left; exact Hi|exact Hu].
  - intros t t' i j Hi Hj Hlt Hsh. apply Hin' in Hi. apply Hin' in Hj.
    destruct Hi as [Hi|[-> ->]], Hj as [Hj|[-> ->]].
    + eauto.
    + apply shares_uses in Hsh. destruct Hsh as (q & Hu & Huk').
      apply Huk in Huk'. eauto.
    + specialize (Hbound _ _ Hj). lia.
    + lia.
  - intros t j Hj. apply Hin' in Hj. destruct Hj as [Hj|[Ht ->]].
    + destruct (Hasap t j Hj) as (i & Hi & Hlt & Hsh). exists i.
      split; [apply Hin'; left; exact Hi|auto].
    + assert (Hq : exists q tq, (q = a \/ q = b) /\ tq = S t /\
                     (0 < tq -> exists i, in_stage ls (tq - 1) i /\ uses g_q i q)).
      { destruct (Nat.max_spec ta tb) as [[_ Hm]|[_ Hm]].
        - exists b, tb. split; [auto|]. split; [lia|exact Heb].
        - exists a, ta. split; [auto|]. split; [lia|exact Hea]. }
      destruct Hq as (q & tq & Hab & -> & Hex).
      destruct Hex as (i & Hi & Hu); [lia|].
      replace (S t - 1) with t in Hi by lia.
      exists i. split; [apply Hin'; left; exact Hi|].
      split; [eapply Hbound; eauto|].
      apply shares_uses. exists q. split; [exact Hu|apply Huk; exact Hab].
Qed.

Lemma asap_step_IndexError (k : nat) (g : gate) (st : list (list nat) * list nat) :
  length (snd st) = n_q -> n_q <= fst g \/ n_q <= snd g ->
  asap_step st (k, g) = Raise IndexError.
Proof.
  destruct st as [ls lqt]. cbn [snd]. intros Hlen Hbad. unfold asap_step.
  destruct (decide (fst g < n_q)) as [Ha|Ha].
  - destruct (lookup_lt_is_Some_2 lqt (fst g)) as [ta Hta]; [lia|].
    assert (Hga : get lqt (fst g) = Ok ta) by (unfold get; rewrite Hta; reflexivity).
    assert (Hgb : get lqt (snd g) = Raise IndexError)
      by (unfold get; rewrite (lookup_ge_None_2 lqt (snd g)) by lia; reflexivity).
    rewrite Hga. cbn [mbind res_bind]. rewrite Hgb. reflexivity.
  - assert (Hga : get lqt (fst g) = Raise IndexError)
      by (unfold get; rewrite (lookup_ge_None_2 lqt (fst g)) by lia; reflexivity).
    rewrite Hga. reflexivity.
Qed.

(** [enumerate] from a given first index. *)
Definition enum_from {A : Type} (a : nat) (l : list A) : list (nat * A) :=
  zip (seq a (length l)) l.

Lemma enum_from_app {A : Type} (a : nat) (l1 l2 : list A) :
  enum_from a (l1 ++ l2) = enum_from a l1 ++ enum_from (a + length l1) l2.
Proof.
  revert a. induction l1 as [|x l1 IH]; intros a.
  - cbn. rewrite Nat.add_0_r. reflexivity.
  - unfold enum_from in *. cbn. f_equal. rewrite IH. do 2 f_equal. f_equal. lia.
Qed.

Lemma asap_init : asap_inv 0 ([], replicate n_q 0).
Proof.
  unfold asap_inv. cbn [fst snd].
  assert (Hno : forall t i, ~ in_stage [] t i).
  { intros t i (l & Hl & _). rewrite lookup_nil in Hl. discriminate. }
  split; [apply length_replicate|]. split; [reflexivity|].
  split; [cbn; intros t Ht; lia|]. split; [|split].
  - intros q tau Hq. apply lookup_replicate in Hq. destruct Hq as [-> _].
    split; [cbn; lia|]. split; [|lia]. intros t i Hi. destruct (Hno _ _ Hi).
  - intros t t' i j Hi. destruct (Hno _ _ Hi).
  - intros t j Hj. destruct (Hno _ _ Hj).
Qed.

Lemma asap_run (l2 l1 l3 : list gate) (st : list (list nat) * list nat) :
  g_q = l1 ++ l2 ++ l3 ->
  Forall (fun g => fst g < n_q /\ snd g < n_q) l2 ->
  asap_inv (length l1) st ->
  exists st', foldM asap_step (enum_from (length l1) l2) st = Ok st' /\
              asap_inv (length l1 + length l2) st'.
Proof.
  revert l1 st. induction l2 as [|g l2 IH]; intros l1 st Hg Hrange Hinv.
  - exists st. split; [reflexivity|]. rewrite Nat.add_0_r. exact Hinv.
  - apply Forall_cons in Hrange. destruct Hrange as [[Ha Hb] Hrange].
    assert (Hlk : g_q !! length l1 = Some g)
      by (rewrite Hg; apply list_lookup_middle; reflexivity).
    destruct (asap_step_inv (length l1) g st Hlk Ha Hb Hinv) as (st1 & Hstep & Hinv1).
    destruct (IH (l1 ++ [g]) st1) as (st' & Hrun & Hinv').
    + rewrite Hg, <- app_assoc. reflexivity.
    + exact Hrange.
    + rewrite length_app. cbn [length]. rewrite Nat.add_1_r. exact Hinv1.
    + exists st'. rewrite length_app in Hrun, Hinv'. cbn [length] in Hrun, Hinv'.
      split.
      * unfold enum_from. cbn [length seq zip zip_with foldM]. rewrite Hstep.
        cbn [mbind res_bind]. rewrite Nat.add_1_r in Hrun. exact Hrun.
      * cbn [length].
        replace (length l1 + S (length l2)) with (length l1 + 1 + length l2) by lia.
        exact Hinv'.
Qed.

End Asap.

Lemma asap_ok (n_q : nat) (g_q : list gate) :
  (forall g, In g g_q -> fst g < n_q /\ snd g < n_q) ->
  exists st, foldM asap_step (enumerate g_q) ([], replicate n_q 0) = Ok st /\
             asap_inv n_q g_q (length g_q) st.
Proof.
  intros Hrange.
  destruct (asap_run n_q g_q g_q [] [] ([], replicate n_q 0)) as (st & Hrun & Hinv).
  - rewrite app_nil_r. reflexivity.
  - apply Forall_forall. intros g Hg. apply Hrange, list_elem_of_In. exact Hg.
  - apply asap_init.
  - exists st. split; [exact Hrun|exact Hinv].
Qed.

(** X15: when every qubit of a gate is below [n_q], [asap] returns stages
    that list every gate once, and two gates that share a qubit are in
    different stages, ordered like the gates in the program. *)
Theorem asap_respects_dependencies (n_q : nat) (g_q : list gate) :
  (forall g, In g g_q -> fst g < n_q /\ snd g < n_q) ->
  exists stages,
    asap n_q g_q = Ok stages /\
    Permutation (concat stages) (seq 0 (length g_q)) /\
    forall t t' l l' i j e1 e2,
      stages !! t = Some l -> stages !! t' = Some l' -> In i l -> In j l' ->
      i < j -> g_q !! i = Some e1 -> g_q !! j = Some e2 ->
      Scheduler.shares_vertex e1 e2 -> t < t'.
Proof.
  intros Hrange. destruct (asap_ok n_q g_q Hrange) as ([ls lqt] & Hrun & Hinv).
  destruct Hinv as (_ & Hperm & _ & _ & Hord & _). cbn [fst] in Hperm, Hord.
  exists ls. unfold asap. rewrite Hrun. split; [reflexivity|]. split; [exact Hperm|].
  intros t t' l l' i j e1 e2 Hl Hl' Hi Hj Hlt H1 H2 Hsh.
  apply (Hord t t' i j); [exists l; auto|exists l'; auto|exact Hlt|].
  exists e1, e2. auto.
Qed.

Lemma asap_respects_dependencies_witness :
  asap 3 [(0, 1); (1, 2); (0, 1)] = Ok [[0]; [1]; [2]] /\
  exists stages,
    asap 3 [(0, 1); (1, 2); (0, 1)] = Ok stages /\
    Permutation (concat stages) (seq 0 3) /\
    forall t t' l l' i j e1 e2,
      stages !! t = Some l -> stages !! t' = Some l' -> In i l -> In j l' ->
      i < j -> [(0, 1); (1, 2); (0, 1)] !! i = Some e1 ->
      [(0, 1); (1, 2); (0, 1)] !! j = Some e2 ->
      Scheduler.shares_vertex e1 e2 -> t < t'.
Proof.
  split; [reflexivity|].
  apply (asap_respects_dependencies 3 [(0, 1); (1, 2); (0, 1)]).
  intros g Hg. cbn in Hg. decompose [or] Hg; subst; cbn; lia.
Defined.

(** X16: the stages of [asap] are as early as possible: no stage is empty,
    and every gate in a stage after the first shares a qubit with an earlier
    gate placed in the stage just before. *)
Theorem asap_as_soon_as_possible (n_q : nat) (g_q : list gate) :
  (forall g, In g g_q -> fst g < n_q /\ snd g < n_q) ->
  exists stages,
    asap n_q g_q = Ok stages /\
    Forall (fun l => l <> []) stages /\
    forall t l j,
      stages !! S t = Some l -> In j l ->
      exists l' i e1 e2,
        stages !! t = Some l' /\ In i l' /\ i < j /\
        g_q !! i = Some e1 /\ g_q !! j = Some e2 /\ Scheduler.shares_vertex e1 e2.
Proof.
  intros Hrange. destruct (asap_ok n_q g_q Hrange) as ([ls lqt] & Hrun & Hinv).
  destruct Hinv as (_ & _ & Hne & _ & _ & Hasap). cbn [fst] in Hne, Hasap.
  exists ls. unfold asap. rewrite Hrun. split; [reflexivity|]. split.
  - apply Forall_lookup_2. intros t l Hl ->.
    destruct (Hne t) as (i & l' & Hl' & Hi); [eapply lookup_lt_Some; eauto|].
    rewrite Hl in Hl'. inversion Hl'; subst l'. destruct Hi.
  - intros t l j Hl Hj.
    destruct (Hasap t j) as (i & (l' & Hl' & Hi) & Hlt & e1 & e2 & H1 & H2 & Hsh);
      [exists l; auto|].
    exists l', i, e1, e2. auto 10.
Qed.

Lemma asap_as_soon_as_possible_witness :
  exists stages,
    asap 4 [(0, 1); (2, 3); (1, 2)] = Ok stages /\
    Forall (fun l => l <> []) stages /\
    forall t l j,
      stages !! S t = Some l -> In j l ->
      exists l' i e1 e2,
        stages !! t = Some l' /\ In i l' /\ i < j /\
        [(0, 1); (2, 3); (1, 2)] !! i = Some e1 /\
        [(0, 1); (2, 3); (1, 2)] !! j = Some e2 /\ Scheduler.shares_vertex e1 e2.
Proof.
  apply (asap_as_soon_as_possible 4 [(0, 1); (2, 3); (1, 2)]).
  intros g Hg. cbn in Hg. decompose [or] Hg; subst; cbn; lia.
Defined.

Lemma first_failing {A : Type} (P : A -> Prop) `{forall x, Decision (P x)} (l : list A) :
  (exists x, In x l /\ ~ P x) ->
  exists l1 x l3, l = l1 ++ x :: l3 /\ Forall P l1 /\ ~ P x.
Proof.
  induction l as [|y l IH]; intros (x & Hx & Hbad); [destruct Hx|].
  destruct (decide (P y)) as [Hy|Hy].
  - destruct IH as (l1 & x' & l3 & -> & Hl1 & Hx').
    + destruct Hx as [->|Hx]; [contradiction|]. exists x. auto.
    + exists (y :: l1), x', l3. split; [reflexivity|]. split; [constructor; assumption|exact Hx'].
  - exists [], y, l. split; [reflexivity|]. split; [constructor|exact Hy].
Qed.

(** X17: [asap] raises [IndexError] exactly when a gate names a qubit that is
    not below [n_q], and returns stages exactly when none does. *)
Theorem asap_IndexError (n_q : nat) (g_q : list gate) :
  (asap n_q g_q = Raise IndexError <->
   exists g, In g g_q /\ (n_q <= fst g \/ n_q <= snd g)) /\
  ((exists stages, asap n_q g_q = Ok stages) <->
   forall g, In g g_q -> fst g < n_q /\ snd g < n_q).
Proof.
  assert (Hbad : (exists g, In g g_q /\ (n_q <= fst g \/ n_q <= snd g)) ->
                 asap n_q g_q = Raise IndexError).
  { intros (g & Hg & Hout).
    destruct (first_failing (fun g : gate => fst g < n_q /\ snd g < n_q) g_q)
      as (l1 & x & l3 & Hsplit & Hl1 & Hx); [exists g; split; [exact Hg|lia]|].
    destruct (asap_run n_q g_q l1 [] (x :: l3) ([], replicate n_q 0))
      as (st & Hrun & Hinv); [exact Hsplit|exact Hl1|apply asap_init|].
    unfold asap, enumerate. fold (enum_from 0 g_q). rewrite Hsplit at 1.
    rewrite enum_from_app, foldM_app. cbn [length Nat.add] in Hrun. rewrite Hrun.
    cbn [mbind res_bind]. unfold enum_from at 1. cbn [length seq zip zip_with foldM].
    rewrite (asap_step_IndexError n_q); [reflexivity|exact (proj1 Hinv)|lia]. }
  assert (Hgood : (forall g, In g g_q -> fst g < n_q /\ snd g < n_q) ->
                  exists stages, asap n_q g_q = Ok stages).
  { intros Hrange. destruct (asap_ok n_q g_q Hrange) as (st & Hrun & _).
    exists (fst st). unfold asap. rewrite Hrun. reflexivity. }
  assert (Hdec : (forall g, In g g_q -> fst g < n_q /\ snd g < n_q) \/
                 (exists g, In g g_q /\ (n_q <= fst g \/ n_q <= snd g))).
  { destruct (decide (Forall (fun g : gate => fst g < n_q /\ snd g < n_q) g_q)) as [Hall|Hnot].
    - left. intros g Hg. apply (proj1 (Forall_forall _ _) Hall), list_elem_of_In. exact Hg.
    - right. apply not_Forall_Exists in Hnot; [|intros g; apply _].
      apply Exists_exists in Hnot. destruct Hnot as (g & Hg & Hout).
      exists g. split; [apply list_elem_of_In; exact Hg|unfold compose in Hout; lia]. }
  split; split.
  - intros Hraise. destruct Hdec as [Hrange|Hout]; [|exact Hout].
    destruct (Hgood Hrange) as [stages Hs]. congruence.
  - exact Hbad.
  - intros [stages Hs]. destruct Hdec as [Hrange|Hout]; [exact Hrange|].
    rewrite (Hbad Hout) in Hs. discriminate.
  - exact Hgood.
Qed.

Lemma setProgram_bounds (program : list gate) (n : nat) :
  n <= foldl (fun n gate => Nat.max (snd gate) (Nat.max (fst gate) n)) n program /\
  forall g, In g program ->
    fst g <= foldl (fun n gate => Nat.max (snd gate) (Nat.max (fst gate) n)) n program /\
    snd g <= foldl (fun n gate => Nat.max (snd gate) (Nat.max (fst gate) n)) n program.
Proof.
  revert n. induction program as [|g0 program IH]; intros n; cbn [foldl].
  - split; [lia|intros g []].
  - destruct (IH (Nat.max (snd g0) (Nat.max (fst g0) n))) as [Hn Hall]. split; [lia|].
    intros g [<-|Hg]; [lia|]. apply Hall. exact Hg.
Qed.

(** X18: without [nqubit] (or with [nqubit = 0]) [setProgram] stores every
    pair with the smaller index first and sets [n_q] above every index in
    use and above the [n_q] it started from; [asap] on the stored program
    then returns stages. *)
Theorem setProgram_counts_qubits (n_q : nat) (program : list gate) (nqubit : option nat) :
  nqubit = None \/ nqubit = Some 0 ->
  n_q < snd (setProgram n_q program nqubit) /\
  length (fst (setProgram n_q program nqubit)) = length program /\
  (forall g, In g (fst (setProgram n_q program nqubit)) ->
             fst g <= snd g < snd (setProgram n_q program nqubit)) /\
  exists stages,
    asap (snd (setProgram n_q program nqubit)) (fst (setProgram n_q program nqubit))
    = Ok stages.
Proof.
  intros Hn.
  destruct (setProgram_bounds program n_q) as [Hge Hall].
  assert (Hnq : snd (setProgram n_q program nqubit)
                = foldl (fun n gate => Nat.max (snd gate) (Nat.max (fst gate) n)) n_q program
                  + 1)
    by (destruct Hn as [->| ->]; reflexivity).
  assert (Hpairs : forall g, In g (fst (setProgram n_q program nqubit)) ->
             fst g <= snd g < snd (setProgram n_q program nqubit)).
  { intros g Hg. rewrite Hnq. cbn [setProgram fst] in Hg. apply in_map_iff in Hg.
    destruct Hg as (p & <- & Hp). cbn [fst snd]. destruct (Hall p Hp). lia. }
  split; [lia|]. split; [cbn [setProgram fst]; apply length_map|]. split; [exact Hpairs|].
  destruct (asap_ok (snd (setProgram n_q program nqubit))
              (fst (setProgram n_q program nqubit))) as (st & Hrun & _).
  - intros g Hg. specialize (Hpairs g Hg). lia.
  - exists (fst st). unfold asap. rewrite Hrun. reflexivity.
Qed.

Lemma setProgram_counts_qubits_witness :
  0 < snd (setProgram 0 [(1, 0); (2, 1)] None) /\
  length (fst (setProgram 0 [(1, 0); (2, 1)] None)) = 2 /\
  (forall g, In g (fst (setProgram 0 [(1, 0); (2, 1)] None)) ->
             fst g <= snd g < snd (setProgram 0 [(1, 0); (2, 1)] None)) /\
  exists stages,
    asap (snd (setProgram 0 [(1, 0); (2, 1)] None))
         (fst (setProgram 0 [(1, 0); (2, 1)] None)) = Ok stages.
Proof.
  apply (setProgram_counts_qubits 0 [(1, 0); (2, 1)] None). left. reflexivity.
Defined.

(** ** The trivial layout *)

(** Qubit [i] of the row-by-row layout. *)
Definition row_major (n_x i : nat) : site := (Z.of_nat (i mod n_x), Z.of_nat (i / n_x)).

Lemma succ_div_mod (n k : nat) :
  0 < n ->
  if (k mod n + 1) mod n =? 0
  then S k mod n = 0 /\ S k / n = k / n + 1
  else S k mod n = k mod n + 1 /\ S k / n = k / n.
Proof.
  intros Hn. pose proof (Nat.div_mod_eq k n) as Hk.
  pose proof (Nat.mod_upper_bound k n ltac:(lia)) as Hlt.
  destruct (decide (k mod n + 1 = n)) as [Hfull|Hpart].
  - rewrite Hfull, Nat.Div0.mod_same. cbn [Nat.eqb].
    assert (HS : S k = n * (k / n + 1) + 0) by lia. split.
    + symmetry. apply (Nat.mod_unique (S k) n (k / n + 1) 0); [lia|exact HS].
    + symmetry. apply (Nat.div_unique (S k) n (k / n + 1) 0); [lia|exact HS].
  - rewrite (Nat.mod_small (k mod n + 1) n) by lia.
    destruct (Nat.eqb_spec (k mod n + 1) 0); [lia|].
    assert (HS : S k = n * (k / n) + (k mod n + 1)) by lia. split.
    + symmetry. apply (Nat.mod_unique (S k) n (k / n) (k mod n + 1)); [lia|exact HS].
    + symmetry. apply (Nat.div_unique (S k) n (k / n) (k mod n + 1)); [lia|exact HS].
Qed.

Lemma trivial_layout_run (n_x k : nat) :
  0 < n_x ->
  foldM (trivial_layout_step n_x) (seq 0 k) ([], 0, 0)
  = Ok (map (row_major n_x) (seq 0 k), k mod n_x, k / n_x).
Proof.
  intros Hn. induction k as [|k IH].
  - cbn [seq foldM map]. rewrite Nat.Div0.mod_0_l, Nat.Div0.div_0_l. reflexivity.
  - rewrite seq_S, foldM_app, IH. cbn [mbind res_bind foldM Nat.add].
    unfold trivial_layout_step. destruct (Nat.eqb_spec n_x 0) as [|_]; [lia|].
    pose proof (succ_div_mod n_x k Hn) as HS. rewrite map_app. cbn [map].
    destruct ((k mod n_x + 1) mod n_x =? 0); destruct HS as [-> ->]; reflexivity.
Qed.

Lemma row_major_inj (n_x i j : nat) :
  0 < n_x -> row_major n_x i = row_major n_x j -> i = j.
Proof.
  unfold row_major. intros Hn H. injection H as Hm Hd.
  apply Nat2Z.inj in Hm. apply Nat2Z.inj in Hd.
  rewrite (Nat.div_mod_eq i n_x), (Nat.div_mod_eq j n_x). congruence.
Qed.

(** X19: with [n_x > 0] the trivial layout puts qubit [i] on the site
    [(i % n_x, i // n_x)]: no two qubits share a site, and all of them are on
    the chip when [n_q <= n_x * n_y].  With [n_x = 0] it raises
    [ZeroDivisionError] as soon as there is a qubit. *)
Theorem trivial_layout_row_major (n_x n_y n_q : nat) :
  (0 < n_x ->
   trivial_layout n_x n_q = Ok (map (row_major n_x) (seq 0 n_q)) /\
   NoDup (map (row_major n_x) (seq 0 n_q)) /\
   (n_q <= n_x * n_y ->
    Forall (fun s : site => (0 <= fst s < Z.of_nat n_x)%Z /\ (0 <= snd s < Z.of_nat n_y)%Z)
           (map (row_major n_x) (seq 0 n_q)))) /\
  (n_x = 0 -> 0 < n_q -> trivial_layout n_x n_q = Raise ZeroDivisionError).
Proof.
  split.
  - intros Hn. split; [|split].
    + unfold trivial_layout. rewrite trivial_layout_run by exact Hn. reflexivity.
    + apply (NoDup_fmap_2_strong (row_major n_x)); [|apply NoDup_seq].
      intros i j _ _. apply row_major_inj. exact Hn.
    + intros Hfit. apply Forall_forall. intros s Hs.
      apply list_elem_of_In, in_map_iff in Hs. destruct Hs as (i & <- & Hi).
      apply in_seq in Hi. unfold row_major. cbn [fst snd].
      pose proof (Nat.mod_upper_bound i n_x ltac:(lia)).
      assert (i / n_x < n_y) by (apply Nat.Div0.div_lt_upper_bound; lia). lia.
  - intros -> Hq. destruct n_q as [|n_q]; [lia|]. reflexivity.
Qed.

(** ** The verifiers *)

(** One iteration of the loop of [verify_qubit_mapping]; the state is
    [success] and [physical_qubit_idx].  Whether the site is already taken
    only decides what is printed. *)
Definition verify_site (n_x n_y : nat) (st : bool * list (list Z)) (il : nat * site)
  : res (bool * list (list Z)) :=
  let '(success, physical_qubit_idx) := st in
  let '(i, location) := il in
  let success :=
    if (fst location >=? Z.of_nat n_x)%Z || (fst location <? 0)%Z then false else success in
  let success :=
    if (snd location >=? Z.of_nat n_y)%Z || (snd location <? 0)%Z then false else success in
  row ← py_get physical_qubit_idx (fst location);
  _ ← py_get row (snd location);
  match py_norm (length physical_qubit_idx) (fst location),
        py_norm (length row) (snd location) with
  | Some kx, Some ky => Ok (success, <[kx := <[ky := Z.of_nat i]> row]> physical_qubit_idx)
  | _, _ => Raise IndexError
  end.

(** [verify_qubit_mapping]: the value of [success] when the function ends. *)
Definition verify_qubit_mapping (n_x n_y n_q : nat) (result_mapping : mapping) : res bool :=
  st ← foldM (verify_site n_x n_y) (enumerate result_mapping)
         (true, replicate n_x (replicate n_y (-1)%Z));
  Ok (if negb (length result_mapping =? n_q) then false else fst st).

(** A site of the chip, and a site that Python's indexing accepts (a
    negative index counts from the end). *)
Definition on_chip (n_x n_y : nat) (s : site) : bool :=
  (0 <=? fst s)%Z && (fst s <? Z.of_nat n_x)%Z &&
  (0 <=? snd s)%Z && (snd s <? Z.of_nat n_y)%Z.

Definition indexable (n_x n_y : nat) (s : site) : bool :=
  (- Z.of_nat n_x <=? fst s)%Z && (fst s <? Z.of_nat n_x)%Z &&
  (- Z.of_nat n_y <=? snd s)%Z && (snd s <? Z.of_nat n_y)%Z.

Lemma py_norm_cases (len : nat) (i : Z) :
  if (- Z.of_nat len <=? i)%Z && (i <? Z.of_nat len)%Z
  then exists k, py_norm len i = Some k /\ k < len
  else py_norm len i = None.
Proof.
  unfold py_norm.
  destruct (Z.leb_spec (- Z.of_nat len) i), (Z.ltb_spec i (Z.of_nat len)),
    (Z.leb_spec 0 i); cbn; try lia; try reflexivity; eexists; split; try reflexivity; lia.
Qed.

Lemma verify_site_spec (n_x n_y : nat) (success : bool) (grid : list (list Z))
    (i : nat) (s : site) :
  length grid = n_x -> Forall (fun row => length row = n_y) grid ->
  if indexable n_x n_y s
  then exists grid',
         verify_site n_x n_y (success, grid) (i, s) = Ok (success && on_chip n_x n_y s, grid') /\
         length grid' = n_x /\ Forall (fun row => length row = n_y) grid'
  else verify_site n_x n_y (success, grid) (i, s) = Raise IndexError.
Proof.
  intros Hlen Hrows. unfold indexable, verify_site, py_get.
  pose proof (py_norm_cases n_x (fst s)) as Hx. rewrite Hlen.
  destruct ((- Z.of_nat n_x <=? fst s)%Z && (fst s <? Z.of_nat n_x)%Z) eqn:Ex.
  2: { rewrite Hx. reflexivity. }
  destruct Hx as (kx & -> & Hkx). cbn [andb].
  destruct (lookup_lt_is_Some_2 grid kx) as [row Hrow]; [lia|].
  assert (Hget : get grid kx = Ok row) by (unfold get; rewrite Hrow; reflexivity).
  rewrite !Hget. cbn [mbind res_bind].
  assert (Hrl : length row = n_y) by exact (Forall_lookup_1 _ _ _ _ Hrows Hrow).
  rewrite !Hrl. pose proof (py_norm_cases n_y (snd s)) as Hy.
  destruct ((- Z.of_nat n_y <=? snd s)%Z && (snd s <? Z.of_nat n_y)%Z) eqn:Ey.
  2: { rewrite Hy. reflexivity. }
  destruct Hy as (ky & -> & Hky).
  destruct (lookup_lt_is_Some_2 row ky) as [cell Hcell]; [lia|].
  assert (Hget' : get row ky = Ok cell) by (unfold get; rewrite Hcell; reflexivity).
  rewrite Hget'. cbn [mbind res_bind].
  eexists. split; [|split].
  - f_equal. f_equal. unfold on_chip.
    apply andb_true_iff in Ex, Ey. destruct Ex as [_ Ex], Ey as [_ Ey].
    rewrite Ex, Ey.
    destruct (Z.geb_spec (fst s) (Z.of_nat n_x)), (Z.ltb_spec (fst s) 0),
      (Z.leb_spec 0 (fst s)), (Z.geb_spec (snd s) (Z.of_nat n_y)), (Z.ltb_spec (snd s) 0),
      (Z.leb_spec 0 (snd s)); cbn; try lia;
      apply Z.ltb_lt in Ex; apply Z.ltb_lt in Ey; try lia;
      destruct success; reflexivity.
  - rewrite length_insert. exact Hlen.
  - apply Forall_insert; [exact Hrows|]. rewrite length_insert. exact Hrl.
Qed.

Lemma verify_sites_run (n_x n_y : nat) (l : mapping) (a : nat) (success : bool)
    (grid : list (list Z)) :
  length grid = n_x -> Forall (fun row => length row = n_y) grid ->
  if forallb (indexable n_x n_y) l
  then exists grid',
         foldM (verify_site n_x n_y) (enum_from a l) (success, grid)
         = Ok (success && forallb (on_chip n_x n_y) l, grid')
  else foldM (verify_site n_x n_y) (enum_from a l) (success, grid) = Raise IndexError.
Proof.
  revert a success grid. induction l as [|s l IH]; intros a success grid Hlen Hrows.
  - cbn. exists grid. rewrite andb_true_r. reflexivity.
  - unfold enum_from. cbn [length seq zip zip_with foldM forallb].
    pose proof (verify_site_spec n_x n_y success grid a s Hlen Hrows) as Hstep.
    destruct (indexable n_x n_y s).
    + destruct Hstep as (grid1 & -> & Hlen1 & Hrows1). cbn [andb mbind res_bind].
      specialize (IH (S a) (success && on_chip n_x n_y s) grid1 Hlen1 Hrows1).
      fold (enum_from (S a) l). destruct (forallb (indexable n_x n_y) l).
      * destruct IH as (grid' & ->). exists grid'. rewrite andb_assoc. reflexivity.
      * exact IH.
    + rewrite Hstep. reflexivity.
Qed.

(** X20: [verify_qubit_mapping] ends with [success] set exactly when every
    qubit is on the chip and the mapping has [n_q] entries; two qubits on one
    site do not clear it.  A site whose x is not in [-n_x, n_x) or whose y is
    not in [-n_y, n_y) makes it raise [IndexError]. *)
Theorem verify_qubit_mapping_outcome (n_x n_y n_q : nat) (result_mapping : mapping) :
  verify_qubit_mapping n_x n_y n_q result_mapping
  = if forallb (indexable n_x n_y) result_mapping
    then Ok ((length result_mapping =? n_q) && forallb (on_chip n_x n_y) result_mapping)
    else Raise IndexError.
Proof.
  unfold verify_qubit_mapping, enumerate. fold (enum_from 0 result_mapping).
  pose proof (verify_sites_run n_x n_y result_mapping 0 true
                (replicate n_x (replicate n_y (-1)%Z))) as Hrun.
  destruct (forallb (indexable n_x n_y) result_mapping).
  - destruct Hrun as (grid' & ->).
    + apply length_replicate.
    + apply Forall_replicate. apply length_replicate.
    + cbn [mbind res_bind fst andb].
      destruct (length result_mapping =? n_q); reflexivity.
  - rewrite Hrun; [reflexivity|apply length_replicate|].
    apply Forall_replicate. apply length_replicate.
Qed.

(** The body of the inner loop of [verify_scheduling], for a gate of stage
    [i]; the state is [success] and [time_gate_scheduled].  [qubit_gate] is
    created for each stage and only read. *)
Definition verify_gate (n_q : nat) (g_q : list gate) (i : nat) (st : bool * list Z)
    (gate : nat) : res (bool * list Z) :=
  let '(success, time_gate_scheduled) := st in
  let qubit_gate := replicate n_q (-1)%Z in
  t ← get time_gate_scheduled gate;
  let success := if (t >? -1)%Z then false else success in
  let time_gate_scheduled := <[gate := Z.of_nat i]> time_gate_scheduled in
  pair ← get g_q gate;
  u0 ← get qubit_gate (fst pair);
  let success := if (u0 >? -1)%Z then false else success in
  u1 ← get qubit_gate (snd pair);
  let success := if (u1 >? -1)%Z then false else success in
  Ok (success, time_gate_scheduled).

(** [verify_scheduling]: the value of [success] when the function ends. *)
Definition verify_scheduling (n_q : nat) (g_q : list gate)
    (result_scheduling : list (list nat)) : res bool :=
  st ← foldM (fun st istage => foldM (verify_gate n_q g_q (fst istage)) (snd istage) st)
         (enumerate result_scheduling)
         (true, replicate (length g_q) (-1)%Z);
  Ok (foldl (fun success t => if (t =? -1)%Z then false else success) (fst st) (snd st)).

Section VerifyScheduling.

Variable n_q : nat.
Variable g_q : list gate.

(** A gate index that the verifier can look up. *)
Definition known_gate (gate : nat) : Prop :=
  exists pair, g_q !! gate = Some pair /\ fst pair < n_q /\ snd pair < n_q.

(** The invariant of the loops of [verify_scheduling] once the gates [done]
    have been visited: a gate has a stage recorded exactly when it was
    visited, and [success] holds exactly when no gate was visited twice. *)
Definition sched_inv (done : list nat) (st : bool * list Z) : Prop :=
  length (snd st) = length g_q /\
  (forall g, g < length g_q ->
     (g ∈ done -> exists i, snd st !! g = Some (Z.of_nat i)) /\
     (g ∉ done -> snd st !! g = Some (-1)%Z)) /\
  (fst st = true <-> NoDup done).

Lemma verify_gate_inv (i gate : nat) (done : list nat) (st : bool * list Z) :
  known_gate gate -> sched_inv done st ->
  exists st', verify_gate n_q g_q i st gate = Ok st' /\ sched_inv (done ++ [gate]) st'.
Proof.
  destruct st as [success tgs]. intros (pair & Hpair & H0 & H1) (Hlen & Htgs & Hsucc).
  cbn [fst snd] in *.
  assert (Hg : gate < length g_q) by (eapply lookup_lt_Some; eauto).
  assert (Hq0 : get (replicate n_q (-1)%Z) (fst pair) = Ok (-1)%Z)
    by (unfold get; rewrite (proj2 (lookup_replicate _ _ _ _) (conj eq_refl H0));
        reflexivity).
  assert (Hq1 : get (replicate n_q (-1)%Z) (snd pair) = Ok (-1)%Z)
    by (unfold get; rewrite (proj2 (lookup_replicate _ _ _ _) (conj eq_refl H1));
        reflexivity).
  assert (Hgp : get g_q gate = Ok pair) by (unfold get; rewrite Hpair; reflexivity).
  destruct (Htgs gate Hg) as [Hin Hout].
  assert (Hnew : forall t success',
             tgs !! gate = Some t ->
             (success' = true <-> NoDup (done ++ [gate])) ->
             (if (t >? -1)%Z then false else success) = success' ->
             exists st', verify_gate n_q g_q i (success, tgs) gate = Ok st' /\
                         sched_inv (done ++ [gate]) st').
  { intros t success' Ht Hs' Hif.
    assert (Hgt : get tgs gate = Ok t) by (unfold get; rewrite Ht; reflexivity).
    eexists. split.
    { unfold verify_gate. rewrite Hgt. cbn [mbind res_bind]. rewrite Hgp.
      cbn [mbind res_bind]. rewrite Hq0. cbn [mbind res_bind]. rewrite Hq1.
      cbn [mbind res_bind]. rewrite Hif. reflexivity. }
    split; [|split]; cbn [fst snd].
    - rewrite length_insert. exact Hlen.
    - intros g Hglt. destruct (decide (g = gate)) as [->|Hne].
      + split.
        * intros _. exists i. apply list_lookup_insert_eq. lia.
        * intros Hnot. exfalso. apply Hnot. apply elem_of_app. right.
          apply elem_of_cons. left. reflexivity.
      + rewrite list_lookup_insert_ne by congruence.
        destruct (Htgs g Hglt) as [Hin' Hout']. split.
        * intros Hd. apply Hin'. apply elem_of_app in Hd.
          destruct Hd as [Hd|Hd]; [exact Hd|].
          apply elem_of_cons in Hd. destruct Hd as [Hd|Hd]; [contradiction|].
          apply elem_of_nil in Hd. destruct Hd.
        * intros Hd. apply Hout'. intros Hd'. apply Hd. apply elem_of_app. left. exact Hd'.
    - exact Hs'. }
  destruct (decide (gate ∈ done)) as [Hd|Hd].
  - destruct (Hin Hd) as [i' Hi']. apply (Hnew (Z.of_nat i') false Hi').
    + split; [discriminate|]. intros Hnd. apply NoDup_app in Hnd.
      destruct Hnd as (_ & Hdisj & _). exfalso. apply (Hdisj gate Hd).
      apply elem_of_cons. left. reflexivity.
    + destruct (Z.gtb_spec (Z.of_nat i') (-1)); [reflexivity|lia].
  - apply (Hnew (-1)%Z success (Hout Hd)); [|reflexivity].
    rewrite Hsucc, NoDup_app. split.
    + intros Hnd. split; [exact Hnd|]. split.
      * intros x Hx Hx'. apply elem_of_cons in Hx'.
        destruct Hx' as [->|Hx']; [contradiction|]. apply elem_of_nil in Hx'. exact Hx'.
      * apply NoDup_singleton.
    + intros (Hnd & _ & _). exact Hnd.
Qed.

Lemma verify_stage_inv (i : nat) (stage done : list nat) (st : bool * list Z) :
  Forall known_gate stage -> sched_inv done st ->
  exists st', foldM (verify_gate n_q g_q i) stage st = Ok st' /\
              sched_inv (done ++ stage) st'.
Proof.
  revert done st. induction stage as [|gate stage IH]; intros done st Hk Hinv.
  - exists st. rewrite app_nil_r. auto.
  - apply Forall_cons in Hk. destruct Hk as [Hgate Hk].
    destruct (verify_gate_inv i gate done st Hgate Hinv) as (st1 & Hstep & Hinv1).
    destruct (IH (done ++ [gate]) st1 Hk Hinv1) as (st' & Hrun & Hinv').
    exists st'. cbn [foldM]. rewrite Hstep. cbn [mbind res_bind].
    rewrite <- app_assoc in Hinv'. auto.
Qed.

Lemma verify_stages_inv (stages : list (list nat)) (a : nat) (done : list nat)
    (st : bool * list Z) :
  Forall (Forall known_gate) stages -> sched_inv done st ->
  exists st',
    foldM (fun st istage => foldM (verify_gate n_q g_q (fst istage)) (snd istage) st)
          (enum_from a stages) st = Ok st' /\
    sched_inv (done ++ concat stages) st'.
Proof.
  revert a done st. induction stages as [|stage stages IH]; intros a done st Hk Hinv.
  - exists st. cbn [concat]. rewrite app_nil_r. auto.
  - apply Forall_cons in Hk. destruct Hk as [Hstage Hk].
    destruct (verify_stage_inv a stage done st Hstage Hinv) as (st1 & Hstep & Hinv1).
    destruct (IH (S a) (done ++ stage) st1 Hk Hinv1) as (st' & Hrun & Hinv').
    exists st'. unfold enum_from. cbn [length seq zip zip_with foldM fst snd concat].
    rewrite Hstep. cbn [mbind res_bind]. rewrite app_assoc. auto.
Qed.

Lemma all_scheduled (success : bool) (tgs : list Z) :
  foldl (fun success t => if (t =? -1)%Z then false else success) success tgs = true <->
  success = true /\ forall g, tgs !! g <> Some (-1)%Z.
Proof.
  revert success. induction tgs as [|t tgs IH]; intros success; cbn [foldl].
  - split; [intros ->; split; [reflexivity|intros g; rewrite lookup_nil; discriminate]|tauto].
  - rewrite IH. destruct (Z.eqb_spec t (-1)) as [->|Hne].
    + split; [intros [H _]; discriminate|]. intros [_ H]. destruct (H 0). reflexivity.
    + split; intros [Hs H]; (split; [exact Hs|]).
      * intros [|g]; [cbn; congruence|apply H].
      * intros g. apply (H (S g)).
Qed.

(** X21: on stages that only name gates of the program whose qubits are
    below [n_q], [verify_scheduling] ends with [success] set exactly when the
    stages list every gate once.  Whether two gates of a stage share a qubit
    has no influence: [qubit_gate] is never written. *)
Theorem verify_scheduling_counts_gates_only (result_scheduling : list (list nat)) :
  Forall (Forall known_gate) result_scheduling ->
  exists success,
    verify_scheduling n_q g_q result_scheduling = Ok success /\
    (success = true <->
     Permutation (concat result_scheduling) (seq 0 (length g_q))).
Proof.
  intros Hk.
  destruct (verify_stages_inv result_scheduling 0 [] (true, replicate (length g_q) (-1)%Z) Hk)
    as ([success tgs] & Hrun & Hlen & Htgs & Hsucc).
  { split; [apply length_replicate|]. cbn [fst snd]. split.
    - intros g Hg. split; [intros Hin; apply elem_of_nil in Hin; destruct Hin|].
      intros _. apply lookup_replicate. auto.
    - split; [intros _; apply NoDup_nil_2|reflexivity]. }
  cbn [app fst snd] in *.
  eexists. split.
  { unfold verify_scheduling, enumerate. fold (enum_from 0 result_scheduling).
    rewrite Hrun. reflexivity. }
  cbn [fst snd]. rewrite all_scheduled, Hsucc.
  assert (Hrange : forall g, g ∈ concat result_scheduling -> g < length g_q).
  { intros g Hg. apply list_elem_of_In, in_concat in Hg. destruct Hg as (stage & Hs & Hg).
    apply list_elem_of_In in Hs.
    pose proof (proj1 (Forall_forall _ _) Hk stage Hs) as Hstage.
    apply list_elem_of_In in Hg.
    destruct (proj1 (Forall_forall _ _) Hstage g Hg) as (pair & Hp & _).
    eapply lookup_lt_Some; eauto. }
  split.
  - intros [Hnd Hall]. apply NoDup_Permutation; [exact Hnd|apply NoDup_seq|].
    intros g. rewrite elem_of_seq. split; [intros Hg; specialize (Hrange g Hg); lia|].
    intros [_ Hg]. cbn in Hg.
    destruct (decide (g ∈ concat result_scheduling)) as [Hin|Hout]; [exact Hin|].
    destruct (Hall g). apply (Htgs g Hg). exact Hout.
  - intros Hperm. split.
    + rewrite Hperm. apply NoDup_seq.
    + intros g Hg.
      assert (Hlt : g < length g_q) by (rewrite <- Hlen; eapply lookup_lt_Some; eauto).
      destruct (proj1 (Htgs g Hlt)) as [i Hi].
      * rewrite Hperm. apply elem_of_seq. lia.
      * rewrite Hi in Hg. inversion Hg. lia.
Qed.

End VerifyScheduling.

Lemma verify_scheduling_counts_gates_only_witness :
  verify_scheduling 3 [(0, 1); (1, 2)] [[0; 1]] = Ok true /\
  exists success,
    verify_scheduling 3 [(0, 1); (1, 2)] [[0; 1]] = Ok success /\
    (success = true <-> Permutation (concat [[0; 1]]) (seq 0 2)).
Proof.
  split; [reflexivity|].
  apply (verify_scheduling_counts_gates_only 3 [(0, 1); (1, 2)] [[0; 1]]).
  repeat constructor; eexists; (split; [reflexivity|cbn; lia]).
Defined.

End Enola.
